(** * MERCURANA: the adaptive shell machinery of [integrator_mercurana.c]

    A shallow embedding of the integrator's shell membership engine, its
    encounter predictor, switching function, drift operator and its
    [part1]/[part2] entry points, together with the properties that the
    specification states about them.

    C [double] is modelled by Rocq's primitive binary64 floats, so that
    divisions by zero, infinities and NaN behave as they do in the program.
    Arrays are lists read and written by index. *)

From Stdlib Require Import ZArith Bool Lia String.
From Stdlib Require Import Floats.
From stdpp Require Import base list.

Local Open Scope float_scope.

(** ** C double arithmetic *)

(** The comparison [a > b] of C is [b <? a]; [a >= b] is [b <=? a]. *)

(** [#define MIN(a, b) ((a) > (b) ? (b) : (a))] *)
Definition MIN (a b : float) : float := if b <? a then b else a.

(** [#define MAX(a, b) ((a) > (b) ? (a) : (b))] *)
Definition MAX (a b : float) : float := if b <? a then a else b.

(** [fabs] and [copysign] of <math.h>. *)
Definition fabs (a : float) : float := abs a.

Definition copysign (mag sgn : float) : float :=
  if get_sign sgn then - (abs mag) else abs mag.

(** ** Particles *)

Record reb_particle := mk_particle {
  p_x : float; p_y : float; p_z : float;
  p_vx : float; p_vy : float; p_vz : float;
  p_ax : float; p_ay : float; p_az : float;
  p_m : float;
  p_r : float
}.

Definition particle0 : reb_particle :=
  mk_particle 0 0 0 0 0 0 0 0 0 0 0.

#[global] Instance reb_particle_inhabited : Inhabited reb_particle :=
  populate particle0.

#[global] Instance float_inhabited : Inhabited float := populate 0.

Definition set_pos (p : reb_particle) (x y z : float) : reb_particle :=
  mk_particle x y z (p_vx p) (p_vy p) (p_vz p) (p_ax p) (p_ay p) (p_az p)
              (p_m p) (p_r p).

Definition set_vel (p : reb_particle) (vx vy vz : float) : reb_particle :=
  mk_particle (p_x p) (p_y p) (p_z p) vx vy vz (p_ax p) (p_ay p) (p_az p)
              (p_m p) (p_r p).

(** ** The encounter predictor *)

(** Squared separation of two particles, [r1] of [reb_mercurana_predict_rmin2]. *)
Definition sep2 (p1 p2 : reb_particle) : float :=
  let dx1 := p_x p1 - p_x p2 in
  let dy1 := p_y p1 - p_y p2 in
  let dz1 := p_z p1 - p_z p2 in
  dx1*dx1 + dy1*dy1 + dz1*dz1.

(** The intermediate quantities of [reb_mercurana_predict_rmin2], in the order
    the function computes them: [r1], [r2], [t_closest], [r3] and the drift
    length [fabs(dt)]. *)
Record rmin2_trace := mk_trace {
  tr_dt : float;
  tr_r1 : float;
  tr_r2 : float;
  tr_t_closest : float;
  tr_r3 : float
}.

Definition predict_rmin2_trace (p1 p2 : reb_particle) (dt : float) : rmin2_trace :=
  let dts := copysign 1 dt in
  let dt := fabs dt in
  let dx1 := p_x p1 - p_x p2 in
  let dy1 := p_y p1 - p_y p2 in
  let dz1 := p_z p1 - p_z p2 in
  let r1 := dx1*dx1 + dy1*dy1 + dz1*dz1 in
  let dvx1 := dts * (p_vx p1 - p_vx p2) in
  let dvy1 := dts * (p_vy p1 - p_vy p2) in
  let dvz1 := dts * (p_vz p1 - p_vz p2) in
  let dx2 := dx1 + dt*dvx1 in
  let dy2 := dy1 + dt*dvy1 in
  let dz2 := dz1 + dt*dvz1 in
  let r2 := dx2*dx2 + dy2*dy2 + dz2*dz2 in
  let t_closest :=
    (dx1*dvx1 + dy1*dvy1 + dz1*dvz1) / (dvx1*dvx1 + dvy1*dvy1 + dvz1*dvz1) in
  let dx3 := dx1 + t_closest*dvx1 in
  let dy3 := dy1 + t_closest*dvy1 in
  let dz3 := dz1 + t_closest*dvz1 in
  let r3 := dx3*dx3 + dy3*dy3 + dz3*dz3 in
  mk_trace dt r1 r2 t_closest r3.

(** The test [t_closest/dt>=0. && t_closest/dt<=1.]. *)
Definition closest_in_step (tr : rmin2_trace) : bool :=
  (0 <=? tr_t_closest tr / tr_dt tr) && (tr_t_closest tr / tr_dt tr <=? 1).

Definition reb_mercurana_predict_rmin2 (p1 p2 : reb_particle) (dt : float) : float :=
  let tr := predict_rmin2_trace p1 p2 dt in
  let rmin2 := MIN (tr_r1 tr) (tr_r2 tr) in
  if closest_in_step tr then MIN rmin2 (tr_r3 tr) else rmin2.

Definition reb_mercurana_predict_rmin2_drifted
    (p1 p2 : reb_particle) (dt p2drift : float) : float :=
  let p2drifted :=
    set_pos p2 (p_x p2 + p2drift * p_vx p2)
               (p_y p2 + p2drift * p_vy p2)
               (p_z p2 + p2drift * p_vz p2) in
  reb_mercurana_predict_rmin2 p1 p2drifted dt.

(** ** The switching function *)

Section Switching.
(** [exp] of <math.h>. *)
Variable exp : float -> float.

(** Helper functions for L_infinity *)
Definition f (x : float) : float :=
  if x <? 0 then 0 else exp (-1 / x).

Definition dfdy (x : float) : float :=
  if x <? 0 then 0 else exp (-1 / x) / (x*x).

(** Infinitely differentiable switching function.  The simulation pointer
    that the C function receives is not used by it. *)
Definition reb_integrator_mercurana_L_infinity (d ri ro : float) : float :=
  let y := (d - ri) / (ro - ri) in
  if y <? 0 then 0
  else if 1 <? y then 1
  else f y / (f y + f (1 - y)).

(** First derivative of the infinitely differentiable switching function. *)
Definition reb_integrator_mercurana_dLdr_infinity (d ri ro : float) : float :=
  let y := (d - ri) / (ro - ri) in
  let dydr := 1 / (ro - ri) in
  if y <? 0 then 0
  else if 1 <? y then 0
  else dydr * (dfdy y / (f y + f (1 - y))
               - f y / (f y + f (1 - y)) / (f y + f (1 - y))
                 * (dfdy y - dfdy (1 - y))).
End Switching.

(** ** Simulation state *)

(** The enumerations of rebound.h, which is not among the sources: the
    enumerators that the integrator names, and one more standing for the
    remaining modes. *)
Inductive REB_COLLISION :=
  | REB_COLLISION_NONE | REB_COLLISION_DIRECT | REB_COLLISION_OTHER.

Inductive REB_GRAVITY :=
  | REB_GRAVITY_NONE | REB_GRAVITY_BASIC | REB_GRAVITY_MERCURANA
  | REB_GRAVITY_OTHER.

Inductive REB_EOS_TYPE :=
  | REB_EOS_LF | REB_EOS_LF4 | REB_EOS_LF6 | REB_EOS_LF8 | REB_EOS_LF4_2
  | REB_EOS_LF8_6_4 | REB_EOS_PLF7_6_4 | REB_EOS_PMLF4 | REB_EOS_PMLF6.

Record reb_ghostbox := mk_ghostbox {
  shiftx : float; shifty : float; shiftz : float;
  shiftvx : float; shiftvy : float; shiftvz : float
}.

Record reb_collision := mk_collision {
  c_p1 : nat;
  c_p2 : nat;
  c_gb : reb_ghostbox
}.

Definition collision0 : reb_collision :=
  mk_collision 0 0 (mk_ghostbox 0 0 0 0 0 0).

#[global] Instance reb_collision_inhabited : Inhabited reb_collision :=
  populate collision0.

(** What the host's message channel carries. *)
Inductive msg_kind := MSG_WARNING | MSG_ERROR.

(** A switching function [L(d, ri, ro)] or its derivative. *)
Definition switching_fn : Type := float -> float -> float -> float.

(** [struct reb_simulation_integrator_mercurana].  Counters and indices are
    natural numbers; a [NULL] function pointer is [None]; each heap array is
    the list of its cells.  The fields are separate arrays, as the struct
    declares them. *)
Record reb_simulation_integrator_mercurana := mk_rim {
  rim_phi0 : REB_EOS_TYPE;
  rim_phi1 : REB_EOS_TYPE;
  rim_n0 : nat;
  rim_n1 : nat;
  rim_kappa : float;
  rim_Gm0r0 : float;
  rim_alpha : float;
  rim_safe_mode : nat;
  rim_Nmaxshells : nat;
  rim_Nmaxshellsused : nat;
  rim_recalculate_dcrit_this_timestep : nat;
  rim_is_synchronized : nat;
  rim_L : option switching_fn;
  rim_dLdr : option switching_fn;
  rim_collisions_N : nat;
  rim_N_dominant : nat;
  rim_allocatedN : nat;
  rim_current_shell : nat;
  rim_dcrit : list (list float);
  rim_map_encounter : list (list nat);
  rim_map_dominant : list (list nat);
  rim_map_subdominant : list (list nat);
  rim_inshell_encounter : list nat;
  rim_inshell_dominant : list nat;
  rim_inshell_subdominant : list nat;
  rim_shellN_encounter : list nat;
  rim_shellN_dominant : list nat;
  rim_shellN_subdominant : list nat;
  rim_t_drifted : list float;
  rim_maxdrift_encounter : list float;
  rim_maxdrift_dominant : list float;
  rim_p0 : list reb_particle
}.

Definition set_rim_Nmaxshellsused (v : nat)
    (s : reb_simulation_integrator_mercurana) : reb_simulation_integrator_mercurana :=
  mk_rim (rim_phi0 s) (rim_phi1 s) (rim_n0 s) (rim_n1 s) (rim_kappa s)
    (rim_Gm0r0 s) (rim_alpha s) (rim_safe_mode s) (rim_Nmaxshells s) v
    (rim_recalculate_dcrit_this_timestep s) (rim_is_synchronized s) (rim_L s)
    (rim_dLdr s) (rim_collisions_N s) (rim_N_dominant s) (rim_allocatedN s)
    (rim_current_shell s) (rim_dcrit s) (rim_map_encounter s)
    (rim_map_dominant s) (rim_map_subdominant s) (rim_inshell_encounter s)
    (rim_inshell_dominant s) (rim_inshell_subdominant s)
    (rim_shellN_encounter s) (rim_shellN_dominant s)
    (rim_shellN_subdominant s) (rim_t_drifted s) (rim_maxdrift_encounter s)
    (rim_maxdrift_dominant s) (rim_p0 s).

Definition set_rim_recalculate_dcrit_this_timestep (v : nat)
    (s : reb_simulation_integrator_mercurana) : reb_simulation_integrator_mercurana :=
  mk_rim (rim_phi0 s) (rim_phi1 s) (rim_n0 s) (rim_n1 s) (rim_kappa s)
    (rim_Gm0r0 s) (rim_alpha s) (rim_safe_mode s) (rim_Nmaxshells s)
    (rim_Nmaxshellsused s) v (rim_is_synchronized s) (rim_L s) (rim_dLdr s)
    (rim_collisions_N s) (rim_N_dominant s) (rim_allocatedN s)
    (rim_current_shell s) (rim_dcrit s) (rim_map_encounter s)
    (rim_map_dominant s) (rim_map_subdominant s) (rim_inshell_encounter s)
    (rim_inshell_dominant s) (rim_inshell_subdominant s)
    (rim_shellN_encounter s) (rim_shellN_dominant s)
    (rim_shellN_subdominant s) (rim_t_drifted s) (rim_maxdrift_encounter s)
    (rim_maxdrift_dominant s) (rim_p0 s).

Definition set_rim_is_synchronized (v : nat)
    (s : reb_simulation_integrator_mercurana) : reb_simulation_integrator_mercurana :=
  mk_rim (rim_phi0 s) (rim_phi1 s) (rim_n0 s) (rim_n1 s) (rim_kappa s)
    (rim_Gm0r0 s) (rim_alpha s) (rim_safe_mode s) (rim_Nmaxshells s)
    (rim_Nmaxshellsused s) (rim_recalculate_dcrit_this_timestep s) v (rim_L s)
    (rim_dLdr s) (rim_collisions_N s) (rim_N_dominant s) (rim_allocatedN s)
    (rim_current_shell s) (rim_dcrit s) (rim_map_encounter s)
    (rim_map_dominant s) (rim_map_subdominant s) (rim_inshell_encounter s)
    (rim_inshell_dominant s) (rim_inshell_subdominant s)
    (rim_shellN_encounter s) (rim_shellN_dominant s)
    (rim_shellN_subdominant s) (rim_t_drifted s) (rim_maxdrift_encounter s)
    (rim_maxdrift_dominant s) (rim_p0 s).

Definition set_rim_L (v : option switching_fn)
    (s : reb_simulation_integrator_mercurana) : reb_simulation_integrator_mercurana :=
  mk_rim (rim_phi0 s) (rim_phi1 s) (rim_n0 s) (rim_n1 s) (rim_kappa s)
    (rim_Gm0r0 s) (rim_alpha s) (rim_safe_mode s) (rim_Nmaxshells s)
    (rim_Nmaxshellsused s) (rim_recalculate_dcrit_this_timestep s)
    (rim_is_synchronized s) v (rim_dLdr s) (rim_collisions_N s)
    (rim_N_dominant s) (rim_allocatedN s) (rim_current_shell s) (rim_dcrit s)
    (rim_map_encounter s) (rim_map_dominant s) (rim_map_subdominant s)
    (rim_inshell_encounter s) (rim_inshell_dominant s)
    (rim_inshell_subdominant s) (rim_shellN_encounter s)
    (rim_shellN_dominant s) (rim_shellN_subdominant s) (rim_t_drifted s)
    (rim_maxdrift_encounter s) (rim_maxdrift_dominant s) (rim_p0 s).

Definition set_rim_dLdr (v : option switching_fn)
    (s : reb_simulation_integrator_mercurana) : reb_simulation_integrator_mercurana :=
  mk_rim (rim_phi0 s) (rim_phi1 s) (rim_n0 s) (rim_n1 s) (rim_kappa s)
    (rim_Gm0r0 s) (rim_alpha s) (rim_safe_mode s) (rim_Nmaxshells s)
    (rim_Nmaxshellsused s) (rim_recalculate_dcrit_this_timestep s)
    (rim_is_synchronized s) (rim_L s) v (rim_collisions_N s)
    (rim_N_dominant s) (rim_allocatedN s) (rim_current_shell s) (rim_dcrit s)
    (rim_map_encounter s) (rim_map_dominant s) (rim_map_subdominant s)
    (rim_inshell_encounter s) (rim_inshell_dominant s)
    (rim_inshell_subdominant s) (rim_shellN_encounter s)
    (rim_shellN_dominant s) (rim_shellN_subdominant s) (rim_t_drifted s)
    (rim_maxdrift_encounter s) (rim_maxdrift_dominant s) (rim_p0 s).

Definition set_rim_collisions_N (v : nat)
    (s : reb_simulation_integrator_mercurana) : reb_simulation_integrator_mercurana :=
  mk_rim (rim_phi0 s) (rim_phi1 s) (rim_n0 s) (rim_n1 s) (rim_kappa s)
    (rim_Gm0r0 s) (rim_alpha s) (rim_safe_mode s) (rim_Nmaxshells s)
    (rim_Nmaxshellsused s) (rim_recalculate_dcrit_this_timestep s)
    (rim_is_synchronized s) (rim_L s) (rim_dLdr s) v (rim_N_dominant s)
    (rim_allocatedN s) (rim_current_shell s) (rim_dcrit s)
    (rim_map_encounter s) (rim_map_dominant s) (rim_map_subdominant s)
    (rim_inshell_encounter s) (rim_inshell_dominant s)
    (rim_inshell_subdominant s) (rim_shellN_encounter s)
    (rim_shellN_dominant s) (rim_shellN_subdominant s) (rim_t_drifted s)
    (rim_maxdrift_encounter s) (rim_maxdrift_dominant s) (rim_p0 s).

Definition set_rim_allocatedN (v : nat)
    (s : reb_simulation_integrator_mercurana) : reb_simulation_integrator_mercurana :=
  mk_rim (rim_phi0 s) (rim_phi1 s) (rim_n0 s) (rim_n1 s) (rim_kappa s)
    (rim_Gm0r0 s) (rim_alpha s) (rim_safe_mode s) (rim_Nmaxshells s)
    (rim_Nmaxshellsused s) (rim_recalculate_dcrit_this_timestep s)
    (rim_is_synchronized s) (rim_L s) (rim_dLdr s) (rim_collisions_N s)
    (rim_N_dominant s) v (rim_current_shell s) (rim_dcrit s)
    (rim_map_encounter s) (rim_map_dominant s) (rim_map_subdominant s)
    (rim_inshell_encounter s) (rim_inshell_dominant s)
    (rim_inshell_subdominant s) (rim_shellN_encounter s)
    (rim_shellN_dominant s) (rim_shellN_subdominant s) (rim_t_drifted s)
    (rim_maxdrift_encounter s) (rim_maxdrift_dominant s) (rim_p0 s).

Definition set_rim_current_shell (v : nat)
    (s : reb_simulation_integrator_mercurana) : reb_simulation_integrator_mercurana :=
  mk_rim (rim_phi0 s) (rim_phi1 s) (rim_n0 s) (rim_n1 s) (rim_kappa s)
    (rim_Gm0r0 s) (rim_alpha s) (rim_safe_mode s) (rim_Nmaxshells s)
    (rim_Nmaxshellsused s) (rim_recalculate_dcrit_this_timestep s)
    (rim_is_synchronized s) (rim_L s) (rim_dLdr s) (rim_collisions_N s)
    (rim_N_dominant s) (rim_allocatedN s) v (rim_dcrit s)
    (rim_map_encounter s) (rim_map_dominant s) (rim_map_subdominant s)
    (rim_inshell_encounter s) (rim_inshell_dominant s)
    (rim_inshell_subdominant s) (rim_shellN_encounter s)
    (rim_shellN_dominant s) (rim_shellN_subdominant s) (rim_t_drifted s)
    (rim_maxdrift_encounter s) (rim_maxdrift_dominant s) (rim_p0 s).

Definition set_rim_dcrit (v : list (list float))
    (s : reb_simulation_integrator_mercurana) : reb_simulation_integrator_mercurana :=
  mk_rim (rim_phi0 s) (rim_phi1 s) (rim_n0 s) (rim_n1 s) (rim_kappa s)
    (rim_Gm0r0 s) (rim_alpha s) (rim_safe_mode s) (rim_Nmaxshells s)
    (rim_Nmaxshellsused s) (rim_recalculate_dcrit_this_timestep s)
    (rim_is_synchronized s) (rim_L s) (rim_dLdr s) (rim_collisions_N s)
    (rim_N_dominant s) (rim_allocatedN s) (rim_current_shell s) v
    (rim_map_encounter s) (rim_map_dominant s) (rim_map_subdominant s)
    (rim_inshell_encounter s) (rim_inshell_dominant s)
    (rim_inshell_subdominant s) (rim_shellN_encounter s)
    (rim_shellN_dominant s) (rim_shellN_subdominant s) (rim_t_drifted s)
    (rim_maxdrift_encounter s) (rim_maxdrift_dominant s) (rim_p0 s).

Definition set_rim_map_encounter (v : list (list nat))
    (s : reb_simulation_integrator_mercurana) : reb_simulation_integrator_mercurana :=
  mk_rim (rim_phi0 s) (rim_phi1 s) (rim_n0 s) (rim_n1 s) (rim_kappa s)
    (rim_Gm0r0 s) (rim_alpha s) (rim_safe_mode s) (rim_Nmaxshells s)
    (rim_Nmaxshellsused s) (rim_recalculate_dcrit_this_timestep s)
    (rim_is_synchronized s) (rim_L s) (rim_dLdr s) (rim_collisions_N s)
    (rim_N_dominant s) (rim_allocatedN s) (rim_current_shell s) (rim_dcrit s)
    v (rim_map_dominant s) (rim_map_subdominant s) (rim_inshell_encounter s)
    (rim_inshell_dominant s) (rim_inshell_subdominant s)
    (rim_shellN_encounter s) (rim_shellN_dominant s)
    (rim_shellN_subdominant s) (rim_t_drifted s) (rim_maxdrift_encounter s)
    (rim_maxdrift_dominant s) (rim_p0 s).

Definition set_rim_map_dominant (v : list (list nat))
    (s : reb_simulation_integrator_mercurana) : reb_simulation_integrator_mercurana :=
  mk_rim (rim_phi0 s) (rim_phi1 s) (rim_n0 s) (rim_n1 s) (rim_kappa s)
    (rim_Gm0r0 s) (rim_alpha s) (rim_safe_mode s) (rim_Nmaxshells s)
    (rim_Nmaxshellsused s) (rim_recalculate_dcrit_this_timestep s)
    (rim_is_synchronized s) (rim_L s) (rim_dLdr s) (rim_collisions_N s)
    (rim_N_dominant s) (rim_allocatedN s) (rim_current_shell s) (rim_dcrit s)
    (rim_map_encounter s) v (rim_map_subdominant s) (rim_inshell_encounter s)
    (rim_inshell_dominant s) (rim_inshell_subdominant s)
    (rim_shellN_encounter s) (rim_shellN_dominant s)
    (rim_shellN_subdominant s) (rim_t_drifted s) (rim_maxdrift_encounter s)
    (rim_maxdrift_dominant s) (rim_p0 s).

Definition set_rim_map_subdominant (v : list (list nat))
    (s : reb_simulation_integrator_mercurana) : reb_simulation_integrator_mercurana :=
  mk_rim (rim_phi0 s) (rim_phi1 s) (rim_n0 s) (rim_n1 s) (rim_kappa s)
    (rim_Gm0r0 s) (rim_alpha s) (rim_safe_mode s) (rim_Nmaxshells s)
    (rim_Nmaxshellsused s) (rim_recalculate_dcrit_this_timestep s)
    (rim_is_synchronized s) (rim_L s) (rim_dLdr s) (rim_collisions_N s)
    (rim_N_dominant s) (rim_allocatedN s) (rim_current_shell s) (rim_dcrit s)
    (rim_map_encounter s) (rim_map_dominant s) v (rim_inshell_encounter s)
    (rim_inshell_dominant s) (rim_inshell_subdominant s)
    (rim_shellN_encounter s) (rim_shellN_dominant s)
    (rim_shellN_subdominant s) (rim_t_drifted s) (rim_maxdrift_encounter s)
    (rim_maxdrift_dominant s) (rim_p0 s).

Definition set_rim_inshell_encounter (v : list nat)
    (s : reb_simulation_integrator_mercurana) : reb_simulation_integrator_mercurana :=
  mk_rim (rim_phi0 s) (rim_phi1 s) (rim_n0 s) (rim_n1 s) (rim_kappa s)
    (rim_Gm0r0 s) (rim_alpha s) (rim_safe_mode s) (rim_Nmaxshells s)
    (rim_Nmaxshellsused s) (rim_recalculate_dcrit_this_timestep s)
    (rim_is_synchronized s) (rim_L s) (rim_dLdr s) (rim_collisions_N s)
    (rim_N_dominant s) (rim_allocatedN s) (rim_current_shell s) (rim_dcrit s)
    (rim_map_encounter s) (rim_map_dominant s) (rim_map_subdominant s) v
    (rim_inshell_dominant s) (rim_inshell_subdominant s)
    (rim_shellN_encounter s) (rim_shellN_dominant s)
    (rim_shellN_subdominant s) (rim_t_drifted s) (rim_maxdrift_encounter s)
    (rim_maxdrift_dominant s) (rim_p0 s).

Definition set_rim_inshell_dominant (v : list nat)
    (s : reb_simulation_integrator_mercurana) : reb_simulation_integrator_mercurana :=
  mk_rim (rim_phi0 s) (rim_phi1 s) (rim_n0 s) (rim_n1 s) (rim_kappa s)
    (rim_Gm0r0 s) (rim_alpha s) (rim_safe_mode s) (rim_Nmaxshells s)
    (rim_Nmaxshellsused s) (rim_recalculate_dcrit_this_timestep s)
    (rim_is_synchronized s) (rim_L s) (rim_dLdr s) (rim_collisions_N s)
    (rim_N_dominant s) (rim_allocatedN s) (rim_current_shell s) (rim_dcrit s)
    (rim_map_encounter s) (rim_map_dominant s) (rim_map_subdominant s)
    (rim_inshell_encounter s) v (rim_inshell_subdominant s)
    (rim_shellN_encounter s) (rim_shellN_dominant s)
    (rim_shellN_subdominant s) (rim_t_drifted s) (rim_maxdrift_encounter s)
    (rim_maxdrift_dominant s) (rim_p0 s).

Definition set_rim_inshell_subdominant (v : list nat)
    (s : reb_simulation_integrator_mercurana) : reb_simulation_integrator_mercurana :=
  mk_rim (rim_phi0 s) (rim_phi1 s) (rim_n0 s) (rim_n1 s) (rim_kappa s)
    (rim_Gm0r0 s) (rim_alpha s) (rim_safe_mode s) (rim_Nmaxshells s)
    (rim_Nmaxshellsused s) (rim_recalculate_dcrit_this_timestep s)
    (rim_is_synchronized s) (rim_L s) (rim_dLdr s) (rim_collisions_N s)
    (rim_N_dominant s) (rim_allocatedN s) (rim_current_shell s) (rim_dcrit s)
    (rim_map_encounter s) (rim_map_dominant s) (rim_map_subdominant s)
    (rim_inshell_encounter s) (rim_inshell_dominant s) v
    (rim_shellN_encounter s) (rim_shellN_dominant s)
    (rim_shellN_subdominant s) (rim_t_drifted s) (rim_maxdrift_encounter s)
    (rim_maxdrift_dominant s) (rim_p0 s).

Definition set_rim_shellN_encounter (v : list nat)
    (s : reb_simulation_integrator_mercurana) : reb_simulation_integrator_mercurana :=
  mk_rim (rim_phi0 s) (rim_phi1 s) (rim_n0 s) (rim_n1 s) (rim_kappa s)
    (rim_Gm0r0 s) (rim_alpha s) (rim_safe_mode s) (rim_Nmaxshells s)
    (rim_Nmaxshellsused s) (rim_recalculate_dcrit_this_timestep s)
    (rim_is_synchronized s) (rim_L s) (rim_dLdr s) (rim_collisions_N s)
    (rim_N_dominant s) (rim_allocatedN s) (rim_current_shell s) (rim_dcrit s)
    (rim_map_encounter s) (rim_map_dominant s) (rim_map_subdominant s)
    (rim_inshell_encounter s) (rim_inshell_dominant s)
    (rim_inshell_subdominant s) v (rim_shellN_dominant s)
    (rim_shellN_subdominant s) (rim_t_drifted s) (rim_maxdrift_encounter s)
    (rim_maxdrift_dominant s) (rim_p0 s).

Definition set_rim_shellN_dominant (v : list nat)
    (s : reb_simulation_integrator_mercurana) : reb_simulation_integrator_mercurana :=
  mk_rim (rim_phi0 s) (rim_phi1 s) (rim_n0 s) (rim_n1 s) (rim_kappa s)
    (rim_Gm0r0 s) (rim_alpha s) (rim_safe_mode s) (rim_Nmaxshells s)
    (rim_Nmaxshellsused s) (rim_recalculate_dcrit_this_timestep s)
    (rim_is_synchronized s) (rim_L s) (rim_dLdr s) (rim_collisions_N s)
    (rim_N_dominant s) (rim_allocatedN s) (rim_current_shell s) (rim_dcrit s)
    (rim_map_encounter s) (rim_map_dominant s) (rim_map_subdominant s)
    (rim_inshell_encounter s) (rim_inshell_dominant s)
    (rim_inshell_subdominant s) (rim_shellN_encounter s) v
    (rim_shellN_subdominant s) (rim_t_drifted s) (rim_maxdrift_encounter s)
    (rim_maxdrift_dominant s) (rim_p0 s).

Definition set_rim_shellN_subdominant (v : list nat)
    (s : reb_simulation_integrator_mercurana) : reb_simulation_integrator_mercurana :=
  mk_rim (rim_phi0 s) (rim_phi1 s) (rim_n0 s) (rim_n1 s) (rim_kappa s)
    (rim_Gm0r0 s) (rim_alpha s) (rim_safe_mode s) (rim_Nmaxshells s)
    (rim_Nmaxshellsused s) (rim_recalculate_dcrit_this_timestep s)
    (rim_is_synchronized s) (rim_L s) (rim_dLdr s) (rim_collisions_N s)
    (rim_N_dominant s) (rim_allocatedN s) (rim_current_shell s) (rim_dcrit s)
    (rim_map_encounter s) (rim_map_dominant s) (rim_map_subdominant s)
    (rim_inshell_encounter s) (rim_inshell_dominant s)
    (rim_inshell_subdominant s) (rim_shellN_encounter s)
    (rim_shellN_dominant s) v (rim_t_drifted s) (rim_maxdrift_encounter s)
    (rim_maxdrift_dominant s) (rim_p0 s).

Definition set_rim_t_drifted (v : list float)
    (s : reb_simulation_integrator_mercurana) : reb_simulation_integrator_mercurana :=
  mk_rim (rim_phi0 s) (rim_phi1 s) (rim_n0 s) (rim_n1 s) (rim_kappa s)
    (rim_Gm0r0 s) (rim_alpha s) (rim_safe_mode s) (rim_Nmaxshells s)
    (rim_Nmaxshellsused s) (rim_recalculate_dcrit_this_timestep s)
    (rim_is_synchronized s) (rim_L s) (rim_dLdr s) (rim_collisions_N s)
    (rim_N_dominant s) (rim_allocatedN s) (rim_current_shell s) (rim_dcrit s)
    (rim_map_encounter s) (rim_map_dominant s) (rim_map_subdominant s)
    (rim_inshell_encounter s) (rim_inshell_dominant s)
    (rim_inshell_subdominant s) (rim_shellN_encounter s)
    (rim_shellN_dominant s) (rim_shellN_subdominant s) v
    (rim_maxdrift_encounter s) (rim_maxdrift_dominant s) (rim_p0 s).

Definition set_rim_maxdrift_encounter (v : list float)
    (s : reb_simulation_integrator_mercurana) : reb_simulation_integrator_mercurana :=
  mk_rim (rim_phi0 s) (rim_phi1 s) (rim_n0 s) (rim_n1 s) (rim_kappa s)
    (rim_Gm0r0 s) (rim_alpha s) (rim_safe_mode s) (rim_Nmaxshells s)
    (rim_Nmaxshellsused s) (rim_recalculate_dcrit_this_timestep s)
    (rim_is_synchronized s) (rim_L s) (rim_dLdr s) (rim_collisions_N s)
    (rim_N_dominant s) (rim_allocatedN s) (rim_current_shell s) (rim_dcrit s)
    (rim_map_encounter s) (rim_map_dominant s) (rim_map_subdominant s)
    (rim_inshell_encounter s) (rim_inshell_dominant s)
    (rim_inshell_subdominant s) (rim_shellN_encounter s)
    (rim_shellN_dominant s) (rim_shellN_subdominant s) (rim_t_drifted s) v
    (rim_maxdrift_dominant s) (rim_p0 s).

Definition set_rim_maxdrift_dominant (v : list float)
    (s : reb_simulation_integrator_mercurana) : reb_simulation_integrator_mercurana :=
  mk_rim (rim_phi0 s) (rim_phi1 s) (rim_n0 s) (rim_n1 s) (rim_kappa s)
    (rim_Gm0r0 s) (rim_alpha s) (rim_safe_mode s) (rim_Nmaxshells s)
    (rim_Nmaxshellsused s) (rim_recalculate_dcrit_this_timestep s)
    (rim_is_synchronized s) (rim_L s) (rim_dLdr s) (rim_collisions_N s)
    (rim_N_dominant s) (rim_allocatedN s) (rim_current_shell s) (rim_dcrit s)
    (rim_map_encounter s) (rim_map_dominant s) (rim_map_subdominant s)
    (rim_inshell_encounter s) (rim_inshell_dominant s)
    (rim_inshell_subdominant s) (rim_shellN_encounter s)
    (rim_shellN_dominant s) (rim_shellN_subdominant s) (rim_t_drifted s)
    (rim_maxdrift_encounter s) v (rim_p0 s).

Definition set_rim_p0 (v : list reb_particle)
    (s : reb_simulation_integrator_mercurana) : reb_simulation_integrator_mercurana :=
  mk_rim (rim_phi0 s) (rim_phi1 s) (rim_n0 s) (rim_n1 s) (rim_kappa s)
    (rim_Gm0r0 s) (rim_alpha s) (rim_safe_mode s) (rim_Nmaxshells s)
    (rim_Nmaxshellsused s) (rim_recalculate_dcrit_this_timestep s)
    (rim_is_synchronized s) (rim_L s) (rim_dLdr s) (rim_collisions_N s)
    (rim_N_dominant s) (rim_allocatedN s) (rim_current_shell s) (rim_dcrit s)
    (rim_map_encounter s) (rim_map_dominant s) (rim_map_subdominant s)
    (rim_inshell_encounter s) (rim_inshell_dominant s)
    (rim_inshell_subdominant s) (rim_shellN_encounter s)
    (rim_shellN_dominant s) (rim_shellN_subdominant s) (rim_t_drifted s)
    (rim_maxdrift_encounter s) (rim_maxdrift_dominant s) v.

(** [struct reb_simulation], the fields the integrator touches.  [r_messages]
    is the host's warning and error channel. *)
Record reb_simulation := mk_sim {
  r_N : nat;
  r_particles : list reb_particle;
  r_G : float;
  r_dt : float;
  r_t : float;
  r_dt_last_done : float;
  r_var_config_N : nat;
  r_collision : REB_COLLISION;
  r_gravity : REB_GRAVITY;
  r_collisions : list reb_collision;
  r_collisions_allocatedN : nat;
  r_messages : list (msg_kind * string);
  ri_mercurana : reb_simulation_integrator_mercurana
}.

Definition set_r_particles (v : list reb_particle)
    (s : reb_simulation) : reb_simulation :=
  mk_sim (r_N s) v (r_G s) (r_dt s) (r_t s) (r_dt_last_done s)
    (r_var_config_N s) (r_collision s) (r_gravity s) (r_collisions s)
    (r_collisions_allocatedN s) (r_messages s) (ri_mercurana s).

Definition set_r_t (v : float)
    (s : reb_simulation) : reb_simulation :=
  mk_sim (r_N s) (r_particles s) (r_G s) (r_dt s) v (r_dt_last_done s)
    (r_var_config_N s) (r_collision s) (r_gravity s) (r_collisions s)
    (r_collisions_allocatedN s) (r_messages s) (ri_mercurana s).

Definition set_r_dt_last_done (v : float)
    (s : reb_simulation) : reb_simulation :=
  mk_sim (r_N s) (r_particles s) (r_G s) (r_dt s) (r_t s) v (r_var_config_N s)
    (r_collision s) (r_gravity s) (r_collisions s) (r_collisions_allocatedN s)
    (r_messages s) (ri_mercurana s).

Definition set_r_gravity (v : REB_GRAVITY)
    (s : reb_simulation) : reb_simulation :=
  mk_sim (r_N s) (r_particles s) (r_G s) (r_dt s) (r_t s) (r_dt_last_done s)
    (r_var_config_N s) (r_collision s) v (r_collisions s)
    (r_collisions_allocatedN s) (r_messages s) (ri_mercurana s).

Definition set_r_collisions (v : list reb_collision)
    (s : reb_simulation) : reb_simulation :=
  mk_sim (r_N s) (r_particles s) (r_G s) (r_dt s) (r_t s) (r_dt_last_done s)
    (r_var_config_N s) (r_collision s) (r_gravity s) v
    (r_collisions_allocatedN s) (r_messages s) (ri_mercurana s).

Definition set_r_collisions_allocatedN (v : nat)
    (s : reb_simulation) : reb_simulation :=
  mk_sim (r_N s) (r_particles s) (r_G s) (r_dt s) (r_t s) (r_dt_last_done s)
    (r_var_config_N s) (r_collision s) (r_gravity s) (r_collisions s) v
    (r_messages s) (ri_mercurana s).

Definition set_r_messages (v : list (msg_kind * string))
    (s : reb_simulation) : reb_simulation :=
  mk_sim (r_N s) (r_particles s) (r_G s) (r_dt s) (r_t s) (r_dt_last_done s)
    (r_var_config_N s) (r_collision s) (r_gravity s) (r_collisions s)
    (r_collisions_allocatedN s) v (ri_mercurana s).

Definition set_ri_mercurana (v : reb_simulation_integrator_mercurana)
    (s : reb_simulation) : reb_simulation :=
  mk_sim (r_N s) (r_particles s) (r_G s) (r_dt s) (r_t s) (r_dt_last_done s)
    (r_var_config_N s) (r_collision s) (r_gravity s) (r_collisions s)
    (r_collisions_allocatedN s) (r_messages s) v.

Definition upd_rim
    (g : reb_simulation_integrator_mercurana -> reb_simulation_integrator_mercurana)
    (r : reb_simulation) : reb_simulation :=
  set_ri_mercurana (g (ri_mercurana r)) r.

(** ** Arrays and loops *)

Local Open Scope nat_scope.

(** [a[i]] as an rvalue, [a[s][i]], and the assignment [a[s][i] = v].  A write
    outside the array is dropped and a read outside it yields the default
    cell; the program itself has undefined behaviour there. *)
Definition rd {A} `{Inhabited A} (a : list A) (i : nat) : A := a !!! i.

Definition rd2 {A} `{Inhabited A} (a : list (list A)) (s i : nat) : A :=
  (a !!! s) !!! i.

Definition wr2 {A} (a : list (list A)) (s i : nat) (v : A) : list (list A) :=
  <[s := <[i := v]> (a !!! s)]> a.

(** [for (int i=lo; i<hi; i++) body] on a state. *)
Definition for_loop {S} (lo hi : nat) (body : nat -> S -> S) (s : S) : S :=
  fold_left (fun s i => body i s) (seq lo (hi - lo)) s.

(** ** Pointers into the integrator's arrays

    The functions below keep local pointers to the integrator's arrays.  A
    pointer is modelled by the name of the array it points to, and is
    dereferenced in the current state, so that two pointers to one array
    alias as they do in the program. *)

Inductive inshell_ptr :=
  | rim_ptr_inshell_encounter
  | rim_ptr_inshell_dominant
  | rim_ptr_inshell_subdominant.

Definition inshell_load (p : inshell_ptr)
    (rim : reb_simulation_integrator_mercurana) (i : nat) : nat :=
  match p with
  | rim_ptr_inshell_encounter => rd (rim_inshell_encounter rim) i
  | rim_ptr_inshell_dominant => rd (rim_inshell_dominant rim) i
  | rim_ptr_inshell_subdominant => rd (rim_inshell_subdominant rim) i
  end.

Definition inshell_store (p : inshell_ptr) (i v : nat)
    (rim : reb_simulation_integrator_mercurana)
    : reb_simulation_integrator_mercurana :=
  match p with
  | rim_ptr_inshell_encounter =>
      set_rim_inshell_encounter (<[i := v]> (rim_inshell_encounter rim)) rim
  | rim_ptr_inshell_dominant =>
      set_rim_inshell_dominant (<[i := v]> (rim_inshell_dominant rim)) rim
  | rim_ptr_inshell_subdominant =>
      set_rim_inshell_subdominant (<[i := v]> (rim_inshell_subdominant rim)) rim
  end.

Inductive maxdrift_ptr :=
  | rim_ptr_maxdrift_encounter
  | rim_ptr_maxdrift_dominant.

Definition maxdrift_load (p : maxdrift_ptr)
    (rim : reb_simulation_integrator_mercurana) (i : nat) : float :=
  match p with
  | rim_ptr_maxdrift_encounter => rd (rim_maxdrift_encounter rim) i
  | rim_ptr_maxdrift_dominant => rd (rim_maxdrift_dominant rim) i
  end.

Definition maxdrift_store (p : maxdrift_ptr) (i : nat) (v : float)
    (rim : reb_simulation_integrator_mercurana)
    : reb_simulation_integrator_mercurana :=
  match p with
  | rim_ptr_maxdrift_encounter =>
      set_rim_maxdrift_encounter (<[i := v]> (rim_maxdrift_encounter rim)) rim
  | rim_ptr_maxdrift_dominant =>
      set_rim_maxdrift_dominant (<[i := v]> (rim_maxdrift_dominant rim)) rim
  end.

(** The three families of per-shell maps, [rim->map_X] with its lengths
    [rim->shellN_X]. *)
Inductive role := Dominant | Subdominant | Encounter.

Definition rim_map (X : role) (rim : reb_simulation_integrator_mercurana)
    : list (list nat) :=
  match X with
  | Dominant => rim_map_dominant rim
  | Subdominant => rim_map_subdominant rim
  | Encounter => rim_map_encounter rim
  end.

Definition set_rim_map (X : role) (v : list (list nat))
    (rim : reb_simulation_integrator_mercurana)
    : reb_simulation_integrator_mercurana :=
  match X with
  | Dominant => set_rim_map_dominant v rim
  | Subdominant => set_rim_map_subdominant v rim
  | Encounter => set_rim_map_encounter v rim
  end.

Definition rim_shellN (X : role) (rim : reb_simulation_integrator_mercurana)
    : list nat :=
  match X with
  | Dominant => rim_shellN_dominant rim
  | Subdominant => rim_shellN_subdominant rim
  | Encounter => rim_shellN_encounter rim
  end.

Definition set_rim_shellN (X : role) (v : list nat)
    (rim : reb_simulation_integrator_mercurana)
    : reb_simulation_integrator_mercurana :=
  match X with
  | Dominant => set_rim_shellN_dominant v rim
  | Subdominant => set_rim_shellN_subdominant v rim
  | Encounter => set_rim_shellN_encounter v rim
  end.

(** The sequence [map_X[s]] with its length [shellN_X[s]]: the members of
    shell [s] in role [X]. *)
Definition shell_members (X : role) (s : nat) (r : reb_simulation) : list nat :=
  take (rd (rim_shellN X (ri_mercurana r)) s) (rim_map X (ri_mercurana r) !!! s).

(** ** Collision capture *)

(** This functions records a physical collision between particles i and j, to
    be resolved later. *)
Definition reb_mercurana_record_collision (r : reb_simulation) (i j : nat)
    : reb_simulation :=
  let r :=
    if r_collisions_allocatedN r <=? rim_collisions_N (ri_mercurana r) then
      (* Allocate memory if there is no space in array. *)
      let n := if r_collisions_allocatedN r =? 0 then 32
               else r_collisions_allocatedN r * 2 in
      set_r_collisions (resize n collision0 (r_collisions r))
        (set_r_collisions_allocatedN n r)
    else r in
  let pi := rd (r_particles r) i in
  let gb := mk_ghostbox (p_x pi) (p_y pi) (p_z pi) (p_vx pi) (p_vy pi) (p_vz pi) in
  let r := set_r_collisions
             (<[rim_collisions_N (ri_mercurana r) := mk_collision i j gb]>
                (r_collisions r)) r in
  upd_rim (fun rim => set_rim_collisions_N (S (rim_collisions_N rim)) rim) r.

(** ** The shell membership engine *)

Definition is_direct (c : REB_COLLISION) : bool :=
  match c with REB_COLLISION_DIRECT => true | _ => false end.

(** The block
    [if (inshell[m] == shell){ inshell[m] = shell+1;
       rim->map_X[shell+1][rim->shellN_X[shell+1]] = m;
       rim->shellN_X[shell+1]++; }]
    through the pointer [inshell]. *)
Definition promote (inshell : inshell_ptr) (X : role) (shell m : nat)
    (rim : reb_simulation_integrator_mercurana)
    : reb_simulation_integrator_mercurana :=
  if inshell_load inshell rim m =? shell then
    let rim := inshell_store inshell m (shell+1) rim in
    let rim := set_rim_map X
                 (wr2 (rim_map X rim) (shell+1) (rd (rim_shellN X rim) (shell+1)) m)
                 rim in
    set_rim_shellN X
      (<[shell+1 := S (rd (rim_shellN X rim) (shell+1))]> (rim_shellN X rim)) rim
  else rim.

(** [maxdrift[m] = MIN(maxdrift[m],maxdrift);] through the pointer. *)
Definition lower_maxdrift (md : maxdrift_ptr) (m : nat) (maxdrift : float)
    (rim : reb_simulation_integrator_mercurana)
    : reb_simulation_integrator_mercurana :=
  maxdrift_store md m (MIN (maxdrift_load md rim m) maxdrift) rim.

(** The body of the inner loop of each pair scan, for the pair [mi], [mj]:
    [inshell_i], [inshell_j] are the pointers tested for the two particles,
    [Xi], [Xj] the maps of the next shell they are appended to, and [md_i],
    [md_j] the maxdrift arrays lowered when the pair does not descend. *)
Definition pair_check (inshell_i inshell_j : inshell_ptr) (Xi Xj : role)
    (md_i md_j : maxdrift_ptr) (dt : float) (shell mi mj : nat)
    (r : reb_simulation) : reb_simulation :=
  let rmin2 :=
    reb_mercurana_predict_rmin2 (rd (r_particles r) mi) (rd (r_particles r) mj) dt in
  let rsum := (p_r (rd (r_particles r) mi) + p_r (rd (r_particles r) mj))%float in
  let r :=
    if (rmin2 <? rsum*rsum)%float && is_direct (r_collision r)
    then reb_mercurana_record_collision r mi mj else r in
  let dcritsum := (rd2 (rim_dcrit (ri_mercurana r)) shell mi
                   + rd2 (rim_dcrit (ri_mercurana r)) shell mj)%float in
  if (rmin2 <? dcritsum*dcritsum)%float then
    upd_rim (fun rim =>
      promote inshell_j Xj shell mj (promote inshell_i Xi shell mi rim)) r
  else
    let maxdrift := ((sqrt rmin2 - dcritsum) / 2)%float in
    upd_rim (fun rim =>
      lower_maxdrift md_j mj maxdrift (lower_maxdrift md_i mi maxdrift rim)) r.

(** A pair scan over [map_Xi[shell][0..ni)] and [map_Xj[shell][jstart i..nj)]. *)
Definition pair_scan (inshell_i inshell_j : inshell_ptr) (Xi Xj : role)
    (md_i md_j : maxdrift_ptr) (jstart : nat -> nat) (ni nj : nat)
    (dt : float) (shell : nat) (r : reb_simulation) : reb_simulation :=
  for_loop 0 ni (fun i r =>
    let mi := rd2 (rim_map Xi (ri_mercurana r)) shell i in
    for_loop (jstart i) nj (fun j r =>
      let mj := rd2 (rim_map Xj (ri_mercurana r)) shell j in
      pair_check inshell_i inshell_j Xi Xj md_i md_j dt shell mi mj r) r) r.

(** [1e300], the value the maxdrift arrays are set up with. *)
Definition maxdrift_init : float := 0x1.7e43c8800759cp+996%float.

(** Setup maps in outermost shell (the branch [shell==0]).  The difference
    [r->N - rim->N_dominant] is the one of the program when [N_dominant <= N],
    which the statements on the counters of shell 0 assume; the program
    computes it in unsigned arithmetic. *)
Definition predict_setup (inshell_encounter inshell_dominant inshell_subdominant
                          : inshell_ptr) (r : reb_simulation) : reb_simulation :=
  let r := upd_rim (fun rim =>
    let rim := set_rim_shellN_dominant
                 (<[0 := rim_N_dominant rim]> (rim_shellN_dominant rim)) rim in
    let rim := set_rim_shellN_subdominant
                 (<[0 := r_N r - rim_N_dominant rim]> (rim_shellN_subdominant rim))
                 rim in
    set_rim_shellN_encounter
      (<[0 := r_N r - rim_N_dominant rim]> (rim_shellN_encounter rim)) rim) r in
  let shellN_dominant := rd (rim_shellN_dominant (ri_mercurana r)) 0 in
  let shellN_subdominant := rd (rim_shellN_subdominant (ri_mercurana r)) 0 in
  let r := for_loop 0 shellN_dominant (fun i r =>
    upd_rim (fun rim =>
      set_rim_map_dominant (wr2 (rim_map_dominant rim) 0 i i) rim) r) r in
  let r := for_loop 0 shellN_subdominant (fun i r =>
    upd_rim (fun rim =>
      let rim := set_rim_map_subdominant
                   (wr2 (rim_map_subdominant rim) 0 i (shellN_dominant + i)) rim in
      set_rim_map_encounter
        (wr2 (rim_map_encounter rim) 0 i (shellN_dominant + i)) rim) r) r in
  for_loop 0 (r_N r) (fun i r =>
    upd_rim (fun rim =>
      let rim := maxdrift_store rim_ptr_maxdrift_dominant i maxdrift_init rim in
      let rim := maxdrift_store rim_ptr_maxdrift_encounter i maxdrift_init rim in
      let rim := inshell_store inshell_encounter i 0 rim in
      let rim := inshell_store inshell_dominant i 0 rim in
      inshell_store inshell_subdominant i 0 rim) r) r.

(** Check for max_drift_violation (the branch [shell!=0]).  The bound
    [rim->shellN_encounter[0]] of the inner loop is read once: the loop writes
    [rim->shellN_encounter[s]] for [s >= 1] only. *)
Definition predict_maxdrift (inshell_encounter : inshell_ptr)
    (shellN_encounter : nat) (dt : float) (shell : nat) (r : reb_simulation)
    : reb_simulation :=
  for_loop 0 shellN_encounter (fun i r =>
    let mi := rd2 (rim_map_encounter (ri_mercurana r)) shell i in
    let pmi := rd (r_particles r) mi in
    let p0mi := rd (rim_p0 (ri_mercurana r)) mi in
    let dx := (p_x pmi - p_x p0mi)%float in
    let dy := (p_y pmi - p_y p0mi)%float in
    let dz := (p_z pmi - p_z p0mi)%float in
    let drift := sqrt (dx*dx + dy*dy + dz*dz)%float in
    if (rd (rim_maxdrift_encounter (ri_mercurana r)) mi <? drift)%float then
      (* check against all encounter particles *)
      for_loop 0 (rd (rim_shellN_encounter (ri_mercurana r)) 0) (fun j r =>
        let mj := rd2 (rim_map_encounter (ri_mercurana r)) shell j in
        if inshell_load inshell_encounter (ri_mercurana r) mj <? shell then
          let drift := (rd (rim_t_drifted (ri_mercurana r)) mi
                        - rd (rim_t_drifted (ri_mercurana r)) mj)%float in
          let rmin2 := reb_mercurana_predict_rmin2_drifted
                         (rd (r_particles r) mi) (rd (r_particles r) mj) dt drift in
          let dcritsum := (rd2 (rim_dcrit (ri_mercurana r)) shell mi
                           + rd2 (rim_dcrit (ri_mercurana r)) shell mj)%float in
          if (rmin2 <? dcritsum*dcritsum)%float then
            (* Add mj to all higher shells as encounter: *)
            let r := upd_rim (inshell_store inshell_encounter mj shell) r in
            let r := for_loop 1 (shell+1) (fun s r =>
              upd_rim (fun rim =>
                let rim := set_rim_map_encounter
                             (wr2 (rim_map_encounter rim) s
                                  (rd (rim_shellN_encounter rim) s) mj) rim in
                set_rim_shellN_encounter
                  (<[s := S (rd (rim_shellN_encounter rim) s)]>
                     (rim_shellN_encounter rim)) rim) r) r in
            let pmj := rd (r_particles r) mj in
            set_r_particles
              (<[mj := set_pos pmj (p_x pmj + drift * p_vx pmj)%float
                                   (p_y pmj + drift * p_vy pmj)%float
                                   (p_z pmj + drift * p_vz pmj)%float]>
                 (r_particles r)) r
          else
            let maxdrift := ((sqrt rmin2 - dcritsum) / 2)%float in
            upd_rim (lower_maxdrift rim_ptr_maxdrift_dominant mi maxdrift) r
            (* mj remains unchanged *)
        else r) r
    else r) r.

(** The body of [reb_mercurana_encounter_predict] once the sub-shell is known
    to exist, up to and including the three pair scans. *)
Definition predict_scan (r : reb_simulation) (dt : float) (shell : nat)
    : reb_simulation :=
  let shellN_encounter := rd (rim_shellN_encounter (ri_mercurana r)) shell in
  let shellN_dominant := rd (rim_shellN_dominant (ri_mercurana r)) shell in
  let shellN_subdominant := rd (rim_shellN_subdominant (ri_mercurana r)) shell in
  let inshell_encounter := rim_ptr_inshell_encounter in
  let inshell_dominant := rim_ptr_inshell_dominant in
  let inshell_subdominant := rim_ptr_inshell_dominant in
  let r := upd_rim (set_rim_collisions_N 0) r in
  let r := upd_rim (fun rim =>
    let rim := set_rim_shellN_encounter
                 (<[shell+1 := 0]> (rim_shellN_encounter rim)) rim in
    let rim := set_rim_shellN_dominant
                 (<[shell+1 := 0]> (rim_shellN_dominant rim)) rim in
    set_rim_shellN_subdominant
      (<[shell+1 := 0]> (rim_shellN_subdominant rim)) rim) r in
  let '(r, shellN_encounter, shellN_dominant, shellN_subdominant) :=
    if shell =? 0 then
      let r := predict_setup inshell_encounter inshell_dominant
                             inshell_subdominant r in
      (r, rd (rim_shellN_encounter (ri_mercurana r)) shell,
          rd (rim_shellN_dominant (ri_mercurana r)) shell,
          rd (rim_shellN_subdominant (ri_mercurana r)) shell)
    else
      (predict_maxdrift inshell_encounter shellN_encounter dt shell r,
       shellN_encounter, shellN_dominant, shellN_subdominant) in
  (* (1) Dominant and dominant *)
  let r := pair_scan inshell_dominant inshell_dominant Dominant Dominant
             rim_ptr_maxdrift_dominant rim_ptr_maxdrift_dominant
             (fun i => i+1) shellN_dominant shellN_dominant dt shell r in
  (* (2) Dominant and subdominant *)
  let r := pair_scan inshell_dominant inshell_subdominant Dominant Subdominant
             rim_ptr_maxdrift_dominant rim_ptr_maxdrift_dominant
             (fun _ => 0) shellN_dominant shellN_subdominant dt shell r in
  (* (4) Encounter and encounter *)
  pair_scan inshell_encounter inshell_encounter Encounter Encounter
    rim_ptr_maxdrift_encounter rim_ptr_maxdrift_encounter
    (fun i => i+1) shellN_encounter shellN_encounter dt shell r.

Section Predict.
(** [reb_collision_search] of collision.c, the host's collision resolver. *)
Variable reb_collision_search : reb_simulation -> reb_simulation.

(** This function checks if there are any close encounters or physical
    collisions between particles in a given shell during a drift step of
    length dt.  If a close encounter occures, particles are placed in deeper
    shells.  [fuel] bounds the re-entries after a collision changed the
    number of particles; [None] is a run that needs more of them. *)
Fixpoint reb_mercurana_encounter_predict (fuel : nat) (r : reb_simulation)
    (dt : float) (shell : nat) : option reb_simulation :=
  if rim_Nmaxshells (ri_mercurana r) <=? shell + 1 then
    (* does sub-shell exist? *)
    Some r
  else
    let r := predict_scan r dt shell in
    if negb (rim_collisions_N (ri_mercurana r) =? 0) then
      let N_before := r_N r in
      let r := reb_collision_search r in (* will resolve collisions *)
      let redo :=
        if negb (N_before =? r_N r) then
          (* Need to redo predict step as particles changed. *)
          match fuel with
          | O => None
          | S fuel' => reb_mercurana_encounter_predict fuel' r dt shell
          end
        else Some r in
      match redo with
      | Some r => Some (upd_rim (set_rim_collisions_N 0) r)
      | None => None
      end
    else Some r.
End Predict.

(** ** Drift and kick operators, and the integrator's entry points *)

(** The callbacks that the operator-splitting driver of integrator_eos.c
    receives: the drift step and the interaction step. *)
Definition drift_fn : Type :=
  reb_simulation -> float -> nat -> option reb_simulation.

Definition interaction_fn : Type :=
  reb_simulation -> float -> float -> nat -> reb_simulation.

(** [particles[mi].x += a*particles[mi].vx; ...; t_drifted[mi] += a;] *)
Definition advance_particle (a : float) (mi : nat) (r : reb_simulation)
    : reb_simulation :=
  let p := rd (r_particles r) mi in
  let p := set_pos p (p_x p + a * p_vx p)%float (p_y p) (p_z p) in
  let p := set_pos p (p_x p) (p_y p + a * p_vy p)%float (p_z p) in
  let p := set_pos p (p_x p) (p_y p) (p_z p + a * p_vz p)%float in
  let r := set_r_particles (<[mi := p]> (r_particles r)) r in
  upd_rim (fun rim =>
    set_rim_t_drifted
      (<[mi := (rd (rim_t_drifted rim) mi + a)%float]> (rim_t_drifted rim)) rim) r.

(** The three loops of the drift step that advance the particles the shell
    itself moves. *)
Definition drift_step_advance (a : float) (shell : nat) (r : reb_simulation)
    : reb_simulation :=
  let shellN_encounter := rd (rim_shellN_encounter (ri_mercurana r)) shell in
  let shellN_dominant := rd (rim_shellN_dominant (ri_mercurana r)) shell in
  let shellN_subdominant := rd (rim_shellN_subdominant (ri_mercurana r)) shell in
  let inshell_encounter := rim_ptr_inshell_encounter in
  let inshell_dominant := rim_ptr_inshell_dominant in
  let inshell_subdominant := rim_ptr_inshell_dominant in
  let r := for_loop 0 shellN_dominant (fun i r =>
    (* loop over all particles in shell (includes subshells) *)
    let mi := rd2 (rim_map_dominant (ri_mercurana r)) shell i in
    if inshell_load inshell_dominant (ri_mercurana r) mi =? shell
    then advance_particle a mi r else r) r in
  let r := for_loop 0 shellN_subdominant (fun i r =>
    let mi := rd2 (rim_map_subdominant (ri_mercurana r)) shell i in
    if (inshell_load inshell_subdominant (ri_mercurana r) mi =? shell)
       && (inshell_load inshell_encounter (ri_mercurana r) mi <=? shell)
    then advance_particle a mi r else r) r in
  for_loop 0 shellN_encounter (fun i r =>
    let mi := rd2 (rim_map_encounter (ri_mercurana r)) shell i in
    if (inshell_load inshell_subdominant (ri_mercurana r) mi <? shell)
       && (inshell_load inshell_encounter (ri_mercurana r) mi =? shell)
    then advance_particle a mi r else r) r.

(** The conversion of an unsigned count to [double]. *)
Definition double_of_nat (n : nat) : float :=
  of_uint63 (Uint63.of_Z (Z.of_nat n)).

(** [particles[mi].vx += y*particles[mi].ax; ...] *)
Definition kick_particle (y : float) (mi : nat) (r : reb_simulation)
    : reb_simulation :=
  let p := rd (r_particles r) mi in
  set_r_particles
    (<[mi := set_vel p (p_vx p + y * p_ax p)%float (p_vy p + y * p_ay p)%float
                       (p_vz p + y * p_az p)%float]> (r_particles r)) r.

Section Operators.
(** The host routines the operators call: the collision resolver, the
    gravity routine and its jerk, the interrupt flag, and the three entry
    points of the operator-splitting driver. *)
Variable reb_collision_search : reb_simulation -> reb_simulation.
Variable reb_update_acceleration : reb_simulation -> reb_simulation.
Variable reb_calculate_and_apply_jerk : reb_simulation -> float -> reb_simulation.
Variable reb_sigint : bool.
Variable reb_integrator_eos_preprocessor :
  reb_simulation -> float -> nat -> REB_EOS_TYPE -> drift_fn -> interaction_fn
  -> option reb_simulation.
Variable reb_integrator_eos_step :
  reb_simulation -> float -> float -> float -> nat -> REB_EOS_TYPE
  -> drift_fn -> interaction_fn -> option reb_simulation.
Variable reb_integrator_eos_postprocessor :
  reb_simulation -> float -> nat -> REB_EOS_TYPE -> drift_fn -> interaction_fn
  -> option reb_simulation.

(** Main Kernel Operator: Interaction step.
    y = timestep for acceleration, v = timestep for jerk (0 if not used) *)
Definition reb_integrator_mercurana_interaction_step : interaction_fn :=
  fun r y v shell =>
  let r := set_r_gravity REB_GRAVITY_MERCURANA r in
  let r := upd_rim (set_rim_current_shell shell) r in
  let r := reb_update_acceleration r in
  let r := if negb (v =? 0)%float then reb_calculate_and_apply_jerk r v else r in
  let shellN_encounter := rd (rim_shellN_encounter (ri_mercurana r)) shell in
  let shellN_dominant := rd (rim_shellN_dominant (ri_mercurana r)) shell in
  let shellN_subdominant := rd (rim_shellN_subdominant (ri_mercurana r)) shell in
  let r := for_loop 0 shellN_dominant (fun i r =>
    kick_particle y (rd2 (rim_map_dominant (ri_mercurana r)) shell i) r) r in
  let r := for_loop 0 shellN_encounter (fun i r =>
    kick_particle y (rd2 (rim_map_encounter (ri_mercurana r)) shell i) r) r in
  if 0 <? shell then
    for_loop 0 shellN_subdominant (fun i r =>
      let mi := rd2 (rim_map_subdominant (ri_mercurana r)) shell i in
      if rd (rim_inshell_encounter (ri_mercurana r)) mi <? shell
      then kick_particle y mi r (* do not apply acceleration twice *)
      else r) r
  else r.

(** [for (int i=0;i<n;i++) reb_integrator_eos_step(...)] *)
Fixpoint eos_steps (n : nat) (step : reb_simulation -> option reb_simulation)
    (r : reb_simulation) : option reb_simulation :=
  match n with
  | O => Some r
  | S n' => match step r with
            | Some r => eos_steps n' step r
            | None => None
            end
  end.

(** Main Kernel Operator: Drift step.  The drift step calls itself through
    the driver; [fuel] bounds the nesting, and [None] is a run that needs
    more of it. *)
Fixpoint reb_integrator_mercurana_drift_step (fuel : nat) : drift_fn :=
  fun r a shell =>
  match fuel with
  | O => None
  | S fuel' =>
    if reb_sigint then Some r else
    match reb_mercurana_encounter_predict reb_collision_search fuel' r a shell with
    | None => None
    | Some r =>
      let r := drift_step_advance a shell r in
      if (shell + 1 <? rim_Nmaxshells (ri_mercurana r))
         && ((0 <? rd (rim_shellN_encounter (ri_mercurana r)) (shell+1))
             || (0 <? rd (rim_shellN_dominant (ri_mercurana r)) (shell+1)))
      then
        (* does sub-shell exist?  Are there particles in it? *)
        let r := upd_rim (fun rim =>
          set_rim_Nmaxshellsused (Nat.max (rim_Nmaxshellsused rim) (shell+2)) rim)
          r in
        (* advance all sub-shell particles *)
        let n := if negb (rim_n1 (ri_mercurana r) =? 0)
                 then rim_n1 (ri_mercurana r) else rim_n0 (ri_mercurana r) in
        let n := if (0 <? rim_n0 (ri_mercurana r)) && (shell =? 0)
                 then rim_n0 (ri_mercurana r) (* use different number of
                                                 substeps for first shell *)
                 else n in
        let as_ := (a / double_of_nat n)%float in
        let drift := reb_integrator_mercurana_drift_step fuel' in
        let kick := reb_integrator_mercurana_interaction_step in
        match reb_integrator_eos_preprocessor r as_ (shell+1)
                (rim_phi1 (ri_mercurana r)) drift kick with
        | None => None
        | Some r =>
          match eos_steps n (fun r =>
                  reb_integrator_eos_step r as_ 1 1 (shell+1)
                    (rim_phi1 (ri_mercurana r)) drift kick) r with
          | None => None
          | Some r =>
            reb_integrator_eos_postprocessor r as_ (shell+1)
              (rim_phi1 (ri_mercurana r)) drift kick
          end
        end
      else Some (set_r_t (r_t r + a)%float r)
    end
  end.

(** [exp] and [pow] of <math.h>, and the longest drift coefficients of the
    driver's splitting schemes (the tables of integrator_eos.c). *)
Variable exp : float -> float.
Variable pow : float -> float -> float.
Variable reb_eos_lf4_a : float.
Variable reb_eos_lf6_a : list float.
Variable reb_eos_lf8_a : list float.
Variable reb_eos_lf4_2_a : float.
Variable reb_eos_lf8_6_4_a : list float.
Variable reb_eos_pmlf6_a : list float.
Variable reb_eos_plf7_6_4_a : list float.

(** Modelled from the spec: [reb_warning] of the host lives in rebound.c,
    which is not among the sources; it appends its message to the host's
    warning and error channel (sections 6 and 7 of the specification). *)
Definition reb_warning (r : reb_simulation) (msg : string) : reb_simulation :=
  set_r_messages (r_messages r ++ [(MSG_WARNING, msg)]) r.

(** Modelled from the spec: [reb_error] of the host, which is not among the
    sources either; it reports its message on the same channel, as an
    error. *)
Definition reb_error (r : reb_simulation) (msg : string) : reb_simulation :=
  set_r_messages (r_messages r ++ [(MSG_ERROR, msg)]) r.

(** Setting default switching function *)
Definition set_default_switching (r : reb_simulation) : reb_simulation :=
  match rim_L (ri_mercurana r) with
  | None =>
      upd_rim (fun rim =>
        set_rim_dLdr (Some (reb_integrator_mercurana_dLdr_infinity exp))
          (set_rim_L (Some (reb_integrator_mercurana_L_infinity exp)) rim)) r
  | Some _ => r
  end.

(** Apply post-processor to outermost splitting *)
Definition reb_integrator_mercurana_synchronize (fuel : nat)
    (r : reb_simulation) : option reb_simulation :=
  if rim_is_synchronized (ri_mercurana r) =? 0 then
    let r := set_default_switching r in
    match reb_integrator_eos_postprocessor r (r_dt r) 0
            (rim_phi0 (ri_mercurana r))
            (reb_integrator_mercurana_drift_step fuel)
            reb_integrator_mercurana_interaction_step with
    | None => None
    | Some r => Some (upd_rim (set_rim_is_synchronized 1) r)
    end
  else Some r.

(** Machine independent implementation of the cube root, [pow] with
    exponent 1./3., using Newton's method. *)
Definition sqrt3 (a : float) : float :=
  Nat.iter 200 (fun x => let x2 := (x*x)%float in (x + (a/x2 - x)/3)%float) 1%float.

(** The [switch(phi)] of part1; the case [REB_EOS_LF8_6_4] has no [break]
    and falls into the next one. *)
Definition longest_drift_step_in_shell (phi : REB_EOS_TYPE) : float :=
  match phi with
  | REB_EOS_LF | REB_EOS_PMLF4 => 0.5%float
  | REB_EOS_LF4 => reb_eos_lf4_a
  | REB_EOS_LF6 => (rd reb_eos_lf6_a 0 + rd reb_eos_lf6_a 1)%float
  | REB_EOS_LF8 => (rd reb_eos_lf8_a 0 + rd reb_eos_lf8_a 1)%float
  | REB_EOS_LF4_2 => (1 - 2 * reb_eos_lf4_2_a)%float
  | REB_EOS_LF8_6_4 => rd reb_eos_pmlf6_a 1
  | REB_EOS_PMLF6 => rd reb_eos_pmlf6_a 1
  | REB_EOS_PLF7_6_4 => rd reb_eos_plf7_6_4_a 0
  end.

(** The critical radii of shell [s], written into [dcrit[s][0..N)]. *)
Definition dcrit_row (r : reb_simulation) (dt0 dt_shell : float) (s : nat)
    (dcrit : list (list float)) : list (list float) :=
  let rim := ri_mercurana r in
  for_loop 0 (r_N r) (fun i dcrit =>
    let mi := p_m (rd (r_particles r) i) in
    let dgrav := sqrt3 (r_G r * dt0 * dt0 * mi / rim_kappa rim)%float in
    let dgrav :=
      if negb (rim_Gm0r0 rim =? 0)%float then
        let dgravrel :=
          sqrt (sqrt (r_G r * r_G r * dt0 * dt0 * mi * mi
                      / rim_Gm0r0 rim / rim_kappa rim))%float in
        MAX dgrav dgravrel
      else dgrav in
    if negb (rim_alpha rim =? 0.5)%float then
      (* might not machine independent! *)
      wr2 dcrit s i (pow (dt_shell / dt0)%float (rim_alpha rim) * dgrav)%float
    else
      wr2 dcrit s i (sqrt (dt_shell / dt0) * dgrav)%float) dcrit.

Definition recalculate_dcrit (r : reb_simulation) : reb_simulation :=
  let rim := ri_mercurana r in
  let dt0 := r_dt r in
  let '(dcrit, _) :=
    for_loop 0 (rim_Nmaxshells rim) (fun s '(dcrit, dt_shell) =>
      (* innermost shell has no dcrit *)
      let dcrit := dcrit_row r dt0 dt_shell s dcrit in
      let phi := if s =? 0 then rim_phi0 rim else rim_phi1 rim in
      let dt_shell := (dt_shell * longest_drift_step_in_shell phi)%float in
      let n := if (0 <? s) && negb (rim_n1 rim =? 0)
               then rim_n1 rim (* use different number of substeps for deep
                                  shells; if n1 is not set, keep using n0 *)
               else rim_n0 rim in
      (dcrit, (dt_shell / double_of_nat n)%float))
      (rim_dcrit rim, r_dt r) in
  upd_rim (set_rim_dcrit dcrit) r.

(** The allocation block of part1.  A block obtained from [malloc] or grown
    by [realloc] is modelled with zeroed new cells; [realloc] keeps the old
    cells.  [maxdrift_encounter] and [maxdrift_dominant] are obtained by
    [realloc(rim->t_drifted, ...)], hence start from the cells of
    [t_drifted]; where [realloc] returns the block it is given, the three
    pointers name one block of memory in the program.  The arrays are
    three lists here: what is stated of [t_drifted] and of the maxdrift
    arrays is stated of the cells as the function in question reads and
    writes them, not of their being apart. *)
Definition part1_allocate (r : reb_simulation) : reb_simulation :=
  let N := r_N r in
  upd_rim (fun rim =>
    let S := rim_Nmaxshells rim in
    let rim := set_rim_dcrit (replicate S (replicate N 0%float)) rim in
    let rim := set_rim_map_encounter (replicate S (replicate N 0)) rim in
    let rim := set_rim_map_dominant (replicate S (replicate N 0)) rim in
    let rim := set_rim_map_subdominant (replicate S (replicate N 0)) rim in
    let rim := set_rim_inshell_encounter
                 (resize N 0 (rim_inshell_encounter rim)) rim in
    let rim := set_rim_inshell_dominant
                 (resize N 0 (rim_inshell_dominant rim)) rim in
    let rim := set_rim_inshell_subdominant
                 (resize N 0 (rim_inshell_subdominant rim)) rim in
    let rim := set_rim_shellN_encounter
                 (resize S 0 (rim_shellN_encounter rim)) rim in
    let rim := set_rim_shellN_dominant
                 (resize S 0 (rim_shellN_dominant rim)) rim in
    let rim := set_rim_shellN_subdominant
                 (resize S 0 (rim_shellN_subdominant rim)) rim in
    let rim := set_rim_t_drifted (resize N 0%float (rim_t_drifted rim)) rim in
    let rim := set_rim_maxdrift_encounter
                 (resize N 0%float (rim_t_drifted rim)) rim in
    let rim := set_rim_maxdrift_dominant
                 (resize N 0%float (rim_t_drifted rim)) rim in
    let rim := set_rim_p0 (resize N particle0 (rim_p0 rim)) rim in
    let rim := set_rim_allocatedN N rim in
    (* If particle number increased (or this is the first step), need to
       calculate critical radii *)
    set_rim_recalculate_dcrit_this_timestep 1 rim) r.

(** The configuration checks at the top of part1: the error message of the
    first check that fails. *)
Definition part1_config_error (rim : reb_simulation_integrator_mercurana)
    : option string :=
  if rim_Nmaxshells rim <=? 0 then
    Some "Nmaxshells needs to be larger than 0."%string
  else if (rim_Nmaxshells rim =? 1) && negb (rim_n0 rim =? 0) then
    Some "Nmaxshells>=2 is required if n0 is greater than 0."%string
  else if (rim_Nmaxshells rim =? 2) && negb (rim_n1 rim =? 0) then
    Some "Nmaxshells>=3 is required if n1 is greater than 0."%string
  else if (1 <? rim_Nmaxshells rim) && (rim_kappa rim <=? 0)%float then
    Some "kappa>0 is required if Nmaxshells>1."%string
  else None.

(** Part 1 only contains logic for setting up all the data structures.
    The actual integration is done in part 2. *)
Definition reb_integrator_mercurana_part1 (fuel : nat) (r : reb_simulation)
    : option reb_simulation :=
  let r := if negb (r_var_config_N r =? 0)
           then reb_warning r "Mercurana does not work with variational equations."
           else r in
  match part1_config_error (ri_mercurana r) with
  | Some msg => Some (reb_error r msg)
  | None =>
    let r := if rim_allocatedN (ri_mercurana r) <? r_N r
             then part1_allocate r else r in
    let r :=
      if negb (rim_recalculate_dcrit_this_timestep (ri_mercurana r) =? 0) then
        let r := upd_rim (set_rim_recalculate_dcrit_this_timestep 0) r in
        let r :=
          if rim_is_synchronized (ri_mercurana r) =? 0 then
            match reb_integrator_mercurana_synchronize fuel r with
            | None => None
            | Some r =>
              Some (reb_warning r
                "MERCURANA: Recalculating dcrit but pos/vel were not synchronized before.")
            end
          else Some r in
        match r with
        | None => None
        | Some r => Some (recalculate_dcrit r)
        end
      else Some r in
    match r with
    | None => None
    | Some r =>
      (* Calculate collisions only with DIRECT method *)
      let r := match r_collision r with
               | REB_COLLISION_NONE | REB_COLLISION_DIRECT => r
               | _ => reb_warning r
                        "Mercurana only works with a direct collision search."
               end in
      (* Calculate gravity with special function *)
      let r := match r_gravity r with
               | REB_GRAVITY_BASIC | REB_GRAVITY_MERCURANA => r
               | _ => reb_warning r
                        "Mercurana has it's own gravity routine. Gravity routine set by the user will be ignored."
               end in
      let r := set_r_gravity REB_GRAVITY_NONE r in (* Only temporary *)
      Some (set_default_switching r)
    end
  end.

(** This routine performs one global timestep *)
Definition reb_integrator_mercurana_part2 (fuel : nat) (r : reb_simulation)
    : option reb_simulation :=
  if rim_allocatedN (ri_mercurana r) <? r_N r then
    (* Error occured earlier. *)
    Some r
  else
    let r := for_loop 0 (r_N r) (fun i r =>
      upd_rim (fun rim =>
        let rim := set_rim_t_drifted (<[i := 0%float]> (rim_t_drifted rim)) rim in
        set_rim_p0 (<[i := rd (r_particles r) i]> (rim_p0 rim)) rim) r) r in
    let drift := reb_integrator_mercurana_drift_step fuel in
    let kick := reb_integrator_mercurana_interaction_step in
    let r := if negb (rim_is_synchronized (ri_mercurana r) =? 0)
             then reb_integrator_eos_preprocessor r (r_dt r) 0
                    (rim_phi0 (ri_mercurana r)) drift kick
             else Some r in
    match r with
    | None => None
    | Some r =>
      match reb_integrator_eos_step r (r_dt r) 1 1 0
              (rim_phi0 (ri_mercurana r)) drift kick with
      | None => None
      | Some r =>
        let r := upd_rim (set_rim_is_synchronized 0) r in
        let r := if negb (rim_safe_mode (ri_mercurana r) =? 0)
                 then reb_integrator_mercurana_synchronize fuel r
                 else Some r in
        match r with
        | None => None
        | Some r => Some (set_r_dt_last_done (r_dt r) r)
        end
      end
    end.
End Operators.

(** * Definitions for the statements *)

Local Open Scope float_scope.

(** A float that is NaN or a zero: what [0 * v] can be. *)
Definition nan_or_zero (z : float) : Prop :=
  Prim2SF z = S754_nan \/ exists s, Prim2SF z = S754_zero s.

Local Open Scope Z_scope.

(** The second rounding of [binary_round_aux], on its own. *)
Definition round_finish (m2 e1 : Z) : spec_float :=
  let '(mrs, e2) := shr_fexp prec emax m2 e1 loc_Exact in
  match shr_m mrs with
  | Z0 => S754_zero false
  | Z.pos m => if e2 <=? emax - prec then S754_finite false m e2 else S754_infinity false
  | Z.neg _ => S754_nan
  end.

Definition SF_one : spec_float := S754_finite false 4503599627370496 (-52).

Local Open Scope float_scope.

(** The key of a number; NaN has none. *)
Definition SFkey (s : spec_float) : option (Z * Z * Z) :=
  match s with
  | S754_nan => None
  | S754_zero _ => Some (0, 0, 0)%Z
  | S754_infinity false => Some (2, 0, 0)%Z
  | S754_infinity true => Some (-2, 0, 0)%Z
  | S754_finite false m e => Some (1, e, Zpos m)%Z
  | S754_finite true m e => Some (-1, - e, Zneg m)%Z
  end.

(** The strict and the weak lexicographic order of keys. *)
Definition key_lt (k k' : Z * Z * Z) : Prop :=
  let '(a, b, c) := k in
  let '(a', b', c') := k' in
  (a < a' \/ (a = a' /\ (b < b' \/ (b = b' /\ c < c'))))%Z.

Definition key_le (k k' : Z * Z * Z) : Prop :=
  let '(a, b, c) := k in
  let '(a', b', c') := k' in
  (a < a' \/ (a = a' /\ (b < b' \/ (b = b' /\ c <= c'))))%Z.

Local Open Scope nat_scope.

(** What the steps of the scans leave alone. *)
Record scan_frame (r r' : reb_simulation) : Prop := {
  fr_N : r_N r' = r_N r;
  fr_collision : r_collision r' = r_collision r;
  fr_Nmaxshells : rim_Nmaxshells (ri_mercurana r') = rim_Nmaxshells (ri_mercurana r);
  fr_N_dominant : rim_N_dominant (ri_mercurana r') = rim_N_dominant (ri_mercurana r);
  fr_dcrit : rim_dcrit (ri_mercurana r') = rim_dcrit (ri_mercurana r);
  fr_inshell_subdominant :
    rim_inshell_subdominant (ri_mercurana r') = rim_inshell_subdominant (ri_mercurana r);
  fr_p0 : rim_p0 (ri_mercurana r') = rim_p0 (ri_mercurana r);
  fr_t_drifted : rim_t_drifted (ri_mercurana r') = rim_t_drifted (ri_mercurana r)
}.

(** ** Example simulations *)

(** A particle of unit mass with the given position, velocity and radius. *)
Definition example_particle (x y z vx vy vz radius : float) : reb_particle :=
  mk_particle x y z vx vy vz 0 0 0 1 radius.

(** An integrator with [S] shells allocated for [N] particles, [Nd] of them
    dominant: every critical radius is [dc], every other cell is zero. *)
Definition example_rim (S N Nd : nat) (dc : float)
    : reb_simulation_integrator_mercurana :=
  mk_rim REB_EOS_LF REB_EOS_LF 2 0 0x1p-10%float 0%float 0.5%float 1 S 1 0 1
    None None 0 Nd N 0
    (replicate S (replicate N dc))
    (replicate S (replicate N 0)) (replicate S (replicate N 0))
    (replicate S (replicate N 0))
    (replicate N 0) (replicate N 0) (replicate N 0)
    (replicate S 0) (replicate S 0) (replicate S 0)
    (replicate N 0%float) (replicate N 0%float) (replicate N 0%float)
    (replicate N particle0).

(** A simulation of the particles [ps] at the start of a global step of
    length 1: the snapshot [p0] holds the particles. *)
Definition example_sim (ps : list reb_particle) (S Nd : nat) (dc : float)
    (c : REB_COLLISION) : reb_simulation :=
  mk_sim (length ps) ps 1%float 1%float 0%float 0%float 0 c REB_GRAVITY_BASIC
    [] 0 [] (set_rim_p0 ps (example_rim S (length ps) Nd dc)).

(** Two particles at rest, one unit apart. *)
Definition two_at_rest (radius : float) : list reb_particle :=
  [example_particle 0 0 0 0 0 0 radius; example_particle 1 0 0 0 0 0 radius].

(** Two encounter particles within each other's critical radius, three
    shells, after the prediction of shell 0 has put both into shell 1. *)
Definition sim_descended : reb_simulation :=
  predict_scan (example_sim (two_at_rest 0) 3 0 2%float REB_COLLISION_NONE) 1%float 0.

(** The same two particles after shell 1 has put them into shell 2, and after
    they have since moved a hundred units apart. *)
Definition sim_separated : reb_simulation :=
  set_r_particles
    [example_particle 0 0 0 0 0 0 0; example_particle 100 0 0 0 0 0 0]
    (predict_scan sim_descended 1%float 1).

(** One dominant and one subdominant particle within each other's critical
    radius. *)
Definition sim_dom_sub : reb_simulation :=
  example_sim (two_at_rest 0) 3 1 2%float REB_COLLISION_NONE.

(** Two overlapping dominant particles of radius 1 in an integrator of two
    shells with direct collisions, after the prediction of shell 0 has
    recorded their collision and put both into shell 1, and a resolver that
    leaves the simulation alone has returned. *)
Definition sim_deepest : reb_simulation :=
  upd_rim (set_rim_collisions_N 0)
    (predict_scan (example_sim (two_at_rest 1) 2 2 2%float REB_COLLISION_DIRECT)
       1%float 0).

(** The same two overlapping particles in an integrator of a single shell:
    [Nmaxshells] is 1 and [n0] is 0, a configuration that part1 accepts.  The
    arrays are as part1 allocates them. *)
Definition sim_one_shell : reb_simulation :=
  upd_rim (fun rim =>
    mk_rim (rim_phi0 rim) (rim_phi1 rim) 0 (rim_n1 rim) (rim_kappa rim)
      (rim_Gm0r0 rim) (rim_alpha rim) (rim_safe_mode rim) (rim_Nmaxshells rim)
      (rim_Nmaxshellsused rim) (rim_recalculate_dcrit_this_timestep rim)
      (rim_is_synchronized rim) (rim_L rim) (rim_dLdr rim) (rim_collisions_N rim)
      (rim_N_dominant rim) (rim_allocatedN rim) (rim_current_shell rim)
      (rim_dcrit rim) (rim_map_encounter rim) (rim_map_dominant rim)
      (rim_map_subdominant rim) (rim_inshell_encounter rim)
      (rim_inshell_dominant rim) (rim_inshell_subdominant rim)
      (rim_shellN_encounter rim) (rim_shellN_dominant rim)
      (rim_shellN_subdominant rim) (rim_t_drifted rim)
      (rim_maxdrift_encounter rim) (rim_maxdrift_dominant rim) (rim_p0 rim))
    (example_sim (two_at_rest 1) 1 2 2%float REB_COLLISION_DIRECT).

(** Three encounter particles at the second sub-step of length 1/2 in shell
    1 of three shells.  Particles 0 and 1 are in shell 1 and have drifted for
    1/2; particle 2 is in shell 0 only and has drifted for 1.  Particle 0 has
    moved four units since the snapshot, beyond its maxdrift of one, and is
    now one unit away from particle 2.  [stale] is the content of the cell of
    [map_encounter[1]] behind its two members. *)
Definition sim_maxdrift (stale : nat) : reb_simulation :=
  let ps0 := [example_particle 0 0 0 8 0 0 0; example_particle 1 0 0 0 0 0 0;
              example_particle 4 0 0 1 0 0 0] in
  let ps := [example_particle 4 0 0 8 0 0 0; example_particle 1 0 0 0 0 0 0;
             example_particle 5 0 0 1 0 0 0] in
  upd_rim (fun rim =>
    let rim := set_rim_map_encounter [[0; 1; 2]; [0; 1; stale]; [0; 0; 0]] rim in
    let rim := set_rim_map_subdominant [[0; 1; 2]; [0; 0; 0]; [0; 0; 0]] rim in
    let rim := set_rim_shellN_encounter [3; 2; 0] rim in
    let rim := set_rim_shellN_subdominant [3; 0; 0] rim in
    let rim := set_rim_inshell_encounter [1; 1; 0] rim in
    let rim := set_rim_maxdrift_encounter [1%float; maxdrift_init; maxdrift_init] rim in
    let rim := set_rim_maxdrift_dominant [maxdrift_init; maxdrift_init; maxdrift_init] rim in
    let rim := set_rim_t_drifted [0.5%float; 0.5%float; 1%float] rim in
    set_rim_p0 ps0 rim)
    (example_sim ps 3 0 2%float REB_COLLISION_NONE).

(** A simulation that has run before, so that its arrays are allocated, and
    whose [kappa] has since been set to zero. *)
Definition sim_bad_kappa : reb_simulation :=
  upd_rim (fun rim =>
    mk_rim (rim_phi0 rim) (rim_phi1 rim) (rim_n0 rim) (rim_n1 rim) 0%float
      (rim_Gm0r0 rim) (rim_alpha rim) (rim_safe_mode rim) (rim_Nmaxshells rim)
      (rim_Nmaxshellsused rim) (rim_recalculate_dcrit_this_timestep rim)
      (rim_is_synchronized rim) (rim_L rim) (rim_dLdr rim) (rim_collisions_N rim)
      (rim_N_dominant rim) (rim_allocatedN rim) (rim_current_shell rim)
      (rim_dcrit rim) (rim_map_encounter rim) (rim_map_dominant rim)
      (rim_map_subdominant rim) (rim_inshell_encounter rim)
      (rim_inshell_dominant rim) (rim_inshell_subdominant rim)
      (rim_shellN_encounter rim) (rim_shellN_dominant rim)
      (rim_shellN_subdominant rim) (rim_t_drifted rim)
      (rim_maxdrift_encounter rim) (rim_maxdrift_dominant rim) (rim_p0 rim))
    (example_sim (two_at_rest 0) 3 0 2%float REB_COLLISION_NONE).

(** The pair of the rounding example of the predictor: a particle at
    (2^-40, 2^-40 + 3 ulp, 0) moving with velocity (1,-1,0), a particle at
    rest at the origin, and a drift interval of 2^1000. *)
Definition skew_p1 : reb_particle :=
  example_particle 0x1p-40 0x1.0000000000003p-40 0 1 (-1) 0 0.
Definition skew_p2 : reb_particle := example_particle 0 0 0 0 0 0 0.
Definition skew_dt : float := 0x1p+1000%float.

(** A particle at (1,0,0) that moves towards a particle at rest at the origin
    with unit speed. *)
Definition approach_p1 : reb_particle := example_particle 1 0 0 (-1) 0 0 0.
Definition approach_p2 : reb_particle := example_particle 0 0 0 0 0 0 0.

(** Two overlapping dominant particles of radius 1, three shells, direct
    collisions, and an empty collision buffer. *)
Definition sim_direct : reb_simulation :=
  example_sim (two_at_rest 1) 3 2 2%float REB_COLLISION_DIRECT.

(** An instance of [exp] for the closed examples: the limits that Annex F of
    the C standard prescribes at the infinities, and the first-order
    expansion [1 + x] elsewhere. *)
Definition exp_limits (x : float) : float :=
  if (x =? neg_infinity)%float then 0%float
  else if (x =? infinity)%float then infinity
  else (1 + x)%float.

(** Equality of roles is decidable. *)
#[global] Instance role_eq_dec : EqDecision role.
Proof. solve_decision. Defined.

(** The members of [map_X[s]], read from the integrator. *)
Definition members (X : role) (s : nat) (rim : reb_simulation_integrator_mercurana)
    : list nat :=
  take (rd (rim_shellN X rim) s) (rim_map X rim !!! s).

(** The invariant of the pair scans: the maps of the shell stay as they
    are, and every member of the next shell is one of the first [n X] cells
    of the shell's map. *)
Definition rim_nested (shell : nat) (rows : role -> list nat) (n : role -> nat)
    (rim : reb_simulation_integrator_mercurana) : Prop :=
  forall X, rim_map X rim !!! shell = rows X
            /\ forall x, x ∈ members X (shell + 1) rim -> x ∈ take (n X) (rows X).

(** What the phases before the pair scans do to the maps: rows keep their
    lengths, the lengths [shellN_X[shell+1]] are not touched, the lengths
    [shellN_X[shell]] do not shrink, and no collision is recorded. *)
Record grows (shell : nat) (r r' : reb_simulation) : Prop := {
  g_len : forall X s, length (rim_map X (ri_mercurana r') !!! s)
                      = length (rim_map X (ri_mercurana r) !!! s);
  g_next : forall X, rd (rim_shellN X (ri_mercurana r')) (shell + 1)
                     = rd (rim_shellN X (ri_mercurana r)) (shell + 1);
  g_cnt : forall X, rd (rim_shellN X (ri_mercurana r)) shell
                    <= rd (rim_shellN X (ri_mercurana r')) shell;
  g_collision : r_collision r' = r_collision r;
  g_collisions_N : rim_collisions_N (ri_mercurana r') = rim_collisions_N (ri_mercurana r);
  g_N : r_N r' = r_N r;
  g_N_dominant : rim_N_dominant (ri_mercurana r') = rim_N_dominant (ri_mercurana r);
  g_buffer : r_collisions r' = r_collisions r;
  g_allocated : r_collisions_allocatedN r' = r_collisions_allocatedN r
}.

#[global] Instance grows_refl shell : Reflexive (grows shell).
Proof. intros r. constructor; auto. Qed.

#[global] Instance grows_trans shell : Transitive (grows shell).
Proof.
  intros r1 r2 r3 [] []. constructor; intros; try congruence.
  etransitivity; eauto.
Qed.

(** The same with the lengths [shellN_X] untouched throughout. *)
Record same_shape (r r' : reb_simulation) : Prop := {
  ss_len : forall X s, length (rim_map X (ri_mercurana r') !!! s)
                       = length (rim_map X (ri_mercurana r) !!! s);
  ss_shellN : forall X, rim_shellN X (ri_mercurana r') = rim_shellN X (ri_mercurana r);
  ss_collision : r_collision r' = r_collision r;
  ss_collisions_N : rim_collisions_N (ri_mercurana r') = rim_collisions_N (ri_mercurana r);
  ss_N : r_N r' = r_N r;
  ss_N_dominant : rim_N_dominant (ri_mercurana r') = rim_N_dominant (ri_mercurana r);
  ss_buffer : r_collisions r' = r_collisions r;
  ss_allocated : r_collisions_allocatedN r' = r_collisions_allocatedN r
}.

#[global] Instance same_shape_refl : Reflexive same_shape.
Proof. intros r. constructor; auto. Qed.

#[global] Instance same_shape_trans : Transitive same_shape.
Proof. intros r1 r2 r3 [] []. constructor; intros; congruence. Qed.

Record scan_keeps (shell : nat) (r r' : reb_simulation) : Prop := {
  sk_cnt : forall X, rd (rim_shellN X (ri_mercurana r')) shell
                     = rd (rim_shellN X (ri_mercurana r)) shell;
  sk_collision : r_collision r' = r_collision r;
  sk_collisions_N : is_direct (r_collision r) = false ->
                    rim_collisions_N (ri_mercurana r') = rim_collisions_N (ri_mercurana r);
  sk_particles : r_particles r' = r_particles r;
  sk_rows : forall X, rim_map X (ri_mercurana r') !!! shell
                      = rim_map X (ri_mercurana r) !!! shell
}.

#[global] Instance scan_keeps_refl shell : Reflexive (scan_keeps shell).
Proof. intros r. constructor; auto. Qed.

#[global] Instance scan_keeps_trans shell : Transitive (scan_keeps shell).
Proof.
  intros r1 r2 r3 [] []. constructor; intros; try congruence.
  rewrite sk_collisions_N1, sk_collisions_N0; auto. congruence.
Qed.

(** The state in which the pair scans start: the resets, then the setup of
    shell 0 or the maxdrift phase. *)
Definition predict_before_scans (r : reb_simulation) (dt : float) (shell : nat)
    : reb_simulation :=
  let shellN_encounter := rd (rim_shellN_encounter (ri_mercurana r)) shell in
  let r := upd_rim (set_rim_collisions_N 0) r in
  let r := upd_rim (fun rim =>
    let rim := set_rim_shellN_encounter
                 (<[shell+1 := 0]> (rim_shellN_encounter rim)) rim in
    let rim := set_rim_shellN_dominant
                 (<[shell+1 := 0]> (rim_shellN_dominant rim)) rim in
    set_rim_shellN_subdominant
      (<[shell+1 := 0]> (rim_shellN_subdominant rim)) rim) r in
  if shell =? 0 then
    predict_setup rim_ptr_inshell_encounter rim_ptr_inshell_dominant
      rim_ptr_inshell_dominant r
  else predict_maxdrift rim_ptr_inshell_encounter shellN_encounter dt shell r.

(** The lengths the pair scans iterate to: the local variables [shellN_X]. *)
Definition scanned (X : role) (r : reb_simulation) (dt : float) (shell : nat) : nat :=
  if shell =? 0
  then rd (rim_shellN X (ri_mercurana (predict_before_scans r dt shell))) shell
  else rd (rim_shellN X (ri_mercurana r)) shell.

(** The maps of shell [shell] have room for every particle, and the lengths
    the scans start from do not exceed the number of particles. *)
Record shell_allocated (r : reb_simulation) (shell : nat) : Prop := {
  sa_dominant : rim_N_dominant (ri_mercurana r) <= r_N r;
  sa_rows : forall X, r_N r <= length (rim_map X (ri_mercurana r) !!! shell);
  sa_lengths : shell <> 0 -> forall X, rd (rim_shellN X (ri_mercurana r)) shell <= r_N r
}.

(** A particle after one advance by [a]. *)
Definition advanced (a : float) (p : reb_particle) : reb_particle :=
  set_pos p (p_x p + a * p_vx p)%float (p_y p + a * p_vy p)%float
            (p_z p + a * p_vz p)%float.

(** The three tests of the drift step, as the loops evaluate them: through
    the pointer [inshell_subdominant], which points to [inshell_dominant]. *)
Definition advances_dominant (shell : nat)
    (rim : reb_simulation_integrator_mercurana) (m : nat) : bool :=
  inshell_load rim_ptr_inshell_dominant rim m =? shell.

Definition advances_subdominant (shell : nat)
    (rim : reb_simulation_integrator_mercurana) (m : nat) : bool :=
  (inshell_load rim_ptr_inshell_dominant rim m =? shell)
  && (inshell_load rim_ptr_inshell_encounter rim m <=? shell).

Definition advances_encounter (shell : nat)
    (rim : reb_simulation_integrator_mercurana) (m : nat) : bool :=
  (inshell_load rim_ptr_inshell_dominant rim m <? shell)
  && (inshell_load rim_ptr_inshell_encounter rim m =? shell).

(** What an advance leaves alone. *)
Record same_maps (r r' : reb_simulation) : Prop := {
  sm_map : forall X, rim_map X (ri_mercurana r') = rim_map X (ri_mercurana r);
  sm_shellN : forall X, rim_shellN X (ri_mercurana r') = rim_shellN X (ri_mercurana r);
  sm_inshell : forall p m, inshell_load p (ri_mercurana r') m
                           = inshell_load p (ri_mercurana r) m
}.

#[global] Instance same_maps_refl : Reflexive same_maps.
Proof. intros r. constructor; auto. Qed.

#[global] Instance same_maps_trans : Transitive same_maps.
Proof. intros r1 r2 r3 [] []. constructor; intros; congruence. Qed.

(** No particle that passes the test [c] fills two of the first [n] cells of
    [row]. *)
Definition once_listed (c : nat -> bool) (n : nat) (row : list nat) : Prop :=
  forall i j, i < n -> j < n -> row !!! i = row !!! j -> c (row !!! i) = true -> i = j.

(** One loop of the drift step over the first [n] cells of [map_X[shell]],
    with the test [c rim m]. *)
Definition advance_loop (X : role) (c : reb_simulation_integrator_mercurana -> nat -> bool)
    (a : float) (shell n : nat) (r : reb_simulation) : reb_simulation :=
  for_loop 0 n (fun i r =>
    let mi := rd2 (rim_map X (ri_mercurana r)) shell i in
    if c (ri_mercurana r) mi then advance_particle a mi r else r) r.

(** The state of particle [k]: its cell of [particles] and of [t_drifted]. *)
Definition cell (r : reb_simulation) (k : nat) : reb_particle * float :=
  (rd (r_particles r) k, rd (rim_t_drifted (ri_mercurana r)) k).

Definition cell_advanced (a : float) (c : reb_particle * float) : reb_particle * float :=
  (advanced a (fst c), (snd c + a)%float).

(** The ghost box that a collision record stores. *)
Definition ghostbox_of (p : reb_particle) : reb_ghostbox :=
  mk_ghostbox (p_x p) (p_y p) (p_z p) (p_vx p) (p_vy p) (p_vz p).

(** A collision of [i] and [j] is among the [collisions_N] records. *)
Definition recorded (r : reb_simulation) (i j : nat) : Prop :=
  exists k, k < rim_collisions_N (ri_mercurana r)
            /\ r_collisions r !! k
               = Some (mk_collision i j (ghostbox_of (rd (r_particles r) i))).

(** The collision buffer has its allocated length and holds the records. *)
Definition collisions_ok (r : reb_simulation) : Prop :=
  length (r_collisions r) = r_collisions_allocatedN r
  /\ rim_collisions_N (ri_mercurana r) <= r_collisions_allocatedN r.

(** The test [rmin2< rsum*rsum] of the scans. *)
Definition overlap (r : reb_simulation) (dt : float) (mi mj : nat) : bool :=
  let rmin2 :=
    reb_mercurana_predict_rmin2 (rd (r_particles r) mi) (rd (r_particles r) mj) dt in
  let rsum := (p_r (rd (r_particles r) mi) + p_r (rd (r_particles r) mj))%float in
  (rmin2 <? rsum * rsum)%float.

(** Steps that keep the collision buffer in order and the records in it. *)
Definition keeps_records (r r' : reb_simulation) : Prop :=
  collisions_ok r ->
  collisions_ok r' /\ forall i j, recorded r i j -> recorded r' i j.

#[global] Instance keeps_records_refl : Reflexive keeps_records.
Proof. intros r H. auto. Qed.

#[global] Instance keeps_records_trans : Transitive keeps_records.
Proof.
  intros r1 r2 r3 H12 H23 H1. destruct (H12 H1) as [H2 Hr].
  destruct (H23 H2) as [H3 Hr']. auto.
Qed.

(** The test of the loop over [map_X[shell]]. *)
Definition advances (X : role) (shell : nat)
    (rim : reb_simulation_integrator_mercurana) (m : nat) : bool :=
  match X with
  | Dominant => advances_dominant shell rim m
  | Subdominant => advances_subdominant shell rim m
  | Encounter => advances_encounter shell rim m
  end.

(** The loop over [map_X[shell]] meets particle [k] and its test passes. *)
Definition advanced_in (X : role) (shell : nat) (r : reb_simulation) (k : nat) : bool :=
  bool_decide (k ∈ shell_members X shell r) && advances X shell (ri_mercurana r) k.

(** The shell maps of a state the drift step can start from: the lengths fit
    the rows, no map lists twice a particle that passes the test of its
    loop, and no particle is both dominant and subdominant. *)
Record maps_wf (r : reb_simulation) (shell : nat) : Prop := {
  wf_lengths : forall X, rd (rim_shellN X (ri_mercurana r)) shell
                         <= length (rim_map X (ri_mercurana r) !!! shell);
  wf_once : forall X, once_listed (advances X shell (ri_mercurana r))
                        (rd (rim_shellN X (ri_mercurana r)) shell)
                        (rim_map X (ri_mercurana r) !!! shell);
  wf_disjoint : forall m, m ∈ shell_members Dominant shell r ->
                          m ∉ shell_members Subdominant shell r
}.

(** The configurations that part1 rejects. *)
Definition invalid_config (rim : reb_simulation_integrator_mercurana) : Prop :=
  rim_Nmaxshells rim <= 0
  \/ (0 < rim_n0 rim /\ rim_Nmaxshells rim = 1)
  \/ (0 < rim_n1 rim /\ rim_Nmaxshells rim = 2)
  \/ ((rim_kappa rim <=? 0)%float = true /\ 1 < rim_Nmaxshells rim).

Local Open Scope float_scope.

(** An instance of [exp] that is positive and finite on the finite numbers:
    the limits at the infinities, [1/(1-x)] below zero and [1+x] from zero
    on. *)
Definition exp_rational (x : float) : float :=
  if x =? neg_infinity then 0
  else if x =? infinity then infinity
  else if x <? 0 then 1 / (1 - x)
  else 1 + x.

Local Open Scope nat_scope.

(** Equality of the pointer names is decidable. *)
#[global] Instance inshell_ptr_eq_dec : EqDecision inshell_ptr.
Proof. solve_decision. Defined.

(** The array a pointer names. *)
Definition inshell_array (p : inshell_ptr) (rim : reb_simulation_integrator_mercurana)
    : list nat :=
  match p with
  | rim_ptr_inshell_encounter => rim_inshell_encounter rim
  | rim_ptr_inshell_dominant => rim_inshell_dominant rim
  | rim_ptr_inshell_subdominant => rim_inshell_subdominant rim
  end.

(** The pointer through which the scans test and mark a particle in role [X]:
    the local [inshell_subdominant] of predict is [rim->inshell_dominant]. *)
Definition inshell_of (X : role) : inshell_ptr :=
  match X with
  | Encounter => rim_ptr_inshell_encounter
  | Dominant | Subdominant => rim_ptr_inshell_dominant
  end.

(** The members of shell [s] that have been marked through pointer [p]. *)
Definition marked (p : inshell_ptr) (s : nat) (rim : reb_simulation_integrator_mercurana)
    : list nat :=
  match p with
  | rim_ptr_inshell_encounter => members Encounter s rim
  | rim_ptr_inshell_dominant => members Dominant s rim ++ members Subdominant s rim
  | rim_ptr_inshell_subdominant => []
  end.

(** The invariant of the pair scans of shell [shell] over [L] particles: the
    maps of the shell are [rows]; the maps of the next shell list no particle
    twice, also not once as dominant and once as subdominant; and a particle
    is in the next shell exactly when its cell of inshell holds [shell+1],
    the other cells being as [i0] gives them. *)
Record promoted_inv (shell L : nat) (rows : role -> list nat)
    (i0 : inshell_ptr -> nat -> nat)
    (rim : reb_simulation_integrator_mercurana) : Prop := {
  pi_rows : forall X, rim_map X rim !!! shell = rows X;
  pi_nodup : forall p, NoDup (marked p (shell + 1) rim);
  pi_bound : forall X x, x ∈ members X (shell + 1) rim -> x < L;
  pi_inshell : forall p x, p <> rim_ptr_inshell_subdominant -> x < L ->
    inshell_load p rim x
    = if bool_decide (x ∈ marked p (shell + 1) rim) then shell + 1 else i0 p x;
  pi_count : forall X, rd (rim_shellN X rim) (shell + 1) <= L;
  pi_len_inshell : forall p, p <> rim_ptr_inshell_subdominant ->
    L <= length (inshell_array p rim);
  pi_len_rows : forall X, L <= length (rim_map X rim !!! (shell + 1));
  pi_len_shellN : forall X, shell + 1 < length (rim_shellN X rim)
}.

(** The arrays of a simulation of N particles, sized as part1 allocates
    them, as far as the prediction of shell [shell] uses them: the rows of
    the shell and of the next one, the lengths [shellN_X], and the inshell
    arrays. *)
Record shell_sized (r : reb_simulation) (shell : nat) : Prop := {
  sz_rows : forall X, r_N r <= length (rim_map X (ri_mercurana r) !!! shell);
  sz_next : forall X, r_N r <= length (rim_map X (ri_mercurana r) !!! (shell + 1));
  sz_shellN : forall X, shell + 1 < length (rim_shellN X (ri_mercurana r));
  sz_inshell : forall p, r_N r <= length (inshell_array p (ri_mercurana r));
  sz_dominant : rim_N_dominant (ri_mercurana r) <= r_N r
}.

(** Steps that keep the sizes of the arrays. *)
Record same_sizes (r r' : reb_simulation) : Prop := {
  ks_N : r_N r' = r_N r;
  ks_N_dominant : rim_N_dominant (ri_mercurana r') = rim_N_dominant (ri_mercurana r);
  ks_rows : forall X s, length (rim_map X (ri_mercurana r') !!! s)
                        = length (rim_map X (ri_mercurana r) !!! s);
  ks_shellN : forall X, length (rim_shellN X (ri_mercurana r'))
                        = length (rim_shellN X (ri_mercurana r));
  ks_inshell : forall p, length (inshell_array p (ri_mercurana r'))
                         = length (inshell_array p (ri_mercurana r))
}.

#[global] Instance same_sizes_refl : Reflexive same_sizes.
Proof. intros r. constructor; auto. Qed.

#[global] Instance same_sizes_trans : Transitive same_sizes.
Proof. intros r1 r2 r3 [] []. constructor; intros; congruence. Qed.

(** The first particle and the number of particles of role [X] in shell 0. *)
Definition bootstrap_first (X : role) (r : reb_simulation) : nat :=
  match X with
  | Dominant => 0
  | Subdominant | Encounter => rim_N_dominant (ri_mercurana r)
  end.

Definition bootstrap_count (X : role) (r : reb_simulation) : nat :=
  match X with
  | Dominant => rim_N_dominant (ri_mercurana r)
  | Subdominant | Encounter => r_N r - rim_N_dominant (ri_mercurana r)
  end.

(** The resets at the top of the prediction: the collision counter and the
    counters of the next shell. *)
Definition predict_resets (r : reb_simulation) (shell : nat) : reb_simulation :=
  let r := upd_rim (set_rim_collisions_N 0) r in
  upd_rim (fun rim =>
    let rim := set_rim_shellN_encounter
                 (<[shell+1 := 0]> (rim_shellN_encounter rim)) rim in
    let rim := set_rim_shellN_dominant
                 (<[shell+1 := 0]> (rim_shellN_dominant rim)) rim in
    set_rim_shellN_subdominant
      (<[shell+1 := 0]> (rim_shellN_subdominant rim)) rim) r.

(** A dominant particle at the origin, a second particle one unit away, inside
    the critical radius, and a third one a hundred units away; three shells,
    no collision detection. *)
Definition sim_three : reb_simulation :=
  example_sim
    [example_particle 0 0 0 0 0 0 0; example_particle 1 0 0 0 0 0 0;
     example_particle 100 0 0 0 0 0 0]
    3 1 2%float REB_COLLISION_NONE.

(** A driver routine that returns the simulation as it receives it. *)
Definition eos_idle (r : reb_simulation) (dt : float) (shell : nat) (phi : REB_EOS_TYPE)
    (drift : drift_fn) (kick : interaction_fn) : option reb_simulation :=
  Some r.

(** A simulation between two steps of a run without safe mode: allocated,
    and not synchronized. *)
Definition sim_unsynchronized : reb_simulation :=
  upd_rim (set_rim_is_synchronized 0)
    (example_sim (two_at_rest 0) 3 0 2%float REB_COLLISION_NONE).

(** A simulation before its first step: three particles, nothing allocated,
    the configuration as reset leaves it apart from the three shells. *)
Definition sim_fresh : reb_simulation :=
  mk_sim 3
    [example_particle 0 0 0 0 0 0 0; example_particle 1 0 0 0 0 0 0;
     example_particle 100 0 0 0 0 0 0]
    1%float 1%float 0%float 0%float 0 REB_COLLISION_NONE REB_GRAVITY_BASIC [] 0 []
    (mk_rim REB_EOS_LF REB_EOS_LF 2 0 0x1p-10%float 0%float 0.5%float 1 3 1 0 1
       None None 0 1 0 0 [] [] [] [] [] [] [] [] [] [] [] [] [] []).

(** The entry points with a host that does nothing: the driver and the force
    routines return the simulation as they receive it, [exp] and [pow] return
    their first argument, and the tables of coefficients are empty. *)
Definition eos_step_idle (r : reb_simulation) (dt a b : float) (shell : nat)
    (phi : REB_EOS_TYPE) (drift : drift_fn) (kick : interaction_fn)
    : option reb_simulation :=
  Some r.

Definition synchronize_idle : nat -> reb_simulation -> option reb_simulation :=
  reb_integrator_mercurana_synchronize (fun s => s) (fun s => s) (fun s _ => s) false
    eos_idle eos_step_idle eos_idle (fun x => x).

Definition part1_idle : nat -> reb_simulation -> option reb_simulation :=
  reb_integrator_mercurana_part1 (fun s => s) (fun s => s) (fun s _ => s) false
    eos_idle eos_step_idle eos_idle (fun x => x) (fun x _ => x)
    0%float [] [] 0%float [] [].

(** A simulation that has never been stepped, with [kappa] set to zero. *)
Definition sim_fresh_bad_kappa : reb_simulation :=
  upd_rim (fun rim =>
    mk_rim (rim_phi0 rim) (rim_phi1 rim) (rim_n0 rim) (rim_n1 rim) 0%float
      (rim_Gm0r0 rim) (rim_alpha rim) (rim_safe_mode rim) (rim_Nmaxshells rim)
      (rim_Nmaxshellsused rim) (rim_recalculate_dcrit_this_timestep rim)
      (rim_is_synchronized rim) (rim_L rim) (rim_dLdr rim) (rim_collisions_N rim)
      (rim_N_dominant rim) (rim_allocatedN rim) (rim_current_shell rim)
      (rim_dcrit rim) (rim_map_encounter rim) (rim_map_dominant rim)
      (rim_map_subdominant rim) (rim_inshell_encounter rim)
      (rim_inshell_dominant rim) (rim_inshell_subdominant rim)
      (rim_shellN_encounter rim) (rim_shellN_dominant rim)
      (rim_shellN_subdominant rim) (rim_t_drifted rim)
      (rim_maxdrift_encounter rim) (rim_maxdrift_dominant rim) (rim_p0 rim))
    sim_fresh.

Definition part2_idle : nat -> reb_simulation -> option reb_simulation :=
  reb_integrator_mercurana_part2 (fun s => s) (fun s => s) (fun s _ => s) false
    eos_idle eos_step_idle eos_idle (fun x => x).

(** What the loops of the drift step leave alone, besides the maps. *)
Record drift_keeps (r r' : reb_simulation) : Prop := {
  dk_maps : same_maps r r';
  dk_Nmaxshells : rim_Nmaxshells (ri_mercurana r') = rim_Nmaxshells (ri_mercurana r);
  dk_t : r_t r' = r_t r;
  dk_N : r_N r' = r_N r
}.

#[global] Instance drift_keeps_refl : Reflexive drift_keeps.
Proof. intros r. constructor; reflexivity. Qed.

#[global] Instance drift_keeps_trans : Transitive drift_keeps.
Proof.
  intros r1 r2 r3 [] []. constructor; try congruence. etransitivity; eauto.
Qed.

(** Three particles far from each other: no pair comes within the critical
    distance. *)
Definition sim_apart : reb_simulation :=
  example_sim
    [example_particle 0 0 0 1 0 0 0; example_particle 100 0 0 0 0 0 0;
     example_particle 0 100 0 0 0 0 0]
    3 1 2%float REB_COLLISION_NONE.

Definition drift_step_idle : nat -> drift_fn :=
  reb_integrator_mercurana_drift_step (fun s => s) (fun s => s) (fun s _ => s) false
    eos_idle eos_step_idle eos_idle.

(** Predict never writes the time. *)
Definition same_t (r r' : reb_simulation) : Prop := r_t r' = r_t r.

#[global] Instance same_t_refl : Reflexive same_t.
Proof. intros r. reflexivity. Qed.

#[global] Instance same_t_trans : Transitive same_t.
Proof. intros r1 r2 r3 H1 H2. unfold same_t in *. congruence. Qed.

(** One kick: the velocity of a particle after [v += y*a]. *)
Definition kicked (y : float) (p : reb_particle) : reb_particle :=
  set_vel p (p_vx p + y * p_ax p)%float (p_vy p + y * p_ay p)%float
          (p_vz p + y * p_az p)%float.

(** The interaction step up to its loops: the gravity routine is selected,
    the shell recorded, and the host computes the accelerations and, for
    [v != 0], applies the jerk. *)
Definition interaction_forces (reb_update_acceleration : reb_simulation -> reb_simulation)
    (reb_calculate_and_apply_jerk : reb_simulation -> float -> reb_simulation)
    (r : reb_simulation) (v : float) (shell : nat) : reb_simulation :=
  let r := set_r_gravity REB_GRAVITY_MERCURANA r in
  let r := upd_rim (set_rim_current_shell shell) r in
  let r := reb_update_acceleration r in
  if negb (v =? 0)%float then reb_calculate_and_apply_jerk r v else r.

(** The number of kicks the three loops of the interaction step of [shell]
    give to particle [k]: one for each cell of map_dominant[shell] and of
    map_encounter[shell] that holds it, and in a shell below the outermost
    one for each cell of map_subdominant[shell] that holds it, unless it is
    an encounter particle of this shell or a deeper one. *)
Definition kick_count (shell : nat) (r : reb_simulation) (k : nat) : nat :=
  count_occ Nat.eq_dec (shell_members Dominant shell r) k
  + count_occ Nat.eq_dec (shell_members Encounter shell r) k
  + (if (0 <? shell) && (rd (rim_inshell_encounter (ri_mercurana r)) k <? shell)
     then count_occ Nat.eq_dec (shell_members Subdominant shell r) k else 0).

(** One loop of the interaction step over the first [n] cells of
    [map_X[shell]], with the test [c rim m]. *)
Definition kick_loop (X : role) (c : reb_simulation_integrator_mercurana -> nat -> bool)
    (y : float) (shell n : nat) (r : reb_simulation) : reb_simulation :=
  for_loop 0 n (fun i r =>
    let mi := rd2 (rim_map X (ri_mercurana r)) shell i in
    if c (ri_mercurana r) mi then kick_particle y mi r else r) r.

(** The state the prediction of shell 0 leaves for [sim_three], where the
    maps of shell 0 are set up and the first two particles are in shell 1. *)
Definition sim_three_predicted : reb_simulation := predict_scan sim_three 1%float 0.

(** [reb_integrator_mercurana_reset] on an integrator that holds no arrays
    ([allocatedN == 0]), where the block that frees the arrays is skipped:
    the function sets [allocatedN] to zero, the pointers to the maps, the
    critical radii, the inshell arrays, the counters and [p0] to [NULL],
    modelled as the empty array, and the configuration to its defaults.
    [kappa] is the binary64 number nearest to [1e-3].  The pointers
    [t_drifted], [maxdrift_encounter] and [maxdrift_dominant] are not
    written and keep their value; [current_shell] is not written either.
    With [allocatedN != 0] the function first frees the arrays, and among
    them [t_drifted], [maxdrift_encounter] and [maxdrift_dominant], which
    part1 has obtained by [realloc] of the one pointer [rim->t_drifted]; the
    value below is then only what the assignments after the frees would
    leave, and the statements about reset assume [allocatedN == 0]. *)
Definition reb_integrator_mercurana_reset (r : reb_simulation) : reb_simulation :=
  upd_rim (fun rim =>
    mk_rim REB_EOS_LF REB_EOS_LF 2 0 0x1.0624dd2f1a9fcp-10%float 0%float 0.5%float
      1 10 1 0 1 None None 0 0 0 (rim_current_shell rim)
      [] [] [] [] [] [] [] [] [] []
      (rim_t_drifted rim) (rim_maxdrift_encounter rim) (rim_maxdrift_dominant rim)
      []) r.

(** The maps and counters of the shells up to [shell] are the same in [r']
    as in [r]. *)
Definition same_upto (shell : nat) (r r' : reb_simulation) : Prop :=
  forall X s, s <= shell ->
    rd (rim_shellN X (ri_mercurana r')) s = rd (rim_shellN X (ri_mercurana r)) s
    /\ rim_map X (ri_mercurana r') !!! s = rim_map X (ri_mercurana r) !!! s.

(** In the shells up to [shell], [r'] has every member that [r] has, in the
    cell where [r] has it: no counter is lower, the dominant and subdominant
    maps and counters are the same, and the encounter maps keep the cells
    that were in use. *)
Record keeps_members (shell : nat) (r r' : reb_simulation) : Prop := {
  km_count : forall X s, s <= shell ->
    rd (rim_shellN X (ri_mercurana r)) s <= rd (rim_shellN X (ri_mercurana r')) s;
  km_fixed : forall X s, s <= shell -> X <> Encounter ->
    rd (rim_shellN X (ri_mercurana r')) s = rd (rim_shellN X (ri_mercurana r)) s
    /\ rim_map X (ri_mercurana r') !!! s = rim_map X (ri_mercurana r) !!! s;
  km_cells : forall s i, s <= shell ->
    i < rd (rim_shellN_encounter (ri_mercurana r)) s ->
    rd2 (rim_map_encounter (ri_mercurana r')) s i
    = rd2 (rim_map_encounter (ri_mercurana r)) s i
}.

#[global] Instance same_upto_refl shell : Reflexive (same_upto shell).
Proof. intros r X s _. auto. Qed.

#[global] Instance same_upto_trans shell : Transitive (same_upto shell).
Proof.
  intros r1 r2 r3 H1 H2 X s Hs.
  destruct (H1 X s Hs) as [A1 B1]. destruct (H2 X s Hs) as [A2 B2].
  split; congruence.
Qed.

#[global] Instance keeps_members_refl shell : Reflexive (keeps_members shell).
Proof. intros r. constructor; auto. Qed.

#[global] Instance keeps_members_trans shell : Transitive (keeps_members shell).
Proof.
  intros r1 r2 r3 [C1 F1 K1] [C2 F2 K2]. constructor.
  - intros X s Hs. specialize (C1 X s Hs). specialize (C2 X s Hs). lia.
  - intros X s Hs HX. destruct (F1 X s Hs HX) as [A1 B1].
    destruct (F2 X s Hs HX) as [A2 B2]. split; congruence.
  - intros s i Hs Hi. rewrite K2; auto.
    specialize (C1 Encounter s Hs). cbn [rim_shellN] in C1. lia.
Qed.

(** The first loop of part2 in closed form: [t_drifted[i] = 0.] and
    [p0[i] = particles[i]] for the N particles. *)
Definition part2_snapshot (r : reb_simulation) : reb_simulation :=
  upd_rim (fun rim =>
    set_rim_p0 (take (r_N r) (r_particles r) ++ drop (r_N r) (rim_p0 rim))
      (set_rim_t_drifted
         (replicate (r_N r) 0%float ++ drop (r_N r) (rim_t_drifted rim)) rim)) r.

(** What part2 does after its first loop: the driver's pre-processor if the
    simulation is synchronized, one step of the driver, and the
    synchronization in safe mode. *)
Definition part2_integrate
    (reb_collision_search reb_update_acceleration : reb_simulation -> reb_simulation)
    (reb_calculate_and_apply_jerk : reb_simulation -> float -> reb_simulation)
    (reb_sigint : bool)
    (reb_integrator_eos_preprocessor :
       reb_simulation -> float -> nat -> REB_EOS_TYPE -> drift_fn -> interaction_fn
       -> option reb_simulation)
    (reb_integrator_eos_step :
       reb_simulation -> float -> float -> float -> nat -> REB_EOS_TYPE
       -> drift_fn -> interaction_fn -> option reb_simulation)
    (reb_integrator_eos_postprocessor :
       reb_simulation -> float -> nat -> REB_EOS_TYPE -> drift_fn -> interaction_fn
       -> option reb_simulation)
    (exp : float -> float) (fuel : nat) (r : reb_simulation) : option reb_simulation :=
  let drift :=
    reb_integrator_mercurana_drift_step reb_collision_search reb_update_acceleration
      reb_calculate_and_apply_jerk reb_sigint reb_integrator_eos_preprocessor
      reb_integrator_eos_step reb_integrator_eos_postprocessor fuel in
  let kick :=
    reb_integrator_mercurana_interaction_step reb_update_acceleration
      reb_calculate_and_apply_jerk in
  let r := if negb (rim_is_synchronized (ri_mercurana r) =? 0)
           then reb_integrator_eos_preprocessor r (r_dt r) 0
                  (rim_phi0 (ri_mercurana r)) drift kick
           else Some r in
  match r with
  | None => None
  | Some r =>
    match reb_integrator_eos_step r (r_dt r) 1%float 1%float 0
            (rim_phi0 (ri_mercurana r)) drift kick with
    | None => None
    | Some r =>
      let r := upd_rim (set_rim_is_synchronized 0) r in
      let r := if negb (rim_safe_mode (ri_mercurana r) =? 0)
               then reb_integrator_mercurana_synchronize reb_collision_search
                      reb_update_acceleration reb_calculate_and_apply_jerk reb_sigint
                      reb_integrator_eos_preprocessor reb_integrator_eos_step
                      reb_integrator_eos_postprocessor exp fuel r
               else Some r in
      match r with
      | None => None
      | Some r => Some (set_r_dt_last_done (r_dt r) r)
      end
    end
  end.

(** A bound that has been left alone or lowered. *)
Definition lowered (a a' : float) : Prop := a' = a \/ (a' <? a)%float = true.

(** No cell of the two maxdrift arrays is higher in [r'] than in [r]. *)
Definition lowers (r r' : reb_simulation) : Prop :=
  forall md i, lowered (maxdrift_load md (ri_mercurana r) i)
                       (maxdrift_load md (ri_mercurana r') i).



(** Steps that leave the encounter map of shell [t], its counter and
    inshell_encounter as they are. *)
Definition enc_same (t : nat) (x x' : reb_simulation) : Prop :=
  rim_map_encounter (ri_mercurana x') !!! t = rim_map_encounter (ri_mercurana x) !!! t
  /\ rd (rim_shellN_encounter (ri_mercurana x')) t
     = rd (rim_shellN_encounter (ri_mercurana x)) t
  /\ length (rim_shellN_encounter (ri_mercurana x'))
     = length (rim_shellN_encounter (ri_mercurana x))
  /\ rim_inshell_encounter (ri_mercurana x') = rim_inshell_encounter (ri_mercurana x).

#[global] Instance enc_same_refl t : Reflexive (enc_same t).
Proof. intros x. repeat split. Qed.

#[global] Instance enc_same_trans t : Transitive (enc_same t).
Proof.
  intros x1 x2 x3 (A1 & B1 & C1 & D1) (A2 & B2 & C2 & D2).
  repeat split; congruence.
Qed.








(** * Theorems *)

(** ** Binary64 arithmetic and the closest-approach predictor *)

Local Open Scope float_scope.

(** *** Facts about binary64 arithmetic *)

Lemma Prim2SF_eq (x : float) (s : spec_float) : Prim2SF x = s -> x = SF2Prim s.
Proof. intros <-. symmetry. apply SF2Prim_Prim2SF. Qed.

Lemma SF_zero : Prim2SF 0 = S754_zero false.
Proof. reflexivity. Qed.

Lemma SF_nan : Prim2SF nan = S754_nan.
Proof. reflexivity. Qed.

Lemma is_nan_SF (x : float) : is_nan x = true <-> Prim2SF x = S754_nan.
Proof.
  unfold is_nan. rewrite FloatAxioms.eqb_spec. unfold SFeqb.
  assert (Hc : forall s, SFcompare s s = None <-> s = S754_nan).
  { intros [[]|[]| |[] m e]; simpl; split; try discriminate; try reflexivity. }
  split.
  - intros H. apply Hc. destruct (SFcompare (Prim2SF x) (Prim2SF x)) as [[]|] eqn:E; try reflexivity; try discriminate.
    + exfalso. revert E. destruct (Prim2SF x) as [[]|[]| |[] m e]; simpl; try discriminate;
      rewrite Z.compare_refl, Pos.compare_cont_refl; discriminate.
    + exfalso. revert E. destruct (Prim2SF x) as [[]|[]| |[] m e]; simpl; try discriminate;
      rewrite Z.compare_refl, Pos.compare_cont_refl; discriminate.
  - intros ->. reflexivity.
Qed.

Lemma nan_eq (x : float) : Prim2SF x = S754_nan -> x = nan.
Proof. intros H. apply Prim2SF_inj. rewrite H. reflexivity. Qed.

Lemma mul_zero_l (v : float) : nan_or_zero (0 * v).
Proof.
  unfold nan_or_zero. rewrite mul_spec, SF_zero.
  destruct (Prim2SF v) as [s|s| |s m e]; simpl; eauto.
Qed.

Lemma add_nan_l (x : float) : nan + x = nan.
Proof. apply nan_eq. rewrite add_spec, SF_nan. reflexivity. Qed.

Lemma add_nan_r (x : float) : x + nan = nan.
Proof.
  apply nan_eq. rewrite add_spec, SF_nan.
  destruct (Prim2SF x) as [s|s| |s m e]; reflexivity.
Qed.

(** Adding a zero or NaN to [a] and squaring gives the square of [a], or NaN. *)
Lemma sq_add_nan_or_zero (a z : float) :
  nan_or_zero z -> (a + z) * (a + z) = nan \/ (a + z) * (a + z) = a * a.
Proof.
  intros [Hz|[s Hz]].
  - left. apply nan_eq. rewrite mul_spec, add_spec, Hz.
    destruct (Prim2SF a) as [sa|sa| |sa m e]; reflexivity.
  - destruct (Prim2SF a) as [sa|sa| |sa m e] eqn:Ha.
    + right. apply Prim2SF_inj. rewrite !mul_spec, add_spec, Ha, Hz.
      destruct sa, s; reflexivity.
    + right. f_equal; apply Prim2SF_inj; rewrite add_spec, Ha, Hz; reflexivity.
    + left. apply nan_eq. rewrite mul_spec, add_spec, Ha, Hz. reflexivity.
    + right. f_equal; apply Prim2SF_inj; rewrite add_spec, Ha, Hz; reflexivity.
Qed.

Lemma SFcompare_refl (s : spec_float) :
  SFcompare s s = None \/ SFcompare s s = Some Eq.
Proof.
  destruct s as [[]|[]| |[] m e]; simpl; auto;
    rewrite Z.compare_refl, Pos.compare_cont_refl; auto.
Qed.

Lemma ltb_irrefl (x : float) : (x <? x) = false.
Proof.
  rewrite ltb_spec. unfold SFltb.
  destruct (SFcompare_refl (Prim2SF x)) as [-> | ->]; reflexivity.
Qed.

Lemma ltb_nan_l (x : float) : (nan <? x) = false.
Proof. rewrite ltb_spec, SF_nan. reflexivity. Qed.

Lemma MIN_same_or_nan (a b : float) : b = nan \/ b = a -> MIN a b = a.
Proof.
  unfold MIN. intros [-> | ->].
  - now rewrite ltb_nan_l.
  - now rewrite ltb_irrefl.
Qed.

(** A quotient by [+0] is NaN or an infinity, and so never in [0,1]. *)
Lemma div_zero_not_in_unit (t : float) :
  (0 <=? t / 0) && (t / 0 <=? 1) = false.
Proof.
  rewrite !leb_spec, div_spec, SF_zero.
  destruct (Prim2SF t) as [s|[]| |[] m e]; reflexivity.
Qed.

Lemma trace_r1 (p1 p2 : reb_particle) (dt : float) :
  tr_r1 (predict_rmin2_trace p1 p2 dt) = sep2 p1 p2.
Proof. reflexivity. Qed.

Lemma trace_zero_r2 (p1 p2 : reb_particle) (dt : float) :
  fabs dt = 0 ->
  tr_r2 (predict_rmin2_trace p1 p2 dt) = nan
  \/ tr_r2 (predict_rmin2_trace p1 p2 dt) = sep2 p1 p2.
Proof.
  intros Hdt. unfold predict_rmin2_trace, sep2. cbn [tr_r2]. rewrite Hdt.
  set (dx1 := p_x p1 - p_x p2). set (dy1 := p_y p1 - p_y p2).
  set (dz1 := p_z p1 - p_z p2).
  set (vx := copysign 1 dt * (p_vx p1 - p_vx p2)).
  set (vy := copysign 1 dt * (p_vy p1 - p_vy p2)).
  set (vz := copysign 1 dt * (p_vz p1 - p_vz p2)).
  destruct (sq_add_nan_or_zero dx1 (0 * vx) (mul_zero_l vx)) as [-> | ->];
    [left; now rewrite !add_nan_l |].
  destruct (sq_add_nan_or_zero dy1 (0 * vy) (mul_zero_l vy)) as [-> | ->];
    [left; now rewrite add_nan_r, add_nan_l |].
  destruct (sq_add_nan_or_zero dz1 (0 * vz) (mul_zero_l vz)) as [-> | ->];
    [left; now rewrite add_nan_r |].
  now right.
Qed.

Lemma rmin2_zero_interval (p1 p2 : reb_particle) (dt : float) :
  fabs dt = 0 -> reb_mercurana_predict_rmin2 p1 p2 dt = sep2 p1 p2.
Proof.
  intros Hdt. unfold reb_mercurana_predict_rmin2.
  assert (Hc : closest_in_step (predict_rmin2_trace p1 p2 dt) = false).
  { unfold closest_in_step.
    replace (tr_dt (predict_rmin2_trace p1 p2 dt)) with 0
      by (symmetry; exact Hdt).
    apply div_zero_not_in_unit. }
  rewrite Hc, trace_r1. apply MIN_same_or_nan.
  destruct (trace_zero_r2 p1 p2 dt Hdt); auto.
Qed.

(** C8: with a drift interval of zero, of either sign, the predictor returns
    the squared separation of the two particles as they are: the quotient
    t_closest/dt by zero is NaN or an infinity, which fails the test for the
    closest approach, and MIN(r1,r2) is r1 also when r2 is NaN.  This holds for
    all particles, with equal velocities and with coordinates that are not
    numbers as well. *)
Theorem rmin2_zero_dt (p1 p2 : reb_particle) :
  reb_mercurana_predict_rmin2 p1 p2 0 = sep2 p1 p2
  /\ reb_mercurana_predict_rmin2 p1 p2 (-0) = sep2 p1 p2.
Proof. split; apply rmin2_zero_interval; reflexivity. Qed.

Local Open Scope Z_scope.

(** *** A quotient of two numbers, the larger by the smaller *)

Lemma digits2_pos_bounds (p : positive) :
  2 ^ (Z.pos (digits2_pos p) - 1) <= Z.pos p < 2 ^ Z.pos (digits2_pos p).
Proof.
  induction p as [p IH|p IH|]; cbn [digits2_pos].
  - rewrite Pos2Z.inj_succ. replace (Z.succ (Z.pos (digits2_pos p)) - 1)
      with (Z.succ (Z.pos (digits2_pos p) - 1)) by lia.
    rewrite !Z.pow_succ_r by lia. lia.
  - rewrite Pos2Z.inj_succ. replace (Z.succ (Z.pos (digits2_pos p)) - 1)
      with (Z.succ (Z.pos (digits2_pos p) - 1)) by lia.
    rewrite !Z.pow_succ_r by lia. lia.
  - cbn. lia.
Qed.

Lemma Zdigits2_unique (z n : Z) :
  0 < z -> 2 ^ (n - 1) <= z < 2 ^ n -> Zdigits2 z = n.
Proof.
  intros Hz [Hlo Hhi]. destruct z as [|p|p]; try lia. cbn [Zdigits2].
  pose proof (digits2_pos_bounds p) as [Dlo Dhi].
  set (d := Z.pos (digits2_pos p)) in *.
  assert (0 <= n).
  { destruct (Z.le_gt_cases 0 n); auto. rewrite Z.pow_neg_r in Hhi by lia. lia. }
  destruct (Z.lt_trichotomy d n) as [Hlt|[Heq|Hgt]]; auto; exfalso.
  - assert (2 ^ d <= 2 ^ (n - 1)) by (apply Z.pow_le_mono_r; lia). lia.
  - assert (2 ^ n <= 2 ^ (d - 1)) by (apply Z.pow_le_mono_r; lia). lia.
Qed.

(** A valid positive number: its mantissa has at most 53 digits, and 53 of
    them unless the exponent is the least one. *)
Lemma bounded_digits (m : positive) (e : Z) :
  bounded prec emax m e = true ->
  Z.pos (digits2_pos m) <= 53
  /\ (Z.pos (digits2_pos m) = 53 \/ e = -1074)
  /\ -1074 <= e <= 971.
Proof.
  unfold bounded, canonical_mantissa, fexp, emin, prec, emax.
  intros H. apply andb_true_iff in H as [H1 H2].
  apply Z.eqb_eq in H1. apply Z.leb_le in H2. lia.
Qed.

Lemma new_location_facts (m r : Z) :
  0 <= r < m ->
  (r <> 0 -> new_location m r <> loc_Exact)
  /\ (m < 2 * r -> new_location m r = loc_Inexact Gt).
Proof.
  intros Hr. unfold new_location.
  destruct (Z.even m); unfold new_location_even, new_location_odd;
    destruct (Z.eqb_spec r 0) as [E|E]; split; intros H; try lia; try discriminate.
  - destruct (Z.compare_spec (2 * r) m); try lia. reflexivity.
  - destruct (Z.compare_spec (2 * r + 1) m); try lia. reflexivity.
Qed.

Lemma SFltb_positive_cases (md mt : positive) (ed et : Z) :
  SFltb (S754_finite false md ed) (S754_finite false mt et) = true ->
  ed < et \/ (ed = et /\ Z.pos md < Z.pos mt).
Proof.
  unfold SFltb, SFcompare.
  destruct (Z.compare_spec ed et) as [E|E|E]; try discriminate; [|now left].
  destruct (Pos.compare_cont Eq md mt) eqn:C; try discriminate.
  intros _. right. split; [exact E|].
  change (Pos.compare md mt = Lt) in C. apply (proj1 (Pos.compare_lt_iff _ _)) in C. lia.
Qed.

Lemma round_finish_above_one (m2 e1 : Z) :
  2 ^ 52 <= m2 <= 2 ^ 53 ->
  -52 < e1 \/ (e1 = -52 /\ 2 ^ 52 < m2) ->
  SFltb SF_one (round_finish m2 e1) = true.
Proof.
  intros Hm He. unfold round_finish, shr_fexp.
  destruct (Z.eq_dec m2 (2 ^ 53)) as [E|E].
  - subst m2. change (2 ^ 53) with 9007199254740992.
    change (Zdigits2 9007199254740992) with 54.
    replace (fexp prec emax (54 + e1) - e1) with 1
      by (unfold fexp, emin, prec, emax; lia).
    change (shr (shr_record_of_loc 9007199254740992 loc_Exact) e1 1)
      with (Build_shr_record 4503599627370496 false false, e1 + 1).
    cbn [shr_m]. destruct (_ <=? _); [|reflexivity].
    unfold SFltb, SF_one, SFcompare.
    destruct (Z.compare_spec (-52) (e1 + 1)); first [reflexivity | lia].
  - rewrite (Zdigits2_unique m2 53) by (change (53 - 1) with 52; lia).
    replace (fexp prec emax (53 + e1) - e1) with 0
      by (unfold fexp, emin, prec, emax; lia).
    cbn [shr shr_record_of_loc shr_m]. destruct m2 as [|p|p]; try lia.
    destruct (e1 <=? emax - prec); [|reflexivity].
    unfold SFltb, SF_one, SFcompare.
    destruct (Z.compare_spec (-52) e1) as [C|C|C]; [|reflexivity|lia].
    replace (Pos.compare_cont Eq 4503599627370496 p) with Lt; [reflexivity|].
    symmetry. change (Pos.compare 4503599627370496 p = Lt).
    apply (proj2 (Pos.compare_lt_iff _ _)). lia.
Qed.

Lemma binary_round_aux_finish (mx ex : Z) (lx : location) :
  binary_round_aux prec emax false mx ex lx =
  let '(mrs, e1) := shr_fexp prec emax mx ex lx in
  round_finish (round_nearest_even (shr_m mrs) (loc_of_shr_record mrs)) e1.
Proof. reflexivity. Qed.

Lemma round_kept (q : Z) (l : location) :
  let mrs := shr_record_of_loc q l in
  let m2 := round_nearest_even (shr_m mrs) (loc_of_shr_record mrs) in
  q <= m2 <= q + 1 /\ (l = loc_Inexact Gt -> m2 = q + 1).
Proof.
  destruct l as [|[]]; cbn; try destruct (Z.even q); split; try lia;
    try discriminate; reflexivity.
Qed.

Lemma round_halved (q : Z) (l : location) :
  0 < q ->
  let mrs := shr_1 (shr_record_of_loc q l) in
  let m2 := round_nearest_even (shr_m mrs) (loc_of_shr_record mrs) in
  Z.div2 q <= m2 <= Z.div2 q + 1
  /\ (Z.odd q = true -> l <> loc_Exact -> m2 = Z.div2 q + 1).
Proof.
  intros Hq. destruct q as [|[p|p|]|]; try lia;
    destruct l as [|[]]; cbn; try destruct (Z.even (Z.pos p)); split;
      try lia; try discriminate; try congruence; try reflexivity.
  all: destruct p; lia.
Qed.

(** The first rounding: a quotient of 53 digits is kept, one of 54 digits
    loses its last digit. *)
Lemma shr_fexp_quotient (q e : Z) (l : location) :
  2 ^ 52 <= q < 2 ^ 54 -> -53 <= e ->
  shr_fexp prec emax q e l =
  if q <? 2 ^ 53 then (shr_record_of_loc q l, e)
  else (shr_1 (shr_record_of_loc q l), e + 1).
Proof.
  intros Hq He. unfold shr_fexp. destruct (Z.ltb_spec q (2 ^ 53)) as [C|C].
  - rewrite (Zdigits2_unique q 53) by (change (53 - 1) with 52; lia).
    replace (fexp prec emax (53 + e) - e) with 0
      by (unfold fexp, emin, prec, emax; lia).
    reflexivity.
  - rewrite (Zdigits2_unique q 54) by (change (54 - 1) with 53; lia).
    replace (fexp prec emax (54 + e) - e) with 1
      by (unfold fexp, emin, prec, emax; lia).
    reflexivity.
Qed.

(** The quotient of two valid positive numbers, the larger by the smaller,
    is above one after rounding. *)
Lemma SFdiv_above_one (mt md : positive) (et ed : Z) :
  bounded prec emax mt et = true -> bounded prec emax md ed = true ->
  SFltb (S754_finite false md ed) (S754_finite false mt et) = true ->
  SFltb SF_one (SFdiv prec emax (S754_finite false mt et) (S754_finite false md ed)) = true.
Proof.
  intros Bt Bd Hlt.
  pose proof (bounded_digits _ _ Bt) as (Dt53 & Dtn & Et).
  pose proof (bounded_digits _ _ Bd) as (Dd53 & Ddn & Ed).
  pose proof (digits2_pos_bounds mt) as [Tlo Thi].
  pose proof (digits2_pos_bounds md) as [Dlo Dhi].
  unfold SFdiv, SFdiv_core_binary. cbn [xorb Zdigits2].
  set (dt := Z.pos (digits2_pos mt)) in *.
  set (dd := Z.pos (digits2_pos md)) in *.
  assert (Hdt : 1 <= dt) by (unfold dt; lia).
  assert (Hdd : 1 <= dd) by (unfold dd; lia).
  set (k := et - ed).
  assert (Hd53 : 2 ^ dd <= 2 ^ 53) by (apply Z.pow_le_mono_r; lia).
  assert (Hk : 0 <= k /\ Z.pos md + 1 <= Z.pos mt * 2 ^ k).
  { destruct (SFltb_positive_cases _ _ _ _ Hlt) as [H|[H1 H2]].
    - split; [lia|]. assert (E : dt = 53) by lia.
      assert (2 ^ 1 <= 2 ^ k) by (apply Z.pow_le_mono_r; lia).
      rewrite E in Tlo. change (2 ^ (53 - 1)) with 4503599627370496 in Tlo.
      change (2 ^ 53) with 9007199254740992 in Hd53.
      change (2 ^ 1) with 2 in H0. nia.
    - replace k with 0 by lia. change (2 ^ 0) with 1. lia. }
  destruct Hk as [Hk HX].
  set (delta := dt - dd + k).
  assert (Hdelta : 0 <= delta).
  { assert (H : 2 ^ (dd - 1) < 2 ^ (dt + k)).
    { rewrite Z.pow_add_r by lia. assert (0 < 2 ^ k) by (apply Z.pow_pos_nonneg; lia). nia. }
    apply Z.pow_lt_mono_r_iff in H; lia. }
  replace (dt + et - (dd + ed)) with delta by lia.
  replace (fexp prec emax delta) with (delta - 53)
    by (unfold fexp, emin, prec, emax; lia).
  fold k. replace (Z.min (delta - 53) k) with (delta - 53) by lia.
  replace (k - (delta - 53)) with (53 + k - delta) by lia.
  assert (Hs : 0 < 53 + k - delta) by lia.
  destruct (53 + k - delta) as [|s|s] eqn:Es; try lia. rewrite <- Es.
  rewrite Z.shiftl_mul_pow2 by lia.
  set (P := 2 ^ (53 + k - delta)).
  set (a := 2 ^ (dd - 1)) in *. set (b := 2 ^ (dt - 1)) in *.
  assert (Ha : 2 ^ dd = 2 * a).
  { unfold a. replace dd with (Z.succ (dd - 1)) at 1 by lia. apply Z.pow_succ_r. lia. }
  assert (Hb : 2 ^ dt = 2 * b).
  { unfold b. replace dt with (Z.succ (dt - 1)) at 1 by lia. apply Z.pow_succ_r. lia. }
  assert (HPb : P * b = 2 ^ 53 * a).
  { unfold P, a, b. rewrite <- !Z.pow_add_r by lia. f_equal. lia. }
  assert (HP : (delta = 0 -> P = 2 ^ 53 * 2 ^ k) /\ (delta = 1 -> P = 2 ^ 52 * 2 ^ k)).
  { unfold P. split; intros ->; rewrite <- Z.pow_add_r by lia; f_equal; lia. }
  assert (Hapos : 0 < a) by (apply Z.pow_pos_nonneg; lia).
  assert (Hbpos : 0 < b) by (apply Z.pow_pos_nonneg; lia).
  assert (HPpos : 0 < P) by (apply Z.pow_pos_nonneg; lia).
  assert (HKpos : 0 < 2 ^ k) by (apply Z.pow_pos_nonneg; lia).
  rewrite Ha in *. rewrite Hb in *.
  change (2 ^ 53) with 9007199254740992 in *.
  change (2 ^ 52) with 4503599627370496 in *.
  clearbody P a b. set (K := 2 ^ k) in *. clearbody K.
  generalize (Z_div_mod (Z.pos mt * P) (Z.pos md) eq_refl).
  destruct (Z.div_eucl (Z.pos mt * P) (Z.pos md)) as [q r]. intros [Hqr Hr].
  assert (Hlo : 9007199254740992 * a <= Z.pos mt * P) by nia.
  assert (Hhi : Z.pos mt * P < 18014398509481984 * a) by nia.
  assert (Hq : 4503599627370496 <= q < 18014398509481984).
  { split.
    - destruct (Z_lt_le_dec q 4503599627370496) as [C|C]; [exfalso|exact C].
      assert (Z.pos md * (q + 1) <= Z.pos md * 4503599627370496)
        by (apply Z.mul_le_mono_nonneg_l; lia).
      lia.
    - destruct (Z_lt_le_dec q 18014398509481984) as [C|C]; [exact C|exfalso].
      assert (Z.pos md * 18014398509481984 <= Z.pos md * q)
        by (apply Z.mul_le_mono_nonneg_l; lia).
      lia. }
  assert (HX0 : delta = 0 -> (Z.pos md + 1) * 9007199254740992 <= Z.pos mt * P).
  { intros E. rewrite (proj1 HP E).
    replace (Z.pos mt * (9007199254740992 * K))
      with (Z.pos mt * K * 9007199254740992) by ring.
    apply Z.mul_le_mono_nonneg_r; lia. }
  assert (HX1 : delta = 1 -> (Z.pos md + 1) * 4503599627370496 <= Z.pos mt * P).
  { intros E. rewrite (proj2 HP E).
    replace (Z.pos mt * (4503599627370496 * K))
      with (Z.pos mt * K * 4503599627370496) by ring.
    apply Z.mul_le_mono_nonneg_r; lia. }
  rewrite binary_round_aux_finish, shr_fexp_quotient
    by (change (2 ^ 52) with 4503599627370496;
        change (2 ^ 54) with 18014398509481984; lia).
  change (2 ^ 53) with 9007199254740992.
  set (l := new_location (Z.pos md) r).
  destruct (new_location_facts (Z.pos md) r Hr) as [Lex Lgt]. fold l in Lex, Lgt.
  destruct (Z.ltb_spec q 9007199254740992) as [C|C].
  - destruct (round_kept q l) as [Hm2 Hup]. apply round_finish_above_one.
    + change (2 ^ 52) with 4503599627370496.
      change (2 ^ 53) with 9007199254740992. lia.
    + change (2 ^ 52) with 4503599627370496.
      destruct (Z.eq_dec delta 0) as [E0|E0].
      { exfalso. specialize (HX0 E0).
        assert (Z.pos md * (q + 1) <= Z.pos md * 9007199254740992)
          by (apply Z.mul_le_mono_nonneg_l; lia).
        lia. }
      destruct (Z.eq_dec delta 1) as [E1|E1]; [right|left; lia].
      split; [lia|]. specialize (HX1 E1).
      destruct (Z.eq_dec q 4503599627370496) as [Eq|Eq]; [|lia].
      rewrite Hup; [lia|]. apply Lgt. subst q. lia.
  - assert (Hq0 : 0 < q) by lia.
    destruct (round_halved q l Hq0) as [Hm2 Hup].
    pose proof (Z.div2_odd q) as Hodd.
    assert (Hb2 : 0 <= Z.b2z (Z.odd q) <= 1) by (destruct (Z.odd q); cbn; lia).
    apply round_finish_above_one.
    + change (2 ^ 52) with 4503599627370496.
      change (2 ^ 53) with 9007199254740992. lia.
    + change (2 ^ 52) with 4503599627370496.
      destruct (Z.eq_dec delta 0) as [E0|E0]; [right|left; lia].
      split; [lia|]. specialize (HX0 E0).
      assert (Hq1 : 9007199254740992 < q).
      { destruct (Z_lt_le_dec 9007199254740992 q) as [D|D]; [exact D|exfalso].
        assert (Z.pos md * q <= Z.pos md * 9007199254740992)
          by (apply Z.mul_le_mono_nonneg_l; lia).
        lia. }
      destruct (Z.eq_dec (Z.div2 q) 4503599627370496) as [Eq|Eq]; [|lia].
      rewrite Hup; [lia| |].
      * destruct (Z.odd q); [reflexivity|cbn in Hodd; lia].
      * apply Lex. intros ->.
        assert (q = 9007199254740993) by (destruct (Z.odd q); cbn in Hodd; lia).
        subst q. lia.
Qed.

(** A number divided by a smaller [fabs(x)] is above one: no rounding
    brings the quotient down to 1. *)
Lemma div_above_one (t x : float) :
  (fabs x <? t)%float = true -> (1 <? t / fabs x)%float = true.
Proof.
  unfold fabs. rewrite !ltb_spec, div_spec, abs_spec.
  change (Prim2SF 1) with SF_one.
  pose proof (Prim2SF_valid t) as Vt. pose proof (Prim2SF_valid x) as Vx.
  destruct (Prim2SF x) as [sx|sx| |sx mx ex];
    destruct (Prim2SF t) as [st|[]| |[] mt et]; try discriminate; try reflexivity.
  intros H. unfold SFabs. apply SFdiv_above_one; assumption.
Qed.

Local Open Scope float_scope.

(** *** The order of binary64 numbers

    [SFcompare] is the lexicographic order of a key of three integers: the
    class and sign, then the exponent, then the mantissa. *)

Lemma SFltb_key (x y : spec_float) :
  SFltb x y = true <->
  exists k k', SFkey x = Some k /\ SFkey y = Some k' /\ key_lt k k'.
Proof.
  unfold SFltb.
  destruct x as [sx|[]| |[] mx ex], y as [sy|[]| |[] my ey]; simpl;
    (split; [intros H; try discriminate; do 2 eexists; repeat split; simpl
            | intros (k & k' & Hk & Hk' & Hlt); try discriminate;
              injection Hk as <-; injection Hk' as <-; simpl in Hlt]);
    try lia; try reflexivity.
  - destruct (Z.compare_spec ex ey); try discriminate; try lia.
    right; split; [reflexivity|]. right. split; [lia|].
    change (Pos.compare_cont Eq mx my) with (Pos.compare mx my) in H.
    destruct (Pos.compare_spec mx my); try discriminate. lia.
  - destruct (Z.compare_spec ex ey); try lia; try reflexivity.
    change (Pos.compare_cont Eq mx my) with (Pos.compare mx my).
    destruct (Pos.compare_spec mx my); try lia; reflexivity.
  - destruct (Z.compare_spec ex ey); try discriminate; try lia.
    right; split; [reflexivity|]. right. split; [lia|].
    change (Pos.compare_cont Eq mx my) with (Pos.compare mx my) in H.
    destruct (Pos.compare_spec mx my); try discriminate. lia.
  - destruct (Z.compare_spec ex ey); try lia; try reflexivity.
    change (Pos.compare_cont Eq mx my) with (Pos.compare mx my).
    destruct (Pos.compare_spec mx my); try lia; reflexivity.
Qed.

Lemma SFleb_key (x y : spec_float) :
  SFleb x y = true <->
  exists k k', SFkey x = Some k /\ SFkey y = Some k' /\ key_le k k'.
Proof.
  unfold SFleb.
  destruct x as [sx|[]| |[] mx ex], y as [sy|[]| |[] my ey]; simpl;
    (split; [intros H; try discriminate; do 2 eexists; repeat split; simpl
            | intros (k & k' & Hk & Hk' & Hlt); try discriminate;
              injection Hk as <-; injection Hk' as <-; simpl in Hlt]);
    try lia; try reflexivity.
  - destruct (Z.compare_spec ex ey); try discriminate; try lia.
    right; split; [reflexivity|]. right. split; [lia|].
    change (Pos.compare_cont Eq mx my) with (Pos.compare mx my) in H.
    destruct (Pos.compare_spec mx my); try discriminate; lia.
  - destruct (Z.compare_spec ex ey); try lia; try reflexivity.
    change (Pos.compare_cont Eq mx my) with (Pos.compare mx my).
    destruct (Pos.compare_spec mx my); try lia; reflexivity.
  - destruct (Z.compare_spec ex ey); try discriminate; try lia.
    right; split; [reflexivity|]. right. split; [lia|].
    change (Pos.compare_cont Eq mx my) with (Pos.compare mx my) in H.
    destruct (Pos.compare_spec mx my); try discriminate; lia.
  - destruct (Z.compare_spec ex ey); try lia; try reflexivity.
    change (Pos.compare_cont Eq mx my) with (Pos.compare mx my).
    destruct (Pos.compare_spec mx my); try lia; reflexivity.
Qed.

Lemma SFkey_nan (x : float) : is_nan x = false -> exists k, SFkey (Prim2SF x) = Some k.
Proof.
  intros H. destruct (Prim2SF x) as [s|[]| |[] m e] eqn:E; simpl; eauto.
  apply is_nan_SF in E. congruence.
Qed.

Lemma ltb_key (x y : float) :
  (x <? y) = true <->
  exists k k', SFkey (Prim2SF x) = Some k /\ SFkey (Prim2SF y) = Some k' /\ key_lt k k'.
Proof. rewrite ltb_spec. apply SFltb_key. Qed.

Lemma leb_key (x y : float) :
  (x <=? y) = true <->
  exists k k', SFkey (Prim2SF x) = Some k /\ SFkey (Prim2SF y) = Some k' /\ key_le k k'.
Proof. rewrite leb_spec. apply SFleb_key. Qed.

Lemma key_total (k k' : Z * Z * Z) : key_lt k' k \/ key_le k k'.
Proof. destruct k as [[a b] c], k' as [[a' b'] c']; simpl; lia. Qed.

Lemma key_lt_le (k k' : Z * Z * Z) : key_lt k k' -> key_le k k'.
Proof. destruct k as [[a b] c], k' as [[a' b'] c']; simpl; lia. Qed.

Lemma key_lt_le_trans (k1 k2 k3 : Z * Z * Z) :
  key_lt k1 k2 -> key_le k2 k3 -> key_le k1 k3.
Proof.
  destruct k1 as [[a1 b1] c1], k2 as [[a2 b2] c2], k3 as [[a3 b3] c3]; simpl; lia.
Qed.

Lemma key_le_refl (k : Z * Z * Z) : key_le k k.
Proof. destruct k as [[a b] c]; simpl; lia. Qed.

(** The comparisons on numbers (not NaN) form a total order. *)
Lemma leb_refl (x : float) : is_nan x = false -> (x <=? x) = true.
Proof.
  intros H. apply leb_key. destruct (SFkey_nan x H) as [k Hk].
  exists k, k. auto using key_le_refl.
Qed.

Lemma ltb_leb (x y : float) : (x <? y) = true -> (x <=? y) = true.
Proof.
  rewrite ltb_key, leb_key. intros (k & k' & ? & ? & ?).
  exists k, k'. auto using key_lt_le.
Qed.

Lemma not_ltb_leb (x y : float) :
  is_nan x = false -> is_nan y = false -> (y <? x) = false -> (x <=? y) = true.
Proof.
  intros Hx Hy H. destruct (SFkey_nan x Hx) as [k Hk], (SFkey_nan y Hy) as [k' Hk'].
  apply leb_key. exists k, k'. repeat split; auto.
  destruct (key_total k k') as [Hlt|]; auto.
  assert ((y <? x) = true) by (apply ltb_key; eauto). congruence.
Qed.

Lemma ltb_leb_trans (x y z : float) :
  (x <? y) = true -> (y <=? z) = true -> (x <=? z) = true.
Proof.
  rewrite ltb_key, !leb_key.
  intros (k1 & k2 & H1 & H2 & H12) (k2' & k3 & H2' & H3 & H23).
  assert (k2' = k2) by congruence. subst.
  exists k1, k3. eauto using key_lt_le_trans.
Qed.

Lemma ltb_not_nan_l (x y : float) : (x <? y) = true -> is_nan x = false.
Proof.
  rewrite ltb_key. intros (k & k' & H & _).
  destruct (is_nan x) eqn:E; auto. apply is_nan_SF in E. rewrite E in H. discriminate.
Qed.

Lemma ltb_not_nan_r (x y : float) : (x <? y) = true -> is_nan y = false.
Proof.
  rewrite ltb_key. intros (k & k' & _ & H & _).
  destruct (is_nan y) eqn:E; auto. apply is_nan_SF in E. rewrite E in H. discriminate.
Qed.

(** [MIN] on numbers. *)
Lemma MIN_not_nan (a b : float) : is_nan a = false -> is_nan (MIN a b) = false.
Proof.
  intros Ha. unfold MIN. destruct (b <? a) eqn:E; auto.
  eapply ltb_not_nan_l; eauto.
Qed.

Lemma MIN_le_l (a b : float) : is_nan a = false -> (MIN a b <=? a) = true.
Proof.
  intros Ha. unfold MIN. destruct (b <? a) eqn:E.
  - now apply ltb_leb.
  - now apply leb_refl.
Qed.

Lemma MIN_le_r (a b : float) :
  is_nan a = false -> is_nan b = false -> (MIN a b <=? b) = true.
Proof.
  intros Ha Hb. unfold MIN. destruct (b <? a) eqn:E.
  - now apply leb_refl.
  - now apply not_ltb_leb.
Qed.

Lemma MIN_lower (m c x : float) :
  is_nan m = false -> (m <=? x) = true -> (MIN m c <=? x) = true.
Proof.
  intros Hm Hx. unfold MIN. destruct (c <? m) eqn:E; auto.
  eapply ltb_leb_trans; eauto.
Qed.

(** The result of the predictor is [MIN(r1,r2)], lowered to [r3] when the
    closest approach is found to lie in the step. *)
Lemma rmin2_unfold (p1 p2 : reb_particle) (dt : float) :
  let tr := predict_rmin2_trace p1 p2 dt in
  reb_mercurana_predict_rmin2 p1 p2 dt =
  if closest_in_step tr then MIN (MIN (tr_r1 tr) (tr_r2 tr)) (tr_r3 tr)
  else MIN (tr_r1 tr) (tr_r2 tr).
Proof. reflexivity. Qed.

(** The rounding of a quotient keeps the sign that the operands give it:
    [binary_round_aux] returns a zero, a number or an infinity of the sign it
    is given, or NaN. *)
Lemma binary_round_aux_sign (sx : bool) (mx ex : Z) (lx : location) :
  match binary_round_aux prec emax sx mx ex lx with
  | S754_zero s | S754_infinity s | S754_finite s _ _ => s = sx
  | S754_nan => True
  end.
Proof.
  unfold binary_round_aux.
  destruct (shr_fexp prec emax mx ex lx) as [mrs1 e1].
  destruct (shr_fexp prec emax _ e1 loc_Exact) as [mrs2 e2].
  destruct (shr_m mrs2); [reflexivity | | exact I].
  destruct (e2 <=? emax - prec)%Z; reflexivity.
Qed.

(** A negative number divided by [fabs(d)] is negative, a zero or NaN: when
    the quotient is not a zero, it fails the test [0 <= q]. *)
Lemma div_negative_below_zero (t d : float) :
  (t <? 0) = true -> is_zero (t / fabs d) = false -> (0 <=? t / fabs d) = false.
Proof.
  unfold is_zero, fabs.
  rewrite ltb_spec, leb_spec, FloatAxioms.eqb_spec, div_spec, abs_spec, SF_zero.
  destruct (Prim2SF t) as [st|[]| |[] mt et]; try discriminate; intros _;
    destruct (Prim2SF d) as [sd|sd| |sd md ed]; try reflexivity; try discriminate.
  unfold SF64div, SFdiv, SFabs.
  destruct (SFdiv_core_binary prec emax (Z.pos mt) et (Z.pos md) ed) as [[mz ez] lz].
  pose proof (binary_round_aux_sign (xorb true false) mz ez lz) as Hs.
  destruct (binary_round_aux prec emax (xorb true false) mz ez lz) as [s|s| |s m e];
    try reflexivity; try discriminate; cbn in Hs; subst s; reflexivity.
Qed.

Lemma leb_nan_r (x y : float) : is_nan y = true -> (x <=? y) = false.
Proof.
  intros H. apply is_nan_SF in H. rewrite leb_spec, H.
  destruct (Prim2SF x) as [s|[]| |[] m e]; reflexivity.
Qed.

Lemma ltb_not_leb (x y : float) : (x <? y) = true -> (y <=? x) = false.
Proof.
  intros H. destruct (y <=? x) eqn:E; [exfalso|reflexivity].
  apply ltb_key in H as (k & k' & Hk & Hk' & Hlt).
  apply leb_key in E as (l & l' & Hl & Hl' & Hle).
  assert (l = k') by congruence. assert (l' = k) by congruence. subst.
  destruct k as [[a b] c], k' as [[a' b'] c']; simpl in *; lia.
Qed.

(** The test fails when the time of closest approach is negative and its
    quotient by the drift length has not rounded to a zero. *)
Lemma closest_before_start (tr : rmin2_trace) (dt : float) :
  tr_dt tr = fabs dt ->
  (tr_t_closest tr <? 0) = true ->
  is_zero (tr_t_closest tr / tr_dt tr) = false ->
  closest_in_step tr = false.
Proof.
  intros Hdt Ht Hq. unfold closest_in_step. rewrite Hdt in *.
  now rewrite div_negative_below_zero.
Qed.

(** The test fails when the time of closest approach is above the drift
    length. *)
Lemma closest_after_end (tr : rmin2_trace) (dt : float) :
  tr_dt tr = fabs dt ->
  (tr_dt tr <? tr_t_closest tr) = true ->
  closest_in_step tr = false.
Proof.
  intros Hdt Ht. unfold closest_in_step. rewrite Hdt in *.
  rewrite (ltb_not_leb 1 _ (div_above_one _ _ Ht)). apply andb_false_r.
Qed.

(** A quotient by [fabs(d)] is negative only when the dividend is. *)
Lemma div_below_zero_negative (t d : float) :
  (t / fabs d <? 0) = true -> (t <? 0) = true.
Proof.
  unfold fabs. rewrite !ltb_spec, div_spec, abs_spec, SF_zero.
  destruct (Prim2SF t) as [st|[]| |[] mt et]; try reflexivity;
    destruct (Prim2SF d) as [sd|sd| |sd md ed]; try discriminate.
  unfold SF64div, SFdiv, SFabs.
  destruct (SFdiv_core_binary prec emax (Z.pos mt) et (Z.pos md) ed) as [[mz ez] lz].
  pose proof (binary_round_aux_sign (xorb false false) mz ez lz) as Hs.
  destruct (binary_round_aux prec emax (xorb false false) mz ez lz) as [s|s| |s m e];
    try discriminate; cbn in Hs; subst s; discriminate.
Qed.

Lemma ltb_zero_not_zero (q : float) : (q <? 0) = true -> is_zero q = false.
Proof.
  unfold is_zero. rewrite ltb_spec, FloatAxioms.eqb_spec, SF_zero.
  destruct (Prim2SF q) as [s|[]| |[] m e]; try discriminate; reflexivity.
Qed.

Lemma not_leb_cases (x y : float) :
  (x <=? y) = false -> is_nan x = true \/ is_nan y = true \/ (y <? x) = true.
Proof.
  intros H. destruct (is_nan x) eqn:Ex; [now left|].
  destruct (is_nan y) eqn:Ey; [now right; left|].
  destruct (y <? x) eqn:E; [now right; right|].
  rewrite (not_ltb_leb x y Ex Ey E) in H. discriminate.
Qed.

(** The test fails in these cases only: the time of closest approach is
    negative and its quotient by the drift length is not a zero, or the
    quotient is NaN or above 1. *)
Lemma closest_outside_cases (tr : rmin2_trace) (dt : float) :
  tr_dt tr = fabs dt ->
  closest_in_step tr = false ->
  ((tr_t_closest tr <? 0) = true /\ is_zero (tr_t_closest tr / tr_dt tr) = false)
  \/ is_nan (tr_t_closest tr / tr_dt tr) = true
  \/ (1 <? tr_t_closest tr / tr_dt tr) = true.
Proof.
  intros Hdt. unfold closest_in_step. rewrite Hdt.
  set (q := tr_t_closest tr / fabs dt). intros H.
  apply andb_false_iff in H as [H|H]; apply not_leb_cases in H as [H|[H|H]];
    try discriminate H; auto.
  left. split; [now apply (div_below_zero_negative _ dt) | now apply ltb_zero_not_zero].
Qed.

(** C7 (amended): when the squared separation r1 at the start is a number,
    rmin2 is at most r1, and at most the squared separation r2 at the end of
    the interval when that is a number too.  rmin2 equals MIN(r1,r2) when
    the time of closest approach t_closest is negative, unless its quotient
    by the drift length rounds to a zero; when t_closest is above the drift
    length; and when the quotient is NaN or above 1.  The test of the code
    fails in these cases only. *)
Theorem rmin2_below_endpoints (p1 p2 : reb_particle) (dt : float) :
  let tr := predict_rmin2_trace p1 p2 dt in
  let q := tr_t_closest tr / tr_dt tr in
  (is_nan (tr_r1 tr) = false ->
     (reb_mercurana_predict_rmin2 p1 p2 dt <=? tr_r1 tr) = true
     /\ (is_nan (tr_r2 tr) = false ->
         (reb_mercurana_predict_rmin2 p1 p2 dt <=? tr_r2 tr) = true))
  /\ ((tr_t_closest tr <? 0) = true -> is_zero q = false ->
      reb_mercurana_predict_rmin2 p1 p2 dt = MIN (tr_r1 tr) (tr_r2 tr))
  /\ ((tr_dt tr <? tr_t_closest tr) = true ->
      reb_mercurana_predict_rmin2 p1 p2 dt = MIN (tr_r1 tr) (tr_r2 tr))
  /\ (is_nan q = true \/ (1 <? q) = true ->
      reb_mercurana_predict_rmin2 p1 p2 dt = MIN (tr_r1 tr) (tr_r2 tr))
  /\ (closest_in_step tr = false ->
      ((tr_t_closest tr <? 0) = true /\ is_zero q = false)
      \/ is_nan q = true \/ (1 <? q) = true).
Proof.
  intros tr q. rewrite rmin2_unfold. fold tr.
  refine (conj _ (conj _ (conj _ (conj _ (closest_outside_cases tr dt eq_refl)))));
    repeat split.
  - pose proof (MIN_not_nan _ (tr_r2 tr) H) as Hm.
    destruct (closest_in_step tr); [apply MIN_lower; auto|]; now apply MIN_le_l.
  - intros H2. pose proof (MIN_not_nan _ (tr_r2 tr) H) as Hm.
    destruct (closest_in_step tr); [apply MIN_lower; auto|]; now apply MIN_le_r.
  - intros Ht Hq. now rewrite (closest_before_start tr dt eq_refl Ht Hq).
  - intros Ht. now rewrite (closest_after_end tr dt eq_refl Ht).
  - intros Hq. replace (closest_in_step tr) with false; [reflexivity|].
    symmetry. unfold closest_in_step. fold q. destruct Hq as [Hq|Hq].
    + now rewrite (leb_nan_r 0 q Hq).
    + rewrite (ltb_not_leb 1 q Hq). apply andb_false_r.
Qed.

Local Open Scope nat_scope.

(** C7, as stated, fails: here t_closest is negative, so outside the
    interval, but t_closest/dt rounds to -0, which passes the test, and r3
    is below both r1 and r2 by rounding: rmin2 is not MIN(r1,r2). *)
Lemma rmin2_underflow_takes_r3 :
  let tr := predict_rmin2_trace skew_p1 skew_p2 skew_dt in
  (tr_t_closest tr <? 0)%float = true
  /\ closest_in_step tr = true
  /\ (reb_mercurana_predict_rmin2 skew_p1 skew_p2 skew_dt
      <? MIN (tr_r1 tr) (tr_r2 tr))%float = true
  /\ reb_mercurana_predict_rmin2 skew_p1 skew_p2 skew_dt <> MIN (tr_r1 tr) (tr_r2 tr).
Proof.
  cbv zeta. do 3 (split; [vm_compute; reflexivity|]).
  vm_compute. intros H. discriminate H.
Qed.

(** The comparisons of C7 need numbers.  When both particles are at x =
    infinity the squared separation r1 is NaN, and so is rmin2, which is
    then not below r1; when the particles are at relative rest and the drift
    interval is infinite, r2 is NaN and rmin2 is r1, which is not below
    r2. *)
Lemma rmin2_nan_endpoints :
  (let p := example_particle infinity 0 0 0 0 0 0 in
   let tr := predict_rmin2_trace p p 1 in
   is_nan (tr_r1 tr) = true
   /\ (reb_mercurana_predict_rmin2 p p 1 <=? tr_r1 tr)%float = false)
  /\ (let tr := predict_rmin2_trace approach_p2 approach_p2 infinity in
      is_nan (tr_r1 tr) = false
      /\ is_nan (tr_r2 tr) = true
      /\ (reb_mercurana_predict_rmin2 approach_p2 approach_p2 infinity
          <=? tr_r2 tr)%float = false).
Proof. cbv zeta. repeat split; vm_compute; reflexivity. Qed.

(** The amended C7 for a particle that approaches a particle at rest.  Over
    a drift of length 2, t_closest is -1, its quotient by the drift length
    is -1/2, and rmin2 is MIN(r1,r2) = 1, which bounds it by both ends of
    the interval.  Over a drift of -1/2, t_closest is 1, above the drift
    length 1/2, and rmin2 is MIN(r1,r2) = 1 again. *)
Lemma rmin2_below_endpoints_witness :
  (let tr := predict_rmin2_trace approach_p1 approach_p2 2%float in
   is_nan (tr_r1 tr) = false
   /\ is_nan (tr_r2 tr) = false
   /\ (tr_t_closest tr <? 0)%float = true
   /\ is_zero (tr_t_closest tr / tr_dt tr) = false
   /\ (reb_mercurana_predict_rmin2 approach_p1 approach_p2 2 <=? tr_r1 tr)%float = true
   /\ (reb_mercurana_predict_rmin2 approach_p1 approach_p2 2 <=? tr_r2 tr)%float = true
   /\ reb_mercurana_predict_rmin2 approach_p1 approach_p2 2 = MIN (tr_r1 tr) (tr_r2 tr)
   /\ MIN (tr_r1 tr) (tr_r2 tr) = 1%float)
  /\ (let tr := predict_rmin2_trace approach_p1 approach_p2 (-0.5)%float in
      (tr_dt tr <? tr_t_closest tr)%float = true
      /\ reb_mercurana_predict_rmin2 approach_p1 approach_p2 (-0.5)
         = MIN (tr_r1 tr) (tr_r2 tr)
      /\ MIN (tr_r1 tr) (tr_r2 tr) = 1%float).
Proof.
  cbv zeta. split.
  - do 4 (split; [vm_compute; reflexivity|]).
    pose proof (rmin2_below_endpoints approach_p1 approach_p2 2%float) as H.
    cbv zeta in H. destruct H as (Hle & Heq & _).
    destruct Hle as [H1 H2]; [vm_compute; reflexivity|].
    split; [exact H1|]. split; [apply H2; vm_compute; reflexivity|].
    split; [apply Heq; vm_compute; reflexivity|].
    vm_compute; reflexivity.
  - split; [vm_compute; reflexivity|].
    pose proof (rmin2_below_endpoints approach_p1 approach_p2 (-0.5)%float) as H.
    cbv zeta in H. destruct H as (_ & _ & Hend & _).
    split; [apply Hend; vm_compute; reflexivity|].
    vm_compute; reflexivity.
Defined.

(** ** The default switching function *)

Local Open Scope float_scope.

Lemma div_nan_l (x : float) : nan / x = nan.
Proof. apply nan_eq. rewrite div_spec, SF_nan. reflexivity. Qed.

Lemma sub_nan_l (x : float) : nan - x = nan.
Proof. apply nan_eq. rewrite sub_spec, SF_nan. reflexivity. Qed.

Lemma sub_nan_r (x : float) : x - nan = nan.
Proof.
  apply nan_eq. rewrite sub_spec, SF_nan.
  destruct (Prim2SF x) as [s|s| |s m e]; reflexivity.
Qed.

Lemma mul_nan_r (x : float) : x * nan = nan.
Proof.
  apply nan_eq. rewrite mul_spec, SF_nan.
  destruct (Prim2SF x) as [s|s| |s m e]; reflexivity.
Qed.

Section SwitchingFacts.
Variable exp : float -> float.
(** Annex F of the C standard: [exp(-inf)] returns [+0]. *)
Hypothesis exp_neg_infinity : exp neg_infinity = 0.

Lemma f_zero : f exp 0 = 0.
Proof. unfold f. change (0 <? 0) with false. cbv iota. exact exp_neg_infinity. Qed.

Lemma dfdy_zero : dfdy exp 0 = nan.
Proof.
  unfold dfdy. change (0 <? 0) with false. cbv iota.
  change (-1 / 0) with neg_infinity. rewrite exp_neg_infinity. reflexivity.
Qed.

(** At an endpoint the derivative evaluates [dfdy(0) = 0/0]. *)
Lemma dLdr_at_inner (d ri ro : float) :
  (d - ri) / (ro - ri) = 0 ->
  reb_integrator_mercurana_dLdr_infinity exp d ri ro = nan.
Proof.
  intros Hy. unfold reb_integrator_mercurana_dLdr_infinity. rewrite Hy.
  cbv zeta. change (0 <? 0) with false. change (1 <? 0) with false. cbv iota.
  rewrite dfdy_zero, div_nan_l, !sub_nan_l. apply mul_nan_r.
Qed.

Lemma dLdr_at_outer (d ri ro : float) :
  (d - ri) / (ro - ri) = 1 ->
  reb_integrator_mercurana_dLdr_infinity exp d ri ro = nan.
Proof.
  intros Hy. unfold reb_integrator_mercurana_dLdr_infinity. rewrite Hy.
  cbv zeta. change (1 <? 0) with false. change (1 <? 1) with false. cbv iota.
  change (1 - 1) with 0.
  rewrite dfdy_zero, sub_nan_r, mul_nan_r, sub_nan_r. apply mul_nan_r.
Qed.

(** C9: at both endpoints the derivative of the default switching function
    is not 0 but NaN: for d = ri = 1 and for d = ro = 2 with ri = 1, where
    y is 0 and 1, it evaluates dfdy(0) = exp(-inf)/(0*0) = 0/0. *)
Theorem dLdr_infinity_endpoints_nan :
  reb_integrator_mercurana_dLdr_infinity exp 1 1 2 = nan
  /\ reb_integrator_mercurana_dLdr_infinity exp 2 1 2 = nan.
Proof. split; [apply dLdr_at_inner | apply dLdr_at_outer]; reflexivity. Qed.

(** Outside the interval both functions take their constant values. *)
Lemma L_infinity_below (d ri ro : float) :
  ((d - ri) / (ro - ri) <? 0) = true ->
  reb_integrator_mercurana_L_infinity exp d ri ro = 0
  /\ reb_integrator_mercurana_dLdr_infinity exp d ri ro = 0.
Proof.
  intros H. unfold reb_integrator_mercurana_L_infinity,
    reb_integrator_mercurana_dLdr_infinity. cbv zeta. now rewrite H.
Qed.

Lemma ltb_asym (x y : float) : (x <? y) = true -> (y <? x) = false.
Proof.
  intros H. destruct (y <? x) eqn:E; auto.
  apply ltb_key in H as (k1 & k2 & H1 & H2 & H12).
  apply ltb_key in E as (k2' & k1' & H2' & H1' & H21).
  assert (k1' = k1) by congruence. assert (k2' = k2) by congruence. subst.
  destruct k1 as [[a b] c], k2 as [[a' b'] c']; simpl in *; lia.
Qed.

Lemma ltb_trans (x y z : float) :
  (x <? y) = true -> (y <? z) = true -> (x <? z) = true.
Proof.
  rewrite !ltb_key.
  intros (k1 & k2 & H1 & H2 & H12) (k2' & k3 & H2' & H3 & H23).
  assert (k2' = k2) by congruence. subst.
  exists k1, k3. repeat split; auto.
  destruct k1 as [[a b] c], k2 as [[a' b'] c'], k3 as [[a3 b3] c3]; simpl in *; lia.
Qed.

Lemma L_infinity_above (d ri ro : float) :
  (1 <? (d - ri) / (ro - ri)) = true ->
  reb_integrator_mercurana_L_infinity exp d ri ro = 1
  /\ reb_integrator_mercurana_dLdr_infinity exp d ri ro = 0.
Proof.
  intros H. unfold reb_integrator_mercurana_L_infinity,
    reb_integrator_mercurana_dLdr_infinity. cbv zeta. rewrite H.
  assert (((d - ri) / (ro - ri) <? 0) = false) as ->; auto.
  destruct ((d - ri) / (ro - ri) <? 0) eqn:E; auto.
  assert ((1 <? 0) = true) by (eapply ltb_trans; eauto). discriminate.
Qed.

Lemma L_infinity_between (d ri ro : float) :
  let y := (d - ri) / (ro - ri) in
  (y <? 0) = false -> (1 <? y) = false ->
  reb_integrator_mercurana_L_infinity exp d ri ro
  = f exp y / (f exp y + f exp (1 - y)).
Proof.
  intros y H0 H1. unfold reb_integrator_mercurana_L_infinity. cbv zeta.
  fold y. now rewrite H0, H1.
Qed.

(** [exp(-1)] is a positive number. *)
Variables (em : positive) (ee : Z).
Hypothesis exp_minus_one : Prim2SF (exp (-1)) = S754_finite false em ee.

Lemma L_at_inner (d ri ro : float) :
  (d - ri) / (ro - ri) = 0 ->
  reb_integrator_mercurana_L_infinity exp d ri ro = 0.
Proof.
  intros Hy. unfold reb_integrator_mercurana_L_infinity. rewrite Hy.
  cbv zeta. change (0 <? 0) with false. change (1 <? 0) with false. cbv iota.
  rewrite f_zero. change (1 - 0) with 1. unfold f.
  change (1 <? 0) with false. cbv iota. change (-1 / 1) with (-1).
  apply Prim2SF_inj. rewrite div_spec, add_spec, exp_minus_one. reflexivity.
Qed.
End SwitchingFacts.

(** A positive number divided by itself is [1]. *)
Lemma SFdiv_self (m : positive) (e : Z) :
  SF64div (S754_finite false m e) (S754_finite false m e) = Prim2SF 1.
Proof.
  unfold SF64div, SFdiv, SFdiv_core_binary.
  replace (Zdigits2 (Z.pos m) + e - (Zdigits2 (Z.pos m) + e))%Z with 0%Z by lia.
  replace (e - e)%Z with 0%Z by lia.
  change (Z.min (fexp prec emax 0) 0) with (-53)%Z.
  change (0 - -53)%Z with 53%Z. cbv iota.
  assert (Hd : Z.div_eucl (Z.shiftl (Z.pos m) 53) (Z.pos m) = (2 ^ 53, 0)%Z).
  { rewrite Z.shiftl_mul_pow2 by lia.
    pose proof (Z.div_eucl_eq (Z.pos m * 2 ^ 53) (Z.pos m) ltac:(lia)) as Heq.
    pose proof (Z.mod_pos_bound (Z.pos m * 2 ^ 53) (Z.pos m) ltac:(lia)) as Hb.
    unfold Z.modulo in Hb.
    destruct (Z.div_eucl (Z.pos m * 2 ^ 53) (Z.pos m)) as [q r].
    assert (q = 2 ^ 53)%Z by nia. subst q.
    f_equal. lia. }
  rewrite Hd.
  assert (new_location (Z.pos m) 0 = loc_Exact) as ->
    by (unfold new_location; destruct (Z.even (Z.pos m)); reflexivity).
  reflexivity.
Qed.

Lemma div_self (x : float) (m : positive) (e : Z) :
  Prim2SF x = S754_finite false m e -> x / x = 1.
Proof.
  intros H. apply Prim2SF_inj. rewrite div_spec, H. apply SFdiv_self.
Qed.

Section SwitchingOuter.
Variable exp : float -> float.
Hypothesis exp_neg_infinity : exp neg_infinity = 0.
Variables (em : positive) (ee : Z).
Hypothesis exp_minus_one : Prim2SF (exp (-1)) = S754_finite false em ee.

Lemma L_at_outer (d ri ro : float) :
  (d - ri) / (ro - ri) = 1 ->
  reb_integrator_mercurana_L_infinity exp d ri ro = 1.
Proof.
  intros Hy. unfold reb_integrator_mercurana_L_infinity. rewrite Hy.
  cbv zeta. change (1 <? 0) with false. change (1 <? 1) with false. cbv iota.
  change (1 - 1) with 0. rewrite (f_zero exp exp_neg_infinity). unfold f.
  change (1 <? 0) with false. cbv iota. change (-1 / 1) with (-1).
  assert (exp (-1) + 0 = exp (-1)) as ->.
  { apply Prim2SF_inj. rewrite add_spec, exp_minus_one. reflexivity. }
  eapply div_self; eauto.
Qed.
End SwitchingOuter.

Local Open Scope nat_scope.

(** C9 for an [exp] with the limits of Annex F. *)
Lemma dLdr_infinity_endpoints_nan_witness :
  exp_limits neg_infinity = 0%float
  /\ reb_integrator_mercurana_dLdr_infinity exp_limits 1 1 2 = nan
  /\ reb_integrator_mercurana_dLdr_infinity exp_limits 2 1 2 = nan.
Proof.
  split; [reflexivity|].
  apply (dLdr_infinity_endpoints_nan exp_limits). reflexivity.
Defined.

(** ** The encounter prediction *)

(** *** Loops and frames *)

Lemma for_loop_ind {S} (P : S -> Prop) (lo hi : nat) (body : nat -> S -> S) (s : S) :
  P s ->
  (forall i s, lo <= i < hi -> P s -> P (body i s)) ->
  P (for_loop lo hi body s).
Proof.
  unfold for_loop. intros Hs Hstep.
  assert (Hgen : forall l s, P s -> (forall i, In i l -> lo <= i < hi) ->
                             P (fold_left (fun s i => body i s) l s)).
  { induction l as [|i l IH]; intros s0 H0 Hl; simpl; auto.
    apply IH; [apply Hstep; auto; apply Hl; now left|].
    intros j Hj. apply Hl. now right. }
  apply Hgen; auto. intros i Hi. apply in_seq in Hi. lia.
Qed.

(** A property of the state that every step of a pair scan preserves is
    preserved by the scan. *)
Lemma pair_scan_ind (P : reb_simulation -> Prop) ii ij Xi Xj mi_ mj_ jstart ni nj dt shell r :
  P r ->
  (forall mi mj r, P r -> P (pair_check ii ij Xi Xj mi_ mj_ dt shell mi mj r)) ->
  P (pair_scan ii ij Xi Xj mi_ mj_ jstart ni nj dt shell r).
Proof.
  intros Hr Hstep. unfold pair_scan.
  apply for_loop_ind; auto. intros i s _ Hs.
  apply for_loop_ind; auto.
Qed.

Lemma predict_unfold search fuel r dt shell :
  reb_mercurana_encounter_predict search fuel r dt shell =
  if rim_Nmaxshells (ri_mercurana r) <=? shell + 1 then Some r
  else
    let r := predict_scan r dt shell in
    if negb (rim_collisions_N (ri_mercurana r) =? 0) then
      let N_before := r_N r in
      let r := search r in
      let redo :=
        if negb (N_before =? r_N r) then
          match fuel with
          | O => None
          | S fuel' => reb_mercurana_encounter_predict search fuel' r dt shell
          end
        else Some r in
      match redo with
      | Some r => Some (upd_rim (set_rim_collisions_N 0) r)
      | None => None
      end
    else Some r.
Proof. destruct fuel; reflexivity. Qed.

Lemma predict_deepest search fuel r dt shell :
  rim_Nmaxshells (ri_mercurana r) <= shell + 1 ->
  reb_mercurana_encounter_predict search fuel r dt shell = Some r.
Proof.
  intros H. rewrite predict_unfold.
  now apply Nat.leb_le in H as ->.
Qed.

Lemma predict_no_collision search fuel r dt shell :
  shell + 1 < rim_Nmaxshells (ri_mercurana r) ->
  rim_collisions_N (ri_mercurana (predict_scan r dt shell)) = 0 ->
  reb_mercurana_encounter_predict search fuel r dt shell
  = Some (predict_scan r dt shell).
Proof.
  intros H Hc. rewrite predict_unfold.
  apply Nat.leb_gt in H as ->. cbv zeta. now rewrite Hc.
Qed.

(** When the scans recorded a collision and the resolver keeps the number of
    particles, predict returns what the resolver made of the scanned state. *)
Lemma predict_collision search fuel r dt shell :
  shell + 1 < rim_Nmaxshells (ri_mercurana r) ->
  rim_collisions_N (ri_mercurana (predict_scan r dt shell)) <> 0 ->
  r_N (search (predict_scan r dt shell)) = r_N (predict_scan r dt shell) ->
  reb_mercurana_encounter_predict search fuel r dt shell
  = Some (upd_rim (set_rim_collisions_N 0) (search (predict_scan r dt shell))).
Proof.
  intros H Hc HN. rewrite predict_unfold.
  apply Nat.leb_gt in H as ->. cbv zeta.
  apply Nat.eqb_neq in Hc as ->. cbn [negb].
  rewrite HN, Nat.eqb_refl. reflexivity.
Qed.

Lemma scan_frame_refl r : scan_frame r r.
Proof. now constructor. Qed.

Lemma scan_frame_trans r1 r2 r3 : scan_frame r1 r2 -> scan_frame r2 r3 -> scan_frame r1 r3.
Proof. intros [] []. constructor; congruence. Qed.

Lemma upd_rim_frame (g : reb_simulation_integrator_mercurana -> reb_simulation_integrator_mercurana) r :
  rim_Nmaxshells (g (ri_mercurana r)) = rim_Nmaxshells (ri_mercurana r) ->
  rim_N_dominant (g (ri_mercurana r)) = rim_N_dominant (ri_mercurana r) ->
  rim_dcrit (g (ri_mercurana r)) = rim_dcrit (ri_mercurana r) ->
  rim_inshell_subdominant (g (ri_mercurana r)) = rim_inshell_subdominant (ri_mercurana r) ->
  rim_p0 (g (ri_mercurana r)) = rim_p0 (ri_mercurana r) ->
  rim_t_drifted (g (ri_mercurana r)) = rim_t_drifted (ri_mercurana r) ->
  scan_frame r (upd_rim g r).
Proof. intros. constructor; simpl; auto. Qed.

Ltac rim_frame :=
  unfold promote, lower_maxdrift, inshell_store, maxdrift_store, set_rim_map,
    set_rim_shellN;
  repeat match goal with
         | |- context [if ?b then _ else _] => destruct b
         | p : inshell_ptr |- _ => destruct p
         | p : maxdrift_ptr |- _ => destruct p
         | X : role |- _ => destruct X
         end; try congruence; try reflexivity.

Lemma promote_frame p X shell m r :
  p <> rim_ptr_inshell_subdominant ->
  scan_frame r (upd_rim (promote p X shell m) r).
Proof. intros Hp. apply upd_rim_frame; rim_frame. Qed.

Lemma lower_maxdrift_frame md m v r :
  scan_frame r (upd_rim (lower_maxdrift md m v) r).
Proof. apply upd_rim_frame; rim_frame. Qed.

Lemma record_collision_frame r i j :
  scan_frame r (reb_mercurana_record_collision r i j).
Proof.
  unfold reb_mercurana_record_collision.
  destruct (r_collisions_allocatedN r <=? rim_collisions_N (ri_mercurana r));
    constructor; reflexivity.
Qed.

Lemma upd_rim_compose g1 g2 r :
  upd_rim (fun rim => g2 (g1 rim)) r = upd_rim g2 (upd_rim g1 r).
Proof. reflexivity. Qed.

(** The two outcomes of a pair: the optional collision record, then either the
    two promotions or the two maxdrift updates. *)
Lemma pair_check_cases (P : reb_simulation -> Prop) ii ij Xi Xj mdi mdj dt shell mi mj r :
  (forall rc, (rc = r \/ rc = reb_mercurana_record_collision r mi mj) ->
     P (upd_rim (promote ij Xj shell mj) (upd_rim (promote ii Xi shell mi) rc))
     /\ forall v, P (upd_rim (lower_maxdrift mdj mj v) (upd_rim (lower_maxdrift mdi mi v) rc))) ->
  P (pair_check ii ij Xi Xj mdi mdj dt shell mi mj r).
Proof.
  intros H. unfold pair_check.
  set (rc := if (_ : bool) then reb_mercurana_record_collision r mi mj else r).
  assert (Hrc : rc = r \/ rc = reb_mercurana_record_collision r mi mj)
    by (subst rc; destruct (_ && _); auto).
  clearbody rc. cbv zeta. destruct (H rc Hrc) as [Hp Hl].
  destruct (_ <? _)%float; [apply Hp | apply Hl].
Qed.

Lemma pair_check_frame ii ij Xi Xj mdi mdj dt shell mi mj r :
  ii <> rim_ptr_inshell_subdominant -> ij <> rim_ptr_inshell_subdominant ->
  scan_frame r (pair_check ii ij Xi Xj mdi mdj dt shell mi mj r).
Proof.
  intros Hi Hj. apply pair_check_cases. intros rc Hrc.
  assert (scan_frame r rc)
    by (destruct Hrc; subst; auto using scan_frame_refl, record_collision_frame).
  split; [|intros v]; (eapply scan_frame_trans; [eassumption|]).
  - eapply scan_frame_trans; apply promote_frame; auto.
  - eapply scan_frame_trans; apply lower_maxdrift_frame.
Qed.

Lemma pair_scan_frame ii ij Xi Xj mdi mdj jstart ni nj dt shell r :
  ii <> rim_ptr_inshell_subdominant -> ij <> rim_ptr_inshell_subdominant ->
  scan_frame r (pair_scan ii ij Xi Xj mdi mdj jstart ni nj dt shell r).
Proof.
  intros Hi Hj. apply pair_scan_ind; [apply scan_frame_refl|].
  intros mi mj r' Hr'. eapply scan_frame_trans; [exact Hr'|].
  now apply pair_check_frame.
Qed.

(** C1: predict is not idempotent at a shell s > 0.  For two encounter
    particles of shell 1 within each other's critical radius, a first
    predict of shell 1 puts both into map_encounter[2]; a second one, called
    on the result with nothing changed in between, leaves map_encounter[2]
    empty, because inshell_encounter still holds 2 for both. *)
Theorem predict_twice_differs search fuel :
  exists r1 r2,
    reb_mercurana_encounter_predict search fuel sim_descended 1%float 1 = Some r1
    /\ reb_mercurana_encounter_predict search fuel r1 1%float 1 = Some r2
    /\ shell_members Encounter 1 r1 = [0; 1]
    /\ shell_members Encounter 2 r1 = [0; 1]
    /\ shell_members Encounter 1 r2 = [0; 1]
    /\ shell_members Encounter 2 r2 = [].
Proof.
  exists (predict_scan sim_descended 1%float 1).
  exists (predict_scan (predict_scan sim_descended 1%float 1) 1%float 1).
  split; [|split].
  - apply predict_no_collision; vm_compute; lia.
  - apply predict_no_collision; vm_compute; lia.
  - vm_compute. auto.
Qed.

(** C3: when the Dom-Sub pass of predict at shell 0 finds the subdominant
    particle 1 within the critical radius of the dominant particle 0, it
    appends 1 to map_subdominant[1], leaves inshell_subdominant[1] at 0 and
    sets inshell_dominant[1] from 0 to 1: the pointer inshell_subdominant of
    the function points to the array inshell_dominant. *)
Theorem dom_sub_promotion_writes_inshell_dominant search fuel :
  exists r',
    reb_mercurana_encounter_predict search fuel sim_dom_sub 1%float 0 = Some r'
    /\ shell_members Dominant 0 r' = [0]
    /\ shell_members Subdominant 0 r' = [1]
    /\ (reb_mercurana_predict_rmin2 (rd (r_particles r') 0) (rd (r_particles r') 1) 1
        <? (rd2 (rim_dcrit (ri_mercurana r')) 0 0 + rd2 (rim_dcrit (ri_mercurana r')) 0 1)
           * (rd2 (rim_dcrit (ri_mercurana r')) 0 0 + rd2 (rim_dcrit (ri_mercurana r')) 0 1))%float
       = true
    /\ shell_members Subdominant 1 r' = [1]
    /\ rd (rim_inshell_subdominant (ri_mercurana r')) 1 = 0
    /\ rd (rim_inshell_dominant (ri_mercurana sim_dom_sub)) 1 = 0
    /\ rd (rim_inshell_dominant (ri_mercurana r')) 1 = 1.
Proof.
  exists (predict_scan sim_dom_sub 1%float 0). split.
  - apply predict_no_collision; vm_compute; lia.
  - vm_compute. repeat apply conj; reflexivity.
Qed.

(** C4: the re-scan of phase P1 at shell 1 runs over shellN_encounter[0]
    cells of map_encounter[1], not of map_encounter[0].  Particle 2 is a
    member of map_encounter[0] only, particle 0 of shell 1 has drifted beyond
    its maxdrift, and the drifted predictor with the offset
    t_drifted[0] - t_drifted[2] puts the two within their critical radii; yet
    particle 2 is neither promoted nor moved when the cell of
    map_encounter[1] behind its members holds 1, and it is promoted into
    shell 1 and moved by the offset, from 5 to 4.5, when that cell holds
    2. *)
Theorem maxdrift_rescan_reads_shell_map search fuel :
  let i := 0 in
  let j := 2 in
  let r := sim_maxdrift 1 in
  let offset := (rd (rim_t_drifted (ri_mercurana r)) i
                 - rd (rim_t_drifted (ri_mercurana r)) j)%float in
  let dcritsum := (rd2 (rim_dcrit (ri_mercurana r)) 1 i
                   + rd2 (rim_dcrit (ri_mercurana r)) 1 j)%float in
  i ∈ shell_members Encounter 1 r
  /\ j ∈ shell_members Encounter 0 r
  /\ rd (rim_inshell_encounter (ri_mercurana r)) j = 0
  /\ (rd (rim_maxdrift_encounter (ri_mercurana r)) i
      <? sqrt (sep2 (rd (r_particles r) i) (rd (rim_p0 (ri_mercurana r)) i)))%float = true
  /\ (reb_mercurana_predict_rmin2_drifted (rd (r_particles r) i)
        (rd (r_particles r) j) 0.5 offset <? dcritsum * dcritsum)%float = true
  /\ exists r',
       reb_mercurana_encounter_predict search fuel r 0.5%float 1 = Some r'
       /\ shell_members Encounter 1 r' = [0; 1]
       /\ rd (rim_inshell_encounter (ri_mercurana r')) j = 0
       /\ rd (r_particles r') j = rd (r_particles r) j
       /\ exists r'',
            reb_mercurana_encounter_predict search fuel (sim_maxdrift 2) 0.5%float 1
            = Some r''
            /\ shell_members Encounter 0 (sim_maxdrift 2) = shell_members Encounter 0 r
            /\ shell_members Encounter 1 (sim_maxdrift 2) = shell_members Encounter 1 r
            /\ shell_members Encounter 1 r'' = [0; 1; 2]
            /\ rd (rim_inshell_encounter (ri_mercurana r'')) j = 1
            /\ p_x (rd (r_particles r'') j) = 4.5%float.
Proof.
  cbv zeta.
  split; [vm_compute; constructor|].
  split; [vm_compute; do 2 constructor; constructor|].
  do 3 (split; [vm_compute; reflexivity|]).
  exists (predict_scan (sim_maxdrift 1) 0.5%float 1).
  split; [apply predict_no_collision; vm_compute; [lia|reflexivity]|].
  do 3 (split; [vm_compute; reflexivity|]).
  exists (predict_scan (sim_maxdrift 2) 0.5%float 1).
  split; [apply predict_no_collision; vm_compute; [lia|reflexivity]|].
  vm_compute. repeat apply conj; reflexivity.
Qed.

(** ** Shell maps and their nesting *)

(** *** Appending to a shell map *)

Lemma rd_insert_ne {A} `{Inhabited A} (l : list A) i j v :
  i <> j -> rd (<[i := v]> l) j = rd l j.
Proof. intros. unfold rd. now apply list_lookup_total_insert_ne. Qed.

Lemma wr2_row_ne {A} (a : list (list A)) s i v s' :
  s <> s' -> wr2 a s i v !!! s' = a !!! s'.
Proof. intros. unfold wr2. now apply list_lookup_total_insert_ne. Qed.

Lemma wr2_row_length {A} (a : list (list A)) s i v s' :
  length (wr2 a s i v !!! s') = length (a !!! s').
Proof.
  unfold wr2. destruct (decide (s = s')) as [<-|Hne].
  - rewrite list_lookup_total_insert. case_decide; [apply length_insert | reflexivity].
  - now rewrite list_lookup_total_insert_ne.
Qed.

(** The members after the append [map[k][cnt[k]] = m; cnt[k]++]. *)
Lemma row_out_of_range {A} (a : list (list A)) s : length a <= s -> a !!! s = [].
Proof.
  intros H. rewrite list_lookup_total_alt, lookup_ge_None_2 by lia. reflexivity.
Qed.

Lemma append_members (map : list (list nat)) (cnt : list nat) k m s x :
  x ∈ take (rd (<[k := S (rd cnt k)]> cnt) s) (wr2 map k (rd cnt k) m !!! s) ->
  x ∈ take (rd cnt s) (map !!! s) \/ (s = k /\ x = m).
Proof.
  destruct (decide (k = s)) as [<-|Hne].
  - unfold rd, wr2. intros Hx. apply elem_of_take in Hx as (i & Hi & Hlt).
    assert (Hcnt : <[k:=S (cnt !!! k)]> cnt !!! k <= S (cnt !!! k)).
    { rewrite list_lookup_total_insert. case_decide; lia. }
    assert (Hrow : (i = cnt !!! k /\ x = m)
                   \/ (i <> cnt !!! k /\ (map !!! k) !! i = Some x)).
    { revert Hi. rewrite list_lookup_total_insert. case_decide as Hk.
      - rewrite list_lookup_insert. case_decide as Hd.
        + intros [= <-]. left. destruct Hd. auto.
        + intros Hi. right. split; auto. intros ->.
          apply lookup_lt_Some in Hi. apply Hd. auto.
      - rewrite row_out_of_range by (destruct (decide (k < length map)); [tauto|lia]).
        intros Hi. now rewrite lookup_nil in Hi. }
    destruct Hrow as [[-> ->]|[Hne Hi']]; auto.
    left. apply elem_of_take. exists i. split; auto. lia.
  - rewrite rd_insert_ne, wr2_row_ne by auto. auto.
Qed.

(** Conversely the append keeps the members. *)
Lemma append_members_keeps (map : list (list nat)) (cnt : list nat) k m s x :
  x ∈ take (rd cnt s) (map !!! s) ->
  x ∈ take (rd (<[k := S (rd cnt k)]> cnt) s) (wr2 map k (rd cnt k) m !!! s).
Proof.
  destruct (decide (k = s)) as [<-|Hne].
  - unfold rd, wr2. intros Hx. apply elem_of_take in Hx as (i & Hi & Hlt).
    apply elem_of_take. exists i. split.
    + rewrite list_lookup_total_insert. case_decide; auto.
      rewrite list_lookup_insert_ne by lia. auto.
    + rewrite list_lookup_total_insert. case_decide; lia.
  - rewrite rd_insert_ne, wr2_row_ne by auto. auto.
Qed.

Lemma shell_members_rim X s r : shell_members X s r = members X s (ri_mercurana r).
Proof. reflexivity. Qed.

Lemma rim_map_set_map X X' v rim :
  rim_map X' (set_rim_map X v rim) = if decide (X = X') then v else rim_map X' rim.
Proof. destruct X, X'; reflexivity. Qed.

Lemma rim_shellN_set_map X X' v rim :
  rim_shellN X' (set_rim_map X v rim) = rim_shellN X' rim.
Proof. destruct X, X'; reflexivity. Qed.

Lemma rim_map_set_shellN X X' v rim :
  rim_map X' (set_rim_shellN X v rim) = rim_map X' rim.
Proof. destruct X, X'; reflexivity. Qed.

Lemma rim_shellN_set_shellN X X' v rim :
  rim_shellN X' (set_rim_shellN X v rim) = if decide (X = X') then v else rim_shellN X' rim.
Proof. destruct X, X'; reflexivity. Qed.

Lemma rim_map_inshell_store p i v X rim :
  rim_map X (inshell_store p i v rim) = rim_map X rim.
Proof. destruct p, X; reflexivity. Qed.

Lemma rim_shellN_inshell_store p i v X rim :
  rim_shellN X (inshell_store p i v rim) = rim_shellN X rim.
Proof. destruct p, X; reflexivity. Qed.

Lemma rim_map_lower md i v X rim :
  rim_map X (lower_maxdrift md i v rim) = rim_map X rim.
Proof. destruct md, X; reflexivity. Qed.

Lemma rim_shellN_lower md i v X rim :
  rim_shellN X (lower_maxdrift md i v rim) = rim_shellN X rim.
Proof. destruct md, X; reflexivity. Qed.

(** A promotion appends [m] to [map_X[shell+1]], or does nothing. *)
Lemma promote_maps p X shell m rim :
  promote p X shell m rim = rim
  \/ (forall X', rim_map X' (promote p X shell m rim)
                 = if decide (X = X')
                   then wr2 (rim_map X rim) (shell+1) (rd (rim_shellN X rim) (shell+1)) m
                   else rim_map X' rim)
     /\ (forall X', rim_shellN X' (promote p X shell m rim)
                    = if decide (X = X')
                      then <[shell+1 := S (rd (rim_shellN X rim) (shell+1))]> (rim_shellN X rim)
                      else rim_shellN X' rim).
Proof.
  unfold promote. destruct (inshell_load p rim m =? shell); [right|now left].
  split; intros X'.
  - rewrite rim_map_set_shellN, rim_map_set_map.
    repeat rewrite rim_map_inshell_store. repeat rewrite rim_shellN_inshell_store.
    reflexivity.
  - rewrite rim_shellN_set_shellN. repeat rewrite rim_shellN_set_map.
    repeat rewrite rim_shellN_inshell_store. reflexivity.
Qed.

Lemma promote_members p X shell m rim X' s x :
  x ∈ members X' s (promote p X shell m rim) ->
  x ∈ members X' s rim \/ (X' = X /\ s = shell + 1 /\ x = m).
Proof.
  unfold members. destruct (promote_maps p X shell m rim) as [-> | [Hm Hn]]; auto.
  rewrite Hm, Hn. destruct (decide (X = X')); auto. subst X'.
  intros H. apply append_members in H as [|[-> ->]]; auto.
Qed.

Lemma promote_row p X shell m rim X' s :
  s <> shell + 1 ->
  rim_map X' (promote p X shell m rim) !!! s = rim_map X' rim !!! s
  /\ rd (rim_shellN X' (promote p X shell m rim)) s = rd (rim_shellN X' rim) s.
Proof.
  intros Hs. destruct (promote_maps p X shell m rim) as [-> | [Hm Hn]]; auto.
  rewrite Hm, Hn. destruct (decide (X = X')); auto.
  subst X'. rewrite wr2_row_ne, rd_insert_ne by lia. auto.
Qed.

Lemma pair_scan_ind_rows (P : reb_simulation -> Prop) rowsi rowsj
    ii ij Xi Xj mdi mdj jstart ni nj dt shell r :
  (forall r, P r -> rim_map Xi (ri_mercurana r) !!! shell = rowsi
                    /\ rim_map Xj (ri_mercurana r) !!! shell = rowsj) ->
  P r ->
  (forall i j r, i < ni -> jstart i <= j < nj -> P r ->
     P (pair_check ii ij Xi Xj mdi mdj dt shell (rowsi !!! i) (rowsj !!! j) r)) ->
  P (pair_scan ii ij Xi Xj mdi mdj jstart ni nj dt shell r).
Proof.
  intros Hrows Hr Hstep. unfold pair_scan.
  apply for_loop_ind; auto. intros i s Hi Hs.
  unfold rd2 at 1. destruct (Hrows s Hs) as [-> _].
  apply for_loop_ind; auto. intros j s' Hj Hs'.
  unfold rd2. destruct (Hrows s' Hs') as [_ ->].
  apply Hstep; auto. lia.
Qed.

Section Nested.
Variable shell : nat.
Variable rows : role -> list nat.
Variable n : role -> nat.

Lemma promote_nested p X m rim :
  rim_nested shell rows n rim -> m ∈ take (n X) (rows X) -> rim_nested shell rows n (promote p X shell m rim).
Proof.
  intros Hinv Hm X'. destruct (Hinv X') as [Hrow Hmem]. split.
  - destruct (promote_row p X shell m rim X' shell) as [-> _]; auto. lia.
  - intros x Hx. apply promote_members in Hx as [Hx|(-> & _ & ->)]; auto.
Qed.

Lemma lower_nested md m v rim : rim_nested shell rows n rim -> rim_nested shell rows n (lower_maxdrift md m v rim).
Proof.
  intros Hinv X. unfold members.
  rewrite rim_map_lower, rim_shellN_lower. apply Hinv.
Qed.

Lemma record_collision_rim r i j :
  exists c, ri_mercurana (reb_mercurana_record_collision r i j)
            = set_rim_collisions_N c (ri_mercurana r).
Proof.
  unfold reb_mercurana_record_collision.
  destruct (r_collisions_allocatedN r <=? rim_collisions_N (ri_mercurana r));
    eexists; reflexivity.
Qed.

Lemma collisions_N_nested c rim : rim_nested shell rows n rim -> rim_nested shell rows n (set_rim_collisions_N c rim).
Proof. intros Hinv X. specialize (Hinv X). destruct X; exact Hinv. Qed.

Lemma pair_check_nested ii ij Xi Xj mdi mdj dt mi mj r :
  rim_nested shell rows n (ri_mercurana r) ->
  mi ∈ take (n Xi) (rows Xi) -> mj ∈ take (n Xj) (rows Xj) ->
  rim_nested shell rows n (ri_mercurana (pair_check ii ij Xi Xj mdi mdj dt shell mi mj r)).
Proof.
  intros Hinv Hmi Hmj. apply pair_check_cases. intros rc Hrc.
  assert (Hc : rim_nested shell rows n (ri_mercurana rc)).
  { destruct Hrc as [->| ->]; auto.
    destruct (record_collision_rim r mi mj) as [c ->].
    now apply collisions_N_nested. }
  split; [|intros v]; cbn [upd_rim ri_mercurana set_ri_mercurana].
  - auto using promote_nested.
  - auto using lower_nested.
Qed.

Lemma take_lookup_total (l : list nat) k i : i < k -> k <= length l -> l !!! i ∈ take k l.
Proof.
  intros Hi Hk. apply elem_of_take. exists i. split; auto.
  apply list_lookup_lookup_total_lt. lia.
Qed.

Lemma pair_scan_nested ii ij Xi Xj mdi mdj jstart ni nj dt r :
  rim_nested shell rows n (ri_mercurana r) ->
  ni <= n Xi -> nj <= n Xj ->
  n Xi <= length (rows Xi) -> n Xj <= length (rows Xj) ->
  rim_nested shell rows n (ri_mercurana (pair_scan ii ij Xi Xj mdi mdj jstart ni nj dt shell r)).
Proof.
  intros Hinv Hni Hnj Hci Hcj.
  apply (pair_scan_ind_rows (fun r => rim_nested shell rows n (ri_mercurana r))
           (rows Xi) (rows Xj)); auto.
  - intros r' Hr'. split; apply Hr'.
  - intros i j r' Hi Hj Hr'.
    apply pair_check_nested; auto; apply take_lookup_total; lia.
Qed.
End Nested.

Lemma for_loop_rel {S} (R : S -> S -> Prop) `{!Reflexive R} `{!Transitive R}
    (lo hi : nat) (body : nat -> S -> S) (s : S) :
  (forall i s, lo <= i < hi -> R s (body i s)) -> R s (for_loop lo hi body s).
Proof.
  intros Hstep. apply (for_loop_ind (fun s' => R s s')); [reflexivity|].
  intros i s' Hi Hs'. etransitivity; eauto.
Qed.

Lemma same_shape_grows shell r r' : same_shape r r' -> grows shell r r'.
Proof. intros []. constructor; intros; auto; rewrite ?ss_shellN0; auto. Qed.

Lemma rd_append_ge (l : list nat) k j : rd l j <= rd (<[k := S (rd l k)]> l) j.
Proof.
  unfold rd. rewrite list_lookup_total_insert. case_decide as H; [|lia].
  destruct H as [-> _]. lia.
Qed.

(** The steps of the maxdrift phase. *)
Lemma grows_inshell_store shell p i v r : grows shell r (upd_rim (inshell_store p i v) r).
Proof. apply same_shape_grows. constructor; intros; destruct p; try destruct X; reflexivity. Qed.

Lemma grows_lower shell md i v r : grows shell r (upd_rim (lower_maxdrift md i v) r).
Proof. apply same_shape_grows. constructor; intros; destruct md; try destruct X; reflexivity. Qed.

Lemma grows_particles shell ps r : grows shell r (set_r_particles ps r).
Proof. apply same_shape_grows. constructor; intros; reflexivity. Qed.

Lemma grows_append_encounter shell s mj r :
  s <> shell + 1 ->
  grows shell r
    (upd_rim (fun rim =>
       let rim := set_rim_map_encounter
                    (wr2 (rim_map_encounter rim) s (rd (rim_shellN_encounter rim) s) mj)
                    rim in
       set_rim_shellN_encounter
         (<[s := S (rd (rim_shellN_encounter rim) s)]> (rim_shellN_encounter rim)) rim) r).
Proof.
  intros Hs. constructor; try reflexivity; intros X.
  - intros s'. destruct X; try reflexivity. cbn. apply wr2_row_length.
  - destruct X; try reflexivity. cbn. now apply rd_insert_ne.
  - destruct X; try reflexivity. cbn. apply rd_append_ge.
Qed.

Lemma predict_maxdrift_grows ip nE dt shell r :
  grows shell r (predict_maxdrift ip nE dt shell r).
Proof.
  unfold predict_maxdrift. apply (for_loop_rel (grows shell)). intros i s _.
  destruct (_ <? _)%float; [|reflexivity].
  apply (for_loop_rel (grows shell)). intros j s' _.
  destruct (inshell_load _ _ _ <? shell); [|reflexivity].
  cbv zeta. destruct (_ <? _)%float.
  - etransitivity; [|apply grows_particles].
    etransitivity; [apply grows_inshell_store|].
    apply (for_loop_rel (grows shell)). intros k s'' Hk.
    apply grows_append_encounter. lia.
  - apply grows_lower.
Qed.

(** The steps of the setup of the outermost shell. *)
Lemma same_shape_upd_rim g r :
  (forall X s, length (rim_map X (g (ri_mercurana r)) !!! s)
               = length (rim_map X (ri_mercurana r) !!! s)) ->
  (forall X, rim_shellN X (g (ri_mercurana r)) = rim_shellN X (ri_mercurana r)) ->
  rim_collisions_N (g (ri_mercurana r)) = rim_collisions_N (ri_mercurana r) ->
  rim_N_dominant (g (ri_mercurana r)) = rim_N_dominant (ri_mercurana r) ->
  same_shape r (upd_rim g r).
Proof. intros. constructor; auto. Qed.

Lemma predict_setup_same_shape ie id isd r :
  same_shape
    (upd_rim (fun rim =>
       let rim := set_rim_shellN_dominant
                    (<[0 := rim_N_dominant rim]> (rim_shellN_dominant rim)) rim in
       let rim := set_rim_shellN_subdominant
                    (<[0 := r_N r - rim_N_dominant rim]> (rim_shellN_subdominant rim))
                    rim in
       set_rim_shellN_encounter
         (<[0 := r_N r - rim_N_dominant rim]> (rim_shellN_encounter rim)) rim) r)
    (predict_setup ie id isd r).
Proof.
  unfold predict_setup. cbv zeta.
  etransitivity; [|apply (for_loop_rel same_shape)].
  - etransitivity; [|apply (for_loop_rel same_shape)].
    + apply (for_loop_rel same_shape). intros i s _.
      apply same_shape_upd_rim; try reflexivity.
      intros X s'. destruct X; try reflexivity. apply wr2_row_length.
    + intros i s _.
      apply same_shape_upd_rim; try reflexivity.
      intros X s'. destruct X; try reflexivity; apply wr2_row_length.
  - intros i s _.
    apply same_shape_upd_rim; try intros X; try intros s';
      destruct ie, id, isd; try destruct X; reflexivity.
Qed.

Lemma predict_setup_shape ie id isd r :
  let r' := predict_setup ie id isd r in
  (forall X s, length (rim_map X (ri_mercurana r') !!! s)
               = length (rim_map X (ri_mercurana r) !!! s))
  /\ rim_shellN_dominant (ri_mercurana r')
     = <[0 := rim_N_dominant (ri_mercurana r)]> (rim_shellN_dominant (ri_mercurana r))
  /\ rim_shellN_subdominant (ri_mercurana r')
     = <[0 := r_N r - rim_N_dominant (ri_mercurana r)]>
         (rim_shellN_subdominant (ri_mercurana r))
  /\ rim_shellN_encounter (ri_mercurana r')
     = <[0 := r_N r - rim_N_dominant (ri_mercurana r)]>
         (rim_shellN_encounter (ri_mercurana r))
  /\ r_collision r' = r_collision r
  /\ rim_collisions_N (ri_mercurana r') = rim_collisions_N (ri_mercurana r)
  /\ r_N r' = r_N r
  /\ r_collisions r' = r_collisions r
  /\ r_collisions_allocatedN r' = r_collisions_allocatedN r.
Proof.
  destruct (predict_setup_same_shape ie id isd r) as [Hlen Hcnt Hc HcN HN HNd Hb Ha].
  cbv zeta. repeat apply conj.
  - intros X s. rewrite Hlen. destruct X; reflexivity.
  - apply (Hcnt Dominant).
  - apply (Hcnt Subdominant).
  - apply (Hcnt Encounter).
  - exact Hc.
  - exact HcN.
  - exact HN.
  - exact Hb.
  - exact Ha.
Qed.

(** The pair scans touch neither the maps of their shell nor their lengths,
    and record nothing unless the collision mode is DIRECT. *)
Lemma promote_same_shape_at shell p X m rim X' :
  rd (rim_shellN X' (promote p X shell m rim)) shell = rd (rim_shellN X' rim) shell
  /\ rim_collisions_N (promote p X shell m rim) = rim_collisions_N rim
  /\ rim_N_dominant (promote p X shell m rim) = rim_N_dominant rim.
Proof.
  split; [apply promote_row; lia|].
  unfold promote. destruct (_ =? _); auto. destruct p, X; auto.
Qed.

Lemma pair_check_keeps ii ij Xi Xj mdi mdj dt shell mi mj r :
  scan_keeps shell r (pair_check ii ij Xi Xj mdi mdj dt shell mi mj r).
Proof.
  unfold pair_check.
  set (rc := if (_ : bool) then reb_mercurana_record_collision r mi mj else r).
  assert (Hrc : scan_keeps shell r rc).
  { subst rc. destruct (is_direct (r_collision r)) eqn:Hd.
    - destruct (_ <? _)%float; [|reflexivity]. cbn [andb].
      constructor; intros; try congruence;
        unfold reb_mercurana_record_collision;
        destruct (r_collisions_allocatedN r <=? _); try destruct X; reflexivity.
    - rewrite andb_false_r. reflexivity. }
  clearbody rc. cbv zeta. etransitivity; [exact Hrc|].
  destruct (_ <? _)%float.
  - constructor; try reflexivity; intros; cbn [upd_rim ri_mercurana set_ri_mercurana].
    + destruct (promote_same_shape_at shell ij Xj mj (promote ii Xi shell mi (ri_mercurana rc)) X)
        as [-> _].
      now destruct (promote_same_shape_at shell ii Xi mi (ri_mercurana rc) X) as [-> _].
    + destruct (promote_same_shape_at shell ij Xj mj (promote ii Xi shell mi (ri_mercurana rc)) Dominant)
        as (_ & -> & _).
      now destruct (promote_same_shape_at shell ii Xi mi (ri_mercurana rc) Dominant) as (_ & -> & _).
    + destruct (promote_row ij Xj shell mj (promote ii Xi shell mi (ri_mercurana rc)) X shell)
        as [-> _]; [lia|].
      destruct (promote_row ii Xi shell mi (ri_mercurana rc) X shell) as [-> _]; [lia|].
      reflexivity.
  - constructor; try reflexivity; intros; cbn [upd_rim ri_mercurana set_ri_mercurana].
    + now rewrite !rim_shellN_lower.
    + destruct mdi, mdj; reflexivity.
    + now rewrite !rim_map_lower.
Qed.

Lemma pair_scan_keeps ii ij Xi Xj mdi mdj jstart ni nj dt shell r :
  scan_keeps shell r (pair_scan ii ij Xi Xj mdi mdj jstart ni nj dt shell r).
Proof.
  unfold pair_scan. apply (for_loop_rel (scan_keeps shell)). intros i s _.
  apply (for_loop_rel (scan_keeps shell)). intros j s' _.
  apply pair_check_keeps.
Qed.

Lemma rd_insert_zero (l : list nat) k : rd (<[k := 0]> l) k = 0.
Proof.
  unfold rd. rewrite list_lookup_total_insert. case_decide as H; auto.
  rewrite list_lookup_total_alt, lookup_ge_None_2; [reflexivity|].
  destruct (decide (k < length l)); [tauto | lia].
Qed.

Lemma rd_insert_le (l : list nat) k v : rd (<[k := v]> l) k <= v.
Proof.
  unfold rd. rewrite list_lookup_total_insert. case_decide as H; auto.
  rewrite list_lookup_total_alt, lookup_ge_None_2; [simpl; lia|].
  destruct (decide (k < length l)); [tauto | lia].
Qed.

Lemma take_mono (l : list nat) a b x : a <= b -> x ∈ take a l -> x ∈ take b l.
Proof.
  intros Hab Hx. apply elem_of_take in Hx as (i & Hi & Hlt).
  apply elem_of_take. exists i. split; auto. lia.
Qed.

Lemma predict_scan_unfold r dt shell :
  predict_scan r dt shell =
  let r1 := predict_before_scans r dt shell in
  let r2 := pair_scan rim_ptr_inshell_dominant rim_ptr_inshell_dominant
              Dominant Dominant rim_ptr_maxdrift_dominant rim_ptr_maxdrift_dominant
              (fun i => i+1) (scanned Dominant r dt shell) (scanned Dominant r dt shell)
              dt shell r1 in
  let r3 := pair_scan rim_ptr_inshell_dominant rim_ptr_inshell_dominant
              Dominant Subdominant rim_ptr_maxdrift_dominant rim_ptr_maxdrift_dominant
              (fun _ => 0) (scanned Dominant r dt shell) (scanned Subdominant r dt shell)
              dt shell r2 in
  pair_scan rim_ptr_inshell_encounter rim_ptr_inshell_encounter
    Encounter Encounter rim_ptr_maxdrift_encounter rim_ptr_maxdrift_encounter
    (fun i => i+1) (scanned Encounter r dt shell) (scanned Encounter r dt shell)
    dt shell r3.
Proof.
  cbv beta iota zeta delta [scanned predict_scan predict_before_scans rim_shellN].
  destruct (shell =? 0); cbv beta iota; reflexivity.
Qed.

Lemma before_scans_facts r dt shell :
  shell_allocated r shell ->
  let r1 := predict_before_scans r dt shell in
  (forall X, rd (rim_shellN X (ri_mercurana r1)) (shell + 1) = 0)
  /\ (forall X, scanned X r dt shell <= rd (rim_shellN X (ri_mercurana r1)) shell)
  /\ (forall X, scanned X r dt shell <= length (rim_map X (ri_mercurana r1) !!! shell))
  /\ r_collision r1 = r_collision r
  /\ rim_collisions_N (ri_mercurana r1) = 0.
Proof.
  intros [Hdom Hcap Hcnt]. unfold scanned, predict_before_scans. cbv zeta.
  set (r0 := upd_rim _ (upd_rim (set_rim_collisions_N 0) r)).
  assert (H0next : forall X, rd (rim_shellN X (ri_mercurana r0)) (shell + 1) = 0)
    by (intros []; apply rd_insert_zero).
  assert (H0cnt : forall X, rd (rim_shellN X (ri_mercurana r0)) shell
                            = rd (rim_shellN X (ri_mercurana r)) shell)
    by (intros []; apply rd_insert_ne; lia).
  assert (H0map : forall X, rim_map X (ri_mercurana r0) = rim_map X (ri_mercurana r))
    by (intros []; reflexivity).
  destruct (shell =? 0) eqn:E.
  - apply Nat.eqb_eq in E. subst shell.
    pose proof (predict_setup_shape rim_ptr_inshell_encounter rim_ptr_inshell_dominant
                  rim_ptr_inshell_dominant r0) as (Hlen & Hd & Hs & He & Hc & HcN & HN & _ & _).
    cbv zeta in *.
    assert (HX : forall X, exists v, v <= r_N r /\
               rim_shellN X (ri_mercurana (predict_setup rim_ptr_inshell_encounter
                 rim_ptr_inshell_dominant rim_ptr_inshell_dominant r0))
               = <[0 := v]> (rim_shellN X (ri_mercurana r0))).
    { intros []; eexists; (split; [|eassumption]); cbn; lia. }
    repeat apply conj; auto.
    + intros X. destruct (HX X) as (v & _ & ->).
      rewrite rd_insert_ne by lia. apply H0next.
    + intros X. rewrite Hlen, H0map. destruct (HX X) as (v & Hv & ->).
      pose proof (rd_insert_le (rim_shellN X (ri_mercurana r0)) 0 v).
      pose proof (Hcap X). lia.
  - apply Nat.eqb_neq in E.
    pose proof (predict_maxdrift_grows rim_ptr_inshell_encounter
                  (rd (rim_shellN_encounter (ri_mercurana r)) shell) dt shell r0)
      as [Hlen Hnext Hge Hc HcN HN HNd _ _].
    repeat apply conj; auto.
    + intros X. rewrite Hnext. apply H0next.
    + intros X. rewrite <- H0cnt. apply Hge.
    + intros X. rewrite Hlen, H0map. pose proof (Hcap X). pose proof (Hcnt E X). lia.
Qed.

Lemma predict_scan_nested r dt shell X x :
  shell_allocated r shell ->
  x ∈ shell_members X (shell + 1) (predict_scan r dt shell) ->
  x ∈ shell_members X shell (predict_scan r dt shell).
Proof.
  intros Halloc.
  destruct (before_scans_facts r dt shell Halloc) as (Hnext & Hcnt & Hcap & _).
  rewrite predict_scan_unfold. cbv zeta.
  set (r1 := predict_before_scans r dt shell) in *.
  set (rows := fun X => rim_map X (ri_mercurana r1) !!! shell).
  set (n := fun X => scanned X r dt shell).
  assert (H1 : rim_nested shell rows n (ri_mercurana r1)).
  { intros X'. split; [reflexivity|]. unfold members. rewrite Hnext.
    intros y Hy. now apply elem_of_nil in Hy. }
  set (r2 := pair_scan _ _ Dominant Dominant _ _ _ _ _ dt shell r1).
  set (r3 := pair_scan _ _ Dominant Subdominant _ _ _ _ _ dt shell r2).
  set (r4 := pair_scan _ _ Encounter Encounter _ _ _ _ _ dt shell r3).
  assert (H2 : rim_nested shell rows n (ri_mercurana r2))
    by (apply pair_scan_nested; auto; apply Hcap).
  assert (H3 : rim_nested shell rows n (ri_mercurana r3))
    by (apply pair_scan_nested; auto; apply Hcap).
  assert (H4 : rim_nested shell rows n (ri_mercurana r4))
    by (apply pair_scan_nested; auto; apply Hcap).
  assert (Hk : scan_keeps shell r1 r4).
  { etransitivity; [|apply pair_scan_keeps].
    etransitivity; [|apply pair_scan_keeps]. apply pair_scan_keeps. }
  rewrite !shell_members_rim. intros Hx.
  destruct (H4 X) as [Hrow Hmem]. apply Hmem in Hx.
  unfold members. rewrite Hrow, (sk_cnt _ _ _ Hk).
  eapply take_mono; [|exact Hx]. apply Hcnt.
Qed.

Lemma predict_scan_no_collision r dt shell :
  shell_allocated r shell ->
  r_collision r <> REB_COLLISION_DIRECT ->
  rim_collisions_N (ri_mercurana (predict_scan r dt shell)) = 0.
Proof.
  intros Halloc Hc.
  destruct (before_scans_facts r dt shell Halloc) as (_ & _ & _ & Hc1 & HcN).
  rewrite predict_scan_unfold. cbv zeta.
  set (r1 := predict_before_scans r dt shell) in *.
  set (r2 := pair_scan _ _ Dominant Dominant _ _ _ _ _ dt shell r1).
  set (r3 := pair_scan _ _ Dominant Subdominant _ _ _ _ _ dt shell r2).
  set (r4 := pair_scan _ _ Encounter Encounter _ _ _ _ _ dt shell r3).
  assert (Hk : scan_keeps shell r1 r4).
  { etransitivity; [|apply pair_scan_keeps].
    etransitivity; [|apply pair_scan_keeps]. apply pair_scan_keeps. }
  rewrite (sk_collisions_N _ _ _ Hk); auto.
  rewrite Hc1. destruct (r_collision r); auto. congruence.
Qed.

(** The members of a shell are read from the maps and their lengths. *)
Lemma shell_members_same_maps X s r r' :
  rim_map X (ri_mercurana r') = rim_map X (ri_mercurana r) ->
  rim_shellN X (ri_mercurana r') = rim_shellN X (ri_mercurana r) ->
  shell_members X s r' = shell_members X s r.
Proof. intros Hm Hn. unfold shell_members. now rewrite Hm, Hn. Qed.

Lemma shell_members_collisions_N X s c r :
  shell_members X s (upd_rim (set_rim_collisions_N c) r) = shell_members X s r.
Proof. destruct X; reflexivity. Qed.

(** predict returns when the resolver, if it is called, keeps the number of
    particles and the shell maps, and the maps it returns are those its scans
    have left. *)
Lemma predict_result_maps search fuel r dt shell :
  shell + 1 < rim_Nmaxshells (ri_mercurana r) ->
  (let r1 := predict_scan r dt shell in
   rim_collisions_N (ri_mercurana r1) <> 0 ->
   r_N (search r1) = r_N r1
   /\ forall X, rim_map X (ri_mercurana (search r1)) = rim_map X (ri_mercurana r1)
                /\ rim_shellN X (ri_mercurana (search r1))
                   = rim_shellN X (ri_mercurana r1)) ->
  exists r',
    reb_mercurana_encounter_predict search fuel r dt shell = Some r'
    /\ forall X s, shell_members X s r' = shell_members X s (predict_scan r dt shell).
Proof.
  intros Hsub Hsearch. cbv zeta in Hsearch.
  destruct (decide (rim_collisions_N (ri_mercurana (predict_scan r dt shell)) = 0))
    as [Hc|Hc].
  - exists (predict_scan r dt shell). split; [now apply predict_no_collision|auto].
  - destruct (Hsearch Hc) as [HN Hmaps].
    exists (upd_rim (set_rim_collisions_N 0) (search (predict_scan r dt shell))).
    split; [now apply predict_collision|].
    intros X s. rewrite shell_members_collisions_N.
    apply shell_members_same_maps; apply Hmaps.
Qed.

(** C5 (amended): after predict at a shell that has a sub-shell, on maps
    that have room for every particle, every member of map_X[shell+1] is a
    member of map_X[shell], for each of the three roles X and in every
    collision mode, when the collision resolver, if a recorded collision
    calls it, keeps the number of particles and the shell maps.  Nothing is
    said of the shells below shell+1, which predict leaves as they were. *)
Theorem predict_nested search fuel r dt shell :
  shell + 1 < rim_Nmaxshells (ri_mercurana r) ->
  shell_allocated r shell ->
  (let r1 := predict_scan r dt shell in
   rim_collisions_N (ri_mercurana r1) <> 0 ->
   r_N (search r1) = r_N r1
   /\ forall X, rim_map X (ri_mercurana (search r1)) = rim_map X (ri_mercurana r1)
                /\ rim_shellN X (ri_mercurana (search r1))
                   = rim_shellN X (ri_mercurana r1)) ->
  exists r',
    reb_mercurana_encounter_predict search fuel r dt shell = Some r'
    /\ forall X x, x ∈ shell_members X (shell + 1) r' -> x ∈ shell_members X shell r'.
Proof.
  intros Hsub Halloc Hsearch.
  destruct (predict_result_maps search fuel r dt shell Hsub Hsearch) as (r' & Hr' & Hm).
  exists r'. split; [exact Hr'|].
  intros X x. rewrite !Hm. now apply predict_scan_nested.
Qed.

(** C5, as stated, fails: in a state whose maps are nested, with two
    encounter particles in shells 1 and 2 that have since moved apart, predict
    at shell 0 empties map_encounter[1] and leaves the two in
    map_encounter[2]. *)
Lemma stale_deeper_shell_not_nested :
  (forall X s m, m ∈ shell_members X (s + 1) sim_separated ->
                 m ∈ shell_members X s sim_separated)
  /\ forall search fuel, exists r',
       reb_mercurana_encounter_predict search fuel sim_separated 1%float 0 = Some r'
       /\ shell_members Encounter 2 r' = [0; 1]
       /\ shell_members Encounter 1 r' = [].
Proof.
  split.
  - intros X s m. destruct X; destruct s as [|[|[|s]]]; vm_compute; auto;
      try (intros H; inversion H; fail);
      try (destruct s; intros H; inversion H).
  - intros search fuel. exists (predict_scan sim_separated 1%float 0). split.
    + apply predict_no_collision; vm_compute; lia.
    + vm_compute. auto.
Qed.

(** The amended C5 at shell 0 of three under DIRECT collisions, for two
    overlapping dominant particles and a resolver that leaves the simulation
    as it is: the scans record one collision and put both particles into
    shell 1. *)
Lemma predict_nested_witness :
  r_collision sim_direct = REB_COLLISION_DIRECT
  /\ rim_collisions_N (ri_mercurana (predict_scan sim_direct 1%float 0)) = 1
  /\ exists r',
       reb_mercurana_encounter_predict (fun r => r) 0 sim_direct 1%float 0 = Some r'
       /\ forall X x, x ∈ shell_members X (0 + 1) r' -> x ∈ shell_members X 0 r'.
Proof.
  split; [reflexivity|]. split; [vm_compute; reflexivity|].
  apply (predict_nested (fun r => r) 0 sim_direct 1%float 0).
  - vm_compute. lia.
  - constructor.
    + vm_compute. lia.
    + intros []; vm_compute; lia.
    + intros H. now contradict H.
  - cbv zeta. intros _. split; [reflexivity|]. intros X. split; reflexivity.
Defined.

(** ** Collisions found by the pair scans *)

Lemma for_loop_each {S} (I : S -> Prop) (Q : nat -> S -> Prop)
    (lo hi : nat) (body : nat -> S -> S) (s : S) :
  I s ->
  (forall i s, lo <= i < hi -> I s -> I (body i s) /\ Q i (body i s)) ->
  (forall i k s, lo <= k < hi -> I s -> Q i s -> Q i (body k s)) ->
  I (for_loop lo hi body s)
  /\ (forall i, Q i s -> Q i (for_loop lo hi body s))
  /\ forall i, lo <= i < hi -> Q i (for_loop lo hi body s).
Proof.
  intros Hs Hstep Hmono. unfold for_loop.
  assert (Hgen : forall l s, I s -> (forall i, In i l -> lo <= i < hi) ->
            I (fold_left (fun s i => body i s) l s)
            /\ (forall i, Q i s -> Q i (fold_left (fun s i => body i s) l s))
            /\ forall i, In i l -> Q i (fold_left (fun s i => body i s) l s)).
  { induction l as [|k l IH]; intros s0 H0 Hl; simpl.
    - repeat split; auto. intros i [].
    - destruct (Hstep k s0) as [HI HQ]; [apply Hl; now left|auto|].
      destruct (IH (body k s0) HI) as (HI' & Hm & Hin);
        [intros j Hj; apply Hl; now right|].
      repeat split; auto.
      + intros i Hi. apply Hm. apply Hmono; auto. apply Hl. now left.
      + intros i [<-|Hi]; auto. }
  destruct (Hgen (seq lo (hi - lo)) s Hs) as (H1 & H2 & H3).
  { intros i Hi. apply in_seq in Hi. lia. }
  repeat split; auto. intros i Hi. apply H3. apply in_seq. lia.
Qed.

Lemma record_collision_ok r i j :
  collisions_ok r ->
  collisions_ok (reb_mercurana_record_collision r i j)
  /\ recorded (reb_mercurana_record_collision r i j) i j
  /\ forall i' j', recorded r i' j' -> recorded (reb_mercurana_record_collision r i j) i' j'.
Proof.
  intros [Hlen Hle]. unfold reb_mercurana_record_collision.
  destruct (r_collisions_allocatedN r <=? rim_collisions_N (ri_mercurana r)) eqn:E.
  - apply Nat.leb_le in E.
    set (n := if r_collisions_allocatedN r =? 0 then 32 else r_collisions_allocatedN r * 2).
    assert (Hn : rim_collisions_N (ri_mercurana r) < n).
    { subst n. destruct (r_collisions_allocatedN r =? 0) eqn:E0.
      - apply Nat.eqb_eq in E0. lia.
      - apply Nat.eqb_neq in E0. lia. }
    cbv zeta. unfold collisions_ok, recorded.
    cbn [r_collisions r_collisions_allocatedN ri_mercurana r_particles upd_rim
         set_r_collisions set_r_collisions_allocatedN set_ri_mercurana
         rim_collisions_N set_rim_collisions_N].
    repeat apply conj.
    + now rewrite length_insert, length_resize.
    + lia.
    + exists (rim_collisions_N (ri_mercurana r)). split; [lia|].
      apply list_lookup_insert_eq. now rewrite length_resize.
    + intros i' j' (k & Hk & Hrec). exists k. split; [lia|].
      rewrite list_lookup_insert_ne by lia.
      rewrite lookup_resize; auto; lia.
  - apply Nat.leb_gt in E. unfold collisions_ok, recorded.
    cbn [r_collisions r_collisions_allocatedN ri_mercurana r_particles upd_rim
         set_r_collisions set_r_collisions_allocatedN set_ri_mercurana
         rim_collisions_N set_rim_collisions_N].
    repeat apply conj.
    + now rewrite length_insert.
    + lia.
    + exists (rim_collisions_N (ri_mercurana r)). split; [lia|].
      apply list_lookup_insert_eq. lia.
    + intros i' j' (k & Hk & Hrec). exists k. split; [lia|].
      now rewrite list_lookup_insert_ne by lia.
Qed.

(** A step that changes only the integrator, and neither its collision count
    nor the particles, keeps the records. *)
Lemma upd_rim_recorded g r :
  rim_collisions_N (g (ri_mercurana r)) = rim_collisions_N (ri_mercurana r) ->
  (collisions_ok r -> collisions_ok (upd_rim g r))
  /\ forall i j, recorded r i j -> recorded (upd_rim g r) i j.
Proof.
  intros H. unfold collisions_ok, recorded.
  cbn [r_collisions r_collisions_allocatedN ri_mercurana r_particles upd_rim
       set_ri_mercurana].
  rewrite H. auto.
Qed.

Lemma promote_collisions_N p X shell m rim :
  rim_collisions_N (promote p X shell m rim) = rim_collisions_N rim.
Proof. apply promote_same_shape_at. exact Dominant. Qed.

Lemma lower_collisions_N md m v rim :
  rim_collisions_N (lower_maxdrift md m v rim) = rim_collisions_N rim.
Proof. destruct md; reflexivity. Qed.

Lemma pair_check_recorded ii ij Xi Xj mdi mdj dt shell mi mj r :
  collisions_ok r ->
  collisions_ok (pair_check ii ij Xi Xj mdi mdj dt shell mi mj r)
  /\ (forall i j, recorded r i j ->
                  recorded (pair_check ii ij Xi Xj mdi mdj dt shell mi mj r) i j)
  /\ (r_collision r = REB_COLLISION_DIRECT -> overlap r dt mi mj = true ->
      recorded (pair_check ii ij Xi Xj mdi mdj dt shell mi mj r) mi mj).
Proof.
  intros Hok. unfold pair_check.
  set (rc := if (_ : bool) then reb_mercurana_record_collision r mi mj else r).
  assert (Hrc : collisions_ok rc
                /\ (forall i j, recorded r i j -> recorded rc i j)
                /\ (r_collision r = REB_COLLISION_DIRECT -> overlap r dt mi mj = true ->
                    recorded rc mi mj)).
  { subst rc. fold (overlap r dt mi mj).
    destruct (record_collision_ok r mi mj Hok) as (H1 & H2 & H3).
    destruct (overlap r dt mi mj); cbn [andb].
    - destruct (is_direct (r_collision r)) eqn:Hd.
      + exact (conj H1 (conj H3 (fun _ _ => H2))).
      + refine (conj Hok (conj (fun _ _ H => H) _)).
        intros Hdir. rewrite Hdir in Hd. discriminate.
    - refine (conj Hok (conj (fun _ _ H => H) _)). intros _ H. discriminate. }
  clearbody rc. cbv zeta. destruct Hrc as (Hok' & Hmono & Hnew).
  assert (Hstep : forall g1 g2,
            (forall rim, rim_collisions_N (g1 rim) = rim_collisions_N rim) ->
            (forall rim, rim_collisions_N (g2 rim) = rim_collisions_N rim) ->
            collisions_ok (upd_rim (fun rim => g2 (g1 rim)) rc)
            /\ (forall i j, recorded r i j -> recorded (upd_rim (fun rim => g2 (g1 rim)) rc) i j)
            /\ (r_collision r = REB_COLLISION_DIRECT -> overlap r dt mi mj = true ->
                recorded (upd_rim (fun rim => g2 (g1 rim)) rc) mi mj)).
  { intros g1 g2 H1 H2.
    destruct (upd_rim_recorded (fun rim => g2 (g1 rim)) rc) as [Ha Hb];
      [now rewrite H2, H1|].
    split; [now apply Ha|].
    split; intros; apply Hb; auto. }
  destruct (_ <? _)%float; apply Hstep; intros;
    auto using promote_collisions_N, lower_collisions_N.
Qed.

Lemma pair_check_keeps_records ii ij Xi Xj mdi mdj dt shell mi mj r :
  keeps_records r (pair_check ii ij Xi Xj mdi mdj dt shell mi mj r).
Proof.
  intros Hok.
  destruct (pair_check_recorded ii ij Xi Xj mdi mdj dt shell mi mj r Hok) as (H1 & H2 & _).
  auto.
Qed.

Lemma pair_scan_keeps_records ii ij Xi Xj mdi mdj jstart ni nj dt shell r :
  keeps_records r (pair_scan ii ij Xi Xj mdi mdj jstart ni nj dt shell r).
Proof.
  unfold pair_scan. apply (for_loop_rel keeps_records). intros i s _.
  apply (for_loop_rel keeps_records). intros j s' _.
  apply pair_check_keeps_records.
Qed.

Lemma overlap_particles r r' dt mi mj :
  r_particles r' = r_particles r -> overlap r' dt mi mj = overlap r dt mi mj.
Proof. unfold overlap. now intros ->. Qed.

Lemma recorded_particles r r' i j :
  r_particles r' = r_particles r -> r_collisions r' = r_collisions r ->
  rim_collisions_N (ri_mercurana r') = rim_collisions_N (ri_mercurana r) ->
  recorded r i j -> recorded r' i j.
Proof. unfold recorded. now intros -> -> ->. Qed.

(** Every pair that a scan visits and finds overlapping is recorded. *)
Lemma pair_scan_records ii ij Xi Xj mdi mdj jstart ni nj dt shell r :
  collisions_ok r ->
  r_collision r = REB_COLLISION_DIRECT ->
  let r' := pair_scan ii ij Xi Xj mdi mdj jstart ni nj dt shell r in
  forall i j, i < ni -> jstart i <= j < nj ->
    let mi := rd2 (rim_map Xi (ri_mercurana r)) shell i in
    let mj := rd2 (rim_map Xj (ri_mercurana r)) shell j in
    overlap r dt mi mj = true -> recorded r' mi mj.
Proof.
  intros Hok Hdir. cbv zeta. unfold pair_scan.
  set (I := fun s => collisions_ok s /\ scan_keeps shell r s).
  set (Qp := fun i j s =>
    overlap r dt (rd2 (rim_map Xi (ri_mercurana r)) shell i)
                 (rd2 (rim_map Xj (ri_mercurana r)) shell j) = true ->
    recorded s (rd2 (rim_map Xi (ri_mercurana r)) shell i)
               (rd2 (rim_map Xj (ri_mercurana r)) shell j)).
  assert (Hinner : forall i s, I s ->
    let s' := for_loop (jstart i) nj (fun j s0 =>
                pair_check ii ij Xi Xj mdi mdj dt shell
                  (rd2 (rim_map Xi (ri_mercurana s)) shell i)
                  (rd2 (rim_map Xj (ri_mercurana s0)) shell j) s0) s in
    I s' /\ (forall i' j', Qp i' j' s -> Qp i' j' s')
    /\ forall j, jstart i <= j < nj -> Qp i j s').
  { intros i s [Hoks Hks]. cbv zeta.
    destruct (for_loop_each I (fun j s0 => Qp i j s0) (jstart i) nj
      (fun j s0 => pair_check ii ij Xi Xj mdi mdj dt shell
                  (rd2 (rim_map Xi (ri_mercurana s)) shell i)
                  (rd2 (rim_map Xj (ri_mercurana s0)) shell j) s0) s)
      as (HI & _ & Heach).
    - split; auto.
    - intros j s0 Hj [Hok0 Hk0].
      destruct (pair_check_recorded ii ij Xi Xj mdi mdj dt shell
                  (rd2 (rim_map Xi (ri_mercurana s)) shell i)
                  (rd2 (rim_map Xj (ri_mercurana s0)) shell j) s0 Hok0)
        as (H1 & H2 & H3).
      split; [split; auto; etransitivity; [exact Hk0|apply pair_check_keeps]|].
      intros Hov. unfold rd2 in *.
      rewrite <- (sk_rows _ _ _ Hks Xi), <- (sk_rows _ _ _ Hk0 Xj).
      apply H3.
      + rewrite (sk_collision _ _ _ Hk0). exact Hdir.
      + rewrite (overlap_particles r) by apply (sk_particles _ _ _ Hk0).
        rewrite (sk_rows _ _ _ Hks Xi), (sk_rows _ _ _ Hk0 Xj). exact Hov.
    - intros j k s0 Hk [Hok0 Hk0] HQ Hov.
      apply (pair_check_keeps_records ii ij Xi Xj mdi mdj dt shell _ _ s0 Hok0). auto.
    - refine (conj HI (conj _ Heach)).
      intros i' j' HQ Hov.
      assert (Hkr : keeps_records s
                (for_loop (jstart i) nj (fun j s0 =>
                   pair_check ii ij Xi Xj mdi mdj dt shell
                     (rd2 (rim_map Xi (ri_mercurana s)) shell i)
                     (rd2 (rim_map Xj (ri_mercurana s0)) shell j) s0) s)).
      { apply (for_loop_rel keeps_records). intros j s0 _.
        apply pair_check_keeps_records. }
      apply (Hkr Hoks). auto. }
  intros i j Hi Hj.
  destruct (for_loop_each I (fun i s => forall j, jstart i <= j < nj -> Qp i j s) 0 ni
    (fun i s => let mi := rd2 (rim_map Xi (ri_mercurana s)) shell i in
       for_loop (jstart i) nj (fun j s0 =>
         let mj := rd2 (rim_map Xj (ri_mercurana s0)) shell j in
         pair_check ii ij Xi Xj mdi mdj dt shell mi mj s0) s) r)
    as (_ & _ & Heach).
  - split; auto. reflexivity.
  - intros i0 s Hi0 HI. destruct (Hinner i0 s HI) as (H1 & _ & H3). auto.
  - intros i0 k s Hk HI HQ j0 Hj0. destruct (Hinner k s HI) as (_ & H2 & _).
    apply H2. auto.
  - apply (Heach i); auto. lia.
Qed.

(** The phases before the scans reset the collision count and leave the
    collision buffer and the collision mode alone. *)
Lemma before_scans_buffer r dt shell :
  let r1 := predict_before_scans r dt shell in
  r_collisions r1 = r_collisions r
  /\ r_collisions_allocatedN r1 = r_collisions_allocatedN r
  /\ rim_collisions_N (ri_mercurana r1) = 0
  /\ r_collision r1 = r_collision r.
Proof.
  unfold predict_before_scans. cbv zeta.
  set (r0 := upd_rim _ (upd_rim (set_rim_collisions_N 0) r)).
  destruct (shell =? 0).
  - pose proof (predict_setup_shape rim_ptr_inshell_encounter rim_ptr_inshell_dominant
                  rim_ptr_inshell_dominant r0) as (_ & _ & _ & _ & Hc & HcN & _ & Hb & Ha).
    cbv zeta in *. rewrite Hb, Ha, HcN, Hc. repeat apply conj; reflexivity.
  - pose proof (predict_maxdrift_grows rim_ptr_inshell_encounter
                  (rd (rim_shellN_encounter (ri_mercurana r)) shell) dt shell r0)
      as [_ _ _ Hc HcN _ _ Hb Ha].
    rewrite Hb, Ha, HcN, Hc. repeat apply conj; reflexivity.
Qed.

(** Under DIRECT collisions the three passes record every pair they visit
    whose predicted minimum separation is below the sum of the radii. *)
Lemma predict_scan_records r dt shell :
  length (r_collisions r) = r_collisions_allocatedN r ->
  r_collision r = REB_COLLISION_DIRECT ->
  let r' := predict_scan r dt shell in
  let member X i := rd2 (rim_map X (ri_mercurana r')) shell i in
  let n X := scanned X r dt shell in
  (forall i j, i < j < n Dominant ->
     overlap r' dt (member Dominant i) (member Dominant j) = true ->
     recorded r' (member Dominant i) (member Dominant j))
  /\ (forall i j, i < n Dominant -> j < n Subdominant ->
     overlap r' dt (member Dominant i) (member Subdominant j) = true ->
     recorded r' (member Dominant i) (member Subdominant j))
  /\ (forall i j, i < j < n Encounter ->
     overlap r' dt (member Encounter i) (member Encounter j) = true ->
     recorded r' (member Encounter i) (member Encounter j)).
Proof.
  intros Hlen Hdir.
  destruct (before_scans_buffer r dt shell) as (Hb & Ha & HcN & Hc).
  rewrite predict_scan_unfold. cbv zeta.
  set (r1 := predict_before_scans r dt shell) in *.
  set (r2 := pair_scan _ _ Dominant Dominant _ _ _ _ _ dt shell r1).
  set (r3 := pair_scan _ _ Dominant Subdominant _ _ _ _ _ dt shell r2).
  set (r4 := pair_scan _ _ Encounter Encounter _ _ _ _ _ dt shell r3).
  assert (Hok1 : collisions_ok r1).
  { split; [now rewrite Hb, Ha | rewrite HcN; lia]. }
  assert (K12 : scan_keeps shell r1 r2) by apply pair_scan_keeps.
  assert (K23 : scan_keeps shell r2 r3) by apply pair_scan_keeps.
  assert (K34 : scan_keeps shell r3 r4) by apply pair_scan_keeps.
  assert (R12 : keeps_records r1 r2) by apply pair_scan_keeps_records.
  assert (R23 : keeps_records r2 r3) by apply pair_scan_keeps_records.
  assert (R34 : keeps_records r3 r4) by apply pair_scan_keeps_records.
  destruct (R12 Hok1) as [Hok2 M12].
  destruct (R23 Hok2) as [Hok3 M23].
  destruct (R34 Hok3) as [Hok4 M34].
  assert (K13 : scan_keeps shell r1 r3) by (etransitivity; eauto).
  assert (K14 : scan_keeps shell r1 r4) by (etransitivity; eauto).
  assert (K24 : scan_keeps shell r2 r4) by (etransitivity; eauto).
  assert (Hd1 : r_collision r1 = REB_COLLISION_DIRECT) by congruence.
  assert (Hd2 : r_collision r2 = REB_COLLISION_DIRECT)
    by (rewrite (sk_collision _ _ _ K12); exact Hd1).
  assert (Hd3 : r_collision r3 = REB_COLLISION_DIRECT)
    by (rewrite (sk_collision _ _ _ K13); exact Hd1).
  unfold rd2. repeat apply conj; intros i j.
  - intros Hij Hov. apply M34, M23.
    rewrite !(sk_rows _ _ _ K14) in *.
    rewrite (overlap_particles r1) in Hov by apply (sk_particles _ _ _ K14).
    apply (pair_scan_records _ _ Dominant Dominant _ _ _ _ _ dt shell r1 Hok1 Hd1 i j);
      [lia | lia | exact Hov].
  - intros Hi Hj Hov. apply M34.
    rewrite !(sk_rows _ _ _ K24) in *.
    rewrite (overlap_particles r2) in Hov by apply (sk_particles _ _ _ K24).
    apply (pair_scan_records _ _ Dominant Subdominant _ _ _ _ _ dt shell r2 Hok2 Hd2 i j);
      [lia | lia | exact Hov].
  - intros Hij Hov.
    rewrite !(sk_rows _ _ _ K34) in *.
    rewrite (overlap_particles r3) in Hov by apply (sk_particles _ _ _ K34).
    apply (pair_scan_records _ _ Encounter Encounter _ _ _ _ _ dt shell r3 Hok3 Hd3 i j);
      [lia | lia | exact Hov].
Qed.

(** Below the deepest shell predict runs the three pair scans over the maps
    of the shell, and under DIRECT collisions every pair of a scan whose
    rmin2 is below the squared sum of the radii is among the collisions
    recorded in the state that the scans leave, which is the state the
    collision resolver receives.  At the deepest shell (shell+1 >=
    Nmaxshells) predict returns at once, with the state as it was. *)
Lemma predict_scans_below_deepest_shell search fuel r dt shell :
  length (r_collisions r) = r_collisions_allocatedN r ->
  r_collision r = REB_COLLISION_DIRECT ->
  (rim_Nmaxshells (ri_mercurana r) <= shell + 1 ->
     reb_mercurana_encounter_predict search fuel r dt shell = Some r)
  /\ (shell + 1 < rim_Nmaxshells (ri_mercurana r) ->
      let r' := predict_scan r dt shell in
      let member X i := rd2 (rim_map X (ri_mercurana r')) shell i in
      let n X := scanned X r dt shell in
      (forall i j, i < j < n Dominant ->
         overlap r' dt (member Dominant i) (member Dominant j) = true ->
         recorded r' (member Dominant i) (member Dominant j))
      /\ (forall i j, i < n Dominant -> j < n Subdominant ->
         overlap r' dt (member Dominant i) (member Subdominant j) = true ->
         recorded r' (member Dominant i) (member Subdominant j))
      /\ (forall i j, i < j < n Encounter ->
         overlap r' dt (member Encounter i) (member Encounter j) = true ->
         recorded r' (member Encounter i) (member Encounter j))
      /\ (rim_collisions_N (ri_mercurana r') = 0 ->
          reb_mercurana_encounter_predict search fuel r dt shell = Some r')
      /\ (rim_collisions_N (ri_mercurana r') <> 0 -> r_N (search r') = r_N r' ->
          reb_mercurana_encounter_predict search fuel r dt shell
          = Some (upd_rim (set_rim_collisions_N 0) (search r')))).
Proof.
  intros Hlen Hdir. split.
  - apply predict_deepest.
  - intros Hsub. cbv zeta.
    destruct (predict_scan_records r dt shell Hlen Hdir) as (H1 & H2 & H3).
    refine (conj H1 (conj H2 (conj H3 (conj _ _)))).
    + now apply predict_no_collision.
    + now apply predict_collision.
Qed.

(** The scans at shell 0 of three, for two overlapping dominant particles:
    their collision is recorded. *)
Lemma predict_scans_below_deepest_shell_example :
  length (r_collisions sim_direct) = r_collisions_allocatedN sim_direct
  /\ r_collision sim_direct = REB_COLLISION_DIRECT
  /\ recorded (predict_scan sim_direct 1%float 0) 0 1.
Proof.
  split; [reflexivity|]. split; [reflexivity|].
  destruct (predict_scans_below_deepest_shell (fun r => r) 0 sim_direct 1%float 0
              eq_refl eq_refl) as [_ H].
  destruct H as (H & _); [vm_compute; lia|].
  apply (H 0 1); [vm_compute; lia | vm_compute; reflexivity].
Qed.

(** C2: at the deepest shell predict scans nothing.  With two shells, DIRECT
    collisions and two overlapping particles in map_dominant[1], predict at
    the deepest shell 1 returns the state as it was, and their collision is
    not among the records.  With a single shell, which part1 accepts, the
    deepest shell is shell 0: predict returns before the setup of the maps
    of the outermost shell, so that the maps of shell 0 stay empty and the
    collision of the two overlapping particles is not recorded either. *)
Theorem deepest_shell_records_nothing :
  (let r := sim_deepest in
   rim_Nmaxshells (ri_mercurana r) = 2
   /\ shell_members Dominant 1 r = [0; 1]
   /\ r_collision r = REB_COLLISION_DIRECT
   /\ overlap r 0.5%float 0 1 = true
   /\ forall search fuel,
        reb_mercurana_encounter_predict search fuel r 0.5%float 1 = Some r
        /\ ~ recorded r 0 1)
  /\ (let r := sim_one_shell in
      rim_Nmaxshells (ri_mercurana r) = 1
      /\ part1_config_error (ri_mercurana r) = None
      /\ r_N r = 2
      /\ r_collision r = REB_COLLISION_DIRECT
      /\ overlap r 1%float 0 1 = true
      /\ forall search fuel,
           reb_mercurana_encounter_predict search fuel r 1%float 0 = Some r
           /\ ~ recorded r 0 1
           /\ forall X, shell_members X 0 r = []).
Proof.
  split; cbv zeta.
  - do 4 (split; [vm_compute; reflexivity|]).
    intros search fuel. split.
    + apply predict_deepest. vm_compute. lia.
    + intros (k & Hk & _). vm_compute in Hk. lia.
  - do 5 (split; [vm_compute; reflexivity|]).
    intros search fuel. split; [|split].
    + apply predict_deepest. vm_compute. lia.
    + intros (k & Hk & _). vm_compute in Hk. lia.
    + intros []; vm_compute; reflexivity.
Qed.

(** ** The drift step advances a particle at most once *)

Lemma advance_same_maps a m r : same_maps r (advance_particle a m r).
Proof. constructor; intros; try destruct X; try destruct p; reflexivity. Qed.

Lemma advance_particles a m r k :
  rd (r_particles (advance_particle a m r)) k
  = if decide (m = k /\ m < length (r_particles r))
    then advanced a (rd (r_particles r) k) else rd (r_particles r) k.
Proof.
  unfold advance_particle, rd. cbn [r_particles upd_rim set_r_particles set_ri_mercurana].
  rewrite list_lookup_total_insert. case_decide as H; auto.
  destruct H as [-> _]. reflexivity.
Qed.

Lemma advance_t_drifted a m r k :
  rd (rim_t_drifted (ri_mercurana (advance_particle a m r))) k
  = if decide (m = k /\ m < length (rim_t_drifted (ri_mercurana r)))
    then (rd (rim_t_drifted (ri_mercurana r)) k + a)%float
    else rd (rim_t_drifted (ri_mercurana r)) k.
Proof.
  unfold advance_particle, rd.
  cbn [ri_mercurana upd_rim set_r_particles set_ri_mercurana rim_t_drifted
       set_rim_t_drifted].
  rewrite list_lookup_total_insert. case_decide as H; auto.
  destruct H as [-> _]. reflexivity.
Qed.

Lemma advance_lengths a m r :
  length (r_particles (advance_particle a m r)) = length (r_particles r)
  /\ length (rim_t_drifted (ri_mercurana (advance_particle a m r)))
     = length (rim_t_drifted (ri_mercurana r)).
Proof.
  unfold advance_particle.
  cbn [ri_mercurana r_particles upd_rim set_r_particles set_ri_mercurana
       rim_t_drifted set_rim_t_drifted].
  now rewrite !length_insert.
Qed.

Lemma drift_step_advance_loops a shell r :
  drift_step_advance a shell r =
  advance_loop Encounter (advances_encounter shell) a shell
    (rd (rim_shellN Encounter (ri_mercurana r)) shell)
    (advance_loop Subdominant (advances_subdominant shell) a shell
       (rd (rim_shellN Subdominant (ri_mercurana r)) shell)
       (advance_loop Dominant (advances_dominant shell) a shell
          (rd (rim_shellN Dominant (ri_mercurana r)) shell) r)).
Proof. reflexivity. Qed.

Section AdvanceLoop.
Variables (X : role) (c : reb_simulation_integrator_mercurana -> nat -> bool).
Variables (a : float) (shell : nat).
Hypothesis c_inshell : forall rim rim' m,
  (forall p m, inshell_load p rim' m = inshell_load p rim m) -> c rim' m = c rim m.

(** The invariant of a loop started in [r]: maps and tests as in [r], the
    arrays keep their lengths, and particle [k] has been advanced [j]
    times, where [j] counts the cells seen so far that hold [k] and pass
    the test. *)
Lemma advance_loop_cell n r k :
  n <= length (rim_map X (ri_mercurana r) !!! shell) ->
  once_listed (c (ri_mercurana r)) n (rim_map X (ri_mercurana r) !!! shell) ->
  k < length (r_particles r) -> k < length (rim_t_drifted (ri_mercurana r)) ->
  let r' := advance_loop X c a shell n r in
  same_maps r r'
  /\ length (r_particles r') = length (r_particles r)
  /\ length (rim_t_drifted (ri_mercurana r')) = length (rim_t_drifted (ri_mercurana r))
  /\ cell r' k =
     if decide (k ∈ take n (rim_map X (ri_mercurana r) !!! shell)
                /\ c (ri_mercurana r) k = true)
     then cell_advanced a (cell r k) else cell r k.
Proof.
  intros Hn Hnd Hk Hk'. cbv zeta. unfold advance_loop, for_loop.
  rewrite Nat.sub_0_r.
  induction n as [|n IH].
  - rewrite take_0. cbn [seq fold_left].
    split; [reflexivity|]. do 2 (split; [reflexivity|]).
    rewrite decide_False; [reflexivity|]. intros [H _]. now apply elem_of_nil in H.
  - rewrite seq_S, fold_left_app. cbn [fold_left Nat.add].
    set (row := rim_map X (ri_mercurana r) !!! shell) in *.
    assert (Hrow : row !! n = Some (row !!! n))
      by (apply list_lookup_lookup_total_lt; lia).
    assert (Hnd' : once_listed (c (ri_mercurana r)) n row)
      by (intros i j Hi Hj; apply Hnd; lia).
    assert (Hfresh : c (ri_mercurana r) (row !!! n) = true -> row !!! n ∉ take n row).
    { intros Hc Hin. apply elem_of_take in Hin as (i & Hi & Hlt).
      apply list_lookup_total_correct in Hi.
      assert (i = n); [|lia]. apply Hnd; try lia; congruence. }
    destruct (IH ltac:(lia) Hnd') as (Hsm & Hlp & Hlt & Hcell). clear IH.
    set (s := fold_left _ (seq 0 n) r) in *.
    unfold rd2. rewrite !(sm_map _ _ Hsm). fold row.
    rewrite (c_inshell (ri_mercurana r)) by apply (sm_inshell _ _ Hsm).
    assert (Hmem : forall P : Prop,
               (k ∈ take (S n) row /\ P) <-> (k ∈ take n row /\ P) \/ (k = row !!! n /\ P)).
    { intros P. rewrite (take_S_r _ _ _ Hrow), elem_of_app, list_elem_of_singleton. tauto. }
    destruct (c (ri_mercurana r) (row !!! n)) eqn:Hc.
    + destruct (advance_lengths a (row !!! n) s) as [Hlp' Hlt'].
      refine (conj _ (conj _ (conj _ _))).
      * etransitivity; [exact Hsm | apply advance_same_maps].
      * congruence.
      * congruence.
      * unfold cell. rewrite advance_particles, advance_t_drifted.
        fold (cell s k). rewrite Hlp, Hlt.
        destruct (decide (k = row !!! n)) as [->|Hne].
        -- unfold cell in Hcell. rewrite !decide_True by auto.
           rewrite decide_True by (apply Hmem; auto).
           rewrite decide_False in Hcell
             by (intros [H _]; exact (Hfresh eq_refl H)).
           unfold cell_advanced. now inversion Hcell.
        -- rewrite !decide_False by (intros [? _]; congruence).
           fold (cell s k). rewrite Hcell.
           repeat case_decide; auto; exfalso; rewrite Hmem in *; tauto.
    + refine (conj Hsm (conj Hlp (conj Hlt _))). rewrite Hcell.
      repeat case_decide; auto; exfalso; rewrite Hmem in *;
        intuition (subst; congruence).
Qed.
End AdvanceLoop.

Lemma advances_inshell X shell rim rim' m :
  (forall p m, inshell_load p rim' m = inshell_load p rim m) ->
  advances X shell rim' m = advances X shell rim m.
Proof.
  intros H. destruct X; cbn [advances];
    unfold advances_dominant, advances_subdominant, advances_encounter;
    now rewrite !H.
Qed.

Lemma advance_loop_role X a shell r k :
  rd (rim_shellN X (ri_mercurana r)) shell <= length (rim_map X (ri_mercurana r) !!! shell) ->
  once_listed (advances X shell (ri_mercurana r))
    (rd (rim_shellN X (ri_mercurana r)) shell) (rim_map X (ri_mercurana r) !!! shell) ->
  k < length (r_particles r) -> k < length (rim_t_drifted (ri_mercurana r)) ->
  let r' := advance_loop X (advances X shell) a shell
              (rd (rim_shellN X (ri_mercurana r)) shell) r in
  same_maps r r'
  /\ length (r_particles r') = length (r_particles r)
  /\ length (rim_t_drifted (ri_mercurana r')) = length (rim_t_drifted (ri_mercurana r))
  /\ cell r' k = if advanced_in X shell r k then cell_advanced a (cell r k) else cell r k.
Proof.
  intros Hn Hnd Hk Hk'. cbv zeta.
  destruct (advance_loop_cell X (advances X shell) a shell
              (fun rim rim' m H => advances_inshell X shell rim rim' m H)
              _ r k Hn Hnd Hk Hk') as (H1 & H2 & H3 & H4).
  refine (conj H1 (conj H2 (conj H3 _))). rewrite H4.
  unfold advanced_in, shell_members.
  destruct (advances X shell (ri_mercurana r) k).
  - rewrite andb_true_r. case_decide as Hd.
    + rewrite bool_decide_eq_true_2; tauto.
    + rewrite bool_decide_eq_false_2; tauto.
  - rewrite andb_false_r. rewrite decide_False; [reflexivity|]. intros [_ ?]. discriminate.
Qed.

Lemma same_maps_members r r' X shell :
  same_maps r r' -> shell_members X shell r' = shell_members X shell r.
Proof. intros [Hm Hn _]. unfold shell_members. now rewrite Hm, Hn. Qed.

Lemma same_maps_advanced_in r r' X shell k :
  same_maps r r' -> advanced_in X shell r' k = advanced_in X shell r k.
Proof.
  intros H. unfold advanced_in. rewrite (same_maps_members r r') by auto.
  f_equal. apply advances_inshell. apply (sm_inshell _ _ H).
Qed.

(** A map prefix without repetitions lists no particle twice. *)
Lemma NoDup_once_listed (c : nat -> bool) (n : nat) (row : list nat) :
  n <= length row -> NoDup (take n row) -> once_listed c n row.
Proof.
  intros Hn Hnd i j Hi Hj Hij _.
  apply (NoDup_lookup (take n row) i j (row !!! i) Hnd).
  - rewrite lookup_take_lt by lia. apply list_lookup_lookup_total_lt. lia.
  - rewrite lookup_take_lt by lia. rewrite Hij.
    apply list_lookup_lookup_total_lt. lia.
Qed.

(** At most one of the three loops advances a particle. *)
Lemma advanced_in_exclusive r shell k X Y :
  maps_wf r shell -> X <> Y ->
  advanced_in X shell r k = true -> advanced_in Y shell r k = false.
Proof.
  intros [_ _ Hdisj] Hne HX.
  destruct (advanced_in Y shell r k) eqn:HY; [exfalso|reflexivity].
  unfold advanced_in in HX, HY.
  apply andb_true_iff in HX as [HX HcX]. apply andb_true_iff in HY as [HY HcY].
  apply bool_decide_eq_true_1 in HX. apply bool_decide_eq_true_1 in HY.
  destruct X, Y; try congruence; cbn [advances] in *;
    unfold advances_dominant, advances_subdominant, advances_encounter in *;
    repeat match goal with
    | H : (_ && _) = true |- _ => apply andb_true_iff in H as [? ?]
    | H : (_ =? _) = true |- _ => apply Nat.eqb_eq in H
    | H : (_ <? _) = true |- _ => apply Nat.ltb_lt in H
    | H : (_ <=? _) = true |- _ => apply Nat.leb_le in H
    end; try lia; eapply Hdisj; eauto.
Qed.

Lemma drift_step_advance_cell a shell r k :
  maps_wf r shell ->
  k < length (r_particles r) -> k < length (rim_t_drifted (ri_mercurana r)) ->
  cell (drift_step_advance a shell r) k
  = if advanced_in Dominant shell r k || advanced_in Subdominant shell r k
       || advanced_in Encounter shell r k
    then cell_advanced a (cell r k) else cell r k.
Proof.
  intros Hwf Hk Hk'. pose proof Hwf as [Hlen Hnd Hdisj].
  rewrite drift_step_advance_loops.
  change (advances_dominant shell) with (advances Dominant shell).
  change (advances_subdominant shell) with (advances Subdominant shell).
  change (advances_encounter shell) with (advances Encounter shell).
  destruct (advance_loop_role Dominant a shell r k (Hlen _) (Hnd _) Hk Hk')
    as (S1 & L1 & T1 & C1).
  set (r1 := advance_loop Dominant _ a shell _ r) in *.
  assert (N1 : forall X, rd (rim_shellN X (ri_mercurana r)) shell
                         = rd (rim_shellN X (ri_mercurana r1)) shell)
    by (intros X; now rewrite (sm_shellN _ _ S1)).
  rewrite (N1 Subdominant).
  destruct (advance_loop_role Subdominant a shell r1 k) as (S2 & L2 & T2 & C2).
  { rewrite (sm_shellN _ _ S1), (sm_map _ _ S1). apply Hlen. }
  { rewrite (sm_shellN _ _ S1), (sm_map _ _ S1).
    intros i j Hi Hj Hij Hc. apply (Hnd Subdominant i j Hi Hj Hij).
    rewrite <- Hc. symmetry. apply advances_inshell, (sm_inshell _ _ S1). }
  { lia. } { lia. }
  set (r2 := advance_loop Subdominant _ a shell _ r1) in *.
  assert (S02 : same_maps r r2) by (etransitivity; eauto).
  assert (N2 : forall X, rd (rim_shellN X (ri_mercurana r)) shell
                         = rd (rim_shellN X (ri_mercurana r2)) shell)
    by (intros X; now rewrite (sm_shellN _ _ S02)).
  rewrite (N2 Encounter).
  destruct (advance_loop_role Encounter a shell r2 k) as (S3 & L3 & T3 & C3).
  { rewrite (sm_shellN _ _ S02), (sm_map _ _ S02). apply Hlen. }
  { rewrite (sm_shellN _ _ S02), (sm_map _ _ S02).
    intros i j Hi Hj Hij Hc. apply (Hnd Encounter i j Hi Hj Hij).
    rewrite <- Hc. symmetry. apply advances_inshell, (sm_inshell _ _ S02). }
  { lia. } { lia. }
  rewrite C3, C2, C1.
  rewrite (same_maps_advanced_in r r2) by auto.
  rewrite (same_maps_advanced_in r r1) by auto.
  destruct (advanced_in Dominant shell r k) eqn:ED;
    destruct (advanced_in Subdominant shell r k) eqn:ES;
    destruct (advanced_in Encounter shell r k) eqn:EE; cbn [orb]; try reflexivity; exfalso.
  all: try (rewrite (advanced_in_exclusive r shell k Dominant Subdominant Hwf) in ES;
            [discriminate|discriminate|exact ED]).
  all: try (rewrite (advanced_in_exclusive r shell k Dominant Encounter Hwf) in EE;
            [discriminate|discriminate|exact ED]).
  all: try (rewrite (advanced_in_exclusive r shell k Subdominant Encounter Hwf) in EE;
            [discriminate|discriminate|exact ES]).
Qed.

(** ** Configuration errors and the two parts of a step *)

Section Lifecycle.
Variable reb_collision_search : reb_simulation -> reb_simulation.
Variable reb_update_acceleration : reb_simulation -> reb_simulation.
Variable reb_calculate_and_apply_jerk : reb_simulation -> float -> reb_simulation.
Variable reb_sigint : bool.
Variable reb_integrator_eos_preprocessor :
  reb_simulation -> float -> nat -> REB_EOS_TYPE -> drift_fn -> interaction_fn
  -> option reb_simulation.
Variable reb_integrator_eos_step :
  reb_simulation -> float -> float -> float -> nat -> REB_EOS_TYPE
  -> drift_fn -> interaction_fn -> option reb_simulation.
Variable reb_integrator_eos_postprocessor :
  reb_simulation -> float -> nat -> REB_EOS_TYPE -> drift_fn -> interaction_fn
  -> option reb_simulation.
Variable exp : float -> float.
Variable pow : float -> float -> float.
Variable reb_eos_lf4_a : float.
Variable reb_eos_lf6_a : list float.
Variable reb_eos_lf8_a : list float.
Variable reb_eos_lf4_2_a : float.
Variable reb_eos_pmlf6_a : list float.
Variable reb_eos_plf7_6_4_a : list float.

Local Abbreviation part1 :=
  (reb_integrator_mercurana_part1 reb_collision_search reb_update_acceleration
     reb_calculate_and_apply_jerk reb_sigint reb_integrator_eos_preprocessor
     reb_integrator_eos_step reb_integrator_eos_postprocessor exp pow
     reb_eos_lf4_a reb_eos_lf6_a reb_eos_lf8_a reb_eos_lf4_2_a reb_eos_pmlf6_a
     reb_eos_plf7_6_4_a).
Local Abbreviation part2 :=
  (reb_integrator_mercurana_part2 reb_collision_search reb_update_acceleration
     reb_calculate_and_apply_jerk reb_sigint reb_integrator_eos_preprocessor
     reb_integrator_eos_step reb_integrator_eos_postprocessor exp).

Lemma invalid_config_error rim :
  invalid_config rim <-> exists msg, part1_config_error rim = Some msg.
Proof.
  unfold invalid_config, part1_config_error. split.
  - intros H.
    destruct (rim_Nmaxshells rim <=? 0) eqn:E0; [eauto|].
    destruct ((rim_Nmaxshells rim =? 1) && negb (rim_n0 rim =? 0)) eqn:E1; [eauto|].
    destruct ((rim_Nmaxshells rim =? 2) && negb (rim_n1 rim =? 0)) eqn:E2; [eauto|].
    destruct ((1 <? rim_Nmaxshells rim) && (rim_kappa rim <=? 0)%float) eqn:E3; [eauto|].
    exfalso. apply Nat.leb_gt in E0.
    apply andb_false_iff in E1, E2, E3.
    rewrite negb_false_iff, !Nat.eqb_neq, Nat.eqb_eq in E1, E2.
    rewrite Nat.ltb_ge in E3.
    destruct H as [H|[[H1 H2]|[[H1 H2]|[H1 H2]]]]; try lia.
    destruct E3; [lia|congruence].
  - intros [msg H].
    destruct (rim_Nmaxshells rim <=? 0) eqn:E0; [apply Nat.leb_le in E0; auto|].
    destruct ((rim_Nmaxshells rim =? 1) && negb (rim_n0 rim =? 0)) eqn:E1.
    { apply andb_true_iff in E1 as [E1 E1']. apply Nat.eqb_eq in E1.
      apply negb_true_iff, Nat.eqb_neq in E1'. right; left. lia. }
    destruct ((rim_Nmaxshells rim =? 2) && negb (rim_n1 rim =? 0)) eqn:E2.
    { apply andb_true_iff in E2 as [E2 E2']. apply Nat.eqb_eq in E2.
      apply negb_true_iff, Nat.eqb_neq in E2'. right; right; left. lia. }
    destruct ((1 <? rim_Nmaxshells rim) && (rim_kappa rim <=? 0)%float) eqn:E3.
    { apply andb_true_iff in E3 as [E3 E3']. apply Nat.ltb_lt in E3.
      right; right; right. auto. }
    discriminate.
Qed.

(** On a configuration error part1 only reports: the result is the input
    with the warning about variational equations, if due, and the error
    appended to the host's channel. *)
Lemma part1_config_error_returns fuel r :
  invalid_config (ri_mercurana r) ->
  exists r',
    part1 fuel r = Some r'
    /\ ri_mercurana r' = ri_mercurana r
    /\ r_particles r' = r_particles r
    /\ set_r_messages (r_messages r) r' = r
    /\ exists msg ws,
         r_messages r' = r_messages r ++ ws ++ [(MSG_ERROR, msg)]
         /\ Forall (fun w => fst w = MSG_WARNING) ws.
Proof.
  intros H. apply invalid_config_error in H as [msg Hmsg].
  unfold reb_integrator_mercurana_part1.
  destruct (negb (r_var_config_N r =? 0)); cbn [ri_mercurana reb_warning set_r_messages];
    rewrite Hmsg; eexists; (split; [reflexivity|]);
    (repeat apply conj; [reflexivity | reflexivity | destruct r; reflexivity |]).
  - exists msg, [(MSG_WARNING, "Mercurana does not work with variational equations."%string)].
    split; [|repeat constructor]. cbn. now rewrite <- !app_assoc.
  - exists msg, []. split; [reflexivity | constructor].
Qed.

(** When nothing has been allocated yet for the particles, part2 returns
    at once. *)
Lemma part2_unallocated fuel r :
  rim_allocatedN (ri_mercurana r) < r_N r -> part2 fuel r = Some r.
Proof.
  intros H. unfold reb_integrator_mercurana_part2.
  now apply Nat.ltb_lt in H as ->.
Qed.

(** Whatever part2 returns after a step has its [dt_last_done] set. *)
Lemma part2_allocated_dt_last_done fuel r r' :
  r_N r <= rim_allocatedN (ri_mercurana r) ->
  part2 fuel r = Some r' -> r_dt_last_done r' = r_dt r'.
Proof.
  intros H. unfold reb_integrator_mercurana_part2.
  apply Nat.ltb_ge in H as ->.
  repeat match goal with
         | |- context [match ?x with Some _ => _ | None => _ end] =>
             destruct x; try discriminate
         end.
  intros [= <-]. reflexivity.
Qed.

(** C10: a simulation whose arrays a previous run has allocated, and whose
    kappa has since been set to 0, is an invalid configuration; part1
    reports the error and returns with the integrator as it was, but the
    part2 that follows finds allocatedN >= N and is no no-op: whatever it
    returns differs from the state it started in. *)
Theorem part2_runs_after_config_error fuel :
  invalid_config (ri_mercurana sim_bad_kappa)
  /\ exists r1,
       part1 fuel sim_bad_kappa = Some r1
       /\ r_messages r1 = [(MSG_ERROR, "kappa>0 is required if Nmaxshells>1."%string)]
       /\ ri_mercurana r1 = ri_mercurana sim_bad_kappa
       /\ r_N r1 <= rim_allocatedN (ri_mercurana r1)
       /\ part2 fuel r1 <> Some r1.
Proof.
  split.
  - right; right; right. split; [reflexivity | vm_compute; lia].
  - eexists. split; [reflexivity|].
    split; [reflexivity|]. split; [reflexivity|].
    split; [vm_compute; lia|].
    intros H. apply part2_allocated_dt_last_done in H; [|vm_compute; lia].
    vm_compute in H. discriminate H.
Qed.
End Lifecycle.

(** ** Further properties of the code *)

Local Open Scope float_scope.

(** *** More on the predictor: NaN and particles at relative rest *)

Lemma MIN_is_nan (a b : float) : is_nan (MIN a b) = is_nan a.
Proof.
  unfold MIN. destruct (b <? a) eqn:E; auto.
  rewrite (ltb_not_nan_l _ _ E), (ltb_not_nan_r _ _ E). reflexivity.
Qed.

(** X1: the result of the predictor is NaN exactly when the squared
    separation at the start is: a NaN in r2 or r3, or in the time of closest
    approach, never reaches the result, because MIN(a,b) returns a when the
    comparison with b fails. *)
Theorem rmin2_nan_iff_start (p1 p2 : reb_particle) (dt : float) :
  is_nan (reb_mercurana_predict_rmin2 p1 p2 dt) = is_nan (sep2 p1 p2).
Proof.
  rewrite rmin2_unfold. cbv zeta. rewrite <- (trace_r1 p1 p2 dt).
  destruct (closest_in_step _); now rewrite !MIN_is_nan.
Qed.

Lemma eqb_zero (x : float) : (x =? 0) = true -> exists s, Prim2SF x = S754_zero s.
Proof.
  rewrite FloatAxioms.eqb_spec, SF_zero.
  destruct (Prim2SF x) as [s|[]| |[] m e]; try discriminate. eauto.
Qed.

Lemma copysign_one (dt : float) : copysign 1 dt = 1 \/ copysign 1 dt = -1.
Proof. unfold copysign. destruct (get_sign dt); [right|left]; reflexivity. Qed.

Lemma mul_unit_zero (u z : float) (s : bool) :
  u = 1 \/ u = -1 -> Prim2SF z = S754_zero s -> exists s', Prim2SF (u * z) = S754_zero s'.
Proof.
  intros [-> | ->] Hz; rewrite mul_spec, Hz; eexists; reflexivity.
Qed.

Lemma mul_zero_r (v z : float) (s : bool) :
  Prim2SF z = S754_zero s -> nan_or_zero (v * z).
Proof.
  intros Hz. unfold nan_or_zero. rewrite mul_spec, Hz.
  destruct (Prim2SF v) as [sv|sv| |sv m e]; simpl; eauto.
Qed.

Lemma sq_zero (z : float) (s : bool) : Prim2SF z = S754_zero s -> z * z = 0.
Proof.
  intros Hz. apply Prim2SF_inj. rewrite mul_spec, Hz. destruct s; reflexivity.
Qed.

(** A quotient by [+0], divided again by anything, is never in [0,1]. *)
Lemma div_zero_div_not_in_unit (n d : float) :
  (0 <=? n / 0 / d) && (n / 0 / d <=? 1) = false.
Proof.
  rewrite !leb_spec, !div_spec, SF_zero.
  destruct (Prim2SF n) as [s|[]| |[] m e];
    destruct (Prim2SF d) as [[]|[]| |[] m' e']; reflexivity.
Qed.

(** X2: for two particles at relative rest (each component of the velocity
    difference is a zero) the predictor returns the squared separation of
    the particles as they are, for every drift interval, infinite and NaN
    included: the time of closest approach is a quotient by zero, which
    fails the test, and r2 is r1 or NaN. *)
Theorem rmin2_relative_rest (p1 p2 : reb_particle) (dt : float) :
  (p_vx p1 - p_vx p2 =? 0) = true ->
  (p_vy p1 - p_vy p2 =? 0) = true ->
  (p_vz p1 - p_vz p2 =? 0) = true ->
  reb_mercurana_predict_rmin2 p1 p2 dt = sep2 p1 p2.
Proof.
  intros Hx Hy Hz.
  apply eqb_zero in Hx as [sx Hx], Hy as [sy Hy], Hz as [sz Hz].
  destruct (mul_unit_zero _ _ _ (copysign_one dt) Hx) as [sx' Hx'].
  destruct (mul_unit_zero _ _ _ (copysign_one dt) Hy) as [sy' Hy'].
  destruct (mul_unit_zero _ _ _ (copysign_one dt) Hz) as [sz' Hz'].
  unfold reb_mercurana_predict_rmin2.
  assert (Hc : closest_in_step (predict_rmin2_trace p1 p2 dt) = false).
  { unfold closest_in_step, predict_rmin2_trace. cbn [tr_t_closest tr_dt].
    rewrite (sq_zero _ _ Hx'), (sq_zero _ _ Hy'), (sq_zero _ _ Hz').
    change (0 + 0 + 0) with 0. apply div_zero_div_not_in_unit. }
  rewrite Hc, trace_r1. apply MIN_same_or_nan.
  unfold predict_rmin2_trace, sep2. cbn [tr_r2].
  set (dx1 := p_x p1 - p_x p2). set (dy1 := p_y p1 - p_y p2).
  set (dz1 := p_z p1 - p_z p2).
  set (vx := copysign 1 dt * (p_vx p1 - p_vx p2)) in *.
  set (vy := copysign 1 dt * (p_vy p1 - p_vy p2)) in *.
  set (vz := copysign 1 dt * (p_vz p1 - p_vz p2)) in *.
  destruct (sq_add_nan_or_zero dx1 (fabs dt * vx) (mul_zero_r _ _ _ Hx')) as [-> | ->];
    [left; now rewrite !add_nan_l |].
  destruct (sq_add_nan_or_zero dy1 (fabs dt * vy) (mul_zero_r _ _ _ Hy')) as [-> | ->];
    [left; now rewrite add_nan_r, add_nan_l |].
  destruct (sq_add_nan_or_zero dz1 (fabs dt * vz) (mul_zero_r _ _ _ Hz')) as [-> | ->];
    [left; now rewrite add_nan_r |].
  now right.
Qed.

Lemma rmin2_relative_rest_witness :
  reb_mercurana_predict_rmin2
    (mk_particle 0 0 0 1 2 3 0 0 0 1 0) (mk_particle 1 0 0 1 2 3 0 0 0 1 0) 1
  = sep2 (mk_particle 0 0 0 1 2 3 0 0 0 1 0) (mk_particle 1 0 0 1 2 3 0 0 0 1 0).
Proof. apply rmin2_relative_rest; reflexivity. Defined.

(** *** The switching function at the ends of an interval *)

Lemma is_finite_SF (x : float) :
  is_finite x = true ->
  (exists s, Prim2SF x = S754_zero s) \/ (exists s m e, Prim2SF x = S754_finite s m e).
Proof.
  unfold is_finite, is_infinity. intros H.
  apply negb_true_iff, orb_false_iff in H as [Hn Hi].
  destruct (Prim2SF x) as [s|s| |s m e] eqn:E; eauto.
  - exfalso. revert Hi. rewrite FloatAxioms.eqb_spec, abs_spec, E. discriminate.
  - exfalso. apply is_nan_SF in E. congruence.
Qed.

Lemma SFsub_self (s : bool) (m : positive) (e : Z) :
  SF64sub (S754_finite s m e) (S754_finite s m e) = S754_zero false.
Proof.
  unfold SF64sub, SFsub. cbv zeta. rewrite Z.sub_diag. reflexivity.
Qed.

Lemma sub_self (x : float) : is_finite x = true -> x - x = 0.
Proof.
  intros H. apply Prim2SF_inj. rewrite sub_spec.
  destruct (is_finite_SF x H) as [[s ->]|(s & m & e & ->)].
  - destruct s; reflexivity.
  - apply SFsub_self.
Qed.

Lemma pos_finite_SF (w : float) :
  (0 <? w) = true -> is_finite w = true ->
  exists m e, Prim2SF w = S754_finite false m e.
Proof.
  intros Hp Hf. revert Hp. rewrite ltb_spec, SF_zero.
  destruct (is_finite_SF w Hf) as [[s ->]|(s & m & e & ->)].
  - discriminate.
  - destruct s; [discriminate | eauto].
Qed.

Lemma zero_div_pos (w : float) (m : positive) (e : Z) :
  Prim2SF w = S754_finite false m e -> 0 / w = 0.
Proof. intros H. apply Prim2SF_inj. rewrite div_spec, H. reflexivity. Qed.

(** X3: on an interval [ri,ro] with a finite inner end and a width ro-ri
    that is a positive finite number, the default switching function is 0 at
    the inner end and 1 at the outer end, for every [exp] with exp(-inf)=+0
    and a positive finite exp(-1). *)
Theorem L_infinity_endpoints (exp : float -> float) (ri ro : float) :
  exp neg_infinity = 0 ->
  (0 <? exp (-1)) = true -> is_finite (exp (-1)) = true ->
  is_finite ri = true ->
  (0 <? ro - ri) = true -> is_finite (ro - ri) = true ->
  reb_integrator_mercurana_L_infinity exp ri ri ro = 0
  /\ reb_integrator_mercurana_L_infinity exp ro ri ro = 1.
Proof.
  intros He0 He1 He1' Hri Hw Hw'.
  destruct (pos_finite_SF _ He1 He1') as (em & ee & Hem).
  destruct (pos_finite_SF _ Hw Hw') as (wm & we & Hwm).
  split.
  - apply (L_at_inner exp He0 em ee Hem).
    rewrite (sub_self ri Hri). eapply zero_div_pos; eauto.
  - apply (L_at_outer exp He0 em ee Hem). eapply div_self; eauto.
Qed.

Lemma L_infinity_endpoints_witness :
  reb_integrator_mercurana_L_infinity exp_rational 1 1 3 = 0
  /\ reb_integrator_mercurana_L_infinity exp_rational 3 1 3 = 1.
Proof. apply L_infinity_endpoints; reflexivity. Defined.

Local Open Scope nat_scope.

(** *** More on collision capture and on the prediction as a whole *)

(** X4: recording a collision in a buffer that has its allocated length
    appends exactly one record: the count grows by one, the new cell holds
    the two indices and the coordinates of particle i as its ghost box, the
    earlier records stay, the particles stay, and the buffer grows only when
    it is full, to 32 cells from none and to twice its length otherwise, so
    that the count never exceeds its length. *)
Theorem record_collision_appends (r : reb_simulation) (i j : nat) :
  collisions_ok r ->
  let r' := reb_mercurana_record_collision r i j in
  let n := rim_collisions_N (ri_mercurana r) in
  rim_collisions_N (ri_mercurana r') = S n
  /\ r_collisions r' !! n
     = Some (mk_collision i j (ghostbox_of (rd (r_particles r) i)))
  /\ (forall k, k < n -> r_collisions r' !! k = r_collisions r !! k)
  /\ r_collisions_allocatedN r'
     = (if r_collisions_allocatedN r =? n
        then if n =? 0 then 32 else n * 2
        else r_collisions_allocatedN r)
  /\ collisions_ok r'
  /\ r_particles r' = r_particles r.
Proof.
  intros [Hlen Hle]. cbv zeta. unfold reb_mercurana_record_collision.
  destruct (r_collisions_allocatedN r <=? rim_collisions_N (ri_mercurana r)) eqn:E.
  - apply Nat.leb_le in E.
    assert (Heq : r_collisions_allocatedN r = rim_collisions_N (ri_mercurana r)) by lia.
    rewrite Heq, Nat.eqb_refl.
    set (n := rim_collisions_N (ri_mercurana r)) in *.
    assert (Hn : n < (if n =? 0 then 32 else n * 2)).
    { destruct (n =? 0) eqn:E0; [apply Nat.eqb_eq in E0|apply Nat.eqb_neq in E0]; lia. }
    unfold collisions_ok.
    cbn [r_collisions r_collisions_allocatedN ri_mercurana r_particles upd_rim
         set_r_collisions set_r_collisions_allocatedN set_ri_mercurana
         rim_collisions_N set_rim_collisions_N].
    fold n. rewrite ?Heq. fold n.
    repeat apply conj; try reflexivity.
    + apply list_lookup_insert_eq. now rewrite length_resize.
    + intros k Hk. rewrite list_lookup_insert_ne by lia.
      apply lookup_resize; lia.
    + now rewrite length_insert, length_resize.
    + lia.
  - apply Nat.leb_gt in E.
    assert (Hne : (r_collisions_allocatedN r =? rim_collisions_N (ri_mercurana r)) = false)
      by (apply Nat.eqb_neq; lia).
    rewrite Hne. unfold collisions_ok.
    cbn [r_collisions r_collisions_allocatedN ri_mercurana r_particles upd_rim
         set_r_collisions set_r_collisions_allocatedN set_ri_mercurana
         rim_collisions_N set_rim_collisions_N].
    repeat apply conj; try reflexivity.
    + apply list_lookup_insert_eq. lia.
    + intros k Hk. now rewrite list_lookup_insert_ne by lia.
    + now rewrite length_insert.
    + lia.
Qed.

(** The setup of shell 0 and the maxdrift phase leave alone what the scans
    leave alone. *)
Lemma for_loop_frame (lo hi : nat) (body : nat -> reb_simulation -> reb_simulation) r :
  (forall i s, scan_frame s (body i s)) -> scan_frame r (for_loop lo hi body r).
Proof.
  intros H. apply (for_loop_ind (scan_frame r)); [apply scan_frame_refl|].
  intros i s _ Hs. eapply scan_frame_trans; eauto.
Qed.

Lemma inshell_store_frame p i v r :
  p <> rim_ptr_inshell_subdominant -> scan_frame r (upd_rim (inshell_store p i v) r).
Proof. intros Hp. apply upd_rim_frame; destruct p; try congruence; reflexivity. Qed.

Lemma maxdrift_store_frame md i v r : scan_frame r (upd_rim (maxdrift_store md i v) r).
Proof. apply upd_rim_frame; destruct md; reflexivity. Qed.

Lemma set_r_particles_frame ps r : scan_frame r (set_r_particles ps r).
Proof. constructor; reflexivity. Qed.

Lemma predict_setup_frame r :
  scan_frame r (predict_setup rim_ptr_inshell_encounter rim_ptr_inshell_dominant
                  rim_ptr_inshell_dominant r).
Proof.
  unfold predict_setup. cbv zeta.
  eapply scan_frame_trans; [|apply for_loop_frame].
  - eapply scan_frame_trans; [|apply for_loop_frame].
    + eapply scan_frame_trans; [|apply for_loop_frame].
      * apply upd_rim_frame; reflexivity.
      * intros i s. apply upd_rim_frame; reflexivity.
    + intros i s. apply upd_rim_frame; reflexivity.
  - intros i s. apply upd_rim_frame; reflexivity.
Qed.

Lemma predict_maxdrift_frame n dt shell r :
  scan_frame r (predict_maxdrift rim_ptr_inshell_encounter n dt shell r).
Proof.
  unfold predict_maxdrift. apply for_loop_frame. intros i s.
  destruct (_ <? _)%float; [|apply scan_frame_refl].
  apply for_loop_frame. intros j s'.
  destruct (inshell_load _ _ _ <? shell); [|apply scan_frame_refl].
  cbv zeta. destruct (_ <? _)%float.
  - eapply scan_frame_trans; [|apply set_r_particles_frame].
    eapply scan_frame_trans;
      [|apply for_loop_frame; intros k s''; apply upd_rim_frame; reflexivity].
    apply inshell_store_frame. discriminate.
  - apply lower_maxdrift_frame.
Qed.

Lemma predict_scan_frame (r : reb_simulation) (dt : float) (shell : nat) :
  scan_frame r (predict_scan r dt shell).
Proof.
  rewrite predict_scan_unfold. cbv zeta.
  assert (H1 : scan_frame r (predict_before_scans r dt shell)).
  { unfold predict_before_scans. cbv zeta.
    set (r0 := upd_rim _ (upd_rim (set_rim_collisions_N 0) r)).
    assert (H0 : scan_frame r r0) by (constructor; reflexivity).
    eapply scan_frame_trans; [exact H0|].
    destruct (shell =? 0); [apply predict_setup_frame | apply predict_maxdrift_frame]. }
  eapply scan_frame_trans; [|apply pair_scan_frame; discriminate].
  eapply scan_frame_trans; [|apply pair_scan_frame; discriminate].
  eapply scan_frame_trans; [exact H1|apply pair_scan_frame; discriminate].
Qed.

(** X5: the body of predict below the deepest shell, from the resets to the
    end of the three scans, never writes the number of particles, the
    collision mode, Nmaxshells, N_dominant, the critical radii, the snapshot
    p0 or the array rim->inshell_subdominant, which it reaches only through
    the name of its local pointer. *)
Theorem predict_scan_writes_no_frame (r : reb_simulation) (dt : float) (shell : nat) :
  let r' := predict_scan r dt shell in
  r_N r' = r_N r
  /\ r_collision r' = r_collision r
  /\ rim_Nmaxshells (ri_mercurana r') = rim_Nmaxshells (ri_mercurana r)
  /\ rim_N_dominant (ri_mercurana r') = rim_N_dominant (ri_mercurana r)
  /\ rim_dcrit (ri_mercurana r') = rim_dcrit (ri_mercurana r)
  /\ rim_p0 (ri_mercurana r') = rim_p0 (ri_mercurana r)
  /\ rim_inshell_subdominant (ri_mercurana r')
     = rim_inshell_subdominant (ri_mercurana r).
Proof.
  cbv zeta. destruct (predict_scan_frame r dt shell) as [H1 H2 H3 H4 H5 H6 H7 _].
  repeat apply conj; assumption.
Qed.

(** X6: with a collision resolver that keeps the number of particles,
    predict returns for every fuel, never re-entering itself; the number of
    particles is that of the start, and below the deepest shell the count of
    recorded collisions is back at zero. *)
Theorem predict_returns_with_steady_resolver
    (search : reb_simulation -> reb_simulation) (fuel : nat)
    (r : reb_simulation) (dt : float) (shell : nat) :
  (forall s, r_N (search s) = r_N s) ->
  exists r',
    reb_mercurana_encounter_predict search fuel r dt shell = Some r'
    /\ r_N r' = r_N r
    /\ (shell + 1 < rim_Nmaxshells (ri_mercurana r) ->
        rim_collisions_N (ri_mercurana r') = 0).
Proof.
  intros Hs. rewrite predict_unfold.
  destruct (rim_Nmaxshells (ri_mercurana r) <=? shell + 1) eqn:E.
  - apply Nat.leb_le in E. exists r. repeat split; auto. lia.
  - cbv zeta. pose proof (fr_N _ _ (predict_scan_frame r dt shell)) as HN.
    destruct (rim_collisions_N (ri_mercurana (predict_scan r dt shell)) =? 0) eqn:Ec.
    + apply Nat.eqb_eq in Ec. cbn [negb]. eexists. repeat split; eauto.
    + cbn [negb]. rewrite Hs, Nat.eqb_refl. cbn [negb].
      eexists. repeat split; cbn; auto. now rewrite Hs.
Qed.

Lemma record_collision_appends_witness :
  let r := example_sim (two_at_rest 1) 3 2 2%float REB_COLLISION_DIRECT in
  let r' := reb_mercurana_record_collision r 0 1 in
  let n := rim_collisions_N (ri_mercurana r) in
  rim_collisions_N (ri_mercurana r') = S n
  /\ r_collisions r' !! n
     = Some (mk_collision 0 1 (ghostbox_of (rd (r_particles r) 0)))
  /\ (forall k, k < n -> r_collisions r' !! k = r_collisions r !! k)
  /\ r_collisions_allocatedN r'
     = (if r_collisions_allocatedN r =? n
        then if n =? 0 then 32 else n * 2
        else r_collisions_allocatedN r)
  /\ collisions_ok r'
  /\ r_particles r' = r_particles r.
Proof.
  apply (record_collision_appends
           (example_sim (two_at_rest 1) 3 2 2%float REB_COLLISION_DIRECT) 0 1).
  split; vm_compute; lia.
Defined.

Lemma predict_returns_with_steady_resolver_witness :
  exists r',
    reb_mercurana_encounter_predict (fun s => s) 0
      (example_sim (two_at_rest 1) 3 2 2%float REB_COLLISION_DIRECT) 1%float 0 = Some r'
    /\ r_N r' = r_N (example_sim (two_at_rest 1) 3 2 2%float REB_COLLISION_DIRECT)
    /\ (0 + 1 < rim_Nmaxshells
                  (ri_mercurana (example_sim (two_at_rest 1) 3 2 2%float
                                   REB_COLLISION_DIRECT)) ->
        rim_collisions_N (ri_mercurana r') = 0).
Proof.
  apply (predict_returns_with_steady_resolver (fun s => s) 0
           (example_sim (two_at_rest 1) 3 2 2%float REB_COLLISION_DIRECT) 1%float 0).
  intros s. reflexivity.
Defined.

(** *** What a promotion marks *)

Lemma inshell_load_array p rim i : inshell_load p rim i = rd (inshell_array p rim) i.
Proof. destruct p; reflexivity. Qed.

Lemma inshell_array_store p p' i v rim :
  inshell_array p' (inshell_store p i v rim)
  = if decide (p' = p) then <[i := v]> (inshell_array p rim) else inshell_array p' rim.
Proof. destruct p, p'; reflexivity. Qed.

Lemma inshell_array_set_map p X v rim :
  inshell_array p (set_rim_map X v rim) = inshell_array p rim.
Proof. destruct p, X; reflexivity. Qed.

Lemma inshell_array_set_shellN p X v rim :
  inshell_array p (set_rim_shellN X v rim) = inshell_array p rim.
Proof. destruct p, X; reflexivity. Qed.

Lemma inshell_array_lower p md i v rim :
  inshell_array p (lower_maxdrift md i v rim) = inshell_array p rim.
Proof. destruct p, md; reflexivity. Qed.

Lemma inshell_array_collisions_N p c rim :
  inshell_array p (set_rim_collisions_N c rim) = inshell_array p rim.
Proof. destruct p; reflexivity. Qed.

(** The append [map[k][cnt[k]] = m; cnt[k]++] inside the row. *)
Lemma append_members_eq (map : list (list nat)) (cnt : list nat) k m :
  k < length cnt -> rd cnt k < length (map !!! k) ->
  take (rd (<[k := S (rd cnt k)]> cnt) k) (wr2 map k (rd cnt k) m !!! k)
  = take (rd cnt k) (map !!! k) ++ [m].
Proof.
  intros Hk Hc. unfold rd, wr2 in *.
  assert (Hmap : k < length map).
  { destruct (decide (k < length map)); auto.
    rewrite row_out_of_range in Hc by lia. simpl in Hc. lia. }
  rewrite !list_lookup_total_insert, !decide_True by auto.
  assert (Hl : <[cnt !!! k:=m]> (map !!! k) !! (cnt !!! k) = Some m)
    by (apply list_lookup_insert_eq; exact Hc).
  rewrite (take_S_r _ _ _ Hl).
  rewrite take_insert_ge by lia. reflexivity.
Qed.

(** A list of particle indices below [L] without repetitions has at most [L]
    entries. *)
Lemma NoDup_below_length (l : list nat) (L : nat) :
  NoDup l -> (forall x, x ∈ l -> x < L) -> length l <= L.
Proof.
  intros Hnd Hb. rewrite <- (length_seq L 0).
  apply submseteq_length, NoDup_submseteq; auto.
  intros x Hx. apply elem_of_seq. specialize (Hb x Hx). lia.
Qed.

Lemma members_marked X s rim x : x ∈ members X s rim -> x ∈ marked (inshell_of X) s rim.
Proof. destruct X; cbn [inshell_of marked]; rewrite ?elem_of_app; auto. Qed.

Lemma marked_members p s rim x :
  x ∈ marked p s rim -> exists X, inshell_of X = p /\ x ∈ members X s rim.
Proof.
  destruct p; cbn [marked]; rewrite ?elem_of_app.
  - exists Encounter. auto.
  - intros [H|H]; [exists Dominant | exists Subdominant]; auto.
  - intros H. now apply elem_of_nil in H.
Qed.

Lemma members_length_marked X s rim :
  length (members X s rim) <= length (marked (inshell_of X) s rim).
Proof. destruct X; cbn [inshell_of marked]; rewrite ?length_app; lia. Qed.

(** A promotion that passes its test appends [m] to the map of the next
    shell and stores [shell+1] in the cell of [m]. *)
Lemma promote_effect X shell m rim :
  inshell_load (inshell_of X) rim m = shell ->
  shell + 1 < length (rim_shellN X rim) ->
  rd (rim_shellN X rim) (shell + 1) < length (rim_map X rim !!! (shell + 1)) ->
  let rim' := promote (inshell_of X) X shell m rim in
  (forall X', members X' (shell + 1) rim'
              = if decide (X = X') then members X (shell + 1) rim ++ [m]
                else members X' (shell + 1) rim)
  /\ (forall p, inshell_array p rim'
                = if decide (p = inshell_of X)
                  then <[m := shell + 1]> (inshell_array (inshell_of X) rim)
                  else inshell_array p rim)
  /\ (forall X' s, length (rim_map X' rim' !!! s) = length (rim_map X' rim !!! s))
  /\ (forall X', length (rim_shellN X' rim') = length (rim_shellN X' rim))
  /\ (forall X', rd (rim_shellN X' rim') (shell + 1)
                 = if decide (X = X') then S (rd (rim_shellN X rim) (shell + 1))
                   else rd (rim_shellN X' rim) (shell + 1)).
Proof.
  intros E Hn Hc. cbv zeta.
  assert (Hm : forall X', rim_map X' (promote (inshell_of X) X shell m rim)
                 = if decide (X = X')
                   then wr2 (rim_map X rim) (shell+1) (rd (rim_shellN X rim) (shell+1)) m
                   else rim_map X' rim).
  { intros X'. unfold promote. apply Nat.eqb_eq in E. rewrite E.
    rewrite rim_map_set_shellN, rim_map_set_map.
    repeat rewrite rim_map_inshell_store. repeat rewrite rim_shellN_inshell_store.
    reflexivity. }
  assert (Hs : forall X', rim_shellN X' (promote (inshell_of X) X shell m rim)
                    = if decide (X = X')
                      then <[shell+1 := S (rd (rim_shellN X rim) (shell+1))]> (rim_shellN X rim)
                      else rim_shellN X' rim).
  { intros X'. unfold promote. apply Nat.eqb_eq in E. rewrite E.
    rewrite rim_shellN_set_shellN. repeat rewrite rim_shellN_set_map.
    repeat rewrite rim_shellN_inshell_store. reflexivity. }
  repeat apply conj.
  - intros X'. unfold members. rewrite Hm, Hs. destruct (decide (X = X')) as [<-|]; auto.
    now apply append_members_eq.
  - intros p. unfold promote. apply Nat.eqb_eq in E. rewrite E.
    rewrite inshell_array_set_shellN, inshell_array_set_map, inshell_array_store.
    reflexivity.
  - intros X' s. rewrite Hm. destruct (decide (X = X')) as [<-|]; auto.
    apply wr2_row_length.
  - intros X'. rewrite Hs. destruct (decide (X = X')) as [<-|]; auto.
    apply length_insert.
  - intros X'. rewrite Hs. destruct (decide (X = X')) as [<-|]; auto.
    unfold rd. now rewrite list_lookup_total_insert, decide_True by auto.
Qed.

Lemma marked_after_append X shell m rim rim' p :
  (forall X', members X' (shell + 1) rim'
              = if decide (X = X') then members X (shell + 1) rim ++ [m]
                else members X' (shell + 1) rim) ->
  marked p (shell + 1) rim'
  ≡ₚ if decide (p = inshell_of X) then m :: marked p (shell + 1) rim
     else marked p (shell + 1) rim.
Proof.
  intros H. destruct p, X; cbn [marked inshell_of]; rewrite ?H;
    repeat (case_decide; try congruence); try reflexivity.
  - now rewrite Permutation_app_comm.
  - rewrite <- app_assoc. cbn. now rewrite Permutation_middle.
  - rewrite app_assoc. now rewrite <- Permutation_cons_append.
Qed.

Lemma inshell_of_not_subdominant X : inshell_of X <> rim_ptr_inshell_subdominant.
Proof. destruct X; discriminate. Qed.

Lemma promote_keeps_inv shell L rows i0 X m rim :
  promoted_inv shell L rows i0 rim -> m < L ->
  promoted_inv shell L rows i0 (promote (inshell_of X) X shell m rim).
Proof.
  intros Hinv Hm.
  destruct (decide (inshell_load (inshell_of X) rim m = shell)) as [E|E];
    [|unfold promote; apply Nat.eqb_neq in E; now rewrite E].
  pose proof Hinv as [Hrows Hnd Hb Hin Hcnt Hli Hlr Hls].
  pose proof (inshell_of_not_subdominant X) as Hp.
  assert (Hnot : m ∉ marked (inshell_of X) (shell + 1) rim).
  { intros Hx. rewrite (Hin _ _ Hp Hm), bool_decide_eq_true_2 in E by auto. lia. }
  assert (Hmb : forall x, x ∈ marked (inshell_of X) (shell + 1) rim -> x < L).
  { intros x Hx. apply marked_members in Hx as (X' & _ & Hx). eauto. }
  assert (Hlt : rd (rim_shellN X rim) (shell + 1) < L).
  { assert (Hl : length (m :: marked (inshell_of X) (shell + 1) rim) <= L).
    { apply NoDup_below_length.
      - apply NoDup_cons. auto.
      - intros x Hx. apply elem_of_cons in Hx as [->|Hx]; auto. }
    pose proof (members_length_marked X (shell + 1) rim) as Hle.
    unfold members in Hle at 1. rewrite length_take in Hle.
    specialize (Hcnt X). specialize (Hlr X). cbn [length] in Hl. lia. }
  destruct (promote_effect X shell m rim E (Hls X)) as (Hmem & Harr & Hlen & HlenN & HcntN).
  { specialize (Hlr X). lia. }
  set (rim' := promote (inshell_of X) X shell m rim) in *.
  assert (Hperm := fun p => marked_after_append X shell m rim rim' p Hmem).
  constructor.
  - intros X'. rewrite <- Hrows. apply promote_row. lia.
  - intros p. rewrite Hperm. case_decide as Hd; auto. subst p. apply NoDup_cons. auto.
  - intros X' x. rewrite Hmem. case_decide; [|apply Hb].
    rewrite elem_of_app, list_elem_of_singleton. intros [Hx | ->]; [eapply Hb; eauto | exact Hm].
  - intros p x Hp' Hx. rewrite inshell_load_array, Harr.
    rewrite (bool_decide_ext _ _ (elem_of_Permutation_proper x _ _ (Hperm p))).
    case_decide as Hd.
    + subst p. unfold rd. rewrite list_lookup_total_insert.
      specialize (Hli _ Hp').
      destruct (decide (m = x)) as [->|Hne].
      * rewrite decide_True by (split; auto; lia).
        rewrite bool_decide_eq_true_2; auto. apply elem_of_cons. auto.
      * rewrite decide_False by (intros [? _]; congruence).
        fold (rd (inshell_array (inshell_of X) rim) x).
        rewrite <- inshell_load_array, (Hin _ _ Hp' Hx).
        rewrite (bool_decide_ext (x ∈ m :: marked (inshell_of X) (shell + 1) rim)
                   (x ∈ marked (inshell_of X) (shell + 1) rim)); [reflexivity|].
        rewrite elem_of_cons. intuition congruence.
    + rewrite <- inshell_load_array. auto.
  - intros X'. rewrite HcntN. case_decide; [lia | auto].
  - intros p Hp'. rewrite Harr. case_decide as Hd; [|auto].
    subst p. rewrite length_insert. auto.
  - intros X'. rewrite Hlen. auto.
  - intros X'. rewrite HlenN. auto.
Qed.

Lemma promoted_inv_ext shell L rows i0 rim rim' :
  (forall X, rim_map X rim' = rim_map X rim) ->
  (forall X, rim_shellN X rim' = rim_shellN X rim) ->
  (forall p, inshell_array p rim' = inshell_array p rim) ->
  promoted_inv shell L rows i0 rim -> promoted_inv shell L rows i0 rim'.
Proof.
  intros Hm Hs Ha [Hrows Hnd Hb Hin Hcnt Hli Hlr Hls].
  assert (Hmem : forall X s, members X s rim' = members X s rim)
    by (intros; unfold members; now rewrite Hm, Hs).
  assert (Hmk : forall p s, marked p s rim' = marked p s rim)
    by (intros [] s; cbn [marked]; now rewrite ?Hmem).
  constructor; intros.
  - rewrite Hm. auto.
  - rewrite Hmk. auto.
  - rewrite Hmem in *. eauto.
  - rewrite inshell_load_array, Ha, Hmk, <- inshell_load_array. auto.
  - rewrite Hs. auto.
  - rewrite Ha. auto.
  - rewrite Hm. auto.
  - rewrite Hs. auto.
Qed.

Lemma pair_check_keeps_inv shell L rows i0 Xi Xj mdi mdj dt mi mj r :
  promoted_inv shell L rows i0 (ri_mercurana r) -> mi < L -> mj < L ->
  promoted_inv shell L rows i0
    (ri_mercurana (pair_check (inshell_of Xi) (inshell_of Xj) Xi Xj mdi mdj dt
                     shell mi mj r)).
Proof.
  intros Hinv Hmi Hmj. apply pair_check_cases. intros rc Hrc.
  assert (Hc : promoted_inv shell L rows i0 (ri_mercurana rc)).
  { destruct Hrc as [->| ->]; auto.
    destruct (record_collision_rim r mi mj) as [c ->].
    eapply promoted_inv_ext; [| | |exact Hinv]; intros; try destruct X; try destruct p;
      reflexivity. }
  split; [|intros v]; cbn [upd_rim ri_mercurana set_ri_mercurana].
  - auto using promote_keeps_inv.
  - eapply promoted_inv_ext; [| | |exact Hc]; intros.
    + now rewrite !rim_map_lower.
    + now rewrite !rim_shellN_lower.
    + now rewrite !inshell_array_lower.
Qed.

Lemma pair_scan_keeps_inv shell L rows i0 Xi Xj mdi mdj jstart ni nj dt r :
  promoted_inv shell L rows i0 (ri_mercurana r) ->
  (forall i, i < ni -> rows Xi !!! i < L) ->
  (forall j, j < nj -> rows Xj !!! j < L) ->
  promoted_inv shell L rows i0
    (ri_mercurana (pair_scan (inshell_of Xi) (inshell_of Xj) Xi Xj mdi mdj jstart
                     ni nj dt shell r)).
Proof.
  intros Hinv Hi Hj.
  apply (pair_scan_ind_rows (fun r => promoted_inv shell L rows i0 (ri_mercurana r))
           (rows Xi) (rows Xj)); auto.
  - intros r' Hr'. split; apply (pi_rows _ _ _ _ _ Hr').
  - intros i j r' Hi' Hj' Hr'. apply pair_check_keeps_inv; auto. apply Hj. lia.
Qed.

(** *** The bootstrap of shell 0 *)

Lemma same_sizes_upd_rim g r :
  rim_N_dominant (g (ri_mercurana r)) = rim_N_dominant (ri_mercurana r) ->
  (forall X s, length (rim_map X (g (ri_mercurana r)) !!! s)
               = length (rim_map X (ri_mercurana r) !!! s)) ->
  (forall X, length (rim_shellN X (g (ri_mercurana r)))
             = length (rim_shellN X (ri_mercurana r))) ->
  (forall p, length (inshell_array p (g (ri_mercurana r)))
             = length (inshell_array p (ri_mercurana r))) ->
  same_sizes r (upd_rim g r).
Proof. intros. constructor; auto. Qed.

Lemma same_sizes_inshell_store p i v r : same_sizes r (upd_rim (inshell_store p i v) r).
Proof.
  apply same_sizes_upd_rim; intros; try (destruct p; try destruct X; reflexivity).
  rewrite inshell_array_store. case_decide; [subst; apply length_insert | reflexivity].
Qed.

Lemma same_sizes_maxdrift_store md i v r : same_sizes r (upd_rim (maxdrift_store md i v) r).
Proof.
  apply same_sizes_upd_rim; intros; destruct md; try destruct X; try destruct p; reflexivity.
Qed.

Lemma same_sizes_wr2 X s i v r :
  same_sizes r (upd_rim (fun rim => set_rim_map X (wr2 (rim_map X rim) s i v) rim) r).
Proof.
  apply same_sizes_upd_rim; intros.
  - destruct X; reflexivity.
  - rewrite rim_map_set_map. case_decide; [subst; apply wr2_row_length | reflexivity].
  - now rewrite rim_shellN_set_map.
  - now rewrite inshell_array_set_map.
Qed.

Lemma same_sizes_count X s v r :
  same_sizes r (upd_rim (fun rim => set_rim_shellN X (<[s := v]> (rim_shellN X rim)) rim) r).
Proof.
  apply same_sizes_upd_rim; intros.
  - destruct X; reflexivity.
  - now rewrite rim_map_set_shellN.
  - rewrite rim_shellN_set_shellN. case_decide; [subst; apply length_insert | reflexivity].
  - now rewrite inshell_array_set_shellN.
Qed.

Lemma same_sizes_particles ps r : same_sizes r (set_r_particles ps r).
Proof. constructor; reflexivity. Qed.

Lemma same_sizes_collisions_N c r : same_sizes r (upd_rim (set_rim_collisions_N c) r).
Proof. apply same_sizes_upd_rim; intros; try destruct X; try destruct p; reflexivity. Qed.

Ltac sizes_step :=
  apply same_sizes_upd_rim; intros;
  repeat match goal with
         | X : role |- _ => destruct X
         | p : inshell_ptr |- _ => destruct p
         | md : maxdrift_ptr |- _ => destruct md
         end;
  cbn -[wr2 lookup_total insert]; rewrite ?wr2_row_length, ?length_insert; reflexivity.

Lemma predict_setup_sizes r :
  same_sizes r (predict_setup rim_ptr_inshell_encounter rim_ptr_inshell_dominant
                  rim_ptr_inshell_dominant r).
Proof.
  unfold predict_setup. cbv zeta.
  etransitivity; [|apply (for_loop_rel same_sizes); intros i s _; sizes_step].
  etransitivity; [|apply (for_loop_rel same_sizes); intros i s _; sizes_step].
  etransitivity; [|apply (for_loop_rel same_sizes); intros i s _; sizes_step].
  sizes_step.
Qed.

Lemma predict_maxdrift_sizes n dt shell r :
  same_sizes r (predict_maxdrift rim_ptr_inshell_encounter n dt shell r).
Proof.
  unfold predict_maxdrift. apply (for_loop_rel same_sizes). intros i s _.
  destruct (_ <? _)%float; [|reflexivity].
  apply (for_loop_rel same_sizes). intros j s' _.
  destruct (inshell_load _ _ _ <? shell); [|reflexivity].
  cbv zeta. destruct (_ <? _)%float.
  - etransitivity; [|apply same_sizes_particles].
    etransitivity;
      [|apply (for_loop_rel same_sizes); intros k s'' _; sizes_step].
    sizes_step.
  - sizes_step.
Qed.

Lemma predict_before_scans_sizes r dt shell :
  same_sizes r (predict_before_scans r dt shell).
Proof.
  unfold predict_before_scans. cbv zeta.
  set (r0 := upd_rim _ (upd_rim (set_rim_collisions_N 0) r)).
  assert (H0 : same_sizes r r0).
  { subst r0. etransitivity; [apply same_sizes_collisions_N|]. sizes_step. }
  etransitivity; [exact H0|].
  destruct (shell =? 0); [apply predict_setup_sizes | apply predict_maxdrift_sizes].
Qed.

Lemma rd2_wr2 (a : list (list nat)) s i v s' j :
  rd2 (wr2 a s i v) s' j
  = if decide (s = s' /\ i = j /\ i < length (a !!! s)) then v else rd2 a s' j.
Proof.
  unfold rd2, wr2. rewrite list_lookup_total_insert.
  destruct (decide (s = s' /\ s < length a)) as [[<- Hs]|Hn].
  - rewrite list_lookup_total_insert.
    destruct (decide (i = j /\ i < length (a !!! s))) as [[<- Hi]|Hn].
    + now rewrite decide_True by auto.
    + rewrite decide_False by tauto. reflexivity.
  - rewrite decide_False; [reflexivity|]. intros (<- & <- & Hi).
    apply Hn. split; auto. destruct (decide (s < length a)); auto.
    rewrite row_out_of_range in Hi by lia. simpl in Hi. lia.
Qed.

Lemma take_of_lookup (row : list nat) (n a : nat) :
  n <= length row -> (forall j, j < n -> row !!! j = a + j) -> take n row = seq a n.
Proof.
  intros Hn H. apply list_eq. intros j.
  destruct (decide (j < n)) as [Hj|Hj].
  - rewrite lookup_take_lt by auto.
    rewrite (list_lookup_lookup_total_lt row j) by lia.
    rewrite H by auto. symmetry. apply lookup_seq. auto.
  - rewrite lookup_take_ge by lia. symmetry. apply lookup_seq_ge. lia.
Qed.

(** The three loops of the setup, one after the other. *)
Lemma setup_fill_dominant (n : nat) (r : reb_simulation) :
  n <= length (rim_map_dominant (ri_mercurana r) !!! 0) ->
  let r' := for_loop 0 n (fun i r =>
              upd_rim (fun rim =>
                set_rim_map_dominant (wr2 (rim_map_dominant rim) 0 i i) rim) r) r in
  forall j, j < n -> rd2 (rim_map_dominant (ri_mercurana r')) 0 j = j.
Proof.
  intros Hn. cbv zeta.
  destruct (for_loop_each
    (fun s => n <= length (rim_map_dominant (ri_mercurana s) !!! 0))
    (fun j s => rd2 (rim_map_dominant (ri_mercurana s)) 0 j = j) 0 n
    (fun i r => upd_rim (fun rim =>
       set_rim_map_dominant (wr2 (rim_map_dominant rim) 0 i i) rim) r) r Hn)
    as (_ & _ & H).
  - intros i s Hi Hs. cbn [upd_rim ri_mercurana set_ri_mercurana rim_map_dominant
                           set_rim_map_dominant]. split.
    + now rewrite wr2_row_length.
    + rewrite rd2_wr2, decide_True; auto. repeat split; auto. lia.
  - intros i k s Hk Hs HQ. cbn [upd_rim ri_mercurana set_ri_mercurana rim_map_dominant
                                set_rim_map_dominant].
    rewrite rd2_wr2. case_decide as Hd; auto. destruct Hd as (_ & -> & _). reflexivity.
  - intros j Hj. apply H. lia.
Qed.

Lemma setup_fill_subdominant (n a : nat) (r : reb_simulation) :
  n <= length (rim_map_subdominant (ri_mercurana r) !!! 0) ->
  n <= length (rim_map_encounter (ri_mercurana r) !!! 0) ->
  let r' := for_loop 0 n (fun i r =>
              upd_rim (fun rim =>
                let rim := set_rim_map_subdominant
                             (wr2 (rim_map_subdominant rim) 0 i (a + i)) rim in
                set_rim_map_encounter
                  (wr2 (rim_map_encounter rim) 0 i (a + i)) rim) r) r in
  (forall j, j < n -> rd2 (rim_map_subdominant (ri_mercurana r')) 0 j = a + j
                      /\ rd2 (rim_map_encounter (ri_mercurana r')) 0 j = a + j)
  /\ rim_map_dominant (ri_mercurana r') = rim_map_dominant (ri_mercurana r).
Proof.
  intros Hs He. cbv zeta.
  destruct (for_loop_each
    (fun s => n <= length (rim_map_subdominant (ri_mercurana s) !!! 0)
              /\ n <= length (rim_map_encounter (ri_mercurana s) !!! 0)
              /\ rim_map_dominant (ri_mercurana s) = rim_map_dominant (ri_mercurana r))
    (fun j s => rd2 (rim_map_subdominant (ri_mercurana s)) 0 j = a + j
                /\ rd2 (rim_map_encounter (ri_mercurana s)) 0 j = a + j) 0 n
    (fun i r => upd_rim (fun rim =>
       let rim := set_rim_map_subdominant
                    (wr2 (rim_map_subdominant rim) 0 i (a + i)) rim in
       set_rim_map_encounter (wr2 (rim_map_encounter rim) 0 i (a + i)) rim) r) r)
    as ((_ & _ & Hd) & _ & H); auto.
  - intros i s Hi (H1 & H2 & H3).
    cbn [upd_rim ri_mercurana set_ri_mercurana rim_map_dominant rim_map_subdominant
         rim_map_encounter set_rim_map_subdominant set_rim_map_encounter].
    rewrite !wr2_row_length, !rd2_wr2, !decide_True by (repeat split; auto; lia). auto.
  - intros i k s Hk (H1 & H2 & H3) [HQ1 HQ2].
    cbn [upd_rim ri_mercurana set_ri_mercurana rim_map_dominant rim_map_subdominant
         rim_map_encounter set_rim_map_subdominant set_rim_map_encounter].
    rewrite !rd2_wr2. split; case_decide as Hd; auto; destruct Hd as (_ & -> & _); auto.
  - split; auto. intros j Hj. apply H. lia.
Qed.

Lemma setup_zero_inshell (n : nat) (v : float) (r : reb_simulation) :
  n <= length (rim_inshell_encounter (ri_mercurana r)) ->
  n <= length (rim_inshell_dominant (ri_mercurana r)) ->
  let r' := for_loop 0 n (fun i r =>
              upd_rim (fun rim =>
                let rim := maxdrift_store rim_ptr_maxdrift_dominant i v rim in
                let rim := maxdrift_store rim_ptr_maxdrift_encounter i v rim in
                let rim := inshell_store rim_ptr_inshell_encounter i 0 rim in
                let rim := inshell_store rim_ptr_inshell_dominant i 0 rim in
                inshell_store rim_ptr_inshell_dominant i 0 rim) r) r in
  (forall j, j < n -> rd (rim_inshell_encounter (ri_mercurana r')) j = 0
                      /\ rd (rim_inshell_dominant (ri_mercurana r')) j = 0)
  /\ (forall X, rim_map X (ri_mercurana r') = rim_map X (ri_mercurana r)).
Proof.
  intros He Hd. cbv zeta.
  destruct (for_loop_each
    (fun s => n <= length (rim_inshell_encounter (ri_mercurana s))
              /\ n <= length (rim_inshell_dominant (ri_mercurana s))
              /\ forall X, rim_map X (ri_mercurana s) = rim_map X (ri_mercurana r))
    (fun j s => rd (rim_inshell_encounter (ri_mercurana s)) j = 0
                /\ rd (rim_inshell_dominant (ri_mercurana s)) j = 0) 0 n
    (fun i r => upd_rim (fun rim =>
       let rim := maxdrift_store rim_ptr_maxdrift_dominant i v rim in
       let rim := maxdrift_store rim_ptr_maxdrift_encounter i v rim in
       let rim := inshell_store rim_ptr_inshell_encounter i 0 rim in
       let rim := inshell_store rim_ptr_inshell_dominant i 0 rim in
       inshell_store rim_ptr_inshell_dominant i 0 rim) r) r)
    as ((_ & _ & Hm) & _ & H); auto.
  - intros i s Hi (H1 & H2 & H3).
    cbn [upd_rim ri_mercurana set_ri_mercurana maxdrift_store inshell_store
         rim_inshell_encounter rim_inshell_dominant set_rim_inshell_encounter
         set_rim_inshell_dominant set_rim_maxdrift_dominant set_rim_maxdrift_encounter].
    rewrite !length_insert. unfold rd.
    rewrite !list_lookup_total_insert, !decide_True
      by (rewrite ?length_insert; split; auto; lia).
    repeat split; auto.
  - intros i k s Hk (H1 & H2 & H3) [HQ1 HQ2].
    cbn [upd_rim ri_mercurana set_ri_mercurana maxdrift_store inshell_store
         rim_inshell_encounter rim_inshell_dominant set_rim_inshell_encounter
         set_rim_inshell_dominant set_rim_maxdrift_dominant set_rim_maxdrift_encounter].
    unfold rd in *. rewrite !list_lookup_total_insert.
    split; repeat case_decide; auto.
  - split; auto. intros j Hj. apply H. lia.
Qed.

Lemma rd_insert_eq (l : list nat) k v : k < length l -> rd (<[k := v]> l) k = v.
Proof. intros H. unfold rd. now rewrite list_lookup_total_insert, decide_True by auto. Qed.

Ltac row_length S Hrows X :=
  let Hl := fresh in
  pose proof (ks_rows _ _ S X 0) as Hl; cbn [rim_map] in Hl; rewrite Hl;
  let Hr := fresh in
  pose proof (Hrows X) as Hr; cbn [rim_map] in Hr; lia.

(** The state the setup of shell 0 leaves: the maps of shell 0 list the
    dominant particles [0..Nd) and the others [Nd..N), and both inshell
    arrays hold 0 for every particle. *)
Lemma predict_setup_result (r : reb_simulation) :
  shell_sized r 0 ->
  let r' := predict_setup rim_ptr_inshell_encounter rim_ptr_inshell_dominant
              rim_ptr_inshell_dominant r in
  let N := r_N r in
  let Nd := rim_N_dominant (ri_mercurana r) in
  shell_members Dominant 0 r' = seq 0 Nd
  /\ shell_members Subdominant 0 r' = seq Nd (N - Nd)
  /\ shell_members Encounter 0 r' = seq Nd (N - Nd)
  /\ forall p j, p <> rim_ptr_inshell_subdominant -> j < N ->
       inshell_load p (ri_mercurana r') j = 0.
Proof.
  intros [Hrows _ HsN Hin Hdom]. cbv zeta.
  pose proof (predict_setup_shape rim_ptr_inshell_encounter rim_ptr_inshell_dominant
                rim_ptr_inshell_dominant r) as (_ & HcD & HcS & HcE & _).
  cbv zeta in *.
  unfold shell_members. cbn [rim_shellN rim_map]. rewrite HcD, HcS, HcE.
  pose proof (HsN Dominant) as HsD. pose proof (HsN Subdominant) as HsS.
  pose proof (HsN Encounter) as HsE. cbn [rim_shellN] in HsD, HsS, HsE.
  rewrite !rd_insert_eq by lia.
  clear HcD HcS HcE.
  unfold predict_setup. cbv zeta.
  set (ra := upd_rim _ r).
  assert (Sa : same_sizes r ra) by (subst ra; sizes_step).
  assert (Hnd : rd (rim_shellN_dominant (ri_mercurana ra)) 0
                = rim_N_dominant (ri_mercurana r)).
  { subst ra. cbn. apply rd_insert_eq. specialize (HsN Dominant). cbn in HsN. lia. }
  assert (Hns : rd (rim_shellN_subdominant (ri_mercurana ra)) 0
                = r_N r - rim_N_dominant (ri_mercurana r)).
  { subst ra. cbn. apply rd_insert_eq. specialize (HsN Subdominant). cbn in HsN. lia. }
  rewrite Hnd, Hns.
  set (Nd := rim_N_dominant (ri_mercurana r)) in *. set (N := r_N r) in *.
  set (r1 := for_loop 0 Nd _ ra).
  set (r2 := for_loop 0 (N - Nd) _ r1).
  set (r3 := for_loop 0 (r_N r2) _ r2).
  assert (S1 : same_sizes ra r1)
    by (apply (for_loop_rel same_sizes); intros i s _; sizes_step).
  assert (S2 : same_sizes r1 r2)
    by (apply (for_loop_rel same_sizes); intros i s _; sizes_step).
  assert (Sr1 : same_sizes r r1) by (transitivity ra; assumption).
  assert (Sr2 : same_sizes r r2) by (transitivity r1; assumption).
  pose proof (setup_fill_dominant Nd ra) as F1. cbv zeta in F1. fold r1 in F1.
  pose proof (setup_fill_subdominant (N - Nd) Nd r1) as F2. cbv zeta in F2. fold r2 in F2.
  pose proof (setup_zero_inshell (r_N r2) maxdrift_init r2) as F3. cbv zeta in F3.
  fold r3 in F3.
  destruct F3 as [Hz Hm3].
  { rewrite (ks_N _ _ Sr2).
    pose proof (ks_inshell _ _ Sr2 rim_ptr_inshell_encounter) as Hl.
    cbn [inshell_array] in Hl. rewrite Hl. apply (Hin rim_ptr_inshell_encounter). }
  { rewrite (ks_N _ _ Sr2).
    pose proof (ks_inshell _ _ Sr2 rim_ptr_inshell_dominant) as Hl.
    cbn [inshell_array] in Hl. rewrite Hl. apply (Hin rim_ptr_inshell_dominant). }
  destruct F2 as [Hse Hm2].
  { row_length Sr1 Hrows Subdominant. }
  { row_length Sr1 Hrows Encounter. }
  assert (Hd : forall j, j < Nd -> rd2 (rim_map_dominant (ri_mercurana r1)) 0 j = j).
  { apply F1. row_length Sa Hrows Dominant. }
  pose proof (ks_rows _ _ Sr2) as Hl2.
  pose proof (Hm3 Dominant) as HD. pose proof (Hm3 Subdominant) as HS.
  pose proof (Hm3 Encounter) as HE. cbn [rim_map] in HD, HS, HE. rewrite HD, HS, HE.
  repeat apply conj.
  - rewrite Hm2. apply take_of_lookup.
    + row_length Sr1 Hrows Dominant.
    + intros j Hj. apply (Hd j Hj).
  - apply take_of_lookup.
    + row_length Sr2 Hrows Subdominant.
    + intros j Hj. apply (Hse j Hj).
  - apply take_of_lookup.
    + row_length Sr2 Hrows Encounter.
    + intros j Hj. apply (Hse j Hj).
  - intros p j Hp Hj. rewrite (ks_N _ _ Sr2) in Hz. fold N in Hz.
    destruct p; try congruence; cbn [inshell_load]; apply Hz; auto.
Qed.

Lemma shell_sized_same_sizes r r' shell :
  same_sizes r r' -> shell_sized r shell -> shell_sized r' shell.
Proof.
  intros [HN HNd Hr Hs Hi] [H1 H2 H3 H4 H5].
  constructor; intros; rewrite ?HN, ?HNd, ?Hr, ?Hs, ?Hi; auto.
Qed.

Lemma shell_sized_allocated r : shell_sized r 0 -> shell_allocated r 0.
Proof. intros [H1 H2 H3 H4 H5]. constructor; auto. intros H. now contradict H. Qed.

Lemma predict_setup_particles ie id isd r :
  r_particles (predict_setup ie id isd r) = r_particles r.
Proof.
  unfold predict_setup. cbv zeta.
  repeat (apply (for_loop_ind (fun s => r_particles s = r_particles r)); [|intros; assumption]).
  reflexivity.
Qed.

Lemma predict_before_scans_zero r dt :
  predict_before_scans r dt 0
  = predict_setup rim_ptr_inshell_encounter rim_ptr_inshell_dominant
      rim_ptr_inshell_dominant (predict_resets r 0).
Proof. reflexivity. Qed.

Lemma predict_resets_sizes r shell : same_sizes r (predict_resets r shell).
Proof.
  unfold predict_resets. cbv zeta.
  etransitivity; [apply same_sizes_collisions_N|]. sizes_step.
Qed.

Lemma predict_resets_particles r shell :
  r_particles (predict_resets r shell) = r_particles r.
Proof. reflexivity. Qed.

(** The state in which the scans of shell 0 start. *)
Lemma bootstrap_state (r : reb_simulation) (dt : float) :
  shell_sized r 0 ->
  let r1 := predict_before_scans r dt 0 in
  (forall X, rd (rim_shellN X (ri_mercurana r1)) 0 = bootstrap_count X r
             /\ shell_members X 0 r1 = seq (bootstrap_first X r) (bootstrap_count X r))
  /\ (forall p j, p <> rim_ptr_inshell_subdominant -> j < r_N r ->
        inshell_load p (ri_mercurana r1) j = 0)
  /\ r_particles r1 = r_particles r
  /\ same_sizes r r1.
Proof.
  intros Hs. cbv zeta.
  rewrite predict_before_scans_zero.
  pose proof (predict_resets_sizes r 0) as H0.
  pose proof (predict_resets_particles r 0) as Hp0.
  revert H0 Hp0. generalize (predict_resets r 0). intros r0 H0 Hp0.
  pose proof (shell_sized_same_sizes _ _ _ H0 Hs) as Hs0.
  pose proof (predict_setup_result r0 Hs0) as Hres. cbv zeta in Hres.
  destruct Hres as (HD & HS & HE & Hz).
  pose proof (predict_setup_shape rim_ptr_inshell_encounter rim_ptr_inshell_dominant
                rim_ptr_inshell_dominant r0) as Hsh.
  cbv zeta in Hsh. destruct Hsh as (_ & HcD & HcS & HcE & _).
  pose proof (ks_N _ _ H0) as HN0. pose proof (ks_N_dominant _ _ H0) as HNd0.
  destruct Hs0 as [_ _ HsN _ _].
  pose proof (HsN Dominant) as HsD. pose proof (HsN Subdominant) as HsS.
  pose proof (HsN Encounter) as HsE. cbn [rim_shellN] in HsD, HsS, HsE.
  repeat apply conj.
  - intros []; cbn [rim_shellN bootstrap_first bootstrap_count]; split;
      rewrite ?HcD, ?HcS, ?HcE, ?HD, ?HS, ?HE, <- ?HN0, <- ?HNd0; try reflexivity;
      apply rd_insert_eq; lia.
  - intros p j Hp Hj. apply Hz; auto. rewrite HN0. exact Hj.
  - rewrite predict_setup_particles. exact Hp0.
  - etransitivity; [exact H0|]. apply predict_setup_sizes.
Qed.

Lemma lookup_of_take (row : list nat) (n a i : nat) :
  take n row = seq a n -> i < n -> row !!! i = a + i.
Proof.
  intros H Hi.
  assert (Hl : take n row !! i = Some (a + i)) by (rewrite H; now apply lookup_seq).
  rewrite lookup_take_lt in Hl by auto.
  now apply list_lookup_total_correct.
Qed.

Lemma bootstrap_within X r : 
  rim_N_dominant (ri_mercurana r) <= r_N r ->
  forall i, i < bootstrap_count X r -> bootstrap_first X r + i < r_N r.
Proof. destruct X; cbn [bootstrap_first bootstrap_count]; lia. Qed.

(** The scans of shell 0 keep the invariant of the promotions. *)
Lemma predict_scan_zero (r : reb_simulation) (dt : float) :
  shell_sized r 0 ->
  let r1 := predict_before_scans r dt 0 in
  let r' := predict_scan r dt 0 in
  promoted_inv 0 (r_N r) (fun X => rim_map X (ri_mercurana r1) !!! 0) (fun _ _ => 0)
    (ri_mercurana r')
  /\ scan_keeps 0 r1 r'.
Proof.
  intros Hs. cbv zeta.
  destruct (bootstrap_state r dt Hs) as (Hm & Hz & Hp & Hsz). cbv zeta in *.
  destruct (before_scans_facts r dt 0 (shell_sized_allocated r Hs)) as (Hnext & _).
  pose proof (shell_sized_same_sizes _ _ _ Hsz Hs) as [Hr1 Hn1 HsN1 Hi1 Hd1].
  rewrite predict_scan_unfold. cbv zeta.
  assert (Hsc : forall X, scanned X r dt 0 = bootstrap_count X r).
  { intros X. unfold scanned. cbn [Nat.eqb]. apply Hm. }
  rewrite !Hsc.
  set (r1 := predict_before_scans r dt 0) in *.
  set (rows := fun X => rim_map X (ri_mercurana r1) !!! 0).
  assert (Hrow : forall X i, i < bootstrap_count X r -> rows X !!! i < r_N r).
  { intros X i Hi. destruct (Hm X) as [Hc Hmem]. unfold shell_members in Hmem.
    rewrite Hc in Hmem. subst rows. cbv beta.
    rewrite (lookup_of_take _ _ _ _ Hmem Hi).
    apply bootstrap_within; auto. destruct Hs; auto. }
  assert (H1 : promoted_inv 0 (r_N r) rows (fun _ _ => 0) (ri_mercurana r1)).
  { assert (Hnil : forall X, members X (0 + 1) (ri_mercurana r1) = []).
    { intros X. unfold members. rewrite (Hnext X). reflexivity. }
    constructor.
    - reflexivity.
    - intros []; cbn [marked]; rewrite ?Hnil; constructor.
    - intros X x. rewrite Hnil. intros Hx. now apply elem_of_nil in Hx.
    - intros p x Hp' Hx. rewrite (Hz p x Hp' Hx).
      rewrite bool_decide_eq_false_2; [reflexivity|].
      destruct p; cbn [marked]; rewrite ?Hnil; cbn [app]; apply not_elem_of_nil.
    - intros X. rewrite (Hnext X). lia.
    - intros p _. rewrite (ks_N _ _ Hsz) in Hi1. apply Hi1.
    - intros X. rewrite (ks_N _ _ Hsz) in Hn1. apply Hn1.
    - intros X. apply HsN1. }
  set (r2 := pair_scan _ _ Dominant Dominant _ _ _ _ _ dt 0 r1).
  set (r3 := pair_scan _ _ Dominant Subdominant _ _ _ _ _ dt 0 r2).
  split.
  - change rim_ptr_inshell_encounter with (inshell_of Encounter).
    apply pair_scan_keeps_inv; auto.
    subst r3. change rim_ptr_inshell_dominant with (inshell_of Dominant) at 1.
    change rim_ptr_inshell_dominant with (inshell_of Subdominant) at 1.
    apply pair_scan_keeps_inv; auto.
    subst r2. change rim_ptr_inshell_dominant with (inshell_of Dominant).
    apply pair_scan_keeps_inv; auto.
  - etransitivity; [|apply pair_scan_keeps].
    etransitivity; [|apply pair_scan_keeps]. apply pair_scan_keeps.
Qed.

(** Without a recorded collision, predict below the deepest shell is its
    scans: the resolver is not called and predict does not re-enter. *)
Lemma predict_is_scan search fuel r dt shell :
  shell + 1 < rim_Nmaxshells (ri_mercurana r) ->
  r_collision r <> REB_COLLISION_DIRECT ->
  shell_allocated r shell ->
  reb_mercurana_encounter_predict search fuel r dt shell = Some (predict_scan r dt shell).
Proof.
  intros Hsub Hc Ha. apply predict_no_collision; auto.
  now apply predict_scan_no_collision.
Qed.

(** What the scans of shell 0 leave, in the terms of the state they start
    from. *)
Lemma predict_scan_zero_result (r : reb_simulation) (dt : float) :
  shell_sized r 0 ->
  let r' := predict_scan r dt 0 in
  (forall X, rd (rim_shellN X (ri_mercurana r')) 0 = bootstrap_count X r
             /\ shell_members X 0 r' = seq (bootstrap_first X r) (bootstrap_count X r))
  /\ NoDup (shell_members Encounter 1 r')
  /\ NoDup (shell_members Dominant 1 r' ++ shell_members Subdominant 1 r')
  /\ (forall X x, x ∈ shell_members X 1 r' -> x < r_N r)
  /\ (forall x, x < r_N r ->
        inshell_load rim_ptr_inshell_encounter (ri_mercurana r') x
        = if bool_decide (x ∈ shell_members Encounter 1 r') then 1 else 0)
  /\ (forall x, x < r_N r ->
        inshell_load rim_ptr_inshell_dominant (ri_mercurana r') x
        = if bool_decide (x ∈ shell_members Dominant 1 r' ++ shell_members Subdominant 1 r')
          then 1 else 0)
  /\ r_particles r' = r_particles r
  /\ rim_t_drifted (ri_mercurana r') = rim_t_drifted (ri_mercurana r)
  /\ (forall X, length (rim_map X (ri_mercurana r') !!! 0)
                = length (rim_map X (ri_mercurana r) !!! 0))
  /\ (forall X x, x ∈ shell_members X 1 r' -> x ∈ shell_members X 0 r').
Proof.
  intros Hs. cbv zeta.
  pose proof (fun X x => predict_scan_nested r dt 0 X x (shell_sized_allocated r Hs))
    as Hnest.
  change (0 + 1) with 1 in Hnest. revert Hnest.
  destruct (bootstrap_state r dt Hs) as (Hm & Hz & Hp & Hsz). cbv zeta in Hm, Hz, Hp, Hsz.
  destruct (predict_scan_zero r dt Hs) as (Hinv & Hk). cbv zeta in Hinv, Hk.
  pose proof (fr_t_drifted _ _ (predict_scan_frame r dt 0)) as Ht.
  revert Hinv Hk Ht. generalize (predict_scan r dt 0). intros r' Hinv Hk Ht Hnest.
  revert Hm Hz Hp Hsz Hinv Hk. generalize (predict_before_scans r dt 0).
  intros r1 Hm Hz Hp Hsz Hinv Hk.
  destruct Hinv as [Hrows Hnd Hb Hin _ _ _ _]. destruct Hk as [Hcnt _ _ Hpart Hrw].
  change (0 + 1) with 1 in Hnd, Hb, Hin.
  pose proof (Hnd rim_ptr_inshell_encounter) as HndE.
  pose proof (Hnd rim_ptr_inshell_dominant) as HndD.
  assert (HinE := fun x => Hin rim_ptr_inshell_encounter x ltac:(discriminate)).
  assert (HinD := fun x => Hin rim_ptr_inshell_dominant x ltac:(discriminate)).
  cbn [marked] in HndE, HndD, HinE, HinD.
  repeat apply conj.
  - intros X. destruct (Hm X) as [Hc Hmem]. unfold shell_members in *.
    rewrite Hcnt, Hrw. auto.
  - exact HndE.
  - exact HndD.
  - intros X x. apply Hb.
  - exact HinE.
  - exact HinD.
  - now rewrite Hpart.
  - exact Ht.
  - intros X. rewrite Hrw. apply (ks_rows _ _ Hsz).
  - exact Hnest.
Qed.

(** X7: predict at shell 0 of a simulation whose arrays have room for its N
    particles, in a run that records no collision, sets up the maps of shell
    0 from scratch: map_dominant[0] lists the particles 0..N_dominant-1, and
    map_subdominant[0] and map_encounter[0] both list the particles
    N_dominant..N-1, each in increasing order, whatever the maps held. *)
Theorem predict_fills_outermost_maps search fuel (r : reb_simulation) (dt : float) :
  1 < rim_Nmaxshells (ri_mercurana r) ->
  r_collision r <> REB_COLLISION_DIRECT ->
  shell_sized r 0 ->
  exists r',
    reb_mercurana_encounter_predict search fuel r dt 0 = Some r'
    /\ shell_members Dominant 0 r' = seq 0 (rim_N_dominant (ri_mercurana r))
    /\ shell_members Subdominant 0 r'
       = seq (rim_N_dominant (ri_mercurana r)) (r_N r - rim_N_dominant (ri_mercurana r))
    /\ shell_members Encounter 0 r'
       = seq (rim_N_dominant (ri_mercurana r)) (r_N r - rim_N_dominant (ri_mercurana r)).
Proof.
  intros Hsub Hc Hs. exists (predict_scan r dt 0). split.
  - apply predict_is_scan; auto. now apply shell_sized_allocated.
  - destruct (predict_scan_zero_result r dt Hs) as (Hm & _). cbv zeta in Hm.
    repeat split; apply Hm.
Qed.

Lemma sim_three_sized : shell_sized sim_three 0.
Proof. constructor; try intros []; vm_compute; lia. Qed.

Lemma predict_fills_outermost_maps_witness :
  exists r',
    reb_mercurana_encounter_predict (fun s => s) 0 sim_three 1%float 0 = Some r'
    /\ shell_members Dominant 0 r' = seq 0 (rim_N_dominant (ri_mercurana sim_three))
    /\ shell_members Subdominant 0 r'
       = seq (rim_N_dominant (ri_mercurana sim_three))
           (r_N sim_three - rim_N_dominant (ri_mercurana sim_three))
    /\ shell_members Encounter 0 r'
       = seq (rim_N_dominant (ri_mercurana sim_three))
           (r_N sim_three - rim_N_dominant (ri_mercurana sim_three)).
Proof.
  apply predict_fills_outermost_maps.
  - vm_compute; lia.
  - discriminate.
  - exact sim_three_sized.
Defined.

(** X8: after predict at shell 0, under the same conditions, the maps of shell
    1 list no particle twice: map_encounter[1] has no duplicate, and neither
    has map_dominant[1] followed by map_subdominant[1], so no particle is in
    shell 1 both as dominant and as subdominant.  Every listed particle is
    one of the N, and a particle is listed exactly when its inshell cell is
    1: inshell_encounter for map_encounter[1], inshell_dominant for the other
    two maps; the cells of all other particles are 0. *)
Theorem predict_promotes_once search fuel (r : reb_simulation) (dt : float) :
  1 < rim_Nmaxshells (ri_mercurana r) ->
  r_collision r <> REB_COLLISION_DIRECT ->
  shell_sized r 0 ->
  exists r',
    reb_mercurana_encounter_predict search fuel r dt 0 = Some r'
    /\ NoDup (shell_members Encounter 1 r')
    /\ NoDup (shell_members Dominant 1 r' ++ shell_members Subdominant 1 r')
    /\ (forall X x, x ∈ shell_members X 1 r' -> x < r_N r)
    /\ forall x, x < r_N r ->
         inshell_load rim_ptr_inshell_encounter (ri_mercurana r') x
         = (if bool_decide (x ∈ shell_members Encounter 1 r') then 1 else 0)
         /\ inshell_load rim_ptr_inshell_dominant (ri_mercurana r') x
            = (if bool_decide (x ∈ shell_members Dominant 1 r'
                                   ++ shell_members Subdominant 1 r')
               then 1 else 0).
Proof.
  intros Hsub Hc Hs. exists (predict_scan r dt 0). split.
  - apply predict_is_scan; auto. now apply shell_sized_allocated.
  - destruct (predict_scan_zero_result r dt Hs) as (_ & HndE & HndD & Hb & HinE & HinD & _).
    cbv zeta in HndE, HndD, Hb, HinE, HinD. repeat apply conj; auto.
Qed.

Lemma predict_promotes_once_witness :
  exists r',
    reb_mercurana_encounter_predict (fun s => s) 0 sim_three 1%float 0 = Some r'
    /\ NoDup (shell_members Encounter 1 r')
    /\ NoDup (shell_members Dominant 1 r' ++ shell_members Subdominant 1 r')
    /\ (forall X x, x ∈ shell_members X 1 r' -> x < r_N sim_three)
    /\ forall x, x < r_N sim_three ->
         inshell_load rim_ptr_inshell_encounter (ri_mercurana r') x
         = (if bool_decide (x ∈ shell_members Encounter 1 r') then 1 else 0)
         /\ inshell_load rim_ptr_inshell_dominant (ri_mercurana r') x
            = (if bool_decide (x ∈ shell_members Dominant 1 r'
                                   ++ shell_members Subdominant 1 r')
               then 1 else 0).
Proof.
  apply predict_promotes_once.
  - vm_compute; lia.
  - discriminate.
  - exact sim_three_sized.
Defined.

(** The drift of shell 0 on the state the scans of shell 0 leave. *)
Lemma drift_after_scan_zero (a : float) (r : reb_simulation) (dt : float) (k : nat) :
  shell_sized r 0 ->
  r_N r <= length (r_particles r) ->
  r_N r <= length (rim_t_drifted (ri_mercurana r)) ->
  k < r_N r ->
  let r' := predict_scan r dt 0 in
  cell (drift_step_advance a 0 r') k
  = if bool_decide (k ∈ shell_members Dominant 1 r' ++ shell_members Subdominant 1 r'
                        ++ shell_members Encounter 1 r')
    then cell r' k else cell_advanced a (cell r' k).
Proof.
  intros Hs HlenP HlenT Hk. cbv zeta.
  destruct (predict_scan_zero_result r dt Hs)
    as (Hm & _ & _ & _ & HinE & HinD & Hp & Ht & Hlen & Hnest).
  cbv zeta in Hm, HinE, HinD, Hp, Ht, Hlen, Hnest.
  revert Hm HinE HinD Hp Ht Hlen Hnest. generalize (predict_scan r dt 0).
  intros r' Hm HinE HinD Hp Ht Hlen Hnest.
  pose proof (sz_dominant _ _ Hs) as Hd.
  assert (Hwf : maps_wf r' 0).
  { constructor.
    - intros X. destruct (Hm X) as [-> _]. rewrite Hlen.
      pose proof (sz_rows _ _ Hs X). destruct X; cbn [bootstrap_count]; lia.
    - intros X. destruct (Hm X) as [Hc Hmem]. apply NoDup_once_listed.
      + rewrite Hc, Hlen. pose proof (sz_rows _ _ Hs X).
        destruct X; cbn [bootstrap_count]; lia.
      + unfold shell_members in Hmem. rewrite Hmem. apply NoDup_seq.
    - intros m. destruct (Hm Dominant) as [_ ->]. destruct (Hm Subdominant) as [_ ->].
      cbn [bootstrap_first bootstrap_count]. rewrite !elem_of_seq. lia. }
  rewrite (drift_step_advance_cell a 0 r' k Hwf) by (rewrite ?Hp, ?Ht; lia).
  unfold advanced_in. cbn [advances].
  unfold advances_dominant, advances_subdominant, advances_encounter.
  rewrite (HinE k Hk), (HinD k Hk).
  assert (HE : k ∈ shell_members Encounter 1 r' ->
               rim_N_dominant (ri_mercurana r) <= k).
  { intros H. apply Hnest in H. destruct (Hm Encounter) as [_ HmE]. rewrite HmE in H.
    cbn [bootstrap_first bootstrap_count] in H. apply elem_of_seq in H. lia. }
  destruct (Hm Dominant) as [_ ->]. destruct (Hm Subdominant) as [_ ->].
  destruct (Hm Encounter) as [_ ->]. cbn [bootstrap_first bootstrap_count].
  rewrite (bool_decide_ext _ _ (elem_of_seq 0 (rim_N_dominant (ri_mercurana r)) k)).
  rewrite (bool_decide_ext _ _
             (elem_of_seq (rim_N_dominant (ri_mercurana r))
                (r_N r - rim_N_dominant (ri_mercurana r)) k)).
  rewrite (bool_decide_ext
             (k ∈ shell_members Dominant 1 r' ++ shell_members Subdominant 1 r'
                  ++ shell_members Encounter 1 r')
             (k ∈ shell_members Dominant 1 r' ++ shell_members Subdominant 1 r'
              \/ k ∈ shell_members Encounter 1 r'))
    by (rewrite app_assoc; apply elem_of_app).
  rewrite bool_decide_or.
  destruct (bool_decide (k ∈ shell_members Encounter 1 r')) eqn:EE;
    [apply bool_decide_eq_true_1 in EE; apply HE in EE|];
    destruct (bool_decide (k ∈ shell_members Dominant 1 r'
                               ++ shell_members Subdominant 1 r'));
    repeat case_bool_decide; cbn; try reflexivity; lia.
Qed.

(** X9: the drift step of shell 0 first runs predict and then its three
    loops.  On a simulation whose arrays have room for its N particles, in a
    run that records no collision, the loops move exactly the particles that
    predict has not put into shell 1: such a particle is advanced once, by
    a*v and with a added to its t_drifted, and a particle listed in one of
    the three maps of shell 1 is left as it is, for the sub-shell to move.
    t_drifted is an array of its own here, apart from the maxdrift arrays. *)
Theorem drift_after_predict_moves_unpromoted search fuel (r : reb_simulation)
    (a : float) (k : nat) :
  1 < rim_Nmaxshells (ri_mercurana r) ->
  r_collision r <> REB_COLLISION_DIRECT ->
  shell_sized r 0 ->
  r_N r <= length (r_particles r) ->
  r_N r <= length (rim_t_drifted (ri_mercurana r)) ->
  k < r_N r ->
  exists r',
    reb_mercurana_encounter_predict search fuel r a 0 = Some r'
    /\ cell (drift_step_advance a 0 r') k
       = if bool_decide (k ∈ shell_members Dominant 1 r' ++ shell_members Subdominant 1 r'
                             ++ shell_members Encounter 1 r')
         then cell r' k else cell_advanced a (cell r' k).
Proof.
  intros Hsub Hc Hs HlenP HlenT Hk. exists (predict_scan r a 0). split.
  - apply predict_is_scan; auto. now apply shell_sized_allocated.
  - now apply drift_after_scan_zero.
Qed.

Lemma drift_after_predict_moves_unpromoted_witness :
  exists r',
    reb_mercurana_encounter_predict (fun s => s) 0 sim_three 1%float 0 = Some r'
    /\ cell (drift_step_advance 1%float 0 r') 2
       = if bool_decide (2 ∈ shell_members Dominant 1 r' ++ shell_members Subdominant 1 r'
                             ++ shell_members Encounter 1 r')
         then cell r' 2 else cell_advanced 1%float (cell r' 2).
Proof.
  apply drift_after_predict_moves_unpromoted.
  - vm_compute; lia.
  - discriminate.
  - exact sim_three_sized.
  - vm_compute; lia.
  - vm_compute; lia.
  - vm_compute; lia.
Defined.

(** *** The entry points *)

Section EntryPoints.
Variable reb_collision_search : reb_simulation -> reb_simulation.
Variable reb_update_acceleration : reb_simulation -> reb_simulation.
Variable reb_calculate_and_apply_jerk : reb_simulation -> float -> reb_simulation.
Variable reb_sigint : bool.
Variable reb_integrator_eos_preprocessor :
reb_simulation -> float -> nat -> REB_EOS_TYPE -> drift_fn -> interaction_fn
-> option reb_simulation.
Variable reb_integrator_eos_step :
reb_simulation -> float -> float -> float -> nat -> REB_EOS_TYPE
-> drift_fn -> interaction_fn -> option reb_simulation.
Variable reb_integrator_eos_postprocessor :
reb_simulation -> float -> nat -> REB_EOS_TYPE -> drift_fn -> interaction_fn
-> option reb_simulation.
Variable exp : float -> float.
Variable pow : float -> float -> float.
Variable reb_eos_lf4_a : float.
Variable reb_eos_lf6_a : list float.
Variable reb_eos_lf8_a : list float.
Variable reb_eos_lf4_2_a : float.
Variable reb_eos_pmlf6_a : list float.
Variable reb_eos_plf7_6_4_a : list float.

Local Abbreviation part1 :=
(reb_integrator_mercurana_part1 reb_collision_search reb_update_acceleration
   reb_calculate_and_apply_jerk reb_sigint reb_integrator_eos_preprocessor
   reb_integrator_eos_step reb_integrator_eos_postprocessor exp pow
   reb_eos_lf4_a reb_eos_lf6_a reb_eos_lf8_a reb_eos_lf4_2_a reb_eos_pmlf6_a
   reb_eos_plf7_6_4_a).
Local Abbreviation part2 :=
(reb_integrator_mercurana_part2 reb_collision_search reb_update_acceleration
   reb_calculate_and_apply_jerk reb_sigint reb_integrator_eos_preprocessor
   reb_integrator_eos_step reb_integrator_eos_postprocessor exp).
Local Abbreviation synchronize :=
(reb_integrator_mercurana_synchronize reb_collision_search reb_update_acceleration
   reb_calculate_and_apply_jerk reb_sigint reb_integrator_eos_preprocessor
   reb_integrator_eos_step reb_integrator_eos_postprocessor exp).

(** X10: synchronize is idempotent.  Whatever it returns is marked as
  synchronized, and a second call, with any fuel, returns that state as it
  is, without calling the driver's post-processor again. *)
Theorem synchronize_idempotent (fuel fuel' : nat) (r r' : reb_simulation) :
synchronize fuel r = Some r' ->
rim_is_synchronized (ri_mercurana r') <> 0
/\ synchronize fuel' r' = Some r'.
Proof.
unfold reb_integrator_mercurana_synchronize.
destruct (rim_is_synchronized (ri_mercurana r) =? 0) eqn:E.
- destruct (reb_integrator_eos_postprocessor _ _ _ _ _ _) as [r1|]; [|discriminate].
  intros [= <-]. split; [cbn; lia | reflexivity].
- intros [= <-]. rewrite E. apply Nat.eqb_neq in E. auto.
Qed.

(** The recalculation of the critical radii writes [rim->dcrit] only, and
  keeps the lengths of its rows. *)
Lemma dcrit_row_lengths r dt0 dt_shell s (d : list (list float)) s' :
length (dcrit_row pow r dt0 dt_shell s d !!! s') = length (d !!! s').
Proof.
unfold dcrit_row. cbv zeta.
apply (for_loop_ind (fun d' => length (d' !!! s') = length (d !!! s')));
  [reflexivity|].
intros i d' _ IH.
destruct (negb _); rewrite wr2_row_length; exact IH.
Qed.

Lemma recalculate_dcrit_writes_dcrit r :
exists d,
  recalculate_dcrit pow reb_eos_lf4_a reb_eos_lf6_a reb_eos_lf8_a reb_eos_lf4_2_a
    reb_eos_pmlf6_a reb_eos_plf7_6_4_a r
  = upd_rim (set_rim_dcrit d) r
  /\ forall s, length (d !!! s) = length (rim_dcrit (ri_mercurana r) !!! s).
Proof.
unfold recalculate_dcrit. cbv zeta.
match goal with
| |- context [for_loop 0 ?n ?body ?init] =>
    assert (H : forall s, length (fst (for_loop 0 n body init) !!! s)
                          = length (rim_dcrit (ri_mercurana r) !!! s))
end.
{ intros s.
  apply (for_loop_ind (fun st => length (fst st !!! s)
                                 = length (rim_dcrit (ri_mercurana r) !!! s)));
    [reflexivity|].
  intros i [d dts] _ IH. cbn [fst] in *. rewrite dcrit_row_lengths. exact IH. }
destruct (for_loop _ _ _ _) as [d dts]. exists d. split; [reflexivity|exact H].
Qed.

(** What the allocation block of part1 leaves. *)
Lemma part1_allocate_result (r : reb_simulation) :
let r1 := part1_allocate r in
let N := r_N r in
let S := rim_Nmaxshells (ri_mercurana r) in
(r_N r1 = N /\ r_particles r1 = r_particles r /\ r_collision r1 = r_collision r
 /\ r_gravity r1 = r_gravity r /\ r_messages r1 = r_messages r)
/\ (rim_Nmaxshells (ri_mercurana r1) = S
    /\ rim_N_dominant (ri_mercurana r1) = rim_N_dominant (ri_mercurana r)
    /\ rim_is_synchronized (ri_mercurana r1) = rim_is_synchronized (ri_mercurana r)
    /\ rim_L (ri_mercurana r1) = rim_L (ri_mercurana r)
    /\ rim_allocatedN (ri_mercurana r1) = N
    /\ rim_recalculate_dcrit_this_timestep (ri_mercurana r1) = 1)
/\ (forall X s, s < S -> length (rim_map X (ri_mercurana r1) !!! s) = N)
/\ (forall s, s < S -> length (rim_dcrit (ri_mercurana r1) !!! s) = N)
/\ (forall X, length (rim_shellN X (ri_mercurana r1)) = S)
/\ (forall p, length (inshell_array p (ri_mercurana r1)) = N)
/\ length (rim_t_drifted (ri_mercurana r1)) = N
/\ length (rim_maxdrift_encounter (ri_mercurana r1)) = N
/\ length (rim_maxdrift_dominant (ri_mercurana r1)) = N
/\ length (rim_p0 (ri_mercurana r1)) = N.
Proof.
cbv zeta. destruct r as [N ps G dt t dtl vc c g cs ca ms rim].
unfold part1_allocate.
cbn [upd_rim set_ri_mercurana ri_mercurana r_N r_particles r_collision r_gravity
     r_messages].
split; [repeat split|]. split; [repeat split|].
repeat apply conj.
- intros X s Hs. destruct X; cbn [rim_map]; 
    [change (length (replicate (rim_Nmaxshells rim) (replicate N 0) !!! s) = N)..];
    rewrite list_lookup_total_alt, lookup_replicate_2 by auto;
    apply length_replicate.
- intros s Hs.
  change (length (replicate (rim_Nmaxshells rim) (replicate N 0%float) !!! s) = N).
  rewrite list_lookup_total_alt, lookup_replicate_2 by auto.
  apply length_replicate.
- intros []; apply length_resize.
- intros []; apply length_resize.
- apply length_resize.
- apply length_resize.
- apply length_resize.
- apply length_resize.
Qed.

(** The first call of part1 on a valid configuration. *)
Lemma part1_first_call (fuel : nat) (r : reb_simulation) :
~ invalid_config (ri_mercurana r) ->
rim_is_synchronized (ri_mercurana r) <> 0 ->
rim_allocatedN (ri_mercurana r) < r_N r ->
exists r',
  part1 fuel r = Some r'
  /\ r_N r' = r_N r
  /\ r_particles r' = r_particles r
  /\ rim_Nmaxshells (ri_mercurana r') = rim_Nmaxshells (ri_mercurana r)
  /\ rim_N_dominant (ri_mercurana r') = rim_N_dominant (ri_mercurana r)
  /\ rim_allocatedN (ri_mercurana r') = r_N r
  /\ rim_recalculate_dcrit_this_timestep (ri_mercurana r') = 0
  /\ r_gravity r' = REB_GRAVITY_NONE
  /\ rim_L (ri_mercurana r') <> None
  /\ (forall X s, s < rim_Nmaxshells (ri_mercurana r) ->
        length (rim_map X (ri_mercurana r') !!! s) = r_N r)
  /\ (forall s, s < rim_Nmaxshells (ri_mercurana r) ->
        length (rim_dcrit (ri_mercurana r') !!! s) = r_N r)
  /\ (forall X, length (rim_shellN X (ri_mercurana r'))
                = rim_Nmaxshells (ri_mercurana r))
  /\ (forall p, length (inshell_array p (ri_mercurana r')) = r_N r)
  /\ length (rim_t_drifted (ri_mercurana r')) = r_N r
  /\ length (rim_maxdrift_encounter (ri_mercurana r')) = r_N r
  /\ length (rim_maxdrift_dominant (ri_mercurana r')) = r_N r
  /\ length (rim_p0 (ri_mercurana r')) = r_N r
  /\ (rim_N_dominant (ri_mercurana r) <= r_N r ->
      forall s, s + 1 < rim_Nmaxshells (ri_mercurana r) -> shell_sized r' s).
Proof.
intros Hvalid Hsync Halloc.
assert (Hcfg : part1_config_error (ri_mercurana r) = None).
{ destruct (part1_config_error (ri_mercurana r)) as [msg|] eqn:E; [|reflexivity].
  exfalso. apply Hvalid. apply invalid_config_error. eauto. }
unfold reb_integrator_mercurana_part1.
set (r0 := if negb (r_var_config_N r =? 0) then _ else r).
assert (H0 : ri_mercurana r0 = ri_mercurana r /\ r_N r0 = r_N r
             /\ r_particles r0 = r_particles r).
{ subst r0. destruct (negb _); repeat split. }
destruct H0 as (Hri & HN & Hp). clearbody r0.
rewrite Hri, Hcfg, HN. apply Nat.ltb_lt in Halloc as Hlt. rewrite Hlt.
pose proof (part1_allocate_result r0) as Hres. cbv zeta in Hres.
rewrite Hri, HN, Hp in Hres. revert Hres. generalize (part1_allocate r0).
intros r1 ((HN1 & Hp1 & _) & (HS1 & HNd1 & Hsy1 & HL1 & Ha1 & Hf1)
           & Hmaps & Hdc & HsN & Hin & Ht & Hme & Hmd & Hp0).
rewrite Hf1. cbn [Nat.eqb negb].
change (rim_is_synchronized
          (ri_mercurana (upd_rim (set_rim_recalculate_dcrit_this_timestep 0) r1)))
  with (rim_is_synchronized (ri_mercurana r1)).
rewrite Hsy1. apply Nat.eqb_neq in Hsync as Hne. rewrite Hne.
destruct (recalculate_dcrit_writes_dcrit
            (upd_rim (set_rim_recalculate_dcrit_this_timestep 0) r1)) as (d & -> & Hd).
change (rim_dcrit (ri_mercurana (upd_rim (set_rim_recalculate_dcrit_this_timestep 0) r1)))
  with (rim_dcrit (ri_mercurana r1)) in Hd.
set (r2 := upd_rim (set_rim_dcrit d)
             (upd_rim (set_rim_recalculate_dcrit_this_timestep 0) r1)).
assert (F2 : (r_N r2 = r_N r1 /\ r_particles r2 = r_particles r1)
  /\ (rim_Nmaxshells (ri_mercurana r2) = rim_Nmaxshells (ri_mercurana r1)
      /\ rim_N_dominant (ri_mercurana r2) = rim_N_dominant (ri_mercurana r1)
      /\ rim_allocatedN (ri_mercurana r2) = rim_allocatedN (ri_mercurana r1)
      /\ rim_recalculate_dcrit_this_timestep (ri_mercurana r2) = 0
      /\ rim_dcrit (ri_mercurana r2) = d)
  /\ (forall X, rim_map X (ri_mercurana r2) = rim_map X (ri_mercurana r1))
  /\ (forall X, rim_shellN X (ri_mercurana r2) = rim_shellN X (ri_mercurana r1))
  /\ (forall p, inshell_array p (ri_mercurana r2) = inshell_array p (ri_mercurana r1))
  /\ rim_t_drifted (ri_mercurana r2) = rim_t_drifted (ri_mercurana r1)
  /\ rim_maxdrift_encounter (ri_mercurana r2) = rim_maxdrift_encounter (ri_mercurana r1)
  /\ rim_maxdrift_dominant (ri_mercurana r2) = rim_maxdrift_dominant (ri_mercurana r1)
  /\ rim_p0 (ri_mercurana r2) = rim_p0 (ri_mercurana r1)).
{ subst r2. destruct r1 as [? ? ? ? ? ? ? ? ? ? ? ? rim1]. destruct rim1.
  repeat split; try (intros []; reflexivity). }
clearbody r2.
set (r3 := match r_collision r2 with
           | REB_COLLISION_NONE | REB_COLLISION_DIRECT => r2
           | _ => _ end).
assert (H3 : ri_mercurana r3 = ri_mercurana r2 /\ r_N r3 = r_N r2
             /\ r_particles r3 = r_particles r2).
{ subst r3. destruct (r_collision r2); repeat split. }
clearbody r3.
set (r4 := match r_gravity r3 with
           | REB_GRAVITY_BASIC | REB_GRAVITY_MERCURANA => r3
           | _ => _ end).
assert (H4 : ri_mercurana r4 = ri_mercurana r2 /\ r_N r4 = r_N r2
             /\ r_particles r4 = r_particles r2).
{ destruct H3 as (? & ? & ?). subst r4. destruct (r_gravity r3); repeat split; auto. }
clearbody r4. clear r3 H3. destruct H4 as (Hri4 & HN4 & Hp4).
set (r5 := set_r_gravity REB_GRAVITY_NONE r4).
assert (F5 : ri_mercurana r5 = ri_mercurana r2 /\ r_N r5 = r_N r2
             /\ r_particles r5 = r_particles r2 /\ r_gravity r5 = REB_GRAVITY_NONE).
{ subst r5. repeat split; auto. }
clearbody r5. destruct F5 as (Hri5 & HN5 & Hp5 & Hg5).
set (r6 := set_default_switching exp r5).
assert (F6 : (r_N r6 = r_N r5 /\ r_particles r6 = r_particles r5
              /\ r_gravity r6 = r_gravity r5)
  /\ rim_L (ri_mercurana r6) <> None
  /\ (rim_Nmaxshells (ri_mercurana r6) = rim_Nmaxshells (ri_mercurana r5)
      /\ rim_N_dominant (ri_mercurana r6) = rim_N_dominant (ri_mercurana r5)
      /\ rim_allocatedN (ri_mercurana r6) = rim_allocatedN (ri_mercurana r5)
      /\ rim_recalculate_dcrit_this_timestep (ri_mercurana r6)
         = rim_recalculate_dcrit_this_timestep (ri_mercurana r5)
      /\ rim_dcrit (ri_mercurana r6) = rim_dcrit (ri_mercurana r5))
  /\ (forall X, rim_map X (ri_mercurana r6) = rim_map X (ri_mercurana r5))
  /\ (forall X, rim_shellN X (ri_mercurana r6) = rim_shellN X (ri_mercurana r5))
  /\ (forall p, inshell_array p (ri_mercurana r6) = inshell_array p (ri_mercurana r5))
  /\ rim_t_drifted (ri_mercurana r6) = rim_t_drifted (ri_mercurana r5)
  /\ rim_maxdrift_encounter (ri_mercurana r6) = rim_maxdrift_encounter (ri_mercurana r5)
  /\ rim_maxdrift_dominant (ri_mercurana r6) = rim_maxdrift_dominant (ri_mercurana r5)
  /\ rim_p0 (ri_mercurana r6) = rim_p0 (ri_mercurana r5)).
{ subst r6. unfold set_default_switching.
  destruct r5 as [? ? ? ? ? ? ? ? ? ? ? ? rim5]. destruct rim5 as
    [? ? ? ? ? ? ? ? ? ? ? ? L5 ? ? ? ? ? ? ? ? ? ? ? ? ? ? ? ? ? ? ?].
  cbn [ri_mercurana rim_L]. destruct L5;
    repeat split; try (intros []; reflexivity); discriminate. }
clearbody r6.
destruct F2 as ((HN2 & Hp2) & (HS2 & HNd2 & Ha2 & Hf2 & Hd2) & Hm2 & Hs2 & Hi2
                & Ht2 & Hme2 & Hmd2 & Hp02).
destruct F6 as ((HN6 & Hp6 & Hg6) & HL6 & (HS6 & HNd6 & Ha6 & Hf6 & Hd6) & Hm6 & Hs6
                & Hi6 & Ht6 & Hme6 & Hmd6 & Hp06).
exists r6. split; [reflexivity|].
assert (Gm : forall X s, s < rim_Nmaxshells (ri_mercurana r) ->
               length (rim_map X (ri_mercurana r6) !!! s) = r_N r).
{ intros X s Hs. rewrite Hm6, Hri5, Hm2. auto. }
assert (Gs : forall X, length (rim_shellN X (ri_mercurana r6))
                       = rim_Nmaxshells (ri_mercurana r)).
{ intros X. rewrite Hs6, Hri5, Hs2. auto. }
assert (Gi : forall p, length (inshell_array p (ri_mercurana r6)) = r_N r).
{ intros p. rewrite Hi6, Hri5, Hi2. auto. }
assert (GN : r_N r6 = r_N r) by congruence.
assert (GNd : rim_N_dominant (ri_mercurana r6) = rim_N_dominant (ri_mercurana r)).
{ rewrite HNd6, Hri5. congruence. }
repeat apply conj; auto.
- congruence.
- rewrite HS6, Hri5. congruence.
- rewrite Ha6, Hri5. congruence.
- rewrite Hf6, Hri5. congruence.
- congruence.
- intros s Hs. rewrite Hd6, Hri5, Hd2, Hd. auto.
- rewrite Ht6, Hri5, Ht2. auto.
- rewrite Hme6, Hri5, Hme2. auto.
- rewrite Hmd6, Hri5, Hmd2. auto.
- rewrite Hp06, Hri5, Hp02. auto.
- intros Hdom s Hs. constructor; rewrite ?GN, ?GNd; auto.
  + intros X. rewrite Gm by lia. lia.
  + intros X. rewrite Gm by lia. lia.
  + intros X. rewrite Gs. exact Hs.
  + intros p. rewrite Gi. lia.
Qed.

(** X11: the first call of part1 on a valid configuration, for a simulation
  that is marked as synchronized and has more particles than were
  allocated, returns with every array of the integrator sized for the N
  particles and the Nmaxshells shells: the maps and the critical radii have
  N cells in each shell, the inshell, t_drifted, maxdrift and p0 arrays N
  cells, the counters shellN_X one cell for each shell.  allocatedN is N,
  the recalculation of the critical radii is no longer pending, the
  gravity routine is switched off and a switching function is set.  These
  are the sizes that predict relies on. *)
Theorem part1_allocates (fuel : nat) (r : reb_simulation) :
~ invalid_config (ri_mercurana r) ->
rim_is_synchronized (ri_mercurana r) <> 0 ->
rim_allocatedN (ri_mercurana r) < r_N r ->
exists r',
  part1 fuel r = Some r'
  /\ r_N r' = r_N r
  /\ r_particles r' = r_particles r
  /\ rim_Nmaxshells (ri_mercurana r') = rim_Nmaxshells (ri_mercurana r)
  /\ rim_N_dominant (ri_mercurana r') = rim_N_dominant (ri_mercurana r)
  /\ rim_allocatedN (ri_mercurana r') = r_N r
  /\ rim_recalculate_dcrit_this_timestep (ri_mercurana r') = 0
  /\ r_gravity r' = REB_GRAVITY_NONE
  /\ rim_L (ri_mercurana r') <> None
  /\ (forall X s, s < rim_Nmaxshells (ri_mercurana r) ->
        length (rim_map X (ri_mercurana r') !!! s) = r_N r)
  /\ (forall s, s < rim_Nmaxshells (ri_mercurana r) ->
        length (rim_dcrit (ri_mercurana r') !!! s) = r_N r)
  /\ (forall X, length (rim_shellN X (ri_mercurana r'))
                = rim_Nmaxshells (ri_mercurana r))
  /\ (forall p, length (inshell_array p (ri_mercurana r')) = r_N r)
  /\ length (rim_t_drifted (ri_mercurana r')) = r_N r
  /\ length (rim_maxdrift_encounter (ri_mercurana r')) = r_N r
  /\ length (rim_maxdrift_dominant (ri_mercurana r')) = r_N r
  /\ length (rim_p0 (ri_mercurana r')) = r_N r
  /\ (rim_N_dominant (ri_mercurana r) <= r_N r ->
      forall s, s + 1 < rim_Nmaxshells (ri_mercurana r) -> shell_sized r' s).
Proof. apply part1_first_call. Qed.

(** X12: on an invalid configuration part1 only reports.  It returns the
  simulation it was given with messages appended to the host's channel:
  the warning about variational equations if there are any, and then one
  error.  Nothing is allocated and no other field changes, the gravity
  routine included, which a valid call switches off. *)
Theorem part1_invalid_configuration_only_reports (fuel : nat) (r : reb_simulation) :
invalid_config (ri_mercurana r) ->
exists msg ws,
  part1 fuel r
  = Some (set_r_messages (r_messages r ++ ws ++ [(MSG_ERROR, msg)]) r)
  /\ Forall (fun w => fst w = MSG_WARNING) ws
  /\ length ws <= 1
  /\ (r_var_config_N r = 0 -> ws = []).
Proof.
intros H. apply invalid_config_error in H as [msg Hmsg].
unfold reb_integrator_mercurana_part1. exists msg.
destruct (r_var_config_N r =? 0) eqn:E; cbn [negb].
- exists []. rewrite Hmsg. repeat split; auto.
- exists [(MSG_WARNING, "Mercurana does not work with variational equations."%string)].
  cbn [ri_mercurana reb_warning set_r_messages]. rewrite Hmsg.
  apply Nat.eqb_neq in E. repeat split.
  + unfold reb_error. destruct r; cbn. now rewrite <- app_assoc.
  + repeat constructor.
  + cbn; lia.
  + intros H0. contradiction.
Qed.

(** X19: on a simulation whose integrator has not been allocated for its
  particles, a configuration error stops the step: part1 reports the error
  and returns, and the part2 that follows returns the simulation as part1
  left it, without calling the driver. *)
Theorem part2_skips_after_error_when_unallocated (fuel : nat) (r : reb_simulation) :
invalid_config (ri_mercurana r) ->
rim_allocatedN (ri_mercurana r) < r_N r ->
exists r1,
  part1 fuel r = Some r1
  /\ ri_mercurana r1 = ri_mercurana r
  /\ r_particles r1 = r_particles r
  /\ (exists msg, last (r_messages r1) = Some (MSG_ERROR, msg))
  /\ part2 fuel r1 = Some r1.
Proof.
intros Hinv Halloc.
destruct (part1_config_error_returns reb_collision_search reb_update_acceleration
            reb_calculate_and_apply_jerk reb_sigint reb_integrator_eos_preprocessor
            reb_integrator_eos_step reb_integrator_eos_postprocessor exp pow
            reb_eos_lf4_a reb_eos_lf6_a reb_eos_lf8_a reb_eos_lf4_2_a reb_eos_pmlf6_a
            reb_eos_plf7_6_4_a fuel r Hinv)
  as (r1 & H1 & Hri & Hp & Hset & msg & ws & Hm & _).
exists r1. repeat apply conj; auto.
- exists msg. rewrite Hm, app_assoc. apply last_snoc.
- apply part2_unallocated. rewrite Hri.
  pose proof (f_equal r_N Hset) as HN. cbn [r_N set_r_messages] in HN.
  rewrite HN. exact Halloc.
Qed.

(** X13: once the arrays are allocated for the N particles and no
  recalculation of the critical radii is pending, part1 on a valid
  configuration leaves the particles and every array of the integrator
  alone.  It appends warnings only, switches the gravity routine off, and
  sets the default switching function if none is set; with one set, the
  integrator is returned as it was received. *)
Theorem part1_steady_state (fuel : nat) (r : reb_simulation) :
~ invalid_config (ri_mercurana r) ->
r_N r <= rim_allocatedN (ri_mercurana r) ->
rim_recalculate_dcrit_this_timestep (ri_mercurana r) = 0 ->
exists ws,
  part1 fuel r
  = Some (set_default_switching exp
            (set_r_gravity REB_GRAVITY_NONE
               (set_r_messages (r_messages r ++ ws) r)))
  /\ Forall (fun w => fst w = MSG_WARNING) ws
  /\ (rim_L (ri_mercurana r) <> None ->
      forall r', part1 fuel r = Some r' -> ri_mercurana r' = ri_mercurana r).
Proof.
intros Hvalid Halloc Hflag.
assert (Hcfg : part1_config_error (ri_mercurana r) = None).
{ destruct (part1_config_error (ri_mercurana r)) as [msg|] eqn:E; [|reflexivity].
  exfalso. apply Hvalid. apply invalid_config_error. eauto. }
assert (Hex : exists ws,
  part1 fuel r
  = Some (set_default_switching exp
            (set_r_gravity REB_GRAVITY_NONE
               (set_r_messages (r_messages r ++ ws) r)))
  /\ Forall (fun w => fst w = MSG_WARNING) ws).
{ unfold reb_integrator_mercurana_part1.
  apply Nat.ltb_ge in Halloc.
  set (r0 := if negb (r_var_config_N r =? 0) then _ else r).
  assert (H0 : exists w0, r0 = set_r_messages (r_messages r ++ w0) r
                          /\ Forall (fun w => fst w = MSG_WARNING) w0).
  { subst r0. destruct (negb _).
    - eexists [_]. split; [reflexivity|]. repeat constructor.
    - exists []. rewrite app_nil_r. split; [destruct r; reflexivity|constructor]. }
  destruct H0 as (w0 & Hr0 & Hw0).
  assert (Hri0 : ri_mercurana r0 = ri_mercurana r) by (rewrite Hr0; reflexivity).
  assert (HN0 : r_N r0 = r_N r) by (rewrite Hr0; reflexivity).
  clearbody r0. rewrite Hri0, Hcfg, HN0, Halloc, Hri0, Hflag.
  cbn [Nat.eqb negb]. subst r0. cbn [r_collision r_gravity set_r_messages].
  set (r1 := set_r_messages _ r).
  assert (H1 : exists w1,
    match r_collision r with
    | REB_COLLISION_NONE | REB_COLLISION_DIRECT => r1
    | _ => reb_warning r1 "Mercurana only works with a direct collision search."
    end = set_r_messages (r_messages r ++ w1) r
    /\ Forall (fun w => fst w = MSG_WARNING) w1).
  { destruct (r_collision r);
      first [ exists w0; split; [reflexivity|exact Hw0]
            | eexists (w0 ++ [_]); split;
              [unfold reb_warning; subst r1; cbn; now rewrite <- app_assoc
              | apply Forall_app_2; [exact Hw0|repeat constructor]] ]. }
  destruct H1 as (w1 & -> & Hw1). clear r1.
  cbn [r_gravity set_r_messages].
  set (r2 := set_r_messages _ r).
  assert (H2 : exists w2,
    match r_gravity r with
    | REB_GRAVITY_BASIC | REB_GRAVITY_MERCURANA => r2
    | _ => reb_warning r2
             "Mercurana has it's own gravity routine. Gravity routine set by the user will be ignored."
    end = set_r_messages (r_messages r ++ w2) r
    /\ Forall (fun w => fst w = MSG_WARNING) w2).
  { destruct (r_gravity r);
      first [ exists w1; split; [reflexivity|exact Hw1]
            | eexists (w1 ++ [_]); split;
              [unfold reb_warning; subst r2; cbn; now rewrite <- app_assoc
              | apply Forall_app_2; [exact Hw1|repeat constructor]] ]. }
  destruct H2 as (w2 & -> & Hw2). exists w2. split; [reflexivity|exact Hw2]. }
destruct Hex as (ws & Hr & Hws). exists ws. repeat split; auto.
intros HL r' Hr'. rewrite Hr in Hr'. injection Hr' as <-.
unfold set_default_switching.
cbn [ri_mercurana set_r_gravity set_r_messages].
destruct (rim_L (ri_mercurana r)); [reflexivity | contradiction].
Qed.
End EntryPoints.

Lemma synchronize_idempotent_witness :
  rim_is_synchronized
    (ri_mercurana (upd_rim (set_rim_is_synchronized 1)
                     (set_default_switching (fun x => x) sim_unsynchronized))) <> 0
  /\ synchronize_idle 1 (upd_rim (set_rim_is_synchronized 1)
                           (set_default_switching (fun x => x) sim_unsynchronized))
     = Some (upd_rim (set_rim_is_synchronized 1)
               (set_default_switching (fun x => x) sim_unsynchronized)).
Proof.
  apply (synchronize_idempotent (fun s => s) (fun s => s) (fun s _ => s) false eos_idle
           eos_step_idle eos_idle (fun x => x) 0 1 sim_unsynchronized).
  reflexivity.
Defined.

Lemma sim_fresh_valid : ~ invalid_config (ri_mercurana sim_fresh).
Proof.
  intros [H|[[_ H]|[[H _]|[H _]]]]; vm_compute in H; try lia; discriminate.
Qed.

Lemma part1_allocates_witness :
  exists r',
    part1_idle 0 sim_fresh = Some r'
    /\ rim_allocatedN (ri_mercurana r') = 3
    /\ shell_sized r' 0.
Proof.
  destruct (part1_allocates (fun s => s) (fun s => s) (fun s _ => s) false eos_idle
              eos_step_idle eos_idle (fun x => x) (fun x _ => x)
              0%float [] [] 0%float [] [] 0 sim_fresh)
    as (r' & H1 & _ & _ & _ & _ & H2 & _ & _ & _ & _ & _ & _ & _ & _ & _ & _ & _ & H3).
  - exact sim_fresh_valid.
  - vm_compute; lia.
  - vm_compute; lia.
  - exists r'. split; [exact H1|]. split; [exact H2|]. apply H3; vm_compute; lia.
Defined.

Lemma part1_invalid_configuration_only_reports_witness :
  exists msg ws,
    part1_idle 0 sim_bad_kappa
    = Some (set_r_messages (r_messages sim_bad_kappa ++ ws ++ [(MSG_ERROR, msg)])
              sim_bad_kappa)
    /\ Forall (fun w => fst w = MSG_WARNING) ws
    /\ length ws <= 1
    /\ (r_var_config_N sim_bad_kappa = 0 -> ws = []).
Proof.
  apply (part1_invalid_configuration_only_reports (fun s => s) (fun s => s)
           (fun s _ => s) false eos_idle eos_step_idle eos_idle (fun x => x)
           (fun x _ => x) 0%float [] [] 0%float [] [] 0 sim_bad_kappa).
  right; right; right. split; [reflexivity | vm_compute; lia].
Defined.

Lemma sim_steady_valid :
  ~ invalid_config
      (ri_mercurana (example_sim (two_at_rest 0) 3 0 2%float REB_COLLISION_NONE)).
Proof.
  intros [H|[[_ H]|[[H _]|[H _]]]]; vm_compute in H; try lia; discriminate.
Qed.

Lemma part1_steady_state_witness :
  exists ws,
    part1_idle 0 (example_sim (two_at_rest 0) 3 0 2%float REB_COLLISION_NONE)
    = Some (set_default_switching (fun x => x)
              (set_r_gravity REB_GRAVITY_NONE
                 (set_r_messages
                    (r_messages (example_sim (two_at_rest 0) 3 0 2%float
                                   REB_COLLISION_NONE) ++ ws)
                    (example_sim (two_at_rest 0) 3 0 2%float REB_COLLISION_NONE))))
    /\ Forall (fun w => fst w = MSG_WARNING) ws
    /\ (rim_L (ri_mercurana (example_sim (two_at_rest 0) 3 0 2%float
                               REB_COLLISION_NONE)) <> None ->
        forall r',
          part1_idle 0 (example_sim (two_at_rest 0) 3 0 2%float REB_COLLISION_NONE)
          = Some r' ->
          ri_mercurana r'
          = ri_mercurana (example_sim (two_at_rest 0) 3 0 2%float REB_COLLISION_NONE)).
Proof.
  apply (part1_steady_state (fun s => s) (fun s => s)
           (fun s _ => s) false eos_idle eos_step_idle eos_idle (fun x => x)
           (fun x _ => x) 0%float [] [] 0%float [] [] 0
           (example_sim (two_at_rest 0) 3 0 2%float REB_COLLISION_NONE)).
  - exact sim_steady_valid.
  - vm_compute; lia.
  - reflexivity.
Defined.

Lemma part2_skips_after_error_when_unallocated_witness :
  exists r1,
    part1_idle 0 sim_fresh_bad_kappa = Some r1
    /\ ri_mercurana r1 = ri_mercurana sim_fresh_bad_kappa
    /\ r_particles r1 = r_particles sim_fresh_bad_kappa
    /\ (exists msg, last (r_messages r1) = Some (MSG_ERROR, msg))
    /\ part2_idle 0 r1 = Some r1.
Proof.
  apply (part2_skips_after_error_when_unallocated (fun s => s) (fun s => s)
           (fun s _ => s) false eos_idle eos_step_idle eos_idle (fun x => x)
           (fun x _ => x) 0%float [] [] 0%float [] [] 0 sim_fresh_bad_kappa).
  - right; right; right. split; [reflexivity | vm_compute; lia].
  - vm_compute; lia.
Defined.

(** *** The drift step without a sub-shell to move *)

Lemma advance_drift_keeps a m r : drift_keeps r (advance_particle a m r).
Proof. constructor; try reflexivity. apply advance_same_maps. Qed.

Lemma drift_step_advance_keeps a shell r : drift_keeps r (drift_step_advance a shell r).
Proof.
  unfold drift_step_advance. cbv zeta.
  etransitivity; [etransitivity|];
    apply (for_loop_rel drift_keeps); intros i s _; cbv beta zeta;
    match goal with |- context [if ?c then _ else _] => destruct c end;
    first [apply advance_drift_keeps | reflexivity].
Qed.

Lemma record_collision_same_t r i j : same_t r (reb_mercurana_record_collision r i j).
Proof.
  unfold reb_mercurana_record_collision, same_t. cbv zeta.
  destruct (_ <=? _); reflexivity.
Qed.

Lemma pair_scan_same_t ii ij Xi Xj mdi mdj jstart ni nj dt shell r :
  same_t r (pair_scan ii ij Xi Xj mdi mdj jstart ni nj dt shell r).
Proof.
  unfold pair_scan. apply (for_loop_rel same_t). intros i s _.
  apply (for_loop_rel same_t). intros j s' _.
  unfold pair_check. cbv zeta.
  match goal with |- same_t _ (if ?c then _ else _) => destruct c end;
    unfold same_t; cbn [r_t upd_rim set_ri_mercurana];
    (destruct (_ && _); [apply record_collision_same_t | reflexivity]).
Qed.

Lemma predict_scan_same_t r dt shell : same_t r (predict_scan r dt shell).
Proof.
  rewrite predict_scan_unfold. cbv zeta.
  assert (H1 : same_t r (predict_before_scans r dt shell)).
  { unfold predict_before_scans. cbv zeta.
    set (r0 := upd_rim _ (upd_rim (set_rim_collisions_N 0) r)).
    transitivity r0; [reflexivity|].
    destruct (shell =? 0).
    - unfold predict_setup, same_t. cbv zeta.
      repeat (apply (for_loop_ind (fun s => r_t s = r_t r0)); [|intros; assumption]).
      reflexivity.
    - unfold predict_maxdrift. apply (for_loop_rel same_t). intros i s _. cbv zeta.
      destruct (_ <? _)%float; [|reflexivity].
      apply (for_loop_rel same_t). intros j s' _. cbv zeta.
      destruct (inshell_load _ _ _ <? shell); [|reflexivity].
      destruct (_ <? _)%float; [|reflexivity].
      unfold same_t. cbn [r_t set_r_particles].
      apply (for_loop_ind (fun x => r_t x = r_t s')); [reflexivity|].
      intros k x _ Hx. exact Hx. }
  etransitivity; [|apply pair_scan_same_t].
  etransitivity; [|apply pair_scan_same_t].
  etransitivity; [exact H1|apply pair_scan_same_t].
Qed.

Lemma r_t_set_r_t v r : r_t (set_r_t v r) = v.
Proof. reflexivity. Qed.

Lemma cell_set_r_t v r k : cell (set_r_t v r) k = cell r k.
Proof. reflexivity. Qed.

Lemma drift_after_scan_nothing_promoted (a : float) (r : reb_simulation) :
  shell_sized r 0 ->
  r_N r <= length (r_particles r) ->
  r_N r <= length (rim_t_drifted (ri_mercurana r)) ->
  (forall X, rd (rim_shellN X (ri_mercurana (predict_scan r a 0))) 1 = 0) ->
  forall k, k < r_N r ->
    cell (drift_step_advance a 0 (predict_scan r a 0)) k = cell_advanced a (cell r k).
Proof.
  intros Hs HlenP HlenT Hnone k Hk.
  pose proof (drift_after_scan_zero a r a k Hs HlenP HlenT Hk) as Hd.
  destruct (predict_scan_zero_result r a Hs) as (_ & _ & _ & _ & _ & _ & HP & HT & _).
  cbv zeta in HP, HT, Hd. revert Hd HP HT Hnone. generalize (predict_scan r a 0).
  intros r1 Hd HP HT Hnone. rewrite Hd. unfold shell_members.
  rewrite !Hnone, !take_0. cbn [app].
  rewrite bool_decide_eq_false_2 by apply not_elem_of_nil.
  unfold cell. now rewrite HP, HT.
Qed.

Section PlainDrift.
Variable reb_collision_search : reb_simulation -> reb_simulation.
Variable reb_update_acceleration : reb_simulation -> reb_simulation.
Variable reb_calculate_and_apply_jerk : reb_simulation -> float -> reb_simulation.
Variable reb_sigint : bool.
Variable reb_integrator_eos_preprocessor :
reb_simulation -> float -> nat -> REB_EOS_TYPE -> drift_fn -> interaction_fn
-> option reb_simulation.
Variable reb_integrator_eos_step :
reb_simulation -> float -> float -> float -> nat -> REB_EOS_TYPE
-> drift_fn -> interaction_fn -> option reb_simulation.
Variable reb_integrator_eos_postprocessor :
reb_simulation -> float -> nat -> REB_EOS_TYPE -> drift_fn -> interaction_fn
-> option reb_simulation.

Local Abbreviation drift_step :=
(reb_integrator_mercurana_drift_step reb_collision_search reb_update_acceleration
   reb_calculate_and_apply_jerk reb_sigint reb_integrator_eos_preprocessor
   reb_integrator_eos_step reb_integrator_eos_postprocessor).

(** The drift step when predict returns [r1] and the sub-shell is missing or
  empty: the three loops, then [r->t += a]. *)
Lemma drift_step_no_subshell fuel r a shell r1 :
reb_sigint = false ->
reb_mercurana_encounter_predict reb_collision_search fuel r a shell = Some r1 ->
(shell + 1 <? rim_Nmaxshells (ri_mercurana r1))
&& ((0 <? rd (rim_shellN_encounter (ri_mercurana r1)) (shell + 1))
    || (0 <? rd (rim_shellN_dominant (ri_mercurana r1)) (shell + 1))) = false ->
drift_step (S fuel) r a shell
= Some (set_r_t (r_t r1 + a)%float (drift_step_advance a shell r1)).
Proof.
intros Hsig Hp Hc.
destruct (drift_step_advance_keeps a shell r1) as [[_ HsN _] HS Ht _].
cbn [reb_integrator_mercurana_drift_step]. rewrite Hsig, Hp. cbv zeta.
rewrite HS. pose proof (HsN Encounter) as HE. pose proof (HsN Dominant) as HD.
cbn [rim_shellN] in HE, HD. rewrite HE, HD, Hc, Ht. reflexivity.
Qed.

(** X14: when predict at shell 0 puts no particle into shell 1, the drift
  step of shell 0 is a plain drift.  On a simulation whose arrays have room
  for its N particles, in a run that records no collision and is not
  interrupted, it returns without entering the driver; the time has
  advanced by a, and every one of the N particles has moved once, by a
  times its velocity, from where it was before the call, with a added to
  the t_drifted that predict has left for it. *)
Theorem drift_step_plain_without_encounters (fuel : nat) (r : reb_simulation)
  (a : float) :
reb_sigint = false ->
1 < rim_Nmaxshells (ri_mercurana r) ->
r_collision r <> REB_COLLISION_DIRECT ->
shell_sized r 0 ->
r_N r <= length (r_particles r) ->
r_N r <= length (rim_t_drifted (ri_mercurana r)) ->
(forall X, rd (rim_shellN X (ri_mercurana (predict_scan r a 0))) 1 = 0) ->
exists r1 r',
  reb_mercurana_encounter_predict reb_collision_search fuel r a 0 = Some r1
  /\ drift_step (S fuel) r a 0 = Some r'
  /\ r_t r' = (r_t r + a)%float
  /\ forall k, k < r_N r ->
       rd (r_particles r') k = advanced a (rd (r_particles r) k)
       /\ rd (rim_t_drifted (ri_mercurana r')) k
          = (rd (rim_t_drifted (ri_mercurana r1)) k + a)%float.
Proof.
intros Hsig Hsub Hc Hs HlenP HlenT Hnone.
pose proof (predict_is_scan reb_collision_search fuel r a 0 Hsub Hc
              (shell_sized_allocated r Hs)) as Hp.
pose proof (fun k Hk => drift_after_scan_zero a r a k Hs HlenP HlenT Hk) as Hcell.
destruct (predict_scan_zero_result r a Hs) as (_ & _ & _ & _ & _ & _ & HP & _).
pose proof (predict_scan_same_t r a 0) as Ht.
cbv zeta in Hcell, HP.
revert Hp Hcell HP Ht Hnone. generalize (predict_scan r a 0).
intros r1 Hp Hcell HP Ht Hnone. unfold same_t in Ht.
pose proof (Hnone Encounter) as HE. pose proof (Hnone Dominant) as HD.
cbn [rim_shellN] in HE, HD.
exists r1, (set_r_t (r_t r1 + a)%float (drift_step_advance a 0 r1)).
split; [exact Hp|]. split; [|split].
- apply (drift_step_no_subshell fuel r a 0 r1 Hsig Hp).
  change (0 + 1) with 1. rewrite HE, HD. apply andb_false_r.
- rewrite r_t_set_r_t. now rewrite Ht.
- intros k Hk. specialize (Hcell k Hk). revert Hcell. unfold shell_members.
  rewrite !Hnone, !take_0. cbn [app].
  rewrite bool_decide_eq_false_2 by apply not_elem_of_nil.
  rewrite <- (cell_set_r_t (r_t r1 + a)%float).
  unfold cell, cell_advanced. cbn [fst snd]. rewrite HP. intros Hcell.
  split; [exact (f_equal fst Hcell) | exact (f_equal snd Hcell)].
Qed.
End PlainDrift.

Lemma drift_step_plain_without_encounters_witness :
  exists r1 r',
    reb_mercurana_encounter_predict (fun s => s) 0 sim_apart 1%float 0 = Some r1
    /\ drift_step_idle 1 sim_apart 1%float 0 = Some r'
    /\ r_t r' = (r_t sim_apart + 1)%float
    /\ forall k, k < r_N sim_apart ->
         rd (r_particles r') k = advanced 1%float (rd (r_particles sim_apart) k)
         /\ rd (rim_t_drifted (ri_mercurana r')) k
            = (rd (rim_t_drifted (ri_mercurana r1)) k + 1)%float.
Proof.
  apply (drift_step_plain_without_encounters (fun s => s) (fun s => s) (fun s _ => s)
           false eos_idle eos_step_idle eos_idle 0 sim_apart 1%float).
  - reflexivity.
  - vm_compute; lia.
  - discriminate.
  - constructor; try intros []; vm_compute; lia.
  - vm_compute; lia.
  - vm_compute; lia.
  - intros []; vm_compute; reflexivity.
Defined.

(** *** The interaction step *)

Lemma kick_particle_rim y m r : ri_mercurana (kick_particle y m r) = ri_mercurana r.
Proof. reflexivity. Qed.

Lemma kick_particle_length y m r :
  length (r_particles (kick_particle y m r)) = length (r_particles r).
Proof. unfold kick_particle. cbn [r_particles set_r_particles]. apply length_insert. Qed.

Lemma kick_particle_cell y m r k :
  k < length (r_particles r) ->
  rd (r_particles (kick_particle y m r)) k
  = if decide (m = k) then kicked y (rd (r_particles r) k) else rd (r_particles r) k.
Proof.
  intros Hk. unfold kick_particle, rd. cbn [r_particles set_r_particles].
  rewrite list_lookup_total_insert.
  destruct (decide (m = k)) as [->|Hne].
  - rewrite decide_True by auto. reflexivity.
  - rewrite decide_False by (intros [? _]; congruence). reflexivity.
Qed.

Lemma count_occ_take_S (row : list nat) (n k : nat) :
  n < length row ->
  count_occ Nat.eq_dec (take (S n) row) k
  = count_occ Nat.eq_dec (take n row) k + (if decide (row !!! n = k) then 1 else 0).
Proof.
  intros Hn.
  rewrite (take_S_r row n (row !!! n)) by (apply list_lookup_lookup_total_lt; lia).
  rewrite count_occ_app. cbn [count_occ].
  destruct (Nat.eq_dec (row !!! n) k), (decide (row !!! n = k)); congruence.
Qed.

(** A loop gives particle [k] one kick for each of the cells it runs over
    that holds [k], when [k] passes the test, and writes nothing else. *)
Lemma kick_loop_cell X c y shell n r k :
  n <= length (rim_map X (ri_mercurana r) !!! shell) ->
  k < length (r_particles r) ->
  let r' := kick_loop X c y shell n r in
  ri_mercurana r' = ri_mercurana r
  /\ length (r_particles r') = length (r_particles r)
  /\ rd (r_particles r') k
     = Nat.iter (if c (ri_mercurana r) k
                 then count_occ Nat.eq_dec (take n (rim_map X (ri_mercurana r) !!! shell)) k
                 else 0)
         (kicked y) (rd (r_particles r) k).
Proof.
  intros Hn Hk. cbv zeta. unfold kick_loop, for_loop. rewrite Nat.sub_0_r.
  induction n as [|n IH].
  - rewrite take_0. cbn [seq fold_left count_occ].
    repeat split. destruct (c _ _); reflexivity.
  - rewrite seq_S, fold_left_app. cbn [fold_left Nat.add].
    destruct (IH ltac:(lia)) as (Hrim & Hlen & Hcell). clear IH.
    set (s := fold_left _ (seq 0 n) r) in *.
    cbv beta zeta. unfold rd2. rewrite Hrim.
    set (row := rim_map X (ri_mercurana r) !!! shell) in *.
    rewrite count_occ_take_S by lia.
    destruct (c (ri_mercurana r) (row !!! n)) eqn:Hc.
    + rewrite kick_particle_rim, kick_particle_length, kick_particle_cell by lia.
      refine (conj Hrim (conj Hlen _)). rewrite Hcell.
      destruct (decide (row !!! n = k)) as [E|Hne].
      * rewrite E in Hc. rewrite Hc, Nat.add_1_r. reflexivity.
      * rewrite Nat.add_0_r. reflexivity.
    + refine (conj Hrim (conj Hlen _)). rewrite Hcell.
      destruct (decide (row !!! n = k)) as [E|Hne].
      * rewrite E in Hc. rewrite Hc. reflexivity.
      * rewrite Nat.add_0_r. reflexivity.
Qed.

Lemma iter_add {A} (f : A -> A) (n m : nat) (x : A) :
  Nat.iter (n + m) f x = Nat.iter m f (Nat.iter n f x).
Proof.
  induction m as [|m IH].
  - now rewrite Nat.add_0_r.
  - rewrite Nat.add_succ_r.
    change (f (Nat.iter (n + m) f x) = f (Nat.iter m f (Nat.iter n f x))).
    now rewrite IH.
Qed.

Lemma count_occ_seq (a n k : nat) :
  count_occ Nat.eq_dec (seq a n) k = if decide (a <= k < a + n) then 1 else 0.
Proof.
  case_decide as H.
  - apply NoDup_count_occ'; [apply List.seq_NoDup | apply in_seq; lia].
  - apply count_occ_not_In. rewrite in_seq. lia.
Qed.

Section Interaction.
Variable reb_update_acceleration : reb_simulation -> reb_simulation.
Variable reb_calculate_and_apply_jerk : reb_simulation -> float -> reb_simulation.

Local Abbreviation interaction_step :=
(reb_integrator_mercurana_interaction_step reb_update_acceleration
   reb_calculate_and_apply_jerk).
Local Abbreviation forces :=
(interaction_forces reb_update_acceleration reb_calculate_and_apply_jerk).

Lemma interaction_step_loops r y v shell :
interaction_step r y v shell
= let r1 := forces r v shell in
  let r2 := kick_loop Dominant (fun _ _ => true) y shell
              (rd (rim_shellN Dominant (ri_mercurana r1)) shell) r1 in
  let r3 := kick_loop Encounter (fun _ _ => true) y shell
              (rd (rim_shellN Encounter (ri_mercurana r1)) shell) r2 in
  if 0 <? shell then
    kick_loop Subdominant
      (fun rim m => rd (rim_inshell_encounter rim) m <? shell) y shell
      (rd (rim_shellN Subdominant (ri_mercurana r1)) shell) r3
  else r3.
Proof. reflexivity. Qed.

Lemma interaction_step_cell (r : reb_simulation) (y v : float) (shell k : nat) :
let r1 := forces r v shell in
(forall X, (X = Subdominant -> 0 < shell) ->
           rd (rim_shellN X (ri_mercurana r1)) shell
           <= length (rim_map X (ri_mercurana r1) !!! shell)) ->
k < length (r_particles r1) ->
let r' := interaction_step r y v shell in
rd (r_particles r') k = Nat.iter (kick_count shell r1 k) (kicked y) (rd (r_particles r1) k)
/\ ri_mercurana r' = ri_mercurana r1
/\ length (r_particles r') = length (r_particles r1).
Proof.
cbv zeta. rewrite interaction_step_loops. cbv zeta.
generalize (forces r v shell). intros r1 Hlen Hk.
destruct (kick_loop_cell Dominant (fun _ _ => true) y shell _ r1 k
            (Hlen Dominant ltac:(discriminate)) Hk) as (R2 & L2 & C2).
set (r2 := kick_loop Dominant _ y shell _ r1) in *.
destruct (kick_loop_cell Encounter (fun _ _ => true) y shell
            (rd (rim_shellN Encounter (ri_mercurana r1)) shell) r2 k)
  as (R3 & L3 & C3); [rewrite R2; apply Hlen; discriminate | lia |].
set (r3 := kick_loop Encounter _ y shell _ r2) in *.
rewrite R2 in C3. unfold kick_count, shell_members.
destruct (0 <? shell) eqn:Es; cbn [andb].
- apply Nat.ltb_lt in Es.
  destruct (kick_loop_cell Subdominant
              (fun rim m => rd (rim_inshell_encounter rim) m <? shell) y shell
              (rd (rim_shellN Subdominant (ri_mercurana r1)) shell) r3 k)
    as (R4 & L4 & C4); [rewrite R3, R2; apply Hlen; auto | lia |].
  rewrite R3, R2 in C4. rewrite C4, C3, C2, !iter_add.
  repeat split; congruence.
- rewrite C3, C2, Nat.add_0_r, iter_add. repeat split; congruence.
Qed.

(** X15: the loops of the interaction step kick particle k once for each
  cell of map_dominant[shell] and of map_encounter[shell] that holds it
  and, in a shell below the outermost, once for each cell of
  map_subdominant[shell] that holds it if inshell_encounter[k] < shell.
  Each kick adds y times the acceleration to the velocity; the
  accelerations are those the host has left.  Nothing else is written:
  positions, accelerations and the integrator's arrays stay as the host
  routines returned them.  The maps are supposed to hold as many cells as
  their counters say, and particles that exist. *)
Theorem interaction_step_kicks (r : reb_simulation) (y v : float) (shell k : nat) :
let r1 := forces r v shell in
(forall X, rd (rim_shellN X (ri_mercurana r1)) shell
           <= length (rim_map X (ri_mercurana r1) !!! shell)) ->
(forall X m, m ∈ shell_members X shell r1 -> m < length (r_particles r1)) ->
k < length (r_particles r1) ->
let r' := interaction_step r y v shell in
rd (r_particles r') k = Nat.iter (kick_count shell r1 k) (kicked y) (rd (r_particles r1) k)
/\ ri_mercurana r' = ri_mercurana r1
/\ length (r_particles r') = length (r_particles r1).
Proof.
intros r1 Hlen _ Hk. apply interaction_step_cell; auto.
Qed.

(** X16: with the maps of shell 0 as predict sets them up, the dominant
  particles in map_dominant[0] and all others in map_encounter[0], the
  interaction step of shell 0 kicks each of the N particles exactly once:
  its velocity grows by y times the acceleration the host has computed. *)
Theorem interaction_step_outermost_kicks_each_once (r : reb_simulation) (y v : float)
  (k : nat) :
let r1 := forces r v 0 in
shell_members Dominant 0 r1 = seq 0 (rim_N_dominant (ri_mercurana r1)) ->
shell_members Encounter 0 r1
= seq (rim_N_dominant (ri_mercurana r1)) (r_N r1 - rim_N_dominant (ri_mercurana r1)) ->
(forall X, rd (rim_shellN X (ri_mercurana r1)) 0
           <= length (rim_map X (ri_mercurana r1) !!! 0)) ->
rim_N_dominant (ri_mercurana r1) <= r_N r1 ->
r_N r1 <= length (r_particles r1) ->
k < r_N r1 ->
rd (r_particles (interaction_step r y v 0)) k = kicked y (rd (r_particles r1) k).
Proof.
cbv zeta. intros HD HE Hlen Hdom HN Hk.
destruct (interaction_step_cell r y v 0 k) as (Hc & _); cbv zeta; auto; [lia|].
rewrite Hc. unfold kick_count. rewrite HD, HE, !count_occ_seq. cbn [Nat.ltb Nat.leb andb].
repeat case_decide; try lia; reflexivity.
Qed.
End Interaction.

Lemma interaction_step_kicks_witness :
  let r := sim_three_predicted in
  let r1 := interaction_forces (fun s => s) (fun s _ => s) r 0%float 1 in
  let r' := reb_integrator_mercurana_interaction_step (fun s => s) (fun s _ => s)
              r 1%float 0%float 1 in
  rd (r_particles r') 1 = Nat.iter (kick_count 1 r1 1) (kicked 1%float) (rd (r_particles r1) 1)
  /\ ri_mercurana r' = ri_mercurana r1
  /\ length (r_particles r') = length (r_particles r1).
Proof.
  cbv zeta.
  apply (interaction_step_kicks (fun s => s) (fun s _ => s) sim_three_predicted
           1%float 0%float 1 1).
  - intros []; vm_compute; lia.
  - intros X m Hm.
    assert (Hall : Forall (fun m => m < 3) (shell_members X 1
              (interaction_forces (fun s => s) (fun s _ => s) sim_three_predicted 0%float 1))).
    { destruct X; vm_compute; repeat constructor. }
    rewrite Forall_forall in Hall. apply (Hall m Hm).
  - vm_compute; lia.
Defined.

Lemma interaction_step_outermost_kicks_each_once_witness :
  rd (r_particles (reb_integrator_mercurana_interaction_step (fun s => s) (fun s _ => s)
                     sim_three_predicted 1%float 0%float 0)) 2
  = kicked 1%float
      (rd (r_particles (interaction_forces (fun s => s) (fun s _ => s)
                          sim_three_predicted 0%float 0)) 2).
Proof.
  apply (interaction_step_outermost_kicks_each_once (fun s => s) (fun s _ => s)
           sim_three_predicted 1%float 0%float 2).
  - vm_compute; reflexivity.
  - vm_compute; reflexivity.
  - intros []; vm_compute; lia.
  - vm_compute; lia.
  - vm_compute; lia.
  - vm_compute; lia.
Defined.

(** *** Reset *)

Section Reset.
Variable reb_collision_search : reb_simulation -> reb_simulation.
Variable reb_update_acceleration : reb_simulation -> reb_simulation.
Variable reb_calculate_and_apply_jerk : reb_simulation -> float -> reb_simulation.
Variable reb_sigint : bool.
Variable reb_integrator_eos_preprocessor :
reb_simulation -> float -> nat -> REB_EOS_TYPE -> drift_fn -> interaction_fn
-> option reb_simulation.
Variable reb_integrator_eos_step :
reb_simulation -> float -> float -> float -> nat -> REB_EOS_TYPE
-> drift_fn -> interaction_fn -> option reb_simulation.
Variable reb_integrator_eos_postprocessor :
reb_simulation -> float -> nat -> REB_EOS_TYPE -> drift_fn -> interaction_fn
-> option reb_simulation.
Variable exp : float -> float.
Variable pow : float -> float -> float.
Variable reb_eos_lf4_a : float.
Variable reb_eos_lf6_a : list float.
Variable reb_eos_lf8_a : list float.
Variable reb_eos_lf4_2_a : float.
Variable reb_eos_pmlf6_a : list float.
Variable reb_eos_plf7_6_4_a : list float.

Local Abbreviation part1 :=
(reb_integrator_mercurana_part1 reb_collision_search reb_update_acceleration
   reb_calculate_and_apply_jerk reb_sigint reb_integrator_eos_preprocessor
   reb_integrator_eos_step reb_integrator_eos_postprocessor exp pow
   reb_eos_lf4_a reb_eos_lf6_a reb_eos_lf8_a reb_eos_lf4_2_a reb_eos_pmlf6_a
   reb_eos_plf7_6_4_a).
Local Abbreviation part2 :=
(reb_integrator_mercurana_part2 reb_collision_search reb_update_acceleration
   reb_calculate_and_apply_jerk reb_sigint reb_integrator_eos_preprocessor
   reb_integrator_eos_step reb_integrator_eos_postprocessor exp).

Lemma reset_valid r : ~ invalid_config (ri_mercurana (reb_integrator_mercurana_reset r)).
Proof.
intros H. apply invalid_config_error in H as [msg H]. vm_compute in H. discriminate.
Qed.

(** X17: on an integrator that holds no arrays (allocatedN is 0, so that
  nothing is freed), reset leaves a configuration that part1 accepts,
  whatever the configuration was: allocatedN is 0, so that a part2 called
  next on a simulation with particles returns at once, and is_synchronized
  is 1.  A second reset changes nothing more; the particles and the fields
  of the simulation outside the integrator are not touched. *)
Theorem reset_restores_defaults (fuel : nat) (r : reb_simulation) :
rim_allocatedN (ri_mercurana r) = 0 ->
let r' := reb_integrator_mercurana_reset r in
~ invalid_config (ri_mercurana r')
/\ rim_allocatedN (ri_mercurana r') = 0
/\ rim_is_synchronized (ri_mercurana r') = 1
/\ reb_integrator_mercurana_reset r' = r'
/\ set_ri_mercurana (ri_mercurana r) r' = r
/\ (0 < r_N r -> part2 fuel r' = Some r').
Proof.
intros _. cbv zeta. repeat apply conj.
- apply reset_valid.
- reflexivity.
- reflexivity.
- reflexivity.
- destruct r; reflexivity.
- intros HN. apply part2_unallocated. exact HN.
Qed.

(** X18: a simulation with particles whose integrator holds no arrays and
  has been reset is set up by the next part1 for its N particles and the
  ten shells of the default configuration: part1 reports no error,
  allocatedN becomes N, and the arrays have the sizes that predict needs in
  every shell that has a sub-shell. *)
Theorem part1_after_reset (fuel : nat) (r : reb_simulation) :
rim_allocatedN (ri_mercurana r) = 0 ->
0 < r_N r ->
exists r',
  part1 fuel (reb_integrator_mercurana_reset r) = Some r'
  /\ r_N r' = r_N r
  /\ r_particles r' = r_particles r
  /\ rim_allocatedN (ri_mercurana r') = r_N r
  /\ rim_Nmaxshells (ri_mercurana r') = 10
  /\ forall s, s + 1 < 10 -> shell_sized r' s.
Proof.
intros _ HN.
destruct (part1_first_call reb_collision_search reb_update_acceleration
            reb_calculate_and_apply_jerk reb_sigint reb_integrator_eos_preprocessor
            reb_integrator_eos_step reb_integrator_eos_postprocessor exp pow
            reb_eos_lf4_a reb_eos_lf6_a reb_eos_lf8_a reb_eos_lf4_2_a reb_eos_pmlf6_a
            reb_eos_plf7_6_4_a fuel (reb_integrator_mercurana_reset r))
  as (r' & H1 & H2 & H3 & H4 & _ & H6 & _ & _ & _ & _ & _ & _ & _ & _ & _ & _ & _ & H18).
- apply reset_valid.
- cbn. lia.
- exact HN.
- exists r'. repeat apply conj; auto.
  intros s Hs. apply H18; [cbn; lia | exact Hs].
Qed.
End Reset.

Lemma part1_after_reset_witness :
  exists r',
    part1_idle 0 (reb_integrator_mercurana_reset sim_fresh) = Some r'
    /\ r_N r' = r_N sim_fresh
    /\ r_particles r' = r_particles sim_fresh
    /\ rim_allocatedN (ri_mercurana r') = r_N sim_fresh
    /\ rim_Nmaxshells (ri_mercurana r') = 10
    /\ forall s, s + 1 < 10 -> shell_sized r' s.
Proof.
  apply (part1_after_reset (fun s => s) (fun s => s)
           (fun s _ => s) false eos_idle eos_step_idle eos_idle (fun x => x)
           (fun x _ => x) 0%float [] [] 0%float [] [] 0 sim_fresh).
  - reflexivity.
  - vm_compute; lia.
Defined.

Lemma reset_restores_defaults_witness :
  rim_allocatedN (ri_mercurana sim_fresh_bad_kappa) = 0
  /\ invalid_config (ri_mercurana sim_fresh_bad_kappa)
  /\ let r' := reb_integrator_mercurana_reset sim_fresh_bad_kappa in
     ~ invalid_config (ri_mercurana r')
     /\ rim_allocatedN (ri_mercurana r') = 0
     /\ rim_is_synchronized (ri_mercurana r') = 1
     /\ reb_integrator_mercurana_reset r' = r'
     /\ set_ri_mercurana (ri_mercurana sim_fresh_bad_kappa) r' = sim_fresh_bad_kappa
     /\ (0 < r_N sim_fresh_bad_kappa -> part2_idle 0 r' = Some r').
Proof.
  split; [reflexivity|]. split.
  - right. right. right. split; [vm_compute; reflexivity | vm_compute; lia].
  - apply (reset_restores_defaults (fun s => s) (fun s => s) (fun s _ => s) false
             eos_idle eos_step_idle eos_idle (fun x => x) 0 sim_fresh_bad_kappa).
    reflexivity.
Defined.

(** *** What predict keeps of the maps above the sub-shell *)

Lemma same_upto_keeps shell r r' : same_upto shell r r' -> keeps_members shell r r'.
Proof.
  intros H. constructor.
  - intros X s Hs. destruct (H X s Hs) as [-> _]. lia.
  - intros X s Hs _. apply H; auto.
  - intros s i Hs _. destruct (H Encounter s Hs) as [_ Hr]. cbn [rim_map] in Hr.
    unfold rd2. now rewrite Hr.
Qed.

Lemma same_upto_upd_rim shell g r :
  (forall X, rim_map X (g (ri_mercurana r)) = rim_map X (ri_mercurana r)) ->
  (forall X, rim_shellN X (g (ri_mercurana r)) = rim_shellN X (ri_mercurana r)) ->
  same_upto shell r (upd_rim g r).
Proof.
  intros Hm Hn X s _. cbn [upd_rim ri_mercurana set_ri_mercurana].
  now rewrite Hm, Hn.
Qed.

Lemma same_upto_promote shell p X m r :
  same_upto shell r (upd_rim (promote p X shell m) r).
Proof.
  intros X' s Hs. cbn [upd_rim ri_mercurana set_ri_mercurana].
  destruct (promote_row p X shell m (ri_mercurana r) X' s) as [Hr Hc]; [lia|].
  split; auto.
Qed.

Lemma same_upto_record_collision shell r i j :
  same_upto shell r (reb_mercurana_record_collision r i j).
Proof.
  intros X s _. unfold reb_mercurana_record_collision.
  destruct (r_collisions_allocatedN r <=? _); destruct X; split; reflexivity.
Qed.

Lemma pair_scan_same_upto ii ij Xi Xj mdi mdj jstart ni nj dt shell r :
  same_upto shell r (pair_scan ii ij Xi Xj mdi mdj jstart ni nj dt shell r).
Proof.
  unfold pair_scan. apply (for_loop_rel (same_upto shell)). intros i s _.
  apply (for_loop_rel (same_upto shell)). intros j s' _. cbv zeta.
  apply pair_check_cases. intros rc Hrc.
  assert (H0 : same_upto shell s' rc).
  { destruct Hrc as [-> | ->]; [reflexivity | apply same_upto_record_collision]. }
  split; [|intros v]; (etransitivity; [exact H0|]).
  - etransitivity; apply same_upto_promote.
  - etransitivity; apply same_upto_upd_rim; intros;
      rewrite ?rim_map_lower, ?rim_shellN_lower; reflexivity.
Qed.

(** The append of the maxdrift phase: [map_encounter[s][shellN_encounter[s]] =
    mj; shellN_encounter[s]++]. *)
Lemma keeps_members_append shell s mj r :
  keeps_members shell r
    (upd_rim (fun rim =>
       let rim := set_rim_map_encounter
                    (wr2 (rim_map_encounter rim) s (rd (rim_shellN_encounter rim) s) mj)
                    rim in
       set_rim_shellN_encounter
         (<[s := S (rd (rim_shellN_encounter rim) s)]> (rim_shellN_encounter rim)) rim) r).
Proof.
  constructor.
  - intros X s' _. destruct X; cbn; try lia. apply rd_append_ge.
  - intros X s' _ HX. destruct X; try congruence; split; reflexivity.
  - intros s' i _ Hi. cbn. rewrite rd2_wr2.
    rewrite decide_False; [reflexivity|]. intros (-> & <- & _). lia.
Qed.

Lemma predict_maxdrift_keeps_members ip nE dt shell r :
  keeps_members shell r (predict_maxdrift ip nE dt shell r).
Proof.
  unfold predict_maxdrift. apply (for_loop_rel (keeps_members shell)). intros i s _.
  cbv zeta. destruct (_ <? _)%float; [|reflexivity].
  apply (for_loop_rel (keeps_members shell)). intros j s' _.
  cbv zeta. destruct (inshell_load _ _ _ <? shell); [|reflexivity].
  destruct (_ <? _)%float.
  - match goal with |- keeps_members _ _ (set_r_particles _ ?x) =>
      transitivity x; [|apply same_upto_keeps; intros X s1 _; split; reflexivity] end.
    match goal with |- keeps_members _ _ (for_loop _ _ _ ?x) =>
      transitivity x;
      [|apply (for_loop_rel (keeps_members shell)); intros k s'' _;
        apply keeps_members_append] end.
    apply same_upto_keeps, same_upto_upd_rim; intros;
      rewrite ?rim_map_inshell_store, ?rim_shellN_inshell_store; reflexivity.
  - apply same_upto_keeps, same_upto_upd_rim; intros;
      rewrite ?rim_map_lower, ?rim_shellN_lower; reflexivity.
Qed.

Lemma predict_scan_keeps_members r dt shell :
  0 < shell -> keeps_members shell r (predict_scan r dt shell).
Proof.
  intros Hs. rewrite predict_scan_unfold. cbv zeta.
  assert (H1 : keeps_members shell r (predict_before_scans r dt shell)).
  { unfold predict_before_scans. cbv zeta.
    set (r0 := upd_rim _ (upd_rim (set_rim_collisions_N 0) r)).
    assert (H0 : same_upto shell r r0).
    { intros X s Hle. subst r0. destruct X; cbn; rewrite rd_insert_ne by lia; auto. }
    etransitivity; [apply same_upto_keeps, H0|].
    destruct (shell =? 0) eqn:E; [apply Nat.eqb_eq in E; lia|].
    apply predict_maxdrift_keeps_members. }
  etransitivity; [|apply same_upto_keeps, pair_scan_same_upto].
  etransitivity; [|apply same_upto_keeps, pair_scan_same_upto].
  etransitivity; [exact H1|apply same_upto_keeps, pair_scan_same_upto].
Qed.

(** X20: below the outermost shell, the body of predict, from the resets to
    the end of the three scans, takes no particle out of the maps of its own
    shell or of a shell above it.  For every shell s <= shell the dominant
    and the subdominant map and their counters are as before; the counter
    of the encounter map is not lower, and each of its cells that was in use
    holds the particle it held: the maxdrift phase only appends. *)
Theorem predict_keeps_members_above (r : reb_simulation) (dt : float) (shell s : nat) :
  0 < shell -> s <= shell ->
  let r' := predict_scan r dt shell in
  (forall X, X <> Encounter ->
     rd (rim_shellN X (ri_mercurana r')) s = rd (rim_shellN X (ri_mercurana r)) s
     /\ rim_map X (ri_mercurana r') !!! s = rim_map X (ri_mercurana r) !!! s)
  /\ rd (rim_shellN_encounter (ri_mercurana r)) s
     <= rd (rim_shellN_encounter (ri_mercurana r')) s
  /\ forall i, i < rd (rim_shellN_encounter (ri_mercurana r)) s ->
       rd2 (rim_map_encounter (ri_mercurana r')) s i
       = rd2 (rim_map_encounter (ri_mercurana r)) s i.
Proof.
  intros Hshell Hs. cbv zeta.
  destruct (predict_scan_keeps_members r dt shell Hshell) as [C F K].
  repeat split.
  - apply F; auto.
  - apply F; auto.
  - apply (C Encounter s Hs).
  - intros i Hi. apply K; auto.
Qed.

Lemma predict_keeps_members_above_witness :
  let r := sim_three_predicted in
  let r' := predict_scan r 1%float 1 in
  (forall X, X <> Encounter ->
     rd (rim_shellN X (ri_mercurana r')) 1 = rd (rim_shellN X (ri_mercurana r)) 1
     /\ rim_map X (ri_mercurana r') !!! 1 = rim_map X (ri_mercurana r) !!! 1)
  /\ rd (rim_shellN_encounter (ri_mercurana r)) 1
     <= rd (rim_shellN_encounter (ri_mercurana r')) 1
  /\ forall i, i < rd (rim_shellN_encounter (ri_mercurana r)) 1 ->
       rd2 (rim_map_encounter (ri_mercurana r')) 1 i
       = rd2 (rim_map_encounter (ri_mercurana r)) 1 i.
Proof.
  cbv zeta. apply (predict_keeps_members_above sim_three_predicted 1%float 1 1); lia.
Defined.

(** *** The start of a global step *)

Lemma insert_prefix_drop {A} (pre l : list A) (n : nat) (x : A) :
  length pre = n -> n < length l ->
  <[n := x]> (pre ++ drop n l) = (pre ++ [x]) ++ drop (S n) l.
Proof.
  intros Hpre Hn.
  destruct (lookup_lt_is_Some_2 l n Hn) as [y Hy].
  rewrite (drop_S l y n Hy).
  rewrite insert_app_r_alt by lia. rewrite Hpre, Nat.sub_diag. cbn [insert list_insert].
  now rewrite <- app_assoc.
Qed.

(** The first loop of part2, over [n] of the particles. *)
Lemma part2_loop_snapshot (r : reb_simulation) (n : nat) :
  n <= length (rim_t_drifted (ri_mercurana r)) ->
  n <= length (rim_p0 (ri_mercurana r)) ->
  n <= length (r_particles r) ->
  for_loop 0 n (fun i r =>
    upd_rim (fun rim =>
      let rim := set_rim_t_drifted (<[i := 0%float]> (rim_t_drifted rim)) rim in
      set_rim_p0 (<[i := rd (r_particles r) i]> (rim_p0 rim)) rim) r) r
  = upd_rim (fun rim =>
      set_rim_p0 (take n (r_particles r) ++ drop n (rim_p0 rim))
        (set_rim_t_drifted (replicate n 0%float ++ drop n (rim_t_drifted rim)) rim)) r.
Proof.
  unfold for_loop. rewrite Nat.sub_0_r. induction n as [|n IH]; intros Ht Hp Hps.
  - cbn [seq fold_left take replicate app]. rewrite ?drop_0.
    destruct r as [? ? ? ? ? ? ? ? ? ? ? ? rim]. destruct rim. reflexivity.
  - rewrite seq_S, fold_left_app. cbn [fold_left Nat.add].
    rewrite IH by lia. clear IH. cbv beta zeta.
    unfold upd_rim at 1. unfold upd_rim at 1.
    cbn [ri_mercurana set_ri_mercurana upd_rim r_particles rim_t_drifted rim_p0
         set_rim_p0 set_rim_t_drifted].
    rewrite (insert_prefix_drop (replicate n 0%float)) by (rewrite ?length_replicate; lia).
    rewrite (insert_prefix_drop (take n (r_particles r))) by (rewrite ?length_take; lia).
    rewrite (take_S_r (r_particles r) n (rd (r_particles r) n))
      by (apply list_lookup_lookup_total_lt; lia).
    replace (replicate n 0%float ++ [0%float]) with (replicate (S n) 0%float)
      by (rewrite <- replicate_S_end; reflexivity).
    reflexivity.
Qed.

Section GlobalStep.
Variable reb_collision_search : reb_simulation -> reb_simulation.
Variable reb_update_acceleration : reb_simulation -> reb_simulation.
Variable reb_calculate_and_apply_jerk : reb_simulation -> float -> reb_simulation.
Variable reb_sigint : bool.
Variable reb_integrator_eos_preprocessor :
reb_simulation -> float -> nat -> REB_EOS_TYPE -> drift_fn -> interaction_fn
-> option reb_simulation.
Variable reb_integrator_eos_step :
reb_simulation -> float -> float -> float -> nat -> REB_EOS_TYPE
-> drift_fn -> interaction_fn -> option reb_simulation.
Variable reb_integrator_eos_postprocessor :
reb_simulation -> float -> nat -> REB_EOS_TYPE -> drift_fn -> interaction_fn
-> option reb_simulation.
Variable exp : float -> float.

Local Abbreviation part2 :=
(reb_integrator_mercurana_part2 reb_collision_search reb_update_acceleration
   reb_calculate_and_apply_jerk reb_sigint reb_integrator_eos_preprocessor
   reb_integrator_eos_step reb_integrator_eos_postprocessor exp).
Local Abbreviation integrate :=
(part2_integrate reb_collision_search reb_update_acceleration
   reb_calculate_and_apply_jerk reb_sigint reb_integrator_eos_preprocessor
   reb_integrator_eos_step reb_integrator_eos_postprocessor exp).

(** X21: on a simulation allocated for its N particles part2 starts every
  global step from a fresh snapshot.  The driver is called on a state in
  which t_drifted[i] is 0 and p0[i] is a copy of particles[i] for each of
  the N particles; the number of particles, the particles themselves and
  the cells of p0 behind the N-th are as they were.  The rest of part2
  (pre-processor, step, synchronization, dt_last_done) runs on that
  state. *)
Theorem part2_starts_from_snapshot (fuel : nat) (r : reb_simulation) :
r_N r <= rim_allocatedN (ri_mercurana r) ->
r_N r <= length (rim_t_drifted (ri_mercurana r)) ->
r_N r <= length (rim_p0 (ri_mercurana r)) ->
r_N r <= length (r_particles r) ->
exists r0,
  part2 fuel r = integrate fuel r0
  /\ r_N r0 = r_N r
  /\ r_particles r0 = r_particles r
  /\ (forall i, i < r_N r ->
        rd (rim_t_drifted (ri_mercurana r0)) i = 0%float
        /\ rd (rim_p0 (ri_mercurana r0)) i = rd (r_particles r) i)
  /\ (forall i, r_N r <= i ->
        rd (rim_p0 (ri_mercurana r0)) i = rd (rim_p0 (ri_mercurana r)) i).
Proof.
intros Ha Ht Hp Hps. exists (part2_snapshot r). split; [|split; [|split; [|split]]].
- unfold reb_integrator_mercurana_part2. apply Nat.ltb_ge in Ha. rewrite Ha.
  pose proof (part2_loop_snapshot r (r_N r) Ht Hp Hps) as HL. cbv zeta in HL.
  cbv zeta. rewrite HL. reflexivity.
- reflexivity.
- reflexivity.
- intros i Hi. unfold part2_snapshot, rd.
  cbn [ri_mercurana upd_rim set_ri_mercurana rim_t_drifted rim_p0 set_rim_p0
       set_rim_t_drifted].
  rewrite !lookup_total_app_l by (rewrite ?length_replicate, ?length_take; lia).
  split.
  + rewrite list_lookup_total_alt, lookup_replicate_2 by lia. reflexivity.
  + rewrite !list_lookup_total_alt, lookup_take_lt by lia. reflexivity.
- intros i Hi. unfold part2_snapshot, rd.
  cbn [ri_mercurana upd_rim set_ri_mercurana rim_t_drifted rim_p0 set_rim_p0
       set_rim_t_drifted].
  rewrite !lookup_total_app_r by (rewrite ?length_replicate, ?length_take; lia).
  rewrite length_take, Nat.min_l by lia.
  rewrite !list_lookup_total_alt, !lookup_drop.
  replace (r_N r + (i - r_N r)) with i by lia. reflexivity.
Qed.
End GlobalStep.

Lemma part2_starts_from_snapshot_witness :
  exists r0,
    part2_idle 0 sim_three
    = part2_integrate (fun s => s) (fun s => s) (fun s _ => s) false
        eos_idle eos_step_idle eos_idle (fun x => x) 0 r0
    /\ r_N r0 = r_N sim_three
    /\ r_particles r0 = r_particles sim_three
    /\ (forall i, i < r_N sim_three ->
          rd (rim_t_drifted (ri_mercurana r0)) i = 0%float
          /\ rd (rim_p0 (ri_mercurana r0)) i = rd (r_particles sim_three) i)
    /\ (forall i, r_N sim_three <= i ->
          rd (rim_p0 (ri_mercurana r0)) i = rd (rim_p0 (ri_mercurana sim_three)) i).
Proof.
  apply (part2_starts_from_snapshot (fun s => s) (fun s => s) (fun s _ => s) false
           eos_idle eos_step_idle eos_idle (fun x => x) 0 sim_three);
    vm_compute; lia.
Defined.

(** *** Promotions below the outermost shell *)

Lemma predict_before_scans_keeps_members r dt shell :
  0 < shell -> keeps_members shell r (predict_before_scans r dt shell).
Proof.
  intros Hs. unfold predict_before_scans. cbv zeta.
  set (r0 := upd_rim _ (upd_rim (set_rim_collisions_N 0) r)).
  assert (H0 : same_upto shell r r0).
  { intros X s Hle. subst r0. destruct X; cbn; rewrite rd_insert_ne by lia; auto. }
  etransitivity; [apply same_upto_keeps, H0|].
  destruct (shell =? 0) eqn:E; [apply Nat.eqb_eq in E; lia|].
  apply predict_maxdrift_keeps_members.
Qed.

(** Below the outermost shell nothing before the scans writes
    [inshell_dominant]. *)
Lemma predict_before_scans_inshell_dominant r dt shell :
  0 < shell ->
  rim_inshell_dominant (ri_mercurana (predict_before_scans r dt shell))
  = rim_inshell_dominant (ri_mercurana r).
Proof.
  intros Hs. unfold predict_before_scans. cbv zeta.
  set (r0 := upd_rim _ (upd_rim (set_rim_collisions_N 0) r)).
  assert (H0 : rim_inshell_dominant (ri_mercurana r0) = rim_inshell_dominant (ri_mercurana r))
    by reflexivity.
  clearbody r0. rewrite <- H0. clear H0.
  destruct (shell =? 0) eqn:E; [apply Nat.eqb_eq in E; lia|].
  unfold predict_maxdrift.
  apply (for_loop_ind (fun s => rim_inshell_dominant (ri_mercurana s)
                                = rim_inshell_dominant (ri_mercurana r0)));
    [reflexivity|].
  intros i s _ IH. cbv zeta. destruct (_ <? _)%float; [|exact IH].
  apply (for_loop_ind (fun s => rim_inshell_dominant (ri_mercurana s)
                                = rim_inshell_dominant (ri_mercurana r0)));
    [exact IH|].
  intros j s' _ IH'. cbv zeta. destruct (inshell_load _ _ _ <? shell); [|exact IH'].
  destruct (_ <? _)%float.
  - cbn [ri_mercurana set_r_particles].
    apply (for_loop_ind (fun s => rim_inshell_dominant (ri_mercurana s)
                                  = rim_inshell_dominant (ri_mercurana r0)));
      [exact IH'|].
    intros k s'' _ IH''. exact IH''.
  - destruct s' as [? ? ? ? ? ? ? ? ? ? ? ? rim']. exact IH'.
Qed.

(** The scans of a shell below the outermost keep the invariant of the
    promotions. *)
Lemma predict_scan_promotes (r : reb_simulation) (dt : float) (shell : nat) :
  0 < shell ->
  shell_sized r shell ->
  (forall X, rd (rim_shellN X (ri_mercurana r)) shell <= r_N r) ->
  (forall X i, i < rd (rim_shellN X (ri_mercurana r)) shell ->
     rd2 (rim_map X (ri_mercurana r)) shell i < r_N r) ->
  let r1 := predict_before_scans r dt shell in
  promoted_inv shell (r_N r) (fun X => rim_map X (ri_mercurana r1) !!! shell)
    (fun p x => inshell_load p (ri_mercurana r1) x)
    (ri_mercurana (predict_scan r dt shell)).
Proof.
  intros Hshell Hs Hcnt Hmem. cbv zeta.
  assert (Halloc : shell_allocated r shell).
  { destruct Hs as [H1 H2 H3 H4 H5]. constructor; auto. }
  destruct (before_scans_facts r dt shell Halloc) as (Hnext & _).
  pose proof (predict_before_scans_sizes r dt shell) as Hsz.
  pose proof (shell_sized_same_sizes _ _ _ Hsz Hs) as [Hr1 Hn1 HsN1 Hi1 Hd1].
  pose proof (predict_before_scans_keeps_members r dt shell Hshell) as [_ KF KC].
  rewrite predict_scan_unfold. cbv zeta.
  assert (Hsc : forall X, scanned X r dt shell = rd (rim_shellN X (ri_mercurana r)) shell).
  { intros X. unfold scanned. destruct (shell =? 0) eqn:E; [|reflexivity].
    apply Nat.eqb_eq in E. lia. }
  rewrite !Hsc. rewrite (ks_N _ _ Hsz) in Hi1, Hn1.
  revert Hnext Hr1 Hn1 HsN1 Hi1 KF KC. generalize (predict_before_scans r dt shell).
  intros r1 Hnext Hr1 Hn1 HsN1 Hi1 KF KC.
  set (rows := fun X => rim_map X (ri_mercurana r1) !!! shell).
  assert (Hrow : forall X i, i < rd (rim_shellN X (ri_mercurana r)) shell ->
                   rows X !!! i < r_N r).
  { intros X i Hi. subst rows. cbv beta.
    destruct (decide (X = Encounter)) as [->|HX].
    - specialize (KC shell i (Nat.le_refl _) Hi). unfold rd2 in KC.
      cbn [rim_map]. rewrite KC. apply (Hmem Encounter i Hi).
    - destruct (KF X shell (Nat.le_refl _) HX) as [_ ->]. apply (Hmem X i Hi). }
  assert (H1 : promoted_inv shell (r_N r) rows
                 (fun p x => inshell_load p (ri_mercurana r1) x) (ri_mercurana r1)).
  { assert (Hnil : forall X, members X (shell + 1) (ri_mercurana r1) = []).
    { intros X. unfold members. rewrite (Hnext X). reflexivity. }
    constructor.
    - reflexivity.
    - intros []; cbn [marked]; rewrite ?Hnil; constructor.
    - intros X x. rewrite Hnil. intros Hx. now apply elem_of_nil in Hx.
    - intros p x Hp' Hx.
      rewrite bool_decide_eq_false_2; [reflexivity|].
      destruct p; cbn [marked]; rewrite ?Hnil; cbn [app]; apply not_elem_of_nil.
    - intros X. rewrite (Hnext X). lia.
    - intros p _. apply Hi1.
    - intros X. apply Hn1.
    - intros X. apply HsN1. }
  set (r2 := pair_scan _ _ Dominant Dominant _ _ _ _ _ dt shell r1).
  set (r3 := pair_scan _ _ Dominant Subdominant _ _ _ _ _ dt shell r2).
  change rim_ptr_inshell_encounter with (inshell_of Encounter).
  apply pair_scan_keeps_inv; auto.
  subst r3. change rim_ptr_inshell_dominant with (inshell_of Dominant) at 1.
  change rim_ptr_inshell_dominant with (inshell_of Subdominant) at 1.
  apply pair_scan_keeps_inv; auto.
  subst r2. change rim_ptr_inshell_dominant with (inshell_of Dominant).
  apply pair_scan_keeps_inv; auto.
Qed.

(** The same, with the maps of the next shell spelled out. *)
Lemma predict_scan_promotes_result (r : reb_simulation) (dt : float) (shell : nat) :
  0 < shell ->
  shell_sized r shell ->
  (forall X, rd (rim_shellN X (ri_mercurana r)) shell <= r_N r) ->
  (forall X i, i < rd (rim_shellN X (ri_mercurana r)) shell ->
     rd2 (rim_map X (ri_mercurana r)) shell i < r_N r) ->
  let r' := predict_scan r dt shell in
  NoDup (shell_members Encounter (shell + 1) r')
  /\ NoDup (shell_members Dominant (shell + 1) r'
            ++ shell_members Subdominant (shell + 1) r')
  /\ (forall X x, x ∈ shell_members X (shell + 1) r' -> x < r_N r)
  /\ (forall x, x < r_N r -> x ∈ shell_members Encounter (shell + 1) r' ->
        inshell_load rim_ptr_inshell_encounter (ri_mercurana r') x = shell + 1)
  /\ (forall x, x < r_N r ->
        inshell_load rim_ptr_inshell_dominant (ri_mercurana r') x
        = if bool_decide (x ∈ shell_members Dominant (shell + 1) r'
                              ++ shell_members Subdominant (shell + 1) r')
          then shell + 1 else inshell_load rim_ptr_inshell_dominant (ri_mercurana r) x).
Proof.
  intros Hshell Hs Hcnt Hmem. cbv zeta.
  pose proof (predict_scan_promotes r dt shell Hshell Hs Hcnt Hmem) as Hinv.
  cbv zeta in Hinv.
  pose proof (predict_before_scans_inshell_dominant r dt shell Hshell) as Hdom.
  revert Hinv Hdom. generalize (predict_before_scans r dt shell).
  generalize (predict_scan r dt shell). intros r' r1 Hinv Hdom.
  destruct Hinv as [_ Hnd Hb Hin _ _ _ _].
  pose proof (Hnd rim_ptr_inshell_encounter) as HndE.
  pose proof (Hnd rim_ptr_inshell_dominant) as HndD.
  assert (HinE := fun x => Hin rim_ptr_inshell_encounter x ltac:(discriminate)).
  assert (HinD := fun x => Hin rim_ptr_inshell_dominant x ltac:(discriminate)).
  cbn [marked inshell_load] in HndE, HndD, HinE, HinD.
  rewrite Hdom in HinD.
  repeat apply conj.
  - exact HndE.
  - exact HndD.
  - intros X x. apply Hb.
  - intros x Hx Hel. cbn [inshell_load]. rewrite (HinE x Hx).
    rewrite bool_decide_eq_true_2; [reflexivity | exact Hel].
  - intros x Hx. cbn [inshell_load]. exact (HinD x Hx).
Qed.

(** X22: after predict at a shell s below the outermost that has a
    sub-shell, in a run that records no collision and on maps whose members
    at shell s are among the N particles, the maps of shell s+1 list no
    particle twice: map_encounter[s+1] has no duplicate, and neither has
    map_dominant[s+1] followed by map_subdominant[s+1].  Every listed
    particle is one of the N; inshell_encounter is s+1 for the members of
    map_encounter[s+1], and inshell_dominant is s+1 exactly for the members
    of the other two maps, the cells of all other particles being as they
    were before the call. *)
Theorem predict_promotes_once_below search fuel (r : reb_simulation) (dt : float)
    (shell : nat) :
  0 < shell ->
  shell + 1 < rim_Nmaxshells (ri_mercurana r) ->
  r_collision r <> REB_COLLISION_DIRECT ->
  shell_sized r shell ->
  (forall X, rd (rim_shellN X (ri_mercurana r)) shell <= r_N r) ->
  (forall X i, i < rd (rim_shellN X (ri_mercurana r)) shell ->
     rd2 (rim_map X (ri_mercurana r)) shell i < r_N r) ->
  exists r',
    reb_mercurana_encounter_predict search fuel r dt shell = Some r'
    /\ NoDup (shell_members Encounter (shell + 1) r')
    /\ NoDup (shell_members Dominant (shell + 1) r'
              ++ shell_members Subdominant (shell + 1) r')
    /\ (forall X x, x ∈ shell_members X (shell + 1) r' -> x < r_N r)
    /\ (forall x, x < r_N r -> x ∈ shell_members Encounter (shell + 1) r' ->
          inshell_load rim_ptr_inshell_encounter (ri_mercurana r') x = shell + 1)
    /\ (forall x, x < r_N r ->
          inshell_load rim_ptr_inshell_dominant (ri_mercurana r') x
          = if bool_decide (x ∈ shell_members Dominant (shell + 1) r'
                                ++ shell_members Subdominant (shell + 1) r')
            then shell + 1
            else inshell_load rim_ptr_inshell_dominant (ri_mercurana r) x).
Proof.
  intros Hshell Hsub Hc Hs Hcnt Hmem. exists (predict_scan r dt shell). split.
  - apply predict_is_scan; auto. destruct Hs. constructor; auto.
  - now apply predict_scan_promotes_result.
Qed.

Lemma sim_three_predicted_sized : shell_sized sim_three_predicted 1.
Proof. constructor; try intros []; vm_compute; lia. Qed.

Lemma predict_promotes_once_below_witness :
  exists r',
    reb_mercurana_encounter_predict (fun s => s) 0 sim_three_predicted 1%float 1 = Some r'
    /\ NoDup (shell_members Encounter (1 + 1) r')
    /\ NoDup (shell_members Dominant (1 + 1) r' ++ shell_members Subdominant (1 + 1) r')
    /\ (forall X x, x ∈ shell_members X (1 + 1) r' -> x < r_N sim_three_predicted)
    /\ (forall x, x < r_N sim_three_predicted ->
          x ∈ shell_members Encounter (1 + 1) r' ->
          inshell_load rim_ptr_inshell_encounter (ri_mercurana r') x = 1 + 1)
    /\ (forall x, x < r_N sim_three_predicted ->
          inshell_load rim_ptr_inshell_dominant (ri_mercurana r') x
          = if bool_decide (x ∈ shell_members Dominant (1 + 1) r'
                                ++ shell_members Subdominant (1 + 1) r')
            then 1 + 1
            else inshell_load rim_ptr_inshell_dominant
                   (ri_mercurana sim_three_predicted) x).
Proof.
  apply (predict_promotes_once_below (fun s => s) 0 sim_three_predicted 1%float 1).
  - lia.
  - vm_compute; lia.
  - vm_compute; discriminate.
  - exact sim_three_predicted_sized.
  - intros []; vm_compute; lia.
  - intros X i Hi.
    assert (Hall : forall X, Forall (fun m => m < 3)
              (take (rd (rim_shellN X (ri_mercurana sim_three_predicted)) 1)
                    (rim_map X (ri_mercurana sim_three_predicted) !!! 1))).
    { intros []; vm_compute; repeat constructor. }
    specialize (Hall X). rewrite Forall_lookup in Hall.
    apply (Hall i). rewrite lookup_take_lt by exact Hi.
    apply list_lookup_lookup_total_lt.
    assert (Hlen : forall X, rd (rim_shellN X (ri_mercurana sim_three_predicted)) 1
                              <= length (rim_map X (ri_mercurana sim_three_predicted) !!! 1)).
    { intros []; vm_compute; lia. }
    specialize (Hlen X). lia.
Defined.

(** *** The maxdrift bounds *)

Lemma lowers_refl r : lowers r r.
Proof. intros md i. now left. Qed.

Lemma lowers_trans r1 r2 r3 : lowers r1 r2 -> lowers r2 r3 -> lowers r1 r3.
Proof.
  intros H1 H2 md i.
  destruct (H1 md i) as [E1|L1], (H2 md i) as [E2|L2]; unfold lowered.
  - left. congruence.
  - right. now rewrite <- E1.
  - right. now rewrite E2.
  - right. eapply ltb_trans; eauto.
Qed.

Lemma for_loop_lowers (lo hi : nat) (body : nat -> reb_simulation -> reb_simulation) r :
  (forall i s, lowers s (body i s)) -> lowers r (for_loop lo hi body r).
Proof.
  intros H. apply (for_loop_ind (lowers r)); [apply lowers_refl|].
  intros i s _ Hs. eapply lowers_trans; eauto.
Qed.

Lemma lowers_same r r' :
  (forall md i, maxdrift_load md (ri_mercurana r') i = maxdrift_load md (ri_mercurana r) i) ->
  lowers r r'.
Proof. intros H md i. left. apply H. Qed.

Lemma lowers_lower_maxdrift md m v r : lowers r (upd_rim (lower_maxdrift md m v) r).
Proof.
  intros md' i. cbn [upd_rim ri_mercurana set_ri_mercurana].
  unfold lower_maxdrift, lowered.
  destruct md, md'; cbn [maxdrift_store maxdrift_load rim_maxdrift_encounter
                         rim_maxdrift_dominant set_rim_maxdrift_encounter
                         set_rim_maxdrift_dominant]; auto;
    unfold rd; rewrite list_lookup_total_insert; case_decide as H; auto;
    destruct H as [-> _]; unfold MIN;
    match goal with |- context [if ?c then _ else _] => destruct c eqn:E end; auto.
Qed.

Lemma lowers_promote p X shell m r : lowers r (upd_rim (promote p X shell m) r).
Proof.
  apply lowers_same. intros md i. cbn [upd_rim ri_mercurana set_ri_mercurana].
  unfold promote. destruct (_ =? _); [|reflexivity].
  destruct p, X, md; reflexivity.
Qed.

Lemma lowers_record_collision r i j : lowers r (reb_mercurana_record_collision r i j).
Proof.
  apply lowers_same. intros md k. unfold reb_mercurana_record_collision.
  destruct (r_collisions_allocatedN r <=? _); destruct md; reflexivity.
Qed.

Lemma pair_scan_lowers ii ij Xi Xj mdi mdj jstart ni nj dt shell r :
  lowers r (pair_scan ii ij Xi Xj mdi mdj jstart ni nj dt shell r).
Proof.
  unfold pair_scan. apply for_loop_lowers. intros i s.
  apply for_loop_lowers. intros j s'. cbv zeta.
  apply pair_check_cases. intros rc Hrc.
  assert (H0 : lowers s' rc).
  { destruct Hrc as [-> | ->]; [apply lowers_refl | apply lowers_record_collision]. }
  split; [|intros v]; (apply (lowers_trans _ rc); [exact H0|]).
  - eapply lowers_trans; apply lowers_promote.
  - eapply lowers_trans; apply lowers_lower_maxdrift.
Qed.

Lemma predict_maxdrift_lowers ip nE dt shell r :
  lowers r (predict_maxdrift ip nE dt shell r).
Proof.
  unfold predict_maxdrift. apply for_loop_lowers. intros i s.
  cbv zeta. destruct (_ <? _)%float; [|apply lowers_refl].
  apply for_loop_lowers. intros j s'.
  cbv zeta. destruct (inshell_load _ _ _ <? shell); [|apply lowers_refl].
  destruct (_ <? _)%float.
  - match goal with |- lowers _ (set_r_particles _ ?x) =>
      apply (lowers_trans _ x); [|apply lowers_same; intros md k; reflexivity] end.
    match goal with |- lowers _ (for_loop _ _ _ ?x) =>
      apply (lowers_trans _ x);
      [|apply for_loop_lowers; intros k s'';
        apply lowers_same; intros md k'; destruct md; reflexivity] end.
    apply lowers_same. intros md k. destruct ip, md; reflexivity.
  - apply lowers_lower_maxdrift.
Qed.

Lemma predict_scans_lower r1 dt shell nD nS nE :
  lowers r1
    (pair_scan rim_ptr_inshell_encounter rim_ptr_inshell_encounter
       Encounter Encounter rim_ptr_maxdrift_encounter rim_ptr_maxdrift_encounter
       (fun i => i+1) nE nE dt shell
       (pair_scan rim_ptr_inshell_dominant rim_ptr_inshell_dominant
          Dominant Subdominant rim_ptr_maxdrift_dominant rim_ptr_maxdrift_dominant
          (fun _ => 0) nD nS dt shell
          (pair_scan rim_ptr_inshell_dominant rim_ptr_inshell_dominant
             Dominant Dominant rim_ptr_maxdrift_dominant rim_ptr_maxdrift_dominant
             (fun i => i+1) nD nD dt shell r1))).
Proof.
  eapply lowers_trans; [|apply pair_scan_lowers].
  eapply lowers_trans; [|apply pair_scan_lowers]. apply pair_scan_lowers.
Qed.

Lemma predict_scan_lowers r dt shell :
  0 < shell -> lowers r (predict_scan r dt shell).
Proof.
  intros Hs. rewrite predict_scan_unfold. cbv zeta.
  eapply lowers_trans; [|apply predict_scans_lower].
  unfold predict_before_scans. cbv zeta.
  set (r0 := upd_rim _ (upd_rim (set_rim_collisions_N 0) r)).
  apply (lowers_trans _ r0); [apply lowers_same; intros md i; destruct md; reflexivity|].
  destruct (shell =? 0) eqn:E; [apply Nat.eqb_eq in E; lia|].
  apply predict_maxdrift_lowers.
Qed.

(** The last loop of the setup of shell 0 sets the first [n] cells of both
    maxdrift arrays to [v]. *)
Lemma setup_maxdrift (n : nat) (v : float) (r : reb_simulation) :
  n <= length (rim_maxdrift_encounter (ri_mercurana r)) ->
  n <= length (rim_maxdrift_dominant (ri_mercurana r)) ->
  let r' := for_loop 0 n (fun i r =>
              upd_rim (fun rim =>
                let rim := maxdrift_store rim_ptr_maxdrift_dominant i v rim in
                let rim := maxdrift_store rim_ptr_maxdrift_encounter i v rim in
                let rim := inshell_store rim_ptr_inshell_encounter i 0 rim in
                let rim := inshell_store rim_ptr_inshell_dominant i 0 rim in
                inshell_store rim_ptr_inshell_dominant i 0 rim) r) r in
  forall md j, j < n -> maxdrift_load md (ri_mercurana r') j = v.
Proof.
  intros He Hd. cbv zeta.
  destruct (for_loop_each
    (fun s => n <= length (rim_maxdrift_encounter (ri_mercurana s))
              /\ n <= length (rim_maxdrift_dominant (ri_mercurana s)))
    (fun j s => rd (rim_maxdrift_encounter (ri_mercurana s)) j = v
                /\ rd (rim_maxdrift_dominant (ri_mercurana s)) j = v) 0 n
    (fun i r => upd_rim (fun rim =>
       let rim := maxdrift_store rim_ptr_maxdrift_dominant i v rim in
       let rim := maxdrift_store rim_ptr_maxdrift_encounter i v rim in
       let rim := inshell_store rim_ptr_inshell_encounter i 0 rim in
       let rim := inshell_store rim_ptr_inshell_dominant i 0 rim in
       inshell_store rim_ptr_inshell_dominant i 0 rim) r) r)
    as (_ & _ & H); auto.
  - intros i s Hi (H1 & H2).
    cbn [upd_rim ri_mercurana set_ri_mercurana maxdrift_store inshell_store
         rim_maxdrift_encounter rim_maxdrift_dominant set_rim_inshell_encounter
         set_rim_inshell_dominant set_rim_maxdrift_dominant set_rim_maxdrift_encounter].
    rewrite !length_insert. unfold rd.
    rewrite !list_lookup_total_insert, !decide_True
      by (rewrite ?length_insert; split; auto; lia).
    repeat split; auto.
  - intros i k s Hk (H1 & H2) [HQ1 HQ2].
    cbn [upd_rim ri_mercurana set_ri_mercurana maxdrift_store inshell_store
         rim_maxdrift_encounter rim_maxdrift_dominant set_rim_inshell_encounter
         set_rim_inshell_dominant set_rim_maxdrift_dominant set_rim_maxdrift_encounter].
    unfold rd in *. rewrite !list_lookup_total_insert.
    split; repeat case_decide; auto.
  - intros md j Hj. destruct (H j ltac:(lia)) as [HE HD]. destruct md; assumption.
Qed.

Lemma predict_setup_maxdrift (r : reb_simulation) (md : maxdrift_ptr) (j : nat) :
  r_N r <= length (rim_maxdrift_encounter (ri_mercurana r)) ->
  r_N r <= length (rim_maxdrift_dominant (ri_mercurana r)) ->
  j < r_N r ->
  maxdrift_load md
    (ri_mercurana (predict_setup rim_ptr_inshell_encounter rim_ptr_inshell_dominant
                     rim_ptr_inshell_dominant r)) j
  = maxdrift_init.
Proof.
  intros He Hd Hj. unfold predict_setup. cbv zeta.
  match goal with |- context [for_loop 0 (r_N ?x) _ ?x] => set (xs := x) end.
  assert (Hx : r_N xs = r_N r
               /\ rim_maxdrift_encounter (ri_mercurana xs)
                  = rim_maxdrift_encounter (ri_mercurana r)
               /\ rim_maxdrift_dominant (ri_mercurana xs)
                  = rim_maxdrift_dominant (ri_mercurana r)).
  { subst xs.
    repeat (apply (for_loop_ind
                     (fun s => r_N s = r_N r
                               /\ rim_maxdrift_encounter (ri_mercurana s)
                                  = rim_maxdrift_encounter (ri_mercurana r)
                               /\ rim_maxdrift_dominant (ri_mercurana s)
                                  = rim_maxdrift_dominant (ri_mercurana r)));
            [|intros; assumption]).
    repeat split. }
  destruct Hx as (HN & HE & HD). clearbody xs.
  apply setup_maxdrift; rewrite ?HN, ?HE, ?HD; auto.
Qed.

Lemma predict_scan_zero_maxdrift r dt :
  r_N r <= length (rim_maxdrift_encounter (ri_mercurana r)) ->
  r_N r <= length (rim_maxdrift_dominant (ri_mercurana r)) ->
  forall md i, i < r_N r ->
    lowered maxdrift_init (maxdrift_load md (ri_mercurana (predict_scan r dt 0)) i).
Proof.
  intros He Hd md i Hi. rewrite predict_scan_unfold. cbv zeta.
  match goal with |- context [pair_scan _ _ Encounter Encounter _ _ _ ?nE _ _ _
                                (pair_scan _ _ Dominant Subdominant _ _ _ ?nD ?nS _ _ _)] =>
    pose proof (predict_scans_lower (predict_before_scans r dt 0) dt 0 nD nS nE md i) as HL
  end.
  assert (H1 : maxdrift_load md (ri_mercurana (predict_before_scans r dt 0)) i
               = maxdrift_init).
  { rewrite predict_before_scans_zero. apply predict_setup_maxdrift; auto. }
  rewrite H1 in HL. exact HL.
Qed.

(** X23: below the outermost shell the body of predict, from the resets to
    the end of the three scans, never raises a maxdrift bound: every cell of
    maxdrift_encounter and of maxdrift_dominant is as before or strictly
    lower, so that a bound that is no NaN never becomes one. *)
Theorem predict_never_raises_maxdrift (r : reb_simulation) (dt : float) (shell : nat)
    (md : maxdrift_ptr) (i : nat) :
  0 < shell ->
  let old := maxdrift_load md (ri_mercurana r) i in
  let new := maxdrift_load md (ri_mercurana (predict_scan r dt shell)) i in
  new = old \/ (new <? old)%float = true.
Proof. intros Hs. cbv zeta. apply (predict_scan_lowers r dt shell Hs). Qed.

Lemma predict_never_raises_maxdrift_witness :
  let old := maxdrift_load rim_ptr_maxdrift_encounter (ri_mercurana sim_three_predicted) 2 in
  let new := maxdrift_load rim_ptr_maxdrift_encounter
               (ri_mercurana (predict_scan sim_three_predicted 1%float 1)) 2 in
  new = old \/ (new <? old)%float = true.
Proof.
  cbv zeta.
  apply (predict_never_raises_maxdrift sim_three_predicted 1%float 1
           rim_ptr_maxdrift_encounter 2).
  lia.
Defined.

(** X24: predict at shell 0 starts the maxdrift bounds afresh: on arrays
    with room for the N particles, every cell of maxdrift_encounter and of
    maxdrift_dominant of a particle is 1e300 after the scans, or lower,
    whatever it held before; it is no NaN. *)
Theorem predict_outermost_bounds_maxdrift (r : reb_simulation) (dt : float)
    (md : maxdrift_ptr) (i : nat) :
  r_N r <= length (rim_maxdrift_encounter (ri_mercurana r)) ->
  r_N r <= length (rim_maxdrift_dominant (ri_mercurana r)) ->
  i < r_N r ->
  let new := maxdrift_load md (ri_mercurana (predict_scan r dt 0)) i in
  (new = maxdrift_init \/ (new <? maxdrift_init)%float = true)
  /\ is_nan new = false.
Proof.
  intros He Hd Hi. cbv zeta.
  pose proof (predict_scan_zero_maxdrift r dt He Hd md i Hi) as H.
  split; [exact H|].
  destruct H as [-> | H]; [reflexivity|].
  eapply ltb_not_nan_l; eauto.
Qed.

Lemma predict_outermost_bounds_maxdrift_witness :
  let new := maxdrift_load rim_ptr_maxdrift_dominant
               (ri_mercurana (predict_scan sim_three 1%float 0)) 0 in
  (new = maxdrift_init \/ (new <? maxdrift_init)%float = true)
  /\ is_nan new = false.
Proof.
  cbv zeta.
  apply (predict_outermost_bounds_maxdrift sim_three 1%float rim_ptr_maxdrift_dominant 0);
    vm_compute; lia.
Defined.

(** ** The drift step after a prediction *)

(** *** The encounter map through the maxdrift phase *)









(** *** The maps of the next shell after a prediction *)




(** *** The maps a drift step starts from *)










(** *** Each particle is advanced at most once *)






